(** * prettier-plugin-sort-props: the ordering engine

    A shallow embedding of [queue.ts], [graph.ts], [bradley-terry.ts],
    [ai-cmp.ts] and [preference-sorter.ts], followed by the properties the
    specification states about them.

    Conventions of the embedding.
    - A JS [Map] or [Set] iterates in insertion order, and several functions
      depend on that order; both are association lists / duplicate-free lists
      that keep insertion order.
    - A JS [number] is a [Z] where the code only counts (indices, in-degrees,
      occurrence counts) and an IEEE binary64 [float] where it holds scores
      or weights; [fasTopoSort], whose weights are any [number], is embedded
      on binary64 ([FAS64]) and read on integers ([FAS]), and the two are
      shown to agree while no sum of weights is rounded.
    - A JS string is a sequence of UTF-16 code units and a character of the
      model stands for one code unit; the theorems on tokens and on the
      splitting of names are stated for ASCII text, where the two are the
      same.
    - A comparator may be asynchronous and may keep a cache; the scheduling is
      cooperative, so a comparator is a state-passing function.
    - A call ends in an [outcome]: a value, a [TypeError] raised by reading a
      property of [undefined], or [OutOfFuel] when the bound the model puts on a
      [while] loop is exhausted (the theorems show it never is). *)

From Stdlib Require Import List String Ascii ZArith Lia Bool Arith PeanoNat.
From Stdlib Require Import Permutation Sorted Relations Floats.
From Stdlib Require Uint63.
Import ListNotations.

Set Implicit Arguments.

(* ================================================================== *)
(** ** Outcomes *)

Inductive outcome (A : Type) : Type :=
| Ret (a : A)
| TypeError
| OutOfFuel.

Arguments Ret {A} a.
Arguments TypeError {A}.
Arguments OutOfFuel {A}.

Definition bind {A B : Type} (m : outcome A) (k : A -> outcome B) : outcome B :=
  match m with
  | Ret a => k a
  | TypeError => TypeError
  | OutOfFuel => OutOfFuel
  end.

Notation "x <- m ;; k" := (bind m (fun x => k))
  (at level 61, m at next level, right associativity).
Notation "' p <- m ;; k" := (bind m (fun x => let p := x in k))
  (at level 61, p pattern, m at next level, right associativity).

(** [for (const x of xs) body], the body possibly raising. *)
Fixpoint for_each {A St : Type} (xs : list A) (body : A -> St -> outcome St)
  (st : St) : outcome St :=
  match xs with
  | [] => Ret st
  | x :: rest => st' <- body x st ;; for_each rest body st'
  end.

(* ================================================================== *)
(** ** Keys, insertion-ordered sets and maps *)

Class EqDec (K : Type) := eq_dec : forall x y : K, {x = y} + {x <> y}.

#[export] Instance string_EqDec : EqDec string := string_dec.
#[export] Instance nat_EqDec : EqDec nat := Nat.eq_dec.

Section JsSet.
  Context {K : Type} `{EqDec K}.

(** [s.has(x)] *)
Fixpoint set_has (s : list K) (x : K) : bool :=
  match s with
  | [] => false
  | y :: s' => if eq_dec y x then true else set_has s' x
  end.

(** [s.add(x)]: a new element goes last, a present one stays in place. *)
Definition set_add (s : list K) (x : K) : list K :=
  if set_has s x then s else s ++ [x].

(** [s.delete(x)] *)
Fixpoint set_delete (s : list K) (x : K) : list K :=
  match s with
  | [] => []
  | y :: s' => if eq_dec y x then s' else y :: set_delete s' x
  end.

(** [new Set(xs)] *)
Definition set_of (xs : list K) : list K := fold_left set_add xs [].
End JsSet.

Section JsMap.
  Context {K V : Type} `{EqDec K}.

Definition jsmap := list (K * V).

(** [m.get(k)] *)
Fixpoint map_get (m : jsmap) (k : K) : option V :=
  match m with
  | [] => None
  | (k', v) :: m' => if eq_dec k' k then Some v else map_get m' k
  end.

(** [m.has(k)] *)
Definition map_has (m : jsmap) (k : K) : bool :=
  match map_get m k with Some _ => true | None => false end.

(** [m.set(k, v)]: a present key keeps its position. *)
Fixpoint map_set (m : jsmap) (k : K) (v : V) : jsmap :=
  match m with
  | [] => [(k, v)]
  | (k', v') :: m' =>
      if eq_dec k' k then (k', v) :: m' else (k', v') :: map_set m' k v
  end.

(** [m.delete(k)] *)
Fixpoint map_delete (m : jsmap) (k : K) : jsmap :=
  match m with
  | [] => []
  | (k', v') :: m' =>
      if eq_dec k' k then m' else (k', v') :: map_delete m' k
  end.

(** [Array.from(m.keys())] *)
Definition map_keys (m : jsmap) : list K := map fst m.
End JsMap.

Arguments jsmap : clear implicits.

(* ================================================================== *)
(** ** Numbers as comparator results

    The heap only ever asks whether a comparator result is [< 0]. *)

Class Number (R : Type) := ltz : R -> bool.

#[export] Instance Z_Number : Number Z := fun r => (r <? 0)%Z.
#[export] Instance float_Number : Number float := fun r => PrimFloat.ltb r 0%float.

(** [Comparator<T>]: [(a, b) => number | Promise<number>], with the state the
    comparator may read and write between suspension points. *)
Definition Comparator (T S R : Type) := T -> T -> S -> R * S.

(** A synchronous comparator without state. *)
Definition pure_cmp {T S R : Type} (f : T -> T -> R) : Comparator T S R :=
  fun a b s => (f a b, s).

(* ================================================================== *)
(** ** queue.ts: PriorityQueue *)

(** [q[i] = x] on an array; a write past the end is never issued by the heap
    (there JS would extend the array), the model leaves the array as it is. *)
Fixpoint array_set {A : Type} (q : list A) (i : nat) (x : A) : list A :=
  match q, i with
  | [], _ => []
  | _ :: q', O => x :: q'
  | y :: q', S i' => y :: array_set q' i' x
  end.

Module PriorityQueue.
Section Defs.
Context {T St R : Type} `{Number R}.
Variable cmp : Comparator T St R.

(** [private q = Array<T>()] *)
Definition t := list T.

Definition empty : t := [].

(** [get length()] *)
Definition length (q : t) : nat := List.length q.

(** [tmp = q[i]; q[i] = q[j]; q[j] = tmp] *)
Definition swap (q : t) (i j : nat) : t :=
  match nth_error q i, nth_error q j with
  | Some x, Some y => array_set (array_set q i y) j x
  | _, _ => q
  end.

(** [siftUp]: the loop runs while [idx > 0] and [idx] strictly decreases, so
    [idx] iterations are enough; when none is left, [idx] is [0]. *)
Fixpoint siftUp_loop (fuel : nat) (q : t) (idx : nat) (s : St) : t * St :=
  match fuel with
  | O => (q, s)
  | S fuel' =>
      if idx =? 0 then (q, s)
      else
        let parent := (idx - 1) / 2 in
        match nth_error q idx, nth_error q parent with
        | Some x, Some p =>
            let (r, s') := cmp x p s in
            if ltz r then siftUp_loop fuel' (swap q idx parent) parent s'
            else (q, s')
        | _, _ => (q, s)
        end
  end.

Definition siftUp (q : t) (idx : nat) (s : St) : t * St :=
  siftUp_loop idx q idx s.

(** [this.q.push(item); await this.siftUp(this.q.length - 1)] *)
Definition push (q : t) (item : T) (s : St) : t * St :=
  let q' := q ++ [item] in
  siftUp q' (List.length q' - 1) s.

(** One guarded comparison of [siftDown]:
    [if (child < l && cmp(q[child], q[min]) < 0) min = child]. *)
Definition pick (q : t) (child min : nat) (s : St) : nat * St :=
  if child <? List.length q then
    match nth_error q child, nth_error q min with
    | Some c, Some m =>
        let (r, s') := cmp c m s in
        if ltz r then (child, s') else (min, s')
    | _, _ => (min, s)
    end
  else (min, s).

(** [siftDown]: [idx] strictly increases and stays below the length. *)
Fixpoint siftDown_loop (fuel : nat) (q : t) (idx : nat) (s : St) : t * St :=
  match fuel with
  | O => (q, s)
  | S fuel' =>
      let left := 2 * idx + 1 in
      let right := 2 * idx + 2 in
      let (min1, s1) := pick q left idx s in
      let (min2, s2) := pick q right min1 s1 in
      if min2 =? idx then (q, s2)
      else siftDown_loop fuel' (swap q idx min2) min2 s2
  end.

Definition siftDown (q : t) (idx : nat) (s : St) : t * St :=
  siftDown_loop (List.length q) q idx s.

(** [pop]: [undefined] is [None]. *)
Definition pop (q : t) (s : St) : option T * t * St :=
  match q with
  | [] => (None, q, s)
  | top :: _ =>
      let last := List.last q top in
      let q' := removelast q in
      match q' with
      | [] => (Some top, q', s)
      | _ :: _ =>
          let (q'', s') := siftDown (array_set q' 0 last) 0 s in
          (Some top, q'', s')
      end
  end.

(** [peek() { return this.q[0] }] *)
Definition peek (q : t) : option T := nth_error q 0.
End Defs.
End PriorityQueue.

(* ================================================================== *)
(** ** queue.ts: MultiQueue *)

Module MultiQueue.

(** [MultiQueue.Item<T>] *)
Record Item (T : Type) : Type := mkItem { id : nat; data : T }.

Section Defs.
Context {T PK St R : Type} `{EqDec PK} `{Number R}.

(** [pKeys = Object.keys(pCmps)] and the comparators [pCmps]; [PK] is the
    closed set of view keys, so [Record<PK, _>] is a total function. *)
Variable pKeys : list PK.
Variable pCmps : PK -> Comparator T St R.

(** [(a, b) => cmp(a.data, b.data)] *)
Definition item_cmp (k : PK) : Comparator (Item T) St R :=
  fun a b => pCmps k (data a) (data b).

Record t : Type := mk {
  qs : PK -> PriorityQueue.t (T := Item T);
  live : list nat;
  nextId : nat
}.

Definition empty : t := {| qs := fun _ => []; live := []; nextId := 0 |}.

(** [get length() { return this.live.size }] *)
Definition length (mq : t) : nat := List.length (live mq).

(** [this.qs[k] = q] *)
Definition set_q (f : PK -> list (Item T)) (k : PK) (q : list (Item T)) :
  PK -> list (Item T) :=
  fun k' => if eq_dec k k' then q else f k'.

(** [for (const k of this.pKeys) await this.qs[k].push(item)] *)
Definition push_all (item : Item T) (ks : list PK)
  (f : PK -> list (Item T)) (s : St) : (PK -> list (Item T)) * St :=
  fold_left
    (fun (acc : (PK -> list (Item T)) * St) k =>
       let (f, s) := acc in
       let (q', s') := PriorityQueue.push (item_cmp k) (f k) item s in
       (set_q f k q', s'))
    ks (f, s).

Definition push (mq : t) (d : T) (s : St) : Item T * t * St :=
  let i := nextId mq in
  let item := {| id := i; data := d |} in
  let live' := set_add (live mq) i in
  let (qs', s') := push_all item pKeys (qs mq) s in
  (item, {| qs := qs'; live := live'; nextId := S i |}, s').

(** [pop(key)]: every turn of the loop pops the view's heap once, so the
    bound is its length plus the last look at an empty heap. The wrapper is
    returned; [pop] projects the payload as the source does. *)
Fixpoint pop_loop (fuel : nat) (key : PK) (mq : t) (s : St)
  : outcome (option (Item T) * t * St) :=
  match fuel with
  | O => OutOfFuel
  | S fuel' =>
      match PriorityQueue.peek (qs mq key) with
      | None => Ret (None, mq, s)
      | Some top =>
          let '(_, q', s') := PriorityQueue.pop (item_cmp key) (qs mq key) s in
          let qs' := set_q (qs mq) key q' in
          if set_has (live mq) (id top) then
            Ret (Some top,
                 {| qs := qs'; live := set_delete (live mq) (id top);
                    nextId := nextId mq |}, s')
          else
            pop_loop fuel' key
              {| qs := qs'; live := live mq; nextId := nextId mq |} s'
      end
  end.

Definition pop_item (key : PK) (mq : t) (s : St)
  : outcome (option (Item T) * t * St) :=
  pop_loop (S (List.length (qs mq key))) key mq s.

Definition pop (key : PK) (mq : t) (s : St) : outcome (option T * t * St) :=
  '(r, mq', s') <- pop_item key mq s ;;
  Ret (option_map (@data T) r, mq', s').

(** [peek(key)]: dead wrappers on top of the view are popped for good, a live
    one is left in place. *)
Fixpoint peek_loop (fuel : nat) (key : PK) (mq : t) (s : St)
  : outcome (option (Item T) * t * St) :=
  match fuel with
  | O => OutOfFuel
  | S fuel' =>
      match PriorityQueue.peek (qs mq key) with
      | None => Ret (None, mq, s)
      | Some top =>
          if set_has (live mq) (id top) then Ret (Some top, mq, s)
          else
            let '(_, q', s') := PriorityQueue.pop (item_cmp key) (qs mq key) s in
            peek_loop fuel' key
              {| qs := set_q (qs mq) key q'; live := live mq;
                 nextId := nextId mq |} s'
      end
  end.

Definition peek_item (key : PK) (mq : t) (s : St)
  : outcome (option (Item T) * t * St) :=
  peek_loop (S (List.length (qs mq key))) key mq s.

Definition peek (key : PK) (mq : t) (s : St) : outcome (option T * t * St) :=
  '(r, mq', s') <- peek_item key mq s ;;
  Ret (option_map (@data T) r, mq', s').

(** [delete(id) { this.live.delete(id) }] *)
Definition delete (i : nat) (mq : t) : t :=
  {| qs := qs mq; live := set_delete (live mq) i; nextId := nextId mq |}.
End Defs.
End MultiQueue.

(* ================================================================== *)
(** ** Strings *)

(** [s.endsWith(suffix)] *)
Definition endsWith (s suffix : string) : bool :=
  let n := String.length s in
  let k := String.length suffix in
  Nat.leb k n && String.eqb (substring (n - k) k s) suffix.

(** [s.startsWith(p)] *)
Definition startsWith (s p : string) : bool := String.prefix p s.

(** [s.slice(0, -1)] *)
Definition slice_init (s : string) : string :=
  substring 0 (String.length s - 1) s.

(* ================================================================== *)
(** ** graph.ts: DAG *)

Module DAG.

(** [private g: Map<SplitString, Set<SplitString>>] *)
Definition t := jsmap string (list string).

(** [new Map(verts.map(v => [v, new Set()]))] *)
Definition new (verts : list string) : t :=
  fold_left (fun g v => map_set g v []) verts [].

Definition getMatchingNodes (g : t) (node : string) : list string :=
  if endsWith node "*"%string then
    let node' := slice_init node in
    filter (fun k => startsWith k node') (map_keys g)
  else if map_has g node then [node]
  else [].

(** The loop of [hasPath]. The stack is kept with its top first:
    [stack.pop()] takes the head, [stack.push(...nbrs)] leaves the last
    neighbour on top. [g.get(node)!] of an unknown node is spread as
    [undefined] and raises. *)
Fixpoint hasPath_loop (fuel : nat) (g : t) (dstList : list string)
  (visited stack reachable : list string) : outcome (list string) :=
  match fuel with
  | O => OutOfFuel
  | S fuel' =>
      match stack with
      | [] => Ret reachable
      | node :: stack' =>
          let reachable' :=
            if set_has dstList node then set_add reachable node
            else reachable in
          if set_has dstList node
             && (List.length reachable' =? List.length dstList)
          then Ret reachable'
          else if set_has visited node then
            hasPath_loop fuel' g dstList visited stack' reachable'
          else
            match map_get g node with
            | None => TypeError
            | Some nbrs =>
                hasPath_loop fuel' g dstList (set_add visited node)
                  (rev nbrs ++ stack') reachable'
            end
      end
  end.

(** A bound on the turns of the loop: a node is expanded once, and every
    turn pops one stack entry. *)
Definition hasPath_fuel (g : t) : nat :=
  2 + list_sum (map (fun e : string * list string => S (List.length (snd e))) g).

Definition hasPath (g : t) (src : string) (dstList : list string)
  : outcome (list bool) :=
  reachable <- hasPath_loop (hasPath_fuel g) g dstList [] [src] [] ;;
  Ret (map (set_has reachable) dstList).

(** The first loop of [addEdges]: the first entry that matches a node, and
    the entries after it. *)
Fixpoint first_match (g : t) (order : list string)
  : list string * list string :=
  match order with
  | [] => ([], [])
  | x :: rest =>
      match getMatchingNodes g x with
      | [] => first_match g rest
      | us => (us, rest)
      end
  end.

(** The body of [for (const v of vs)]: [hasPaths] is computed once, then
    every [us[j]] without a path from [v] gets the edge [us[j] -> v] and
    leaves [chainEnds]. *)
Definition link (us : list string) (v : string) (acc : t * list string)
  : outcome (t * list string) :=
  hasPaths <- hasPath (fst acc) v us ;;
  for_each (combine us hasPaths)
    (fun (uh : string * bool) (acc : t * list string) =>
       let (g, chainEnds) := acc in
       if snd uh then Ret (g, chainEnds)
       else
         match map_get g (fst uh) with
         | None => TypeError
         | Some nbrs =>
             Ret (map_set g (fst uh) (set_add nbrs v),
                  set_delete chainEnds (fst uh))
         end)
    acc.

(** The second loop of [addEdges]. *)
Fixpoint link_all (g : t) (us : list string) (order : list string)
  : outcome t :=
  match order with
  | [] => Ret g
  | x :: rest =>
      match getMatchingNodes g x with
      | [] => link_all g us rest
      | vs =>
          acc <- for_each vs (link us) (g, set_of us) ;;
          link_all (fst acc) (snd acc ++ vs) rest
      end
  end.

Definition addEdges (g : t) (order : list string) : outcome t :=
  let (us, rest) := first_match g order in
  link_all g us rest.

(** The in-degree table of [topoSort], in insertion order. *)
Definition count_edge (indegree : jsmap string Z) (v : string)
  : jsmap string Z :=
  map_set indegree v
    (match map_get indegree v with Some d => d | None => 0 end + 1)%Z.

Definition indegree_of (g : t) : jsmap string Z :=
  fold_left
    (fun indegree (e : string * list string) =>
       let indegree1 :=
         if map_has indegree (fst e) then indegree
         else map_set indegree (fst e) 0%Z in
       fold_left count_edge (snd e) indegree1)
    g [].

Section TopoSort.
Context {St R : Type} `{Number R}.
Variable tieBreaker : Comparator string St R.

(** [for (const [node, deg] of indegree) if (deg === 0) await pq.push(node)] *)
Definition seed (indegree : jsmap string Z) (s : St)
  : PriorityQueue.t (T := string) * St :=
  fold_left
    (fun (acc : list string * St) (e : string * Z) =>
       if (snd e =? 0)%Z
       then PriorityQueue.push tieBreaker (fst acc) (fst e) (snd acc)
       else acc)
    indegree (PriorityQueue.empty, s).

(** The body of [for (const v of this.g.get(u)!)]. Every neighbour was given
    an entry when the table was built, so [indegree.get(v)!] is a number; were
    it not, the source would store [NaN] and push nothing. *)
Definition relax (acc : jsmap string Z * list string * St) (v : string)
  : jsmap string Z * list string * St :=
  let '(indegree, pq, s) := acc in
  match map_get indegree v with
  | None => acc
  | Some d =>
      let deg := (d - 1)%Z in
      let indegree' := map_set indegree v deg in
      if (deg =? 0)%Z then
        let (pq', s') := PriorityQueue.push tieBreaker pq v s in
        (indegree', pq', s')
      else (indegree', pq, s)
  end.

(** [while (pq.length)]: every turn emits one node. *)
Fixpoint topo_loop (fuel : nat) (g : t) (indegree : jsmap string Z)
  (pq : list string) (result : list string) (s : St)
  : outcome (list string * St) :=
  match fuel with
  | O => OutOfFuel
  | S fuel' =>
      if PriorityQueue.length pq =? 0 then Ret (result, s)
      else
        match PriorityQueue.pop tieBreaker pq s with
        | (None, _, _) => TypeError
        | (Some u, pq1, s1) =>
            match map_get g u with
            | None => TypeError
            | Some nbrs =>
                let '(indegree', pq2, s2) :=
                  fold_left relax nbrs (indegree, pq1, s1) in
                topo_loop fuel' g indegree' pq2 (result ++ [u]) s2
            end
        end
  end.

Definition topoSort (g : t) (s : St) : outcome (list string * St) :=
  let indegree := indegree_of g in
  let (pq, s0) := seed indegree s in
  topo_loop (S (List.length indegree)) g indegree pq [] s0.
End TopoSort.

End DAG.

(* ================================================================== *)
(** ** graph.ts: fasTopoSort, read on integers

    The text of [fasTopoSort] with every [number] an integer: what the
    function computes on weights that are integers small enough for binary64
    to add and subtract them without rounding, as the occurrence counts the
    command line feeds are. The function on binary64 numbers is [FAS64]
    below. *)

Module FAS.

(** [[src, dst, weight]] with an integer weight. *)
Definition edge := (string * string * Z)%type.

(** [type Data = { u; outW; inW }] *)
Record Data : Type := mkData { u : string; outW : Z; inW : Z }.

(** The three views ['outW' | 'inW' | 'score'] of the queue. *)
Inductive view : Type := ByOutW | ByInW | ByScore.

#[global] Instance view_EqDec : EqDec view.
Proof. intros x y. unfold EqDec. decide equality. Defined.

(** [Object.keys] of the comparator record, in the order it is written. *)
Definition views : list view := [ByOutW; ByInW; ByScore].

(** [x || y] on numbers that are integers: [y] when [x] is [0]. *)
Definition or_else (x y : Z) : Z := if (x =? 0)%Z then y else x.

Definition view_cmp (k : view) : Comparator Data unit Z :=
  pure_cmp
    (fun a b =>
       match k with
       | ByOutW => or_else (outW a - outW b) (-1)
       | ByInW => inW a - inW b
       | ByScore =>
           let inDiff := inW a - inW b in
           let outDiff := outW a - outW b in
           or_else (inDiff - outDiff) (inDiff + outDiff)
       end)%Z.

Definition queue := MultiQueue.t (T := Data) (PK := view).
Definition adjacency := jsmap string (jsmap string Z).

(** The variables of [fasTopoSort] that [removeNode] reads and writes. *)
Record state : Type := mkState {
  nodes : list string;
  outAdj : adjacency;
  inAdj : adjacency;
  nodeMap : jsmap string (MultiQueue.Item Data);
  q : queue
}.

Definition q_push (mq : queue) (d : Data) : MultiQueue.Item Data * queue :=
  fst (MultiQueue.push views view_cmp mq d tt).

Definition q_peek (k : view) (mq : queue) : outcome (option Data * queue) :=
  r <- MultiQueue.peek view_cmp k mq tt ;; Ret (fst r).

Definition q_pop (k : view) (mq : queue) : outcome (option Data * queue) :=
  r <- MultiQueue.pop view_cmp k mq tt ;; Ret (fst r).

(** [for (const [src, dst] of edges) { nodes.add(src); nodes.add(dst) }] *)
Definition nodes_of (edges : list edge) : list string :=
  fold_left (fun ns (e : edge) => set_add (set_add ns (fst (fst e))) (snd (fst e)))
    edges [].

(** [for (const node of nodes) adj.set(node, new Map())] *)
Definition empty_adj (ns : list string) : adjacency :=
  fold_left (fun adj n => map_set adj n []) ns [].

(** [adj.get(a)!.set(b, w)] *)
Definition adj_set (adj : adjacency) (a b : string) (w : Z) : outcome adjacency :=
  match map_get adj a with
  | None => TypeError
  | Some m => Ret (map_set adj a (map_set m b w))
  end.

Definition fill_adj (edges : list edge) (adjs : adjacency * adjacency)
  : outcome (adjacency * adjacency) :=
  for_each edges
    (fun (e : edge) (adjs : adjacency * adjacency) =>
       let '(src, dst, weight) := e in
       o <- adj_set (fst adjs) src dst weight ;;
       i <- adj_set (snd adjs) dst src weight ;;
       Ret (o, i))
    adjs.

(** [adj.get(u)!.values().reduce((a, b) => a + b, 0)] *)
Definition total (adj : adjacency) (n : string) : outcome Z :=
  match map_get adj n with
  | None => TypeError
  | Some m => Ret (fold_left Z.add (map snd m) 0%Z)
  end.

(** The set-up of [fasTopoSort], up to the first use of [removeNode]. *)
Definition init (edges : list edge) : outcome state :=
  let ns := nodes_of edges in
  adjs <- fill_adj edges (empty_adj ns, empty_adj ns) ;;
  nq <- for_each ns
          (fun n (nq : jsmap string (MultiQueue.Item Data) * queue) =>
             o <- total (fst adjs) n ;;
             i <- total (snd adjs) n ;;
             let (item, mq) := q_push (snd nq) {| u := n; outW := o; inW := i |} in
             Ret (map_set (fst nq) n item, mq))
          ([], MultiQueue.empty) ;;
  Ret {| nodes := ns; outAdj := fst adjs; inAdj := snd adjs;
         nodeMap := fst nq; q := snd nq |}.

(** One turn of a loop of [removeNode]: the neighbour [v] still present is
    taken out of the queue and pushed again with the weight [w] taken off
    ([adjust] says from which field). *)
Definition resubmit (present : list string) (adjust : Data -> Z -> Data)
  (vw : string * Z) (nq : jsmap string (MultiQueue.Item Data) * queue)
  : outcome (jsmap string (MultiQueue.Item Data) * queue) :=
  if negb (set_has present (fst vw)) then Ret nq
  else
    match map_get (fst nq) (fst vw) with
    | None => TypeError
    | Some oldItem =>
        let newData := adjust (MultiQueue.data oldItem) (snd vw) in
        let mq := MultiQueue.delete (MultiQueue.id oldItem) (snd nq) in
        let (item, mq') := q_push mq newData in
        Ret (map_set (fst nq) (fst vw) item, mq')
    end.

Definition less_in (d : Data) (w : Z) : Data :=
  {| u := u d; outW := outW d; inW := (inW d - w)%Z |}.

Definition less_out (d : Data) (w : Z) : Data :=
  {| u := u d; outW := (outW d - w)%Z; inW := inW d |}.

Definition removeNode (node : string) (st : state) : outcome state :=
  let nodes' := set_delete (nodes st) node in
  match map_get (outAdj st) node with
  | None => TypeError
  | Some outs =>
      nq1 <- for_each outs (resubmit nodes' less_in) (nodeMap st, q st) ;;
      let outAdj' := map_delete (outAdj st) node in
      match map_get (inAdj st) node with
      | None => TypeError
      | Some ins =>
          nq2 <- for_each ins (resubmit nodes' less_out) nq1 ;;
          let inAdj' := map_delete (inAdj st) node in
          Ret {| nodes := nodes'; outAdj := outAdj'; inAdj := inAdj';
                 nodeMap := map_delete (fst nq2) node; q := snd nq2 |}
      end
  end.

(** [order[i] = x] with a numeric index; the loop only writes inside the
    array (outside, JS would add a property or extend the array). *)
Definition order_set (order : list (option string)) (i : Z) (x : string)
  : list (option string) :=
  if (i <? 0)%Z then order else array_set order (Z.to_nat i) (Some x).

(** The loop variables of the main loop. *)
Record cursor : Type := mkCursor {
  st : state;
  order : list (option string);
  left : Z;
  right : Z
}.

(** The two inner loops, [choose sink] on the view [ByOutW] filling from the
    right and [choose source] on the view [ByInW] filling from the left, are
    the same loop up to the view, the field tested and the end that is
    filled. *)
Definition place (at_right : bool) (x : string) (c : cursor) (st' : state)
  : cursor :=
  if at_right then
    {| st := st'; order := order_set (order c) (right c) x;
       left := left c; right := (right c - 1)%Z |}
  else
    {| st := st'; order := order_set (order c) (left c) x;
       left := (left c + 1)%Z; right := right c |}.

Fixpoint drain (fuel : nat) (k : view) (weight : Data -> Z) (at_right : bool)
  (c : cursor) : outcome cursor :=
  match fuel with
  | O => OutOfFuel
  | S fuel' =>
      if MultiQueue.length (q (st c)) =? 0 then Ret c
      else
        pk <- q_peek k (q (st c)) ;;
        match fst pk with
        | None => TypeError
        | Some d =>
            if negb (weight d =? 0)%Z then
              Ret {| st := {| nodes := nodes (st c); outAdj := outAdj (st c);
                              inAdj := inAdj (st c); nodeMap := nodeMap (st c);
                              q := snd pk |};
                     order := order c; left := left c; right := right c |}
            else
              pp <- q_pop k (snd pk) ;;
              st' <- removeNode (u d)
                       {| nodes := nodes (st c); outAdj := outAdj (st c);
                          inAdj := inAdj (st c); nodeMap := nodeMap (st c);
                          q := snd pp |} ;;
              drain fuel' k weight at_right (place at_right (u d) c st')
        end
  end.

Definition drain_fuel (c : cursor) : nat := S (MultiQueue.length (q (st c))).

Fixpoint main_loop (fuel : nat) (c : cursor) : outcome cursor :=
  match fuel with
  | O => OutOfFuel
  | S fuel' =>
      if List.length (nodes (st c)) =? 0 then Ret c
      else
        c1 <- drain (drain_fuel c) ByOutW outW true c ;;
        c2 <- drain (drain_fuel c1) ByInW inW false c1 ;;
        pp <- q_pop ByScore (q (st c2)) ;;
        let st2 := {| nodes := nodes (st c2); outAdj := outAdj (st c2);
                      inAdj := inAdj (st c2); nodeMap := nodeMap (st c2);
                      q := snd pp |} in
        match fst pp with
        | None => Ret {| st := st2; order := order c2;
                         left := left c2; right := right c2 |}
        | Some max =>
            st' <- removeNode (u max) st2 ;;
            main_loop fuel' (place false (u max) c2 st')
        end
  end.

Definition fasTopoSort (edges : list edge) : outcome (list (option string)) :=
  st0 <- init edges ;;
  let n := List.length (nodes st0) in
  c <- main_loop (S n)
         {| st := st0; order := repeat None n;
            left := 0; right := (Z.of_nat n - 1)%Z |} ;;
  Ret (order c).

End FAS.

(* ================================================================== *)
(** ** bradley-terry.ts *)

Module BradleyTerry.
Section Defs.
Local Open Scope float_scope.

(** [Math.log] and [Math.exp] are implementation-approximated; the model
    takes them as given. *)
Variables Math_log Math_exp : float -> float.

(** The length [n] as a number (exact for every array length). *)
Definition num_of_nat (n : nat) : float := Nat.iter n (fun x => x + 1) 0.

(** [p[i]] and [w[i][j]]; a missing entry is [undefined], which is [NaN] in
    the arithmetic that follows. *)
Definition at_ (p : list float) (i : nat) : float := nth i p nan.
Definition cell (w : list (list float)) (i j : nat) : float :=
  nth j (nth i w []) nan.

(** The loop over [j]: numerator and denominator of item [i]. *)
Definition accum (w : list (list float)) (n : nat) (p : list float) (i : nat)
  : float * float :=
  fold_left
    (fun (nd : float * float) j =>
       if Nat.eqb i j then nd
       else
         let sum := at_ p i + at_ p j in
         (fst nd + (cell w i j * at_ p j) / sum, snd nd + cell w j i / sum))
    (seq 0%nat n) (0, 0).

(** The loop over [i]: [p] is updated in place, [normLog] accumulates. *)
Definition sweep (w : list (list float)) (n : nat) (p : list float)
  : list float * float :=
  fold_left
    (fun (pn : list float * float) i =>
       let (num, den) := accum w n (fst pn) i in
       let pi := num / den in
       (array_set (fst pn) i pi, snd pn + Math_log pi))
    (seq 0%nat n) (p, 0).

(** [1e-3], as the nearest binary64 value. *)
Definition tolerance : float := 0x1.0624dd2f1a9fcp-10.

Fixpoint iterate (maxIter : nat) (w : list (list float)) (n : nat)
  (p : list float) (lastNorm : float) : list float :=
  match maxIter with
  | O => p
  | S rest =>
      let (p1, normLog0) := sweep w n p in
      let normLog := Math_exp (normLog0 / num_of_nat n) in
      let p2 := map (fun x => x / normLog) p1 in
      if abs (lastNorm - normLog) <? tolerance then p2
      else iterate rest w n p2 normLog
  end.

Definition bradleyTerry_iter (w : list (list float)) (maxIter : nat)
  : list float :=
  let n := List.length w in
  iterate maxIter w n (repeat 1 n) 0.

(** [maxIter: number = 10] *)
Definition bradleyTerry (w : list (list float)) : list float :=
  bradleyTerry_iter w 10.
End Defs.
End BradleyTerry.

(* ================================================================== *)
(** ** ai-cmp.ts *)

Module AIComparator.
Section Defs.
Local Open Scope string_scope.

Definition SEQ_LEN : nat := 25.

Definition VOCAB_chars : string := "$abcdefghijklmnopqrstuvwxyz 0123456789".

(** [VOCAB[c]]: the position in the alphabet plus one; a character outside
    the alphabet gives [undefined], stored as [0] in the [Int32Array]. *)
Definition VOCAB (c : ascii) : Z :=
  match index 0 (String c EmptyString) VOCAB_chars with
  | Some i => Z.of_nat i + 1
  | None => 0
  end.

(** [tokenize]: [word[i]] is the code unit at [i], a character of the
    model; writes past the 25 cells of the typed array are dropped. *)
Definition tokenize (word : string) : list Z :=
  let tokens := map VOCAB (list_ascii_of_string word) in
  firstn SEQ_LEN (tokens ++ repeat 0%Z SEQ_LEN).

(** The inference session on two token tensors: the outputs [cmp] and
    [cmpRev]. *)
Variable session_run : list Z -> list Z -> float * float.

(** The comparator object: its cache and, as ghost state, the pairs on which
    the session was run. *)
Record t : Type := mk {
  cache : jsmap string float;
  runs : list (string * string)
}.

Definition create : t := {| cache := []; runs := [] |}.

Definition rawCompare (a b : string) (c : t) : (float * float) * t :=
  (session_run (tokenize a) (tokenize b),
   {| cache := cache c; runs := runs c ++ [(a, b)] |}).

Definition compare : Comparator string t float :=
  fun a b c =>
    let key := a ++ "-" ++ b in
    let keyRev := b ++ "-" ++ a in
    match map_get (cache c) key with
    | Some v => (v, c)
    | None =>
        match map_get (cache c) keyRev with
        | Some v => ((- v)%float, c)
        | None =>
            let (output, c') := rawCompare a b c in
            let cmp := (fst output - snd output)%float in
            (cmp, {| cache := map_set (cache c') key cmp; runs := runs c' |})
        end
    end.
End Defs.
End AIComparator.

(* ================================================================== *)
(** ** preference-sorter.ts *)

(** [Array.prototype.sort(cmp)], which is stable; a result that is [NaN]
    counts as [0]. Stable insertion is one implementation of it. *)
Section JsSort.
Context {A R : Type} `{Number R}.
Variable cmp : A -> A -> R.

Fixpoint js_insert (x : A) (l : list A) : list A :=
  match l with
  | [] => [x]
  | y :: l' => if ltz (cmp y x) then y :: js_insert x l' else x :: y :: l'
  end.

Fixpoint js_sort (l : list A) : list A :=
  match l with
  | [] => []
  | x :: l' => js_insert x (js_sort l')
  end.
End JsSort.

Module PreferenceSorter.
Section Defs.
Local Open Scope string_scope.

(** [order.ts], the canonical precedence table, and the normalisation of
    [split-identifier.ts] are taken as given, as are [Math.log], [Math.exp]
    and the inference session. *)
Variable order : list string.
Variable splitIdentifier : string -> string.
Variables Math_log Math_exp : float -> float.
Variable session_run : list Z -> list Z -> float * float.

Record t : Type := mk {
  orders : list (list string);
  useAI : string;
  aiComparator : option AIComparator.t
}.

(** The private constructor. *)
Definition make (customOrder : list string) (useAI : string)
  (aiComparator : option AIComparator.t) : t :=
  {| orders := (if Nat.ltb 1 (List.length customOrder) then [customOrder] else [])
               ++ [order];
     useAI := useAI;
     aiComparator := aiComparator |}.

Definition create (useAI : string) (customOrder : list string) : t :=
  if String.eqb useAI "no" then make (map splitIdentifier customOrder) useAI None
  else make (map splitIdentifier customOrder) useAI (Some AIComparator.create).

(** [for (const order of this.orders) dag.addEdges(order)] *)
Definition addAll (g : DAG.t) (hints : list (list string)) : outcome DAG.t :=
  for_each hints (fun h g => DAG.addEdges g h) g.

(** [new Map(arr.map((v, i) => [v, i]))] *)
Definition indexMap_of (arr : list string) : jsmap string Z :=
  fold_left (fun m (vi : string * nat) => map_set m (fst vi) (Z.of_nat (snd vi)))
    (combine arr (seq 0 (List.length arr))) [].

(** [(a, b) => indexMap.get(a)! - indexMap.get(b)!]; with an entry missing
    the difference is [NaN], which is not negative. *)
Definition index_cmp (indexMap : jsmap string Z) : Comparator string unit Z :=
  pure_cmp
    (fun a b =>
       match map_get indexMap a, map_get indexMap b with
       | Some x, Some y => (x - y)%Z
       | _, _ => 0%Z
       end).

(** The tail shared by ['stable'] and ['no']. *)
Definition finish (g : DAG.t) (arr : list string) : outcome (list string) :=
  g' <- DAG.addEdges g arr ;;
  r <- DAG.topoSort (index_cmp (indexMap_of arr)) g' tt ;;
  Ret (fst r).

(** [w[i][j] = x] *)
Definition mat_set (w : list (list float)) (i j : nat) (x : float)
  : list (list float) :=
  array_set w i (array_set (nth i w []) j x).

(** The two nested loops that fill the win matrix. *)
Definition fill_wins (arr : list string) (ai : AIComparator.t)
  : list (list float) * AIComparator.t :=
  let n := List.length arr in
  fold_left
    (fun (acc : list (list float) * AIComparator.t) i =>
       fold_left
         (fun (acc : list (list float) * AIComparator.t) j =>
            let (out, ai') :=
              AIComparator.rawCompare session_run (nth i arr "") (nth j arr "")
                (snd acc) in
            (mat_set (mat_set (fst acc) j i (fst out)) i j (snd out), ai'))
         (seq (i + 1) (n - (i + 1))) acc)
    (seq 0 n) (repeat (repeat nan n) n, ai).

(** [Array.from(p.keys()).sort((a, b) => p[b] - p[a]).map(si => arr[si])] *)
Definition by_strength (p : list float) (arr : list string) : list string :=
  map (fun si => nth si arr "")
    (js_sort (fun a b => (BradleyTerry.at_ p b - BradleyTerry.at_ p a)%float)
       (seq 0 (List.length p))).

(** [sort]: [Ret (None, _)] is the call that runs off the end of the
    [switch] and returns [undefined]. *)
Definition sort (this : t) (arr : list string)
  : outcome (option (list string) * t) :=
  if Nat.ltb (List.length arr) 2 then Ret (Some arr, this)
  else
    dag <- addAll (DAG.new arr) (orders this) ;;
    if String.eqb (useAI this) "yes" then
      match aiComparator this with
      | None => TypeError
      | Some ai =>
          r <- DAG.topoSort (AIComparator.compare session_run) dag ai ;;
          Ret (Some (fst r),
               {| orders := orders this; useAI := useAI this;
                  aiComparator := Some (snd r) |})
      end
    else if String.eqb (useAI this) "stable" then
      match aiComparator this with
      | None => TypeError
      | Some ai =>
          let (w, ai') := fill_wins arr ai in
          let p := BradleyTerry.bradleyTerry Math_log Math_exp w in
          out <- finish dag (by_strength p arr) ;;
          Ret (Some out,
               {| orders := orders this; useAI := useAI this;
                  aiComparator := Some ai' |})
      end
    else if String.eqb (useAI this) "no" then
      out <- finish dag arr ;;
      Ret (Some out, this)
    else Ret (None, this).
End Defs.
End PreferenceSorter.

Unset Implicit Arguments.



(* ================================================================== *)
(** ** ast.ts *)

(** [JSXAttributeLike = JSXAttribute | JSXSpreadAttribute]; [rest] stands for
    the fields of a node that the plugin does not read. *)
Inductive JSXAttributeLike (N : Type) : Type :=
| JSXAttribute (name : string) (rest : N)
| JSXSpreadAttribute (rest : N).

Arguments JSXAttribute {N} name rest.
Arguments JSXSpreadAttribute {N} rest.

(* ================================================================== *)
(** ** cli.ts: the extraction of an order from prop lists *)

Module Cli.

Definition prefixToWildcard (s : string) : string :=
  if startsWith s "data " then "data *"%string
  else if startsWith s "test " then "test *"%string
  else if startsWith s "aria " then "aria *"%string
  else s.

(** [class Map2D]: [private m = new Map<SplitString, Map<SplitString, number>>()] *)
Definition Map2D := jsmap string (jsmap string Z).

(** [inc(r, c)]: a missing row is created, at the end of the outer map; the
    cell is the old count, or [0], plus one. *)
Definition inc (m : Map2D) (r c : string) : Map2D :=
  let r := prefixToWildcard r in
  let c := prefixToWildcard c in
  let row := match map_get m r with Some row => row | None => [] end in
  map_set m r
    (map_set row c ((match map_get row c with Some w => w | None => 0 end) + 1)%Z).

(** The edge list [sortKeys] builds: rows and cells in insertion order. *)
Definition edges (m : Map2D) : list FAS.edge :=
  flat_map (fun um : string * jsmap string Z =>
              map (fun vw : string * Z => (fst um, fst vw, snd vw)) (snd um))
    m.

(** [sortKeys]: the weights are the counts of the table, integers. *)
Definition sortKeys (m : Map2D) : outcome (list (option string)) :=
  FAS.fasTopoSort (edges m).

(** [for (let i = 0, l = props.length; i < l; ++i)
       for (let j = i + 1; j < l; ++j) weights.inc(props[i], props[j])] *)
Definition inc_props (m : Map2D) (props : list string) : Map2D :=
  let l := List.length props in
  fold_left
    (fun m i =>
       fold_left
         (fun m j => inc m (nth i props ""%string) (nth j props ""%string))
         (seq (i + 1) (l - (i + 1))) m)
    (seq 0 l) m.

(** [for (const props of propLists) ...], from [new Map2D()]. *)
Definition weights_of (propLists : list (list string)) : Map2D :=
  fold_left inc_props propLists [].

(** The end of the script: the order printed for the prop lists found. *)
Definition extract_order (propLists : list (list string))
  : outcome (list (option string)) :=
  sortKeys (weights_of propLists).

Section WalkAST.
Context {N : Type}.
Variable splitIdentifier : string -> string.

(** [addGroup] of [walkAST]: a non-empty group is copied to [propLists] and
    emptied. *)
Definition addGroup (st : list (list string) * list string)
  : list (list string) * list string :=
  match snd st with
  | [] => st
  | _ :: _ => (fst st ++ [snd st], [])
  end.

(** What [walkAST] does with the attributes of one [JSXElement]. *)
Definition element_groups (attributes : list (JSXAttributeLike N))
  (propLists : list (list string)) : list (list string) :=
  fst (addGroup
         (fold_left
            (fun (st : list (list string) * list string) prop =>
               match prop with
               | JSXAttribute name _ => (fst st, snd st ++ [splitIdentifier name])
               | JSXSpreadAttribute _ => addGroup st
               end)
            attributes (propLists, []))).
End WalkAST.

End Cli.

(* ================================================================== *)
(** ** index.ts: sorting the props of one element *)

Module Plugin.
Section Defs.
Context {N : Type}.
Variable splitIdentifier : string -> string.
Variables Math_log Math_exp : float -> float.
Variable session_run : list Z -> list Z -> float * float.

(** The variables of [sortProps]: the sorter (its comparator keeps a cache),
    [sorted] and [group]. A cell of [sorted] is [None] when it holds
    [undefined]. *)
Definition state : Type :=
  (PreferenceSorter.t * list (option (JSXAttributeLike N))
   * list (string * N))%type.

(** [new Map(group.map(item => [splitIdentifier(item.name.name), item]))] *)
Definition keyMap_of (group : list (string * N)) : jsmap string (string * N) :=
  fold_left (fun m item => map_set m (splitIdentifier (fst item)) item) group [].

(** [addGroup]: [sortedKeys.forEach] of [undefined] raises;
    [keyMap.get(key)!] of an unknown key is [undefined]. *)
Definition addGroup (st : state) : outcome state :=
  let '(sorter, sorted, group) := st in
  match group with
  | [] => Ret st
  | _ :: _ =>
      let keyMap := keyMap_of group in
      r <- PreferenceSorter.sort Math_log Math_exp session_run sorter
             (map_keys keyMap) ;;
      match fst r with
      | None => TypeError
      | Some sortedKeys =>
          Ret (snd r,
               sorted ++ map (fun key =>
                                option_map (fun item => JSXAttribute (fst item) (snd item))
                                  (map_get keyMap key))
                           sortedKeys,
               [])
      end
  end.

(** [sortProps]; the result is what [props] holds in the end. *)
Definition sortProps (props : list (JSXAttributeLike N))
  (sorter : PreferenceSorter.t)
  : outcome (list (option (JSXAttributeLike N)) * PreferenceSorter.t) :=
  st <- for_each props
          (fun prop (st : state) =>
             match prop with
             | JSXAttribute name rest =>
                 Ret (fst (fst st), snd (fst st), snd st ++ [(name, rest)])
             | JSXSpreadAttribute _ =>
                 st' <- addGroup st ;;
                 Ret (fst (fst st'), snd (fst st') ++ [Some prop], [])
             end)
          (sorter, [], []) ;;
  st' <- addGroup st ;;
  Ret (snd (fst st'), fst (fst st')).
End Defs.
End Plugin.

(* ================================================================== *)
(** ** split-identifier.ts *)

(** Strings are sequences of ASCII characters here; on those the classes
    below are the ones the regular expressions, [trim] and [toLowerCase] of
    the source use. *)
Module SplitIdentifier.

Definition code (c : ascii) : nat := nat_of_ascii c.

Definition between (lo hi : nat) (c : ascii) : bool :=
  Nat.leb lo (code c) && Nat.leb (code c) hi.

(** [[A-Z]], [[a-z]], [[0-9]] *)
Definition is_upper : ascii -> bool := between 65 90.
Definition is_lower : ascii -> bool := between 97 122.
Definition is_digit : ascii -> bool := between 48 57.

(** [\s], and what [trim] removes: tab, line feed, vertical tab, form feed,
    carriage return, space. *)
Definition is_space (c : ascii) : bool :=
  between 9 13 c || Nat.eqb (code c) 32.

(** [[_\-.:]] *)
Definition is_sep (c : ascii) : bool :=
  Nat.eqb (code c) 95 || Nat.eqb (code c) 45 || Nat.eqb (code c) 46
  || Nat.eqb (code c) 58.

(** [[_\s]] *)
Definition is_edge (c : ascii) : bool := Nat.eqb (code c) 95 || is_space c.

(** What a greedy [[...]+] takes at the head of [s]. *)
Fixpoint run (p : ascii -> bool) (s : list ascii) : nat :=
  match s with
  | c :: s' => if p c then S (run p s') else 0
  | [] => 0
  end.

Fixpoint drop_while (p : ascii -> bool) (s : list ascii) : list ascii :=
  match s with
  | c :: s' => if p c then drop_while p s' else s
  | [] => []
  end.

(** [s.trim()] *)
Definition trim (s : list ascii) : list ascii :=
  rev (drop_while is_space (rev (drop_while is_space s))).

(** [s.replace(re, ...)] for a global [re] that matches no empty string: the
    matches are looked for from left to right, each after the end of the one
    before; the characters between them are kept. [match_at start rest] is
    the match of [re] where [rest] is left of the string ([start]: nothing
    comes before): the text that replaces it and the number of characters it
    takes. [skip] counts the characters of the current match still to pass. *)
Fixpoint replace_from (match_at : bool -> list ascii -> option (list ascii * nat))
  (start : bool) (skip : nat) (s : list ascii) : list ascii :=
  match s with
  | [] => []
  | c :: s' =>
      match skip with
      | S k => replace_from match_at false k s'
      | O =>
          match match_at start s with
          | Some (text, n) => text ++ replace_from match_at false (n - 1) s'
          | None => c :: replace_from match_at false 0 s'
          end
      end
  end.

Definition replace_all (match_at : bool -> list ascii -> option (list ascii * nat))
  (s : list ascii) : list ascii :=
  replace_from match_at true 0 s.

(** [/[_\-.:]+/g], replaced by [' '] *)
Definition separators (_ : bool) (s : list ascii)
  : option (list ascii * nat) :=
  match run is_sep s with
  | O => None
  | S n => Some ([" "%char], S n)
  end.

(** [/([a-z0-9])([A-Z])/g], replaced by ['$1 $2'] *)
Definition hump (_ : bool) (s : list ascii) : option (list ascii * nat) :=
  match s with
  | c :: d :: _ =>
      if (is_lower c || is_digit c) && is_upper d
      then Some ([c; " "%char; d], 2)
      else None
  | _ => None
  end.

(** [/([A-Z]+)([A-Z][a-z])/g], replaced by ['$1 $2']: the first group takes
    [k] capitals, as many as it can at first, and gives them back one by one
    until a capital and a small letter follow. *)
Fixpoint acronym_try (s : list ascii) (k : nat) : option (list ascii * nat) :=
  match k with
  | O => None
  | S k' =>
      match skipn k s with
      | d :: e :: _ =>
          if is_upper d && is_lower e
          then Some (firstn k s ++ [" "%char; d; e], k + 2)
          else acronym_try s k'
      | _ => acronym_try s k'
      end
  end.

Definition acronym (_ : bool) (s : list ascii) : option (list ascii * nat) :=
  acronym_try s (run is_upper s).

(** [/^[_\s]+|[_\s]+$/g], replaced by ['']: at the start of the string the
    first branch takes the run; elsewhere the second branch needs the run to
    reach the end. *)
Definition ends (start : bool) (s : list ascii) : option (list ascii * nat) :=
  let n := run is_edge s in
  if Nat.ltb 0 n && (start || Nat.eqb n (List.length s))
  then Some ([], n)
  else None.

(** [c.toLowerCase()] *)
Definition to_lower (c : ascii) : ascii :=
  if is_upper c then ascii_of_nat (code c + 32) else c.

Definition toLowerCase (s : list ascii) : list ascii := map to_lower s.

Definition split (identifier : list ascii) : list ascii :=
  let s := replace_all separators (trim identifier) in
  let s := replace_all hump s in
  let s := replace_all acronym s in
  let s := replace_all ends s in
  toLowerCase s.

Definition splitIdentifier (identifier : string) : string :=
  string_of_list_ascii (split (list_ascii_of_string identifier)).

End SplitIdentifier.


(* ================================================================== *)
(** ** graph.ts: [fasTopoSort] on binary64 weights

    The signature of [fasTopoSort] takes [weight: number]: any IEEE binary64
    value.  [FAS64] is the function on those numbers, statement by statement;
    [FAS] above is the same text read on integers, which is what it computes
    as long as every sum of weights is an integer below [2^52]. *)

Module FAS64.

(** [[src, dst, weight]] with [weight: number]. *)
Definition edge := (string * string * float)%type.

(** [type Data = { u; outW; inW }] *)
Record Data : Type := mkData { u : string; outW : float; inW : float }.

(** [x || y] on numbers: [y] when [x] is falsy, that is [0], [-0] or [NaN]. *)
Definition or_else (x y : float) : float :=
  if PrimFloat.is_zero x || PrimFloat.is_nan x then y else x.

(** The comparators of the three views, in the order of [FAS.views]:
    [a.outW - b.outW || -1], [a.inW - b.inW] and
    [inDiff - outDiff || inDiff + outDiff]. *)
Definition view_cmp (k : FAS.view) : Comparator Data unit float :=
  pure_cmp
    (fun a b =>
       match k with
       | FAS.ByOutW => or_else (outW a - outW b) (-1)
       | FAS.ByInW => inW a - inW b
       | FAS.ByScore =>
           let inDiff := inW a - inW b in
           let outDiff := outW a - outW b in
           or_else (inDiff - outDiff) (inDiff + outDiff)
       end)%float.

Definition queue := MultiQueue.t (T := Data) (PK := FAS.view).
Definition adjacency := jsmap string (jsmap string float).

(** The variables of [fasTopoSort] that [removeNode] reads and writes. *)
Record state : Type := mkState {
  nodes : list string;
  outAdj : adjacency;
  inAdj : adjacency;
  nodeMap : jsmap string (MultiQueue.Item Data);
  q : queue
}.

Definition q_push (mq : queue) (d : Data) : MultiQueue.Item Data * queue :=
  fst (MultiQueue.push FAS.views view_cmp mq d tt).

Definition q_peek (k : FAS.view) (mq : queue) : outcome (option Data * queue) :=
  r <- MultiQueue.peek view_cmp k mq tt ;; Ret (fst r).

Definition q_pop (k : FAS.view) (mq : queue) : outcome (option Data * queue) :=
  r <- MultiQueue.pop view_cmp k mq tt ;; Ret (fst r).

(** [for (const [src, dst] of edges) { nodes.add(src); nodes.add(dst) }] *)
Definition nodes_of (edges : list edge) : list string :=
  fold_left (fun ns (e : edge) => set_add (set_add ns (fst (fst e))) (snd (fst e)))
    edges [].

(** [for (const node of nodes) adj.set(node, new Map())] *)
Definition empty_adj (ns : list string) : adjacency :=
  fold_left (fun adj n => map_set adj n []) ns [].

(** [adj.get(a)!.set(b, w)] *)
Definition adj_set (adj : adjacency) (a b : string) (w : float)
  : outcome adjacency :=
  match map_get adj a with
  | None => TypeError
  | Some m => Ret (map_set adj a (map_set m b w))
  end.

Definition fill_adj (edges : list edge) (adjs : adjacency * adjacency)
  : outcome (adjacency * adjacency) :=
  for_each edges
    (fun (e : edge) (adjs : adjacency * adjacency) =>
       let '(src, dst, weight) := e in
       o <- adj_set (fst adjs) src dst weight ;;
       i <- adj_set (snd adjs) dst src weight ;;
       Ret (o, i))
    adjs.

(** [adj.get(u)!.values().reduce((a, b) => a + b, 0)] *)
Definition total (adj : adjacency) (n : string) : outcome float :=
  match map_get adj n with
  | None => TypeError
  | Some m => Ret (fold_left PrimFloat.add (map snd m) 0%float)
  end.

(** The set-up of [fasTopoSort], up to the first use of [removeNode]. *)
Definition init (edges : list edge) : outcome state :=
  let ns := nodes_of edges in
  adjs <- fill_adj edges (empty_adj ns, empty_adj ns) ;;
  nq <- for_each ns
          (fun n (nq : jsmap string (MultiQueue.Item Data) * queue) =>
             o <- total (fst adjs) n ;;
             i <- total (snd adjs) n ;;
             let (item, mq) := q_push (snd nq) {| u := n; outW := o; inW := i |} in
             Ret (map_set (fst nq) n item, mq))
          ([], MultiQueue.empty) ;;
  Ret {| nodes := ns; outAdj := fst adjs; inAdj := snd adjs;
         nodeMap := fst nq; q := snd nq |}.

(** One turn of a loop of [removeNode]: the neighbour [v] still present is
    taken out of the queue and pushed again with the weight [w] taken off
    ([adjust] says from which field). *)
Definition resubmit (present : list string) (adjust : Data -> float -> Data)
  (vw : string * float) (nq : jsmap string (MultiQueue.Item Data) * queue)
  : outcome (jsmap string (MultiQueue.Item Data) * queue) :=
  if negb (set_has present (fst vw)) then Ret nq
  else
    match map_get (fst nq) (fst vw) with
    | None => TypeError
    | Some oldItem =>
        let newData := adjust (MultiQueue.data oldItem) (snd vw) in
        let mq := MultiQueue.delete (MultiQueue.id oldItem) (snd nq) in
        let (item, mq') := q_push mq newData in
        Ret (map_set (fst nq) (fst vw) item, mq')
    end.

Definition less_in (d : Data) (w : float) : Data :=
  {| u := u d; outW := outW d; inW := (inW d - w)%float |}.

Definition less_out (d : Data) (w : float) : Data :=
  {| u := u d; outW := (outW d - w)%float; inW := inW d |}.

Definition removeNode (node : string) (st : state) : outcome state :=
  let nodes' := set_delete (nodes st) node in
  match map_get (outAdj st) node with
  | None => TypeError
  | Some outs =>
      nq1 <- for_each outs (resubmit nodes' less_in) (nodeMap st, q st) ;;
      let outAdj' := map_delete (outAdj st) node in
      match map_get (inAdj st) node with
      | None => TypeError
      | Some ins =>
          nq2 <- for_each ins (resubmit nodes' less_out) nq1 ;;
          let inAdj' := map_delete (inAdj st) node in
          Ret {| nodes := nodes'; outAdj := outAdj'; inAdj := inAdj';
                 nodeMap := map_delete (fst nq2) node; q := snd nq2 |}
      end
  end.

(** The loop variables of the main loop. *)
Record cursor : Type := mkCursor {
  st : state;
  order : list (option string);
  left : Z;
  right : Z
}.

(** [order[right--] = x] and [order[left++] = x] *)
Definition place (at_right : bool) (x : string) (c : cursor) (st' : state)
  : cursor :=
  if at_right then
    {| st := st'; order := FAS.order_set (order c) (right c) x;
       left := left c; right := (right c - 1)%Z |}
  else
    {| st := st'; order := FAS.order_set (order c) (left c) x;
       left := (left c + 1)%Z; right := right c |}.

(** The two inner loops; [sink.outW !== 0] and [source.inW !== 0] compare
    numbers, so [-0] counts as zero and [NaN] does not. *)
Fixpoint drain (fuel : nat) (k : FAS.view) (weight : Data -> float)
  (at_right : bool) (c : cursor) : outcome cursor :=
  match fuel with
  | O => OutOfFuel
  | S fuel' =>
      if MultiQueue.length (q (st c)) =? 0 then Ret c
      else
        pk <- q_peek k (q (st c)) ;;
        match fst pk with
        | None => TypeError
        | Some d =>
            if negb (weight d =? 0)%float then
              Ret {| st := {| nodes := nodes (st c); outAdj := outAdj (st c);
                              inAdj := inAdj (st c); nodeMap := nodeMap (st c);
                              q := snd pk |};
                     order := order c; left := left c; right := right c |}
            else
              pp <- q_pop k (snd pk) ;;
              st' <- removeNode (u d)
                       {| nodes := nodes (st c); outAdj := outAdj (st c);
                          inAdj := inAdj (st c); nodeMap := nodeMap (st c);
                          q := snd pp |} ;;
              drain fuel' k weight at_right (place at_right (u d) c st')
        end
  end.

Definition drain_fuel (c : cursor) : nat := S (MultiQueue.length (q (st c))).

Fixpoint main_loop (fuel : nat) (c : cursor) : outcome cursor :=
  match fuel with
  | O => OutOfFuel
  | S fuel' =>
      if List.length (nodes (st c)) =? 0 then Ret c
      else
        c1 <- drain (drain_fuel c) FAS.ByOutW outW true c ;;
        c2 <- drain (drain_fuel c1) FAS.ByInW inW false c1 ;;
        pp <- q_pop FAS.ByScore (q (st c2)) ;;
        let st2 := {| nodes := nodes (st c2); outAdj := outAdj (st c2);
                      inAdj := inAdj (st c2); nodeMap := nodeMap (st c2);
                      q := snd pp |} in
        match fst pp with
        | None => Ret {| st := st2; order := order c2;
                         left := left c2; right := right c2 |}
        | Some max =>
            st' <- removeNode (u max) st2 ;;
            main_loop fuel' (place false (u max) c2 st')
        end
  end.

Definition fasTopoSort (edges : list edge) : outcome (list (option string)) :=
  st0 <- init edges ;;
  let n := List.length (nodes st0) in
  c <- main_loop (S n)
         {| st := st0; order := repeat None n;
            left := 0; right := (Z.of_nat n - 1)%Z |} ;;
  Ret (order c).

End FAS64.



(* ================================================================== *)
(** * Vocabulary of the specification *)

(** ** Heaps *)

(** The parent of a cell of the array, as [siftUp] computes it. *)
Definition parent (j : nat) : nat := (j - 1) / 2.

(** A cell is in order when it is not below its parent. *)
Definition ordered_at {T : Type} (le : T -> T -> Prop) (q : list T) (j : nat)
  : Prop :=
  forall x p, 0 < j -> nth_error q j = Some x ->
    nth_error q (parent j) = Some p -> le p x.

Definition heap {T : Type} (le : T -> T -> Prop) (q : list T) : Prop :=
  forall j, ordered_at le q j.

(** The heap order everywhere but between [k] and its parent, as [siftUp]
    keeps it while the new item travels up. *)
Definition heap_but_up {T : Type} (le : T -> T -> Prop) (q : list T) (k : nat)
  : Prop :=
  (forall j, j <> k -> ordered_at le q j) /\
  (forall j x g, 0 < k -> 0 < j -> parent j = k ->
     nth_error q j = Some x -> nth_error q (parent k) = Some g -> le g x).

(** The heap order everywhere but between [k] and its children, as
    [siftDown] keeps it while the moved item travels down. *)
Definition heap_but_down {T : Type} (le : T -> T -> Prop) (q : list T) (k : nat)
  : Prop :=
  (forall j, parent j <> k -> ordered_at le q j) /\
  (forall j x g, 0 < k -> 0 < j -> parent j = k ->
     nth_error q j = Some x -> nth_error q (parent k) = Some g -> le g x).

(** A sequence of pushes and pops on one queue. *)
Inductive pq_op (T : Type) : Type :=
| OpPush (x : T)
| OpPop.

Arguments OpPush {T} x.
Arguments OpPop {T}.

(** Runs the operations; the trace holds what every [pop] returned. *)
Fixpoint pq_run {T St R : Type} `{Number R} (cmp : Comparator T St R)
  (ops : list (pq_op T)) (q : list T) (s : St)
  : list (option T) * list T :=
  match ops with
  | [] => ([], q)
  | OpPush x :: rest =>
      let (q', s') := PriorityQueue.push cmp q x s in
      pq_run cmp rest q' s'
  | OpPop :: rest =>
      let '(r, q', s') := PriorityQueue.pop cmp q s in
      let (out, qf) := pq_run cmp rest q' s' in
      (r :: out, qf)
  end.

Definition pushes {T : Type} (ops : list (pq_op T)) : nat :=
  List.length (filter (fun o => match o with OpPush _ => true | OpPop => false end) ops).

(** The values of the successful pops of a trace. *)
Fixpoint popped {T : Type} (out : list (option T)) : list T :=
  match out with
  | [] => []
  | Some x :: rest => x :: popped rest
  | None :: rest => popped rest
  end.

(** A three-way comparator of a total preorder: the signs of [f a b] and
    [f b a] are opposite, and "not after" is transitive. *)
Definition total_preorder {T : Type} (f : T -> T -> Z) : Prop :=
  (forall a b, (f a b < 0 <-> 0 < f b a)%Z) /\
  (forall a b c, (f a b <= 0 -> f b c <= 0 -> f a c <= 0)%Z).

(** "Not after", for a three-way comparator. *)
Definition not_after {T : Type} (f : T -> T -> Z) (a b : T) : Prop :=
  (f a b <= 0)%Z.

(** ** The multi-view queue *)

(** An interleaved sequence of operations on one [MultiQueue]. *)
Inductive mq_op (T PK : Type) : Type :=
| MqPush (d : T)
| MqPop (k : PK)
| MqPeek (k : PK)
| MqDelete (i : nat).

Arguments MqPush {T PK} d.
Arguments MqPop {T PK} k.
Arguments MqPeek {T PK} k.
Arguments MqDelete {T PK} i.

(** What an operation did: the wrapper a push created, the wrapper whose
    payload a pop or a peek returned (if any), the id a delete was given. *)
Inductive mq_event (T : Type) : Type :=
| EvPushed (it : MultiQueue.Item T)
| EvPopped (r : option (MultiQueue.Item T))
| EvPeeked (r : option (MultiQueue.Item T))
| EvDeleted (i : nat).

Arguments EvPushed {T} it.
Arguments EvPopped {T} r.
Arguments EvPeeked {T} r.
Arguments EvDeleted {T} i.

Fixpoint mq_run {T PK St R : Type} `{EqDec PK} `{Number R}
  (pKeys : list PK) (pCmps : PK -> Comparator T St R)
  (ops : list (mq_op T PK)) (mq : MultiQueue.t) (s : St)
  : outcome (list (mq_event T) * MultiQueue.t (T := T) (PK := PK)) :=
  match ops with
  | [] => Ret ([], mq)
  | MqPush d :: rest =>
      let '(it, mq', s') := MultiQueue.push pKeys pCmps mq d s in
      r <- mq_run pKeys pCmps rest mq' s' ;;
      Ret (EvPushed it :: fst r, snd r)
  | MqPop k :: rest =>
      p <- MultiQueue.pop_item pCmps k mq s ;;
      r <- mq_run pKeys pCmps rest (snd (fst p)) (snd p) ;;
      Ret (EvPopped (fst (fst p)) :: fst r, snd r)
  | MqPeek k :: rest =>
      p <- MultiQueue.peek_item pCmps k mq s ;;
      r <- mq_run pKeys pCmps rest (snd (fst p)) (snd p) ;;
      Ret (EvPeeked (fst (fst p)) :: fst r, snd r)
  | MqDelete i :: rest =>
      r <- mq_run pKeys pCmps rest (MultiQueue.delete i mq) s ;;
      Ret (EvDeleted i :: fst r, snd r)
  end.

(** The ids an event takes out of the queue. *)
Definition dead_of {T : Type} (ev : mq_event T) : list nat :=
  match ev with
  | EvPopped (Some it) => [MultiQueue.id it]
  | EvDeleted i => [i]
  | _ => []
  end.

Definition dead_ids {T : Type} (evs : list (mq_event T)) : list nat :=
  flat_map dead_of evs.

Definition pushed_ids {T : Type} (evs : list (mq_event T)) : list nat :=
  flat_map (fun ev => match ev with
                      | EvPushed it => [MultiQueue.id it]
                      | _ => []
                      end) evs.

(** The wrapper an event returned to the caller through a view. *)
Definition returned {T : Type} (ev : mq_event T) : option (MultiQueue.Item T) :=
  match ev with
  | EvPopped r => r
  | EvPeeked r => r
  | _ => None
  end.

(** No pop or peek returns an id that an earlier event popped or deleted;
    [dead] holds the ids taken out before [evs]. *)
Fixpoint fresh_returns {T : Type} (dead : list nat) (evs : list (mq_event T))
  : Prop :=
  match evs with
  | [] => True
  | ev :: rest =>
      match returned ev with
      | Some it => ~ In (MultiQueue.id it) dead
      | None => True
      end /\ fresh_returns (dead ++ dead_of ev) rest
  end.

(** Every [delete] names an id that a push has already issued; [next] is
    the number of pushes so far. *)
Fixpoint issued_only {T PK : Type} (next : nat) (ops : list (mq_op T PK))
  : Prop :=
  match ops with
  | [] => True
  | MqPush _ :: rest => issued_only (S next) rest
  | MqDelete i :: rest => i < next /\ issued_only next rest
  | _ :: rest => issued_only next rest
  end.

(** The live ids and the ids taken out so far split the ids issued. *)
Definition accounted {T PK : Type} (mq : MultiQueue.t (T := T) (PK := PK))
  (dead : list nat) : Prop :=
  NoDup (MultiQueue.live mq) /\
  (forall i, In i (MultiQueue.live mq) -> ~ In i dead) /\
  (forall i, i < MultiQueue.nextId mq <->
             In i (MultiQueue.live mq) \/ In i dead).

(** ** The preference graph *)

(** [u -> v] is an edge: [v] is in the successor set of [u]. *)
Definition edge (g : DAG.t) (u v : string) : Prop :=
  exists nbrs, map_get g u = Some nbrs /\ In v nbrs.

(** [v] can be reached from [u], possibly by the empty path. *)
Inductive reach (g : DAG.t) : string -> string -> Prop :=
| reach_refl (u : string) : reach g u u
| reach_step (u v w : string) : edge g u v -> reach g v w -> reach g u w.

(** No node reaches itself by a non-empty path. *)
Definition acyclic (g : DAG.t) : Prop :=
  forall u, ~ clos_trans string (edge g) u u.

(** The same, in the form the proofs use: no edge is closed by a path. *)
Definition no_back_path (g : DAG.t) : Prop :=
  forall u v, edge g u v -> ~ reach g v u.

(** The shape of a graph built by the constructor and [addEdges]: the keys
    are distinct, every successor is a key, successor sets have no
    duplicates. *)
Definition well_formed (g : DAG.t) : Prop :=
  NoDup (map_keys g) /\
  (forall u nbrs v, map_get g u = Some nbrs -> In v nbrs -> In v (map_keys g)) /\
  (forall u nbrs, map_get g u = Some nbrs -> NoDup nbrs).

(** A graph as [addEdges] keeps it. *)
Definition sound (g : DAG.t) : Prop := well_formed g /\ no_back_path g.

(** [g'] has every edge of [g]. *)
Definition extends (g g' : DAG.t) : Prop :=
  forall u v, edge g u v -> edge g' u v.

(** A sequence of [addEdges] calls, one per hint. *)
Definition apply_hints (g : DAG.t) (hints : list (list string)) : outcome DAG.t :=
  for_each hints (fun h g => DAG.addEdges g h) g.

(** [u] comes before [v] in [l]. *)
Definition precedes (l : list string) (u v : string) : Prop :=
  exists l1 l2 l3, l = l1 ++ u :: l2 ++ v :: l3.

(** The in-degree the table of [topoSort] holds for [x]. *)
Definition degree (indegree : jsmap string Z) (x : string) : Z :=
  match map_get indegree x with Some d => d | None => 0%Z end.

(** The number of predecessors of [x] that are not in [result] yet. *)
Definition remaining (g : DAG.t) (result : list string) (x : string) : nat :=
  list_sum
    (map (fun e : string * list string =>
            if set_has result (fst e) then 0
            else count_occ string_dec (snd e) x)
       g).

(** The state of the loop of [topoSort]: emitted and queued nodes are
    distinct nodes of the graph; the table holds, for every node, the number
    of its predecessors not emitted yet, plus one for the nodes in [debt] (the
    successors of the node just emitted whose entry is still to be
    decremented); the nodes whose entry is [0] are the emitted and queued
    ones; every edge into an emitted node comes from a node emitted
    earlier. *)
Record kahn (g : DAG.t) (indegree : jsmap string Z)
  (pq result debt : list string) : Prop := {
  kahn_nodup : NoDup (result ++ pq);
  kahn_nodes : forall x, In x (result ++ pq) -> In x (map_keys g);
  kahn_table : forall x, In x (map_keys g) -> map_get indegree x <> None;
  kahn_degree : forall x, In x (map_keys g) ->
      degree indegree x
      = Z.of_nat (remaining g result x + count_occ string_dec debt x);
  kahn_zero : forall x, In x (map_keys g) ->
      (In x (result ++ pq) <-> degree indegree x = 0%Z);
  kahn_order : forall u v, edge g u v -> In v result -> precedes result u v
}.

(** What is left to expand in the traversal of [hasPath]: the entries of the
    nodes not yet visited. *)
Definition pending (g : DAG.t) (visited : list string) : nat :=
  list_sum
    (map (fun e : string * list string =>
            if set_has visited (fst e) then 0 else S (List.length (snd e)))
       g).

(** The graph after the inner loop over [us] of [addEdges], given the
    answers of [hasPath]; and the chain ends that are left. *)
Definition add_edge (g : DAG.t) (u v : string) : DAG.t :=
  match map_get g u with
  | Some nbrs => map_set g u (set_add nbrs v)
  | None => g
  end.

Definition linked (g : DAG.t) (v : string) (ubs : list (string * bool)) : DAG.t :=
  fold_left (fun g (ub : string * bool) =>
               if snd ub then g else add_edge g (fst ub) v) ubs g.

Definition pruned (chainEnds : list string) (ubs : list (string * bool))
  : list string :=
  fold_left (fun ce (ub : string * bool) =>
               if snd ub then ce else set_delete ce (fst ub)) ubs chainEnds.

(** The invariant of the traversal of [hasPath] from [src]. *)
Record traversal (g : DAG.t) (src : string) (dstList : list string)
  (visited stack reachable : list string) : Prop := {
  tr_stack : forall x, In x stack -> reach g src x /\ In x (map_keys g);
  tr_visited : forall x, In x visited -> reach g src x;
  tr_frontier : forall x y, In x visited -> edge g x y ->
                  In y visited \/ In y stack;
  tr_found : forall x, In x visited -> In x dstList -> In x reachable;
  tr_sound : forall x, In x reachable -> In x dstList /\ reach g src x;
  tr_nodup : NoDup reachable;
  tr_src : In src visited \/ In src stack
}.

(** ** The greedy sort *)

(** How [fasTopoSort] keeps its queue: every node present has one wrapper,
    recorded in [nodeMap], whose id is live and which sits in every view; the
    live ids are those of the wrappers of the nodes present, one each; ids
    at or above [nextId] are not in use. *)
Record queued (present : list string)
  (nodeMap : jsmap string (MultiQueue.Item FAS.Data)) (q : FAS.queue)
  : Prop := {
  qd_nodup : NoDup present;
  qd_item : forall n, In n present ->
      exists it, map_get nodeMap n = Some it /\
                 FAS.u (MultiQueue.data it) = n /\
                 In (MultiQueue.id it) (MultiQueue.live q);
  qd_live : forall i, In i (MultiQueue.live q) ->
      exists n it, In n present /\ map_get nodeMap n = Some it /\
                   MultiQueue.id it = i;
  qd_inj : forall n n' it it', In n present -> In n' present ->
      map_get nodeMap n = Some it -> map_get nodeMap n' = Some it' ->
      MultiQueue.id it = MultiQueue.id it' -> n = n';
  qd_live_nodup : NoDup (MultiQueue.live q);
  qd_fresh : forall i, In i (MultiQueue.live q) -> i < MultiQueue.nextId q;
  qd_views : forall k n it, In n present -> map_get nodeMap n = Some it ->
      In it (MultiQueue.qs q k);
  qd_ids : forall k it, In it (MultiQueue.qs q k) ->
      MultiQueue.id it < MultiQueue.nextId q;
  qd_current : forall k it, In it (MultiQueue.qs q k) ->
      In (MultiQueue.id it) (MultiQueue.live q) ->
      exists n, In n present /\ map_get nodeMap n = Some it
}.

(** The id recorded for a node. *)
Definition id_of (nodeMap : jsmap string (MultiQueue.Item FAS.Data))
  (n : string) : nat :=
  match map_get nodeMap n with
  | Some it => MultiQueue.id it
  | None => 0
  end.

(** The state of [fasTopoSort] between two removals. *)
Record fas_state_ok (st : FAS.state) : Prop := {
  so_queued : queued (FAS.nodes st) (FAS.nodeMap st) (FAS.q st);
  so_out : forall n, In n (FAS.nodes st) -> map_get (FAS.outAdj st) n <> None;
  so_in : forall n, In n (FAS.nodes st) -> map_get (FAS.inAdj st) n <> None
}.

(** The result array while it is filled from both ends: [placed_left], then
    one free slot per node still present, then [placed_right]. *)
Record cursor_ok (all : list string) (c : FAS.cursor)
  (placed_left placed_right : list string) : Prop := {
  co_state : fas_state_ok (FAS.st c);
  co_order : FAS.order c
             = map Some placed_left
               ++ repeat None (List.length (FAS.nodes (FAS.st c)))
               ++ map Some placed_right;
  co_left : FAS.left c = Z.of_nat (List.length placed_left);
  co_right : FAS.right c
             = (Z.of_nat (List.length placed_left
                          + List.length (FAS.nodes (FAS.st c))) - 1)%Z;
  co_all : Permutation (placed_left ++ FAS.nodes (FAS.st c) ++ placed_right) all
}.

(** The nodes an edge list mentions. *)
Definition mentioned (edges : list FAS.edge) (x : string) : Prop :=
  exists e, In e edges /\ (fst (fst e) = x \/ snd (fst e) = x).

(** The edge list read as a relation, without cycles, with positive
    weights. *)
Definition arc (edges : list FAS.edge) (a b : string) : Prop :=
  exists w, In (a, b, w) edges.

Definition arcs_acyclic (edges : list FAS.edge) : Prop :=
  forall x, ~ clos_trans string (arc edges) x x.

Definition arcs_positive (edges : list FAS.edge) : Prop :=
  forall a b w, In (a, b, w) edges -> (0 < w)%Z.

(** The weight an adjacency table holds for an edge. *)
Definition weight_of (adj : FAS.adjacency) (a b : string) : option Z :=
  match map_get adj a with
  | Some m => map_get m b
  | None => None
  end.

(** The sum of the weights of a node's table towards nodes still present. *)
Fixpoint psum (present : list string) (m : jsmap string Z) : Z :=
  match m with
  | [] => 0
  | (v, w) :: m' => (if set_has present v then w else 0) + psum present m'
  end%Z.

(** The order of the view [ByOutW]. *)
Definition le_out (a b : MultiQueue.Item FAS.Data) : Prop :=
  (FAS.outW (MultiQueue.data a) <= FAS.outW (MultiQueue.data b))%Z.

(** What a successful [pop] through a view does to the queue. *)
Definition popped_from (mq : FAS.queue) (key : FAS.view)
  (it : MultiQueue.Item FAS.Data) (mq' : FAS.queue) : Prop :=
  MultiQueue.nextId mq' = MultiQueue.nextId mq /\
  MultiQueue.live mq' = set_delete (MultiQueue.live mq) (MultiQueue.id it) /\
  In it (MultiQueue.qs mq key) /\
  In (MultiQueue.id it) (MultiQueue.live mq) /\
  (forall k, k <> key -> MultiQueue.qs mq' k = MultiQueue.qs mq k) /\
  (forall x, In x (MultiQueue.qs mq' key) -> In x (MultiQueue.qs mq key)) /\
  (forall x, In x (MultiQueue.qs mq key) ->
             In (MultiQueue.id x) (MultiQueue.live mq) ->
             x = it \/ In x (MultiQueue.qs mq' key)).

(** The state with its queue replaced, as the loops write it. *)
Definition with_q (st : FAS.state) (mq : FAS.queue) : FAS.state :=
  {| FAS.nodes := FAS.nodes st; FAS.outAdj := FAS.outAdj st;
     FAS.inAdj := FAS.inAdj st; FAS.nodeMap := FAS.nodeMap st; FAS.q := mq |}.

(** The two adjacency tables against the edge list. *)
Record network (edges : list FAS.edge) (o i : FAS.adjacency) : Prop := {
  nw_out : forall n, mentioned edges n -> map_get o n <> None;
  nw_in : forall n, mentioned edges n -> map_get i n <> None;
  nw_mirror : forall a b, weight_of i b a = weight_of o a b;
  nw_keys_out : forall n m, map_get o n = Some m -> NoDup (map_keys m);
  nw_keys_in : forall n m, map_get i n = Some m -> NoDup (map_keys m);
  nw_arcs : forall a b w, weight_of o a b = Some w -> In (a, b, w) edges
}.

(** The weight a node has towards the nodes present. *)
Definition out_sum (o0 : FAS.adjacency) (present : list string) (n : string)
  : Z :=
  match map_get o0 n with
  | Some outs => psum present outs
  | None => 0%Z
  end.

(** What the wrappers recorded for the nodes present say of [outW]. *)
Definition out_weights (present : list string) (G : string -> Z -> Prop)
  (nm : jsmap string (MultiQueue.Item FAS.Data)) : Prop :=
  forall n it, In n present -> map_get nm n = Some it ->
    G n (FAS.outW (MultiQueue.data it)).

(** The state against the adjacency tables [o0] and [i0] the set-up
    built. *)
Record weighed (o0 i0 : FAS.adjacency) (st : FAS.state) : Prop := {
  wg_out : forall n, In n (FAS.nodes st) ->
             map_get (FAS.outAdj st) n = map_get o0 n;
  wg_in : forall n, In n (FAS.nodes st) ->
            map_get (FAS.inAdj st) n = map_get i0 n;
  wg_sum : out_weights (FAS.nodes st)
             (fun n z => z = out_sum o0 (FAS.nodes st) n) (FAS.nodeMap st);
  wg_heap : heap le_out (MultiQueue.qs (FAS.q st) FAS.ByOutW)
}.

(** ** The Bradley-Terry estimator *)

(** A stand-in for [Math.log] and [Math.exp] that only knows [NaN]. *)
Definition nan_only (y : float) : float :=
  if PrimFloat.is_nan y then nan else 0%float.

(** The matrix of the claim: item 0 beats item 1 with weight [x]. *)
Definition one_sided (x : float) : list (list float) :=
  [[0; x]; [0; 0]]%float.

(** ** The cached comparator *)

(** A normalised token has no ['-'] in it. *)
Fixpoint no_dash (s : string) : bool :=
  match s with
  | EmptyString => true
  | String c s' => negb (Ascii.eqb c "-") && no_dash s'
  end.

Definition dash_free (ab : string * string) : Prop :=
  no_dash (fst ab) = true /\ no_dash (snd ab) = true.

(** The key under which [compare(a, b)] caches its result. *)
Definition dash_key (a b : string) : string := (a ++ "-" ++ b)%string.

(** A run of [compare] calls, on the comparator's state. *)
Definition call_all (session_run : list Z -> list Z -> float * float)
  (calls : list (string * string)) (c : AIComparator.t) : AIComparator.t :=
  fold_left
    (fun c (ab : string * string) =>
       snd (AIComparator.compare session_run (fst ab) (snd ab) c))
    calls c.

(** The cache never holds both orientations of a pair of distinct tokens. *)
Definition one_way (c : AIComparator.t) : Prop :=
  forall a b, no_dash a = true -> no_dash b = true -> a <> b ->
    map_get (AIComparator.cache c) (dash_key a b) <> None ->
    map_get (AIComparator.cache c) (dash_key b a) = None.

(** A session that prefers its first input by one point. *)
Definition first_wins (_ _ : list Z) : float * float := (1%float, 0%float).


(* ================================================================== *)
(** * Further vocabulary *)

(** ** The queues *)

(** The values a sequence of operations pushes, in order. *)
Definition pushed {T : Type} (ops : list (pq_op T)) : list T :=
  flat_map (fun o => match o with OpPush x => [x] | OpPop => [] end) ops.

(** The wrappers the pushes of a trace created. *)
Definition pushed_items {T : Type} (evs : list (mq_event T))
  : list (MultiQueue.Item T) :=
  flat_map (fun ev => match ev with EvPushed it => [it] | _ => [] end) evs.

(** A [MultiQueue] between two operations, against the wrappers [pushed] so
    far and the orders [le] of its views: every view is a heap; a live
    wrapper is in every view; every live id is the id of a wrapper that was
    pushed; the views hold pushed wrappers only; ids are issued once. *)
Record mq_ordered {T PK : Type} (le : PK -> MultiQueue.Item T -> MultiQueue.Item T -> Prop)
  (pushed : list (MultiQueue.Item T)) (mq : MultiQueue.t (T := T) (PK := PK))
  : Prop := {
  mo_heap : forall k, heap (le k) (MultiQueue.qs mq k);
  mo_views : forall it, In it pushed -> In (MultiQueue.id it) (MultiQueue.live mq) ->
               forall k, In it (MultiQueue.qs mq k);
  mo_live : forall i, In i (MultiQueue.live mq) ->
              exists it, In it pushed /\ MultiQueue.id it = i;
  mo_pushed : forall k it, In it (MultiQueue.qs mq k) -> In it pushed;
  mo_nodup : NoDup (MultiQueue.live mq);
  mo_fresh : forall it, In it pushed -> MultiQueue.id it < MultiQueue.nextId mq
}.

(** What a [pop] or a [peek] through the view [key] may return on the queue
    [mq] that the trace [evs] left: a wrapper that was pushed, is live, and
    is not after any live wrapper in the order of the view; or nothing, when
    no id is live. *)
Definition least_live {T PK : Type} (f : PK -> T -> T -> Z) (key : PK)
  (evs : list (mq_event T)) (mq : MultiQueue.t (T := T) (PK := PK))
  (r : option (MultiQueue.Item T)) : Prop :=
  match r with
  | Some it =>
      In (EvPushed it) evs /\ In (MultiQueue.id it) (MultiQueue.live mq) /\
      forall it', In (EvPushed it') evs ->
        In (MultiQueue.id it') (MultiQueue.live mq) ->
        not_after (f key) (MultiQueue.data it) (MultiQueue.data it')
  | None => MultiQueue.length mq = 0
  end.

(** ** The preference graph *)

(** [a] is matched by an entry of the hint and [b] by a later entry. *)
Definition hinted (g : DAG.t) (order : list string) (a b : string) : Prop :=
  exists pre x post y,
    order = pre ++ x :: post /\ In y pre /\
    In a (DAG.getMatchingNodes g y) /\ In b (DAG.getMatchingNodes g x).

(** The graph while a hint without wildcards is applied to a fresh graph:
    [chain] lists the entries met so far that are nodes; edges join entries
    of the chain only, and an entry reaches the later ones. *)
Record chained (g : DAG.t) (chain : list string) : Prop := {
  ch_edges : forall a b, edge g a b -> In a chain /\ In b chain;
  ch_reach : forall a b, precedes chain a b -> reach g a b;
  ch_nodes : forall a, In a chain -> In a (map_keys g)
}.

(** ** The extraction of an order *)

(** The pairs [(l[i], l[j])], [i < j], in the order the two loops of the
    script visit them. *)
Fixpoint ordered_pairs (l : list string) : list (string * string) :=
  match l with
  | [] => []
  | x :: rest => map (pair x) rest ++ ordered_pairs rest
  end.

Definition pair_dec (p q : string * string) : {p = q} + {p <> q}.
Proof. decide equality; apply string_dec. Defined.

(** The pairs of all the prop lists, with the prefixes made wildcards. *)
Definition all_pairs (propLists : list (list string))
  : list (string * string) :=
  flat_map (fun props => ordered_pairs (map Cli.prefixToWildcard props))
    propLists.

(** How often [u] was seen at an earlier place than [v] in one list. *)
Definition pair_count (propLists : list (list string)) (u v : string) : nat :=
  count_occ pair_dec (all_pairs propLists) (u, v).

(** [a] was seen at an earlier place than [b] in some list. *)
Definition seen_before (propLists : list (list string)) (a b : string)
  : Prop :=
  exists props, In props propLists /\
    precedes (map Cli.prefixToWildcard props) a b.

(** The table holds the counts of the pairs [ps]. *)
Definition tallies (m : Cli.Map2D) (ps : list (string * string)) : Prop :=
  forall u v,
    weight_of m u v
    = if Nat.eqb (count_occ pair_dec ps (u, v)) 0 then None
      else Some (Z.of_nat (count_occ pair_dec ps (u, v))).

(** The keys of the table and of its rows are distinct. *)
Definition grid (m : Cli.Map2D) : Prop :=
  NoDup (map_keys m) /\
  forall u row, map_get m u = Some row -> NoDup (map_keys row).

(** ** The props of one element *)

(** The runs of attributes between the spread attributes, empty ones
    included, and the spread attributes, in order. *)
Fixpoint runs {N : Type} (props : list (JSXAttributeLike N))
  : list (list (string * N)) :=
  match props with
  | [] => [[]]
  | JSXAttribute name rest :: props' =>
      match runs props' with
      | g :: gs => ((name, rest) :: g) :: gs
      | [] => [[(name, rest)]]
      end
  | JSXSpreadAttribute _ :: props' => [] :: runs props'
  end.

Definition spreads {N : Type} (props : list (JSXAttributeLike N)) : list N :=
  flat_map (fun prop => match prop with
                        | JSXSpreadAttribute rest => [rest]
                        | JSXAttribute _ _ => []
                        end) props.

(** The attributes of a run that [sortProps] keeps: the values of the map it
    builds, one per normalised name. *)
Definition kept {N : Type} (splitIdentifier : string -> string)
  (group : list (string * N)) : list (string * N) :=
  map snd (Plugin.keyMap_of splitIdentifier group).

(** A mode of the three, with the comparator the two AI modes need. *)
Definition valid_mode (this : PreferenceSorter.t) : Prop :=
  PreferenceSorter.useAI this = "no"%string \/
  ((PreferenceSorter.useAI this = "yes"%string \/
    PreferenceSorter.useAI this = "stable"%string) /\
   PreferenceSorter.aiComparator this <> None).

(** The list with the runs [gs] of attributes and the spread attributes [ss]
    between them. *)
Fixpoint weave {N : Type} (gs : list (list (string * N))) (ss : list N)
  : list (JSXAttributeLike N) :=
  match gs with
  | [] => []
  | g :: gs' =>
      map (fun item => JSXAttribute (fst item) (snd item)) g
      ++ match ss with
         | [] => []
         | s :: ss' => JSXSpreadAttribute s :: weave gs' ss'
         end
  end.

(** The attribute [item] of the run [g] has no later attribute of the run
    with the same normalised name. *)
Definition survives {N : Type} (splitIdentifier : string -> string)
  (g : list (string * N)) (item : string * N) : Prop :=
  exists g1 g2, g = g1 ++ item :: g2 /\
    forall item', In item' g2 ->
      splitIdentifier (fst item') <> splitIdentifier (fst item).

(** Every run names at most one key. *)
Definition runs_small {N : Type} (splitIdentifier : string -> string)
  (props : list (JSXAttributeLike N)) : bool :=
  forallb (fun g => Nat.ltb (List.length (kept splitIdentifier g)) 2)
    (runs props).

(** A mode outside the three values. *)
Definition other_mode (this : PreferenceSorter.t) : Prop :=
  PreferenceSorter.useAI this <> "no"%string /\
  PreferenceSorter.useAI this <> "yes"%string /\
  PreferenceSorter.useAI this <> "stable"%string.

(** ** The greedy sort on edges with cycles *)

(** Every chain of arcs from [b] ends: no cycle can be reached from [b]. *)
Definition settles (edges : list FAS.edge) (b : string) : Prop :=
  Acc (fun y x => arc edges x y) b.

(** ** Normalised names *)

(** A string of ASCII characters. *)
Definition ascii_only (s : string) : Prop :=
  Forall (fun c => SplitIdentifier.code c < 128) (list_ascii_of_string s).

(** No capital letter, no character of [[_\-.:]], and neither white space nor
    ['_'] at either end. *)
Record normal (l : list ascii) : Prop := {
  nm_upper : Forall (fun c => SplitIdentifier.is_upper c = false) l;
  nm_sep : Forall (fun c => SplitIdentifier.is_sep c = false) l;
  nm_head : forall c l', l = c :: l' -> SplitIdentifier.is_edge c = false;
  nm_last : forall c l', l = l' ++ [c] -> SplitIdentifier.is_edge c = false
}.

Definition normalised (s : string) : Prop := normal (list_ascii_of_string s).

(** The characters of attribute names: letters, digits, ['$'], the
    separators [[_\-.:]], and the space. *)
Definition name_char (c : ascii) : bool :=
  SplitIdentifier.is_upper c || SplitIdentifier.is_lower c
  || SplitIdentifier.is_digit c || SplitIdentifier.is_sep c
  || Ascii.eqb c "$" || Ascii.eqb c " ".

(** The characters the alphabet of the comparator knows besides those a
    normalisation removes. *)
Definition plain_char (c : ascii) : bool :=
  SplitIdentifier.is_upper c || SplitIdentifier.is_lower c
  || SplitIdentifier.is_digit c || Ascii.eqb c "$" || Ascii.eqb c " ".

(** The normalised names of the runs of attributes of an element. *)
Definition run_names {N : Type} (splitIdentifier : string -> string)
  (attributes : list (JSXAttributeLike N)) : list (list string) :=
  map (map (fun item : string * N => splitIdentifier (fst item)))
    (runs attributes).

Definition nonempty (g : list string) : bool :=
  match g with [] => false | _ :: _ => true end.

(** ** Hints with wildcard entries *)

(** The entry matches the string [k]: by its prefix for an entry that ends
    with ['*'], by equality otherwise. *)
Definition matches (entry k : string) : bool :=
  if endsWith entry "*" then startsWith k (slice_init entry)
  else String.eqb k entry.

(** The entries are distinct and no string is matched by two of them. *)
Definition apart (co : list string) : Prop :=
  NoDup co /\
  forall k x y, In x co -> In y co ->
    matches x k = true -> matches y k = true -> x = y.

(** [a] is matched by an entry of [co] and [b] by a later entry. *)
Definition ranked_before (co : list string) (a b : string) : Prop :=
  exists x y, precedes co x y /\ matches x a = true /\ matches y b = true.

(** [a] is in a layer and [b] in a later layer. *)
Definition across (layers : list (list string)) (a b : string) : Prop :=
  exists l1 la l2 lb l3,
    layers = l1 ++ la :: l2 ++ lb :: l3 /\ In a la /\ In b lb.

(** The graph while a hint is applied to a fresh graph: [layers] lists the
    sets of nodes matched by the entries met so far; edges join nodes of the
    layers only, and a node reaches the nodes of the later layers. *)
Record layered (g : DAG.t) (layers : list (list string)) : Prop := {
  ly_edges : forall a b, edge g a b ->
               In a (List.concat layers) /\ In b (List.concat layers);
  ly_reach : forall a b, across layers a b -> reach g a b;
  ly_nodes : forall a, In a (List.concat layers) -> In a (map_keys g)
}.

(** ** The custom order in the sorted props *)

(** The names [names] are in the order that [order] gives to those of them
    that its entries match. *)
Definition follows (order names : list string) : Prop :=
  forall a b, In a names -> In b names ->
    ranked_before order a b -> precedes names a b.

(** A sorter in one of the three modes whose first order is [co]. *)
Definition led_by (co : list string) (this : PreferenceSorter.t) : Prop :=
  valid_mode this /\ exists rest, PreferenceSorter.orders this = co :: rest.


(* ================================================================== *)
(** ** The greedy sort on binary64 weights *)

(** [queued], [fas_state_ok] and [cursor_ok] on the state of [FAS64]: they
    speak of names and ids only, never of a weight. *)
Record queued64 (present : list string)
  (nodeMap : jsmap string (MultiQueue.Item FAS64.Data)) (q : FAS64.queue)
  : Prop := {
  qd_nodup64 : NoDup present;
  qd_item64 : forall n, In n present ->
      exists it, map_get nodeMap n = Some it /\
                 FAS64.u (MultiQueue.data it) = n /\
                 In (MultiQueue.id it) (MultiQueue.live q);
  qd_live64 : forall i, In i (MultiQueue.live q) ->
      exists n it, In n present /\ map_get nodeMap n = Some it /\
                   MultiQueue.id it = i;
  qd_inj64 : forall n n' it it', In n present -> In n' present ->
      map_get nodeMap n = Some it -> map_get nodeMap n' = Some it' ->
      MultiQueue.id it = MultiQueue.id it' -> n = n';
  qd_live_nodup64 : NoDup (MultiQueue.live q);
  qd_fresh64 : forall i, In i (MultiQueue.live q) -> i < MultiQueue.nextId q;
  qd_views64 : forall k n it, In n present -> map_get nodeMap n = Some it ->
      In it (MultiQueue.qs q k);
  qd_ids64 : forall k it, In it (MultiQueue.qs q k) ->
      MultiQueue.id it < MultiQueue.nextId q;
  qd_current64 : forall k it, In it (MultiQueue.qs q k) ->
      In (MultiQueue.id it) (MultiQueue.live q) ->
      exists n, In n present /\ map_get nodeMap n = Some it
}.

Definition id_of64 (nodeMap : jsmap string (MultiQueue.Item FAS64.Data))
  (n : string) : nat :=
  match map_get nodeMap n with
  | Some it => MultiQueue.id it
  | None => 0
  end.

Record fas_state_ok64 (st : FAS64.state) : Prop := {
  so_queued64 : queued64 (FAS64.nodes st) (FAS64.nodeMap st) (FAS64.q st);
  so_out64 : forall n, In n (FAS64.nodes st) -> map_get (FAS64.outAdj st) n <> None;
  so_in64 : forall n, In n (FAS64.nodes st) -> map_get (FAS64.inAdj st) n <> None
}.

Record cursor_ok64 (all : list string) (c : FAS64.cursor)
  (placed_left placed_right : list string) : Prop := {
  co_state64 : fas_state_ok64 (FAS64.st c);
  co_order64 : FAS64.order c
             = map Some placed_left
               ++ repeat None (List.length (FAS64.nodes (FAS64.st c)))
               ++ map Some placed_right;
  co_left64 : FAS64.left c = Z.of_nat (List.length placed_left);
  co_right64 : FAS64.right c
             = (Z.of_nat (List.length placed_left
                          + List.length (FAS64.nodes (FAS64.st c))) - 1)%Z;
  co_all64 : Permutation (placed_left ++ FAS64.nodes (FAS64.st c) ++ placed_right) all
}.

Definition mentioned64 (edges : list FAS64.edge) (x : string) : Prop :=
  exists e, In e edges /\ (fst (fst e) = x \/ snd (fst e) = x).


Definition popped_from64 (mq : FAS64.queue) (key : FAS.view)
  (it : MultiQueue.Item FAS64.Data) (mq' : FAS64.queue) : Prop :=
  MultiQueue.nextId mq' = MultiQueue.nextId mq /\
  MultiQueue.live mq' = set_delete (MultiQueue.live mq) (MultiQueue.id it) /\
  In it (MultiQueue.qs mq key) /\
  In (MultiQueue.id it) (MultiQueue.live mq) /\
  (forall k, k <> key -> MultiQueue.qs mq' k = MultiQueue.qs mq k) /\
  (forall x, In x (MultiQueue.qs mq' key) -> In x (MultiQueue.qs mq key)) /\
  (forall x, In x (MultiQueue.qs mq key) ->
             In (MultiQueue.id x) (MultiQueue.live mq) ->
             x = it \/ In x (MultiQueue.qs mq' key)).

Definition with_q64 (st : FAS64.state) (mq : FAS64.queue) : FAS64.state :=
  {| FAS64.nodes := FAS64.nodes st; FAS64.outAdj := FAS64.outAdj st;
     FAS64.inAdj := FAS64.inAdj st; FAS64.nodeMap := FAS64.nodeMap st; FAS64.q := mq |}.


(* ================================================================== *)
(** ** Integers in binary64 *)

(** [p] moved left by [k] binary places. *)
Definition shl (k : nat) (p : positive) : positive := Nat.iter k xO p.

(** The number of binary digits of [p]. *)
Definition dg (p : positive) : nat := Pos.to_nat (digits2_pos p).

(** The binary64 datum of an integer below [2^53] in size: 53 digits of
    mantissa, the exponent that goes with them. *)
Definition SFint (z : Z) : spec_float :=
  match z with
  | Z0 => S754_zero false
  | Zpos p => S754_finite false (shl (53 - dg p) p) (Z.of_nat (dg p) - 53)
  | Zneg p => S754_finite true (shl (53 - dg p) p) (Z.of_nat (dg p) - 53)
  end.

(** The binary64 number of an integer. *)
Definition num (z : Z) : float :=
  if (z <? 0)%Z then (- of_uint63 (Uint63.of_Z (- z)))%float
  else of_uint63 (Uint63.of_Z z).

(* ================================================================== *)
(** ** One program on two kinds of number *)

(** A table with its values translated. *)
Definition map_vals {K V V' : Type} (f : V -> V') (m : jsmap K V) : jsmap K V' :=
  map (fun kv => (fst kv, f (snd kv))) m.

(** A wrapper with its payload translated. *)
Definition on_item {T T' : Type} (f : T -> T') (it : MultiQueue.Item T)
  : MultiQueue.Item T' :=
  {| MultiQueue.id := MultiQueue.id it; MultiQueue.data := f (MultiQueue.data it) |}.

(** Two multi-queues that hold the same wrappers at the same places, up to
    the translation of the payloads. *)
Record alike {T T' PK : Type} (f : T -> T')
  (mq : MultiQueue.t (T := T) (PK := PK))
  (mq' : MultiQueue.t (T := T') (PK := PK)) : Prop := {
  al_views : forall k, MultiQueue.qs mq' k = map (on_item f) (MultiQueue.qs mq k);
  al_live : MultiQueue.live mq' = MultiQueue.live mq;
  al_next : MultiQueue.nextId mq' = MultiQueue.nextId mq
}.

(** Every payload a view holds, dead or alive, satisfies [P]. *)
Definition within {T PK : Type} (P : T -> Prop)
  (mq : MultiQueue.t (T := T) (PK := PK)) : Prop :=
  forall k it, In it (MultiQueue.qs mq k) -> P (MultiQueue.data it).

(* ================================================================== *)
(** ** The integer reading of [fasTopoSort] against binary64 *)

(** An integer payload as the binary64 payload of the same numbers. *)
Definition as_number (d : FAS.Data) : FAS64.Data :=
  {| FAS64.u := FAS.u d; FAS64.outW := num (FAS.outW d);
     FAS64.inW := num (FAS.inW d) |}.

(** An edge list with integer weights as the argument of [fasTopoSort]. *)
Definition as_numbers (edges : list FAS.edge) : list FAS64.edge :=
  map (fun e : FAS.edge => (fst (fst e), snd (fst e), num (snd e))) edges.

(** An adjacency table and a table of wrappers, in binary64. *)
Definition as_table (adj : FAS.adjacency) : FAS64.adjacency :=
  map_vals (map_vals num) adj.

Definition as_wrappers (nm : jsmap string (MultiQueue.Item FAS.Data))
  : jsmap string (MultiQueue.Item FAS64.Data) :=
  map_vals (on_item as_number) nm.

(** The sum of the weights of an edge list. *)
Definition weight_sum (edges : list FAS.edge) : Z :=
  fold_right (fun (e : FAS.edge) s => (snd e + s)%Z) 0%Z edges.

(** The edges turned round. *)
Definition flip (edges : list FAS.edge) : list FAS.edge :=
  map (fun e : FAS.edge => (snd (fst e), fst (fst e), snd e)) edges.

(** Both weights of a payload are between [0] and [T]. *)
Definition small (T : Z) (d : FAS.Data) : Prop :=
  (0 <= FAS.outW d <= T)%Z /\ (0 <= FAS.inW d <= T)%Z.

(** What the wrappers recorded for the nodes present say of a field. *)
Definition field_is (present : list string) (field : FAS.Data -> Z)
  (G : string -> Z -> Prop) (nm : jsmap string (MultiQueue.Item FAS.Data))
  : Prop :=
  forall n it, In n present -> map_get nm n = Some it ->
    G n (field (MultiQueue.data it)).

(** The integer state against the tables [o0] and [i0] of the set-up: the
    wrapper of a node present holds the sum of its weights towards, and
    from, the nodes present; nothing in the queue exceeds [T]. *)
Record tracked (T : Z) (o0 i0 : FAS.adjacency) (st : FAS.state) : Prop := {
  tk_out : forall n, In n (FAS.nodes st) ->
             map_get (FAS.outAdj st) n = map_get o0 n;
  tk_in : forall n, In n (FAS.nodes st) ->
            map_get (FAS.inAdj st) n = map_get i0 n;
  tk_outW : field_is (FAS.nodes st) FAS.outW
              (fun n z => z = out_sum o0 (FAS.nodes st) n) (FAS.nodeMap st);
  tk_inW : field_is (FAS.nodes st) FAS.inW
             (fun n z => z = out_sum i0 (FAS.nodes st) n) (FAS.nodeMap st);
  tk_small : within (small T) (FAS.q st)
}.

(** The binary64 state that holds the numbers of an integer state. *)
Record agrees (st : FAS.state) (st' : FAS64.state) : Prop := {
  ag_nodes : FAS64.nodes st' = FAS.nodes st;
  ag_out : FAS64.outAdj st' = as_table (FAS.outAdj st);
  ag_in : FAS64.inAdj st' = as_table (FAS.inAdj st);
  ag_map : FAS64.nodeMap st' = as_wrappers (FAS.nodeMap st);
  ag_q : alike as_number (FAS.q st) (FAS64.q st')
}.

Record agrees_cursor (c : FAS.cursor) (c' : FAS64.cursor) : Prop := {
  ac_st : agrees (FAS.st c) (FAS64.st c');
  ac_order : FAS64.order c' = FAS.order c;
  ac_left : FAS64.left c' = FAS.left c;
  ac_right : FAS64.right c' = FAS.right c
}.

(** Weights that binary64 adds and subtracts without rounding: positive
    integers whose sum is below [2^52]. *)
Definition exact_weights (edges : list FAS.edge) : Prop :=
  arcs_positive edges /\ (weight_sum edges < 2 ^ 52)%Z.


(* ================================================================== *)
(** * Insertion-ordered sets and maps *)

Section JsSetFacts.
Context {K : Type} `{EqDec K}.

Lemma set_has_In (s : list K) (x : K) : set_has s x = true <-> In x s.
Proof.
  induction s as [| y s IH]; simpl.
  - split; [discriminate | tauto].
  - destruct (eq_dec y x) as [-> | Hne].
    + split; auto.
    + rewrite IH. split; [auto | intros [E | Hin]; [contradiction | exact Hin]].
Qed.

Lemma set_has_false (s : list K) (x : K) : set_has s x = false <-> ~ In x s.
Proof.
  rewrite <- set_has_In. destruct (set_has s x); split; congruence.
Qed.

Lemma set_add_In (s : list K) (x y : K) :
  In y (set_add s x) <-> y = x \/ In y s.
Proof.
  unfold set_add. destruct (set_has s x) eqn:E.
  - apply set_has_In in E. split; [auto | intros [-> | Hin]; assumption].
  - rewrite in_app_iff. simpl. intuition congruence.
Qed.

Lemma set_add_NoDup (s : list K) (x : K) : NoDup s -> NoDup (set_add s x).
Proof.
  intros Hs. unfold set_add. destruct (set_has s x) eqn:E; [exact Hs |].
  apply set_has_false in E.
  apply NoDup_app; [exact Hs | constructor; [simpl; tauto | constructor] |].
  intros a Ha [<- | []]. exact (E Ha).
Qed.

Lemma set_delete_In (s : list K) (x y : K) :
  NoDup s -> (In y (set_delete s x) <-> In y s /\ y <> x).
Proof.
  induction s as [| z s IH]; simpl; intros Hnd.
  - tauto.
  - inversion Hnd as [| ? ? Hz Hs]; subst.
    destruct (eq_dec z x) as [-> | Hne].
    + split.
      * intros Hin. split; [auto |]. intros ->. exact (Hz Hin).
      * intros [[-> | Hin] Hyx]; [contradiction | exact Hin].
    + simpl. rewrite (IH Hs). split.
      * intros [-> | [Hin Hyx]]; auto.
      * intros [[-> | Hin] Hyx]; auto.
Qed.

Lemma set_delete_incl (s : list K) (x y : K) :
  In y (set_delete s x) -> In y s.
Proof.
  induction s as [| z s IH]; simpl; [tauto |].
  destruct (eq_dec z x); simpl; intuition.
Qed.

Lemma set_delete_NoDup (s : list K) (x : K) :
  NoDup s -> NoDup (set_delete s x).
Proof.
  induction s as [| z s IH]; simpl; intros Hnd; [constructor |].
  inversion Hnd as [| ? ? Hz Hs]; subst.
  destruct (eq_dec z x); [exact Hs |].
  constructor; [| exact (IH Hs)].
  intros Hin. exact (Hz (set_delete_incl _ _ _ Hin)).
Qed.

Lemma set_delete_absent (s : list K) (x : K) :
  ~ In x s -> set_delete s x = s.
Proof.
  induction s as [| z s IH]; simpl; intros Hx; [reflexivity |].
  destruct (eq_dec z x) as [-> | Hne]; [tauto |].
  f_equal. apply IH. tauto.
Qed.

Lemma set_delete_length (s : list K) (x : K) :
  In x s -> S (List.length (set_delete s x)) = List.length s.
Proof.
  induction s as [| z s IH]; simpl; intros Hx; [contradiction |].
  destruct (eq_dec z x) as [-> | Hne]; [reflexivity |].
  simpl. f_equal. apply IH. destruct Hx; [contradiction | assumption].
Qed.

Lemma set_of_spec (xs : list K) :
  NoDup (set_of xs) /\ (forall y, In y (set_of xs) <-> In y xs).
Proof.
  unfold set_of.
  assert (G : forall acc, NoDup acc ->
            NoDup (fold_left set_add xs acc) /\
            (forall y, In y (fold_left set_add xs acc) <-> In y acc \/ In y xs)).
  { induction xs as [| x xs IH]; simpl; intros acc Hacc.
    - split; [exact Hacc | intros y; tauto].
    - destruct (IH (set_add acc x) (set_add_NoDup _ x Hacc)) as [Hnd Hin].
      split; [exact Hnd |]. intros y. rewrite Hin, set_add_In. intuition. }
  destruct (G [] (NoDup_nil _)) as [Hnd Hin].
  split; [exact Hnd |]. intros y. rewrite Hin. simpl. tauto.
Qed.
End JsSetFacts.

Section JsMapFacts.
Context {K V : Type} `{EqDec K}.
Implicit Types (m : jsmap K V) (k : K) (v : V).

Lemma map_get_set_same m k v : map_get (map_set m k v) k = Some v.
Proof.
  induction m as [| [k' v'] m IH]; simpl.
  - destruct (eq_dec k k); congruence.
  - destruct (eq_dec k' k) as [-> | Hne]; simpl.
    + destruct (eq_dec k k); congruence.
    + destruct (eq_dec k' k); [contradiction | exact IH].
Qed.

Lemma map_get_set_other m k k' v :
  k' <> k -> map_get (map_set m k v) k' = map_get m k'.
Proof.
  intros Hne. induction m as [| [k0 v0] m IH]; simpl.
  - destruct (eq_dec k k'); congruence.
  - destruct (eq_dec k0 k) as [-> | Hne0]; simpl.
    + destruct (eq_dec k k'); congruence.
    + destruct (eq_dec k0 k'); [reflexivity | exact IH].
Qed.

Lemma map_get_In m k v : map_get m k = Some v -> In (k, v) m.
Proof.
  induction m as [| [k' v'] m IH]; simpl; [discriminate |].
  destruct (eq_dec k' k) as [-> | Hne].
  - intros [= ->]. auto.
  - auto.
Qed.

Lemma map_get_keys m k : map_get m k <> None <-> In k (map_keys m).
Proof.
  induction m as [| [k' v'] m IH]; simpl.
  - tauto.
  - destruct (eq_dec k' k) as [-> | Hne].
    + split; [auto | discriminate].
    + rewrite IH. intuition.
Qed.

Lemma map_has_keys m k : map_has m k = true <-> In k (map_keys m).
Proof.
  rewrite <- map_get_keys. unfold map_has.
  destruct (map_get m k); split; congruence.
Qed.

Lemma map_get_None m k : map_get m k = None <-> ~ In k (map_keys m).
Proof.
  rewrite <- map_get_keys. destruct (map_get m k); split; try congruence.
  intros Hn. exfalso. apply Hn. discriminate.
Qed.

Lemma In_map_get m k v :
  NoDup (map_keys m) -> In (k, v) m -> map_get m k = Some v.
Proof.
  induction m as [| [k' v'] m IH]; simpl; intros Hnd Hin; [contradiction |].
  inversion Hnd as [| ? ? Hk Hm]; subst.
  destruct Hin as [[= -> ->] | Hin].
  - destruct (eq_dec k k); congruence.
  - destruct (eq_dec k' k) as [-> | Hne].
    + exfalso. apply Hk. change (In (fst (k, v)) (map fst m)).
      apply in_map. exact Hin.
    + apply IH; assumption.
Qed.

(** Setting a present key keeps the keys as they are. *)
Lemma map_set_keys_present m k v :
  In k (map_keys m) -> map_keys (map_set m k v) = map_keys m.
Proof.
  induction m as [| [k' v'] m IH]; simpl; intros Hin; [contradiction |].
  destruct (eq_dec k' k) as [-> | Hne]; simpl; [reflexivity |].
  f_equal. apply IH. destruct Hin; [contradiction | assumption].
Qed.

Lemma map_set_keys_absent m k v :
  ~ In k (map_keys m) -> map_keys (map_set m k v) = map_keys m ++ [k].
Proof.
  induction m as [| [k' v'] m IH]; simpl; intros Hin; [reflexivity |].
  destruct (eq_dec k' k) as [-> | Hne]; simpl; [tauto |].
  f_equal. apply IH. tauto.
Qed.

Lemma map_set_keys_In m k v k' :
  In k' (map_keys (map_set m k v)) <-> k' = k \/ In k' (map_keys m).
Proof.
  rewrite <- !map_get_keys.
  destruct (eq_dec k' k) as [-> | Hne].
  - rewrite map_get_set_same. split; [auto | discriminate].
  - rewrite map_get_set_other by exact Hne. intuition.
Qed.

Lemma map_set_keys_NoDup m k v :
  NoDup (map_keys m) -> NoDup (map_keys (map_set m k v)).
Proof.
  intros Hnd.
  destruct (in_dec eq_dec k (map_keys m)) as [Hin | Hin].
  - rewrite map_set_keys_present by exact Hin. exact Hnd.
  - rewrite map_set_keys_absent by exact Hin.
    apply NoDup_app; [exact Hnd | constructor; [simpl; tauto | constructor] |].
    intros a Ha [<- | []]. exact (Hin Ha).
Qed.

(** Writing back the value a key already has changes nothing. *)
Lemma map_set_same m k v : map_get m k = Some v -> map_set m k v = m.
Proof.
  induction m as [| [k' v'] m IH]; simpl; [discriminate |].
  destruct (eq_dec k' k) as [-> | Hne].
  - intros [= ->]. reflexivity.
  - intros E. f_equal. exact (IH E).
Qed.

Lemma map_get_delete_same m k :
  NoDup (map_keys m) -> map_get (map_delete m k) k = None.
Proof.
  induction m as [| [k' v'] m IH]; simpl; intros Hnd; [reflexivity |].
  inversion Hnd as [| ? ? Hk Hm]; subst.
  destruct (eq_dec k' k) as [-> | Hne].
  - apply map_get_None. exact Hk.
  - simpl. destruct (eq_dec k' k); [contradiction | exact (IH Hm)].
Qed.

Lemma map_get_delete_other m k k' :
  k' <> k -> map_get (map_delete m k) k' = map_get m k'.
Proof.
  intros Hne. induction m as [| [k0 v0] m IH]; simpl; [reflexivity |].
  destruct (eq_dec k0 k) as [-> | Hne0]; simpl.
  - destruct (eq_dec k k'); congruence.
  - destruct (eq_dec k0 k'); [reflexivity | exact IH].
Qed.

Lemma map_delete_keys m k : map_keys (map_delete m k) = set_delete (map_keys m) k.
Proof.
  induction m as [| [k' v'] m IH]; simpl; [reflexivity |].
  destruct (eq_dec k' k); simpl; [reflexivity | f_equal; exact IH].
Qed.
End JsMapFacts.

(* ================================================================== *)
(** * Outcomes *)

Lemma bind_Ret_inv {A B : Type} (m : outcome A) (k : A -> outcome B) (b : B) :
  bind m k = Ret b -> exists a, m = Ret a /\ k a = Ret b.
Proof. destruct m; simpl; intros E; try discriminate. eauto. Qed.

(** A loop whose body keeps an invariant and never raises runs to its end. *)
Lemma for_each_inv {A St : Type} (P : St -> Prop) (Q : A -> Prop)
  (body : A -> St -> outcome St) (xs : list A) (st : St) :
  (forall x s, Q x -> P s -> exists s', body x s = Ret s' /\ P s') ->
  Forall Q xs -> P st ->
  exists st', for_each xs body st = Ret st' /\ P st'.
Proof.
  intros Hbody. revert st.
  induction xs as [| x xs IH]; simpl; intros st HQ HP.
  - eauto.
  - inversion HQ as [| ? ? Hx Hxs]; subst.
    destruct (Hbody x st Hx HP) as (s' & E & HP').
    rewrite E. simpl. apply IH; assumption.
Qed.


(* ================================================================== *)
(** * Bradley-Terry: the one-sided 2x2 matrix *)

Section BradleyTerryFacts.
Local Open Scope float_scope.

(** [NaN] absorbs: a quotient or a sum with a [NaN] operand is [NaN]. *)
Lemma div_nan_r (y : float) : y / nan = nan.
Proof.
  apply Prim2SF_inj. rewrite div_spec.
  change (Prim2SF nan) with S754_nan.
  destruct (Prim2SF y); reflexivity.
Qed.

Lemma div_nan_l (y : float) : nan / y = nan.
Proof.
  apply Prim2SF_inj. rewrite div_spec.
  change (Prim2SF nan) with S754_nan. reflexivity.
Qed.

Lemma add_nan_r (y : float) : y + nan = nan.
Proof.
  apply Prim2SF_inj. rewrite add_spec.
  change (Prim2SF nan) with S754_nan.
  destruct (Prim2SF y); reflexivity.
Qed.

Lemma mul_nan_r (y : float) : y * nan = nan.
Proof.
  apply Prim2SF_inj. rewrite mul_spec.
  change (Prim2SF nan) with S754_nan.
  destruct (Prim2SF y); reflexivity.
Qed.

(** Dividing by [+0] gives an infinity or [NaN], whatever the dividend. *)
Lemma div_zero_cases (y : float) :
  y / 0 = nan \/ y / 0 = infinity \/ y / 0 = neg_infinity.
Proof.
  assert (E := div_spec y 0).
  change (Prim2SF 0) with (S754_zero false) in E.
  destruct (Prim2SF y) as [s | s | | s m e] eqn:Ey.
  - left. apply Prim2SF_inj. rewrite E. reflexivity.
  - destruct s.
    + right; right. apply Prim2SF_inj. rewrite E. reflexivity.
    + right; left. apply Prim2SF_inj. rewrite E. reflexivity.
  - left. apply Prim2SF_inj. rewrite E. reflexivity.
  - destruct s.
    + right; right. apply Prim2SF_inj. rewrite E. reflexivity.
    + right; left. apply Prim2SF_inj. rewrite E. reflexivity.
Qed.
End BradleyTerryFacts.

Section BradleyTerryOneSided.
Local Open Scope float_scope.
Variables Math_log Math_exp : float -> float.
Hypothesis log_nan : Math_log nan = nan.
Hypothesis exp_nan : Math_exp nan = nan.
Variable x : float.


(** The second item's numerator is [0 * p0 / (1 + p0)] with [p0] an infinity
    or [NaN]: it is [NaN]. *)
Lemma second_numerator_nan (y d : float) :
  (0 + 0 * (y / 0) / (1 + y / 0)) / d = nan.
Proof.
  destruct (div_zero_cases y) as [E | [E | E]]; rewrite E;
    match goal with
    | |- ?n / d = nan => change n with nan
    end; apply div_nan_l.
Qed.

Lemma first_sweep :
  exists a n0,
    BradleyTerry.sweep Math_log (one_sided x) 2 [1; 1] = ([a; nan], n0 + nan).
Proof.
  unfold BradleyTerry.sweep, one_sided. cbn [seq fold_left].
  unfold BradleyTerry.accum.
  cbn [seq fold_left Nat.eqb fst snd BradleyTerry.at_ BradleyTerry.cell nth
       array_set].
  change (0 + 0 / (1 + 1)) with 0.
  rewrite second_numerator_nan, log_nan.
  eexists _, _. reflexivity.
Qed.

(** Once every strength is [NaN], a pass leaves them so and the geometric
    mean is [NaN] too, so the convergence test never stops the loop. *)
Lemma nan_sweep :
  BradleyTerry.sweep Math_log (one_sided x) 2 [nan; nan] = ([nan; nan], nan).
Proof.
  unfold BradleyTerry.sweep, one_sided. cbn [seq fold_left].
  unfold BradleyTerry.accum.
  cbn [seq fold_left Nat.eqb fst snd BradleyTerry.at_ BradleyTerry.cell nth
       array_set].
  change (nan + nan) with nan.
  rewrite !div_nan_r. change (0 + nan) with nan.
  change (nan / nan) with nan. rewrite !log_nan. reflexivity.
Qed.

Lemma iterate_step (k : nat) (w : list (list float)) (n : nat)
  (p : list float) (lastNorm : float) :
  BradleyTerry.iterate Math_log Math_exp (S k) w n p lastNorm
  = let (p1, normLog0) := BradleyTerry.sweep Math_log w n p in
    let normLog := Math_exp (normLog0 / BradleyTerry.num_of_nat n) in
    let p2 := map (fun x => x / normLog) p1 in
    if abs (lastNorm - normLog) <? BradleyTerry.tolerance then p2
    else BradleyTerry.iterate Math_log Math_exp k w n p2 normLog.
Proof. reflexivity. Qed.

Lemma nan_iterate (k : nat) :
  BradleyTerry.iterate Math_log Math_exp k (one_sided x) 2 [nan; nan] nan
  = [nan; nan].
Proof.
  induction k as [| k IH]; [reflexivity |].
  rewrite iterate_step, nan_sweep. cbv zeta.
  change (nan / BradleyTerry.num_of_nat 2) with nan.
  rewrite exp_nan. cbn [map]. change (nan / nan) with nan.
  change (abs (nan - nan) <? BradleyTerry.tolerance) with false.
  cbv iota. exact IH.
Qed.

Lemma one_sided_nan :
  BradleyTerry.bradleyTerry Math_log Math_exp (one_sided x) = [nan; nan].
Proof.
  unfold BradleyTerry.bradleyTerry, BradleyTerry.bradleyTerry_iter.
  change (List.length (one_sided x)) with 2%nat.
  cbn [repeat]. rewrite iterate_step.
  destruct first_sweep as (a & n0 & E). rewrite E. cbv zeta.
  rewrite add_nan_r.
  change (nan / BradleyTerry.num_of_nat 2) with nan.
  rewrite exp_nan. cbn [map]. rewrite div_nan_r.
  change (nan / nan) with nan.
  change (abs (0 - nan) <? BradleyTerry.tolerance) with false.
  cbv iota. apply nan_iterate.
Qed.
End BradleyTerryOneSided.

(** C8. For the 2x2 win matrix in which item 0 beats item 1 with a positive
    weight [x] and every other entry is zero, [bradleyTerry] (with its default
    iteration cap, and [Math.log], [Math.exp] mapping [NaN] to [NaN] as
    ECMAScript requires) returns [NaN] for both strengths. *)
Theorem bradleyTerry_one_sided_nan :
  forall (Math_log Math_exp : float -> float),
    Math_log nan = nan ->
    Math_exp nan = nan ->
    forall x : float,
      (0 <? x)%float = true ->
      BradleyTerry.bradleyTerry Math_log Math_exp [[0; x]; [0; 0]]%float
      = [nan; nan].
Proof.
  intros lg ex Hl He x _. exact (one_sided_nan lg ex Hl He x).
Qed.

(** The matrix [[0, 10], [0, 0]] of the test suite. *)
Lemma bradleyTerry_one_sided_nan_witness :
  BradleyTerry.bradleyTerry nan_only nan_only [[0; 10]; [0; 0]]%float
  = [nan; nan].
Proof.
  apply (bradleyTerry_one_sided_nan nan_only nan_only);
    vm_compute; reflexivity.
Defined.


(* ================================================================== *)
(** * The cached comparator *)

Section AIComparatorFacts.
Local Open Scope string_scope.
Variable session_run : list Z -> list Z -> float * float.

Local Abbreviation compare := (AIComparator.compare session_run).

Lemma dash_key_inj (a a' b b' : string) :
  no_dash a = true -> no_dash a' = true ->
  dash_key a b = dash_key a' b' -> a = a' /\ b = b'.
Proof.
  unfold dash_key. revert a'.
  induction a as [| c a IH]; intros [| c' a']; simpl; intros Ha Ha' E.
  - injection E as E. auto.
  - injection E as Ec E. subst c'. simpl in Ha'. discriminate.
  - injection E as Ec E. subst c. simpl in Ha. discriminate.
  - injection E as Ec E. subst c'.
    apply andb_true_iff in Ha, Ha'.
    destruct (IH a' (proj2 Ha) (proj2 Ha') E) as [-> ->]. auto.
Qed.

(** What a call does to the state: nothing, or one new entry under a key
    neither orientation of which was present, after one run of the session. *)
Lemma compare_effect (a b : string) (c : AIComparator.t) :
  snd (compare a b c) = c \/
  (map_get (AIComparator.cache c) (dash_key a b) = None /\
   map_get (AIComparator.cache c) (dash_key b a) = None /\
   exists v,
     fst (compare a b c) = v /\
     snd (compare a b c)
     = {| AIComparator.cache := map_set (AIComparator.cache c) (dash_key a b) v;
          AIComparator.runs := AIComparator.runs c ++ [(a, b)] |}).
Proof.
  unfold AIComparator.compare. fold (dash_key a b). fold (dash_key b a).
  destruct (map_get (AIComparator.cache c) (dash_key a b)); [left; reflexivity |].
  destruct (map_get (AIComparator.cache c) (dash_key b a)); [left; reflexivity |].
  right. simpl. eauto.
Qed.

Lemma compare_keeps (a b : string) (c : AIComparator.t) (k : string) (v : float) :
  map_get (AIComparator.cache c) k = Some v ->
  map_get (AIComparator.cache (snd (compare a b c))) k = Some v.
Proof.
  intros Hk. destruct (compare_effect a b c) as [-> | (Hab & _ & w & _ & ->)].
  - exact Hk.
  - simpl. rewrite map_get_set_other; [exact Hk |]. congruence.
Qed.

Lemma call_all_keeps (calls : list (string * string)) (c : AIComparator.t)
  (k : string) (v : float) :
  map_get (AIComparator.cache c) k = Some v ->
  map_get (AIComparator.cache (call_all session_run calls c)) k = Some v.
Proof.
  revert c. induction calls as [| ab calls IH]; simpl; intros c Hk.
  - exact Hk.
  - apply IH. apply compare_keeps. exact Hk.
Qed.

Lemma compare_one_way (a b : string) (c : AIComparator.t) :
  no_dash a = true -> no_dash b = true ->
  one_way c -> one_way (snd (compare a b c)).
Proof.
  intros Ha Hb Hc.
  destruct (compare_effect a b c) as [-> | (Hab & Hba & w & _ & ->)];
    [exact Hc |].
  intros x y Hx Hy Hxy. simpl.
  destruct (string_dec (dash_key x y) (dash_key a b)) as [E | NE].
  - destruct (dash_key_inj _ _ _ _ Hx Ha E) as [-> ->].
    intros _. rewrite map_get_set_other; [exact Hba |].
    intros E'. destruct (dash_key_inj _ _ _ _ Hb Ha E') as [-> _]. congruence.
  - rewrite map_get_set_other by exact NE. intros Hpresent.
    destruct (string_dec (dash_key y x) (dash_key a b)) as [E' | NE'].
    + destruct (dash_key_inj _ _ _ _ Hy Ha E') as [-> ->].
      contradiction.
    + rewrite map_get_set_other by exact NE'. apply Hc; assumption.
Qed.

Lemma call_all_one_way (calls : list (string * string)) (c : AIComparator.t) :
  Forall dash_free calls -> one_way c -> one_way (call_all session_run calls c).
Proof.
  revert c. induction calls as [| ab calls IH]; simpl; intros c Hd Hc.
  - exact Hc.
  - inversion Hd as [| ? ? [Ha Hb] Hrest]; subst.
    apply IH; [exact Hrest |]. apply compare_one_way; assumption.
Qed.

Lemma create_one_way : one_way AIComparator.create.
Proof. intros a b _ _ _ Hp. simpl in Hp. congruence. Qed.

Lemma float_opp_involutive (x : float) : (- - x)%float = x.
Proof.
  apply Prim2SF_inj. rewrite !opp_spec.
  destruct (Prim2SF x) as [s | s | | s m e]; simpl;
    try rewrite negb_involutive; reflexivity.
Qed.

(** With the value of the pair cached in either orientation, both
    orientations answer from the cache, with opposite signs. *)
Lemma cached_answers (a b : string) (d : AIComparator.t) (v : float) :
  no_dash a = true -> no_dash b = true -> a <> b -> one_way d ->
  map_get (AIComparator.cache d) (dash_key a b) = Some v ->
  compare a b d = (v, d) /\ compare b a d = ((- v)%float, d).
Proof.
  intros Ha Hb Hab Hd Hk.
  assert (Hrev : map_get (AIComparator.cache d) (dash_key b a) = None).
  { apply Hd; auto. congruence. }
  unfold AIComparator.compare. fold (dash_key a b). fold (dash_key b a).
  rewrite Hk, Hrev. auto.
Qed.

Lemma compare_then_cached (pre post : list (string * string)) (a b : string) :
  Forall dash_free pre -> Forall dash_free post ->
  no_dash a = true -> no_dash b = true -> a <> b ->
  let c := call_all session_run pre AIComparator.create in
  let v := fst (compare a b c) in
  let d := call_all session_run post (snd (compare a b c)) in
  compare a b d = (v, d) /\ compare b a d = ((- v)%float, d).
Proof.
  intros Hpre Hpost Ha Hb Hab c v d.
  assert (Hc : one_way c) by (apply call_all_one_way; [exact Hpre | apply create_one_way]).
  assert (Hd : one_way d).
  { apply call_all_one_way; [exact Hpost |]. apply compare_one_way; assumption. }
  assert (Cases :
    map_get (AIComparator.cache (snd (compare a b c))) (dash_key a b) = Some v \/
    exists w, v = (- w)%float /\
      map_get (AIComparator.cache (snd (compare a b c))) (dash_key b a) = Some w).
  { subst v. unfold AIComparator.compare. fold (dash_key a b). fold (dash_key b a).
    destruct (map_get (AIComparator.cache c) (dash_key a b)) eqn:E1;
      [left; exact E1 |].
    destruct (map_get (AIComparator.cache c) (dash_key b a)) as [w |] eqn:E2;
      [right; exists w; split; [reflexivity | exact E2] |].
    left. simpl. apply map_get_set_same. }
  destruct Cases as [Hk | (w & Hv & Hk)].
  - apply cached_answers; auto. apply call_all_keeps. exact Hk.
  - assert (Hkd := call_all_keeps post _ _ _ Hk). fold d in Hkd.
    destruct (cached_answers b a d w Hb Ha (not_eq_sym Hab) Hd Hkd) as [E1 E2].
    rewrite Hv, float_opp_involutive. auto.
Qed.
End AIComparatorFacts.

(** C10, as amended. With the inference session a function of its two
    inputs, and for two *distinct* tokens [a], [b] without ['-'], at any point
    of a run of calls on such tokens that started from a fresh comparator:
    let [v] be what [compare(a, b)] returns; after any further calls, every
    [compare(a, b)] returns [v] and every [compare(b, a)] returns [-v], and
    neither changes the state, so the session is not run again. *)
Theorem compare_cached_antisymmetric :
  forall (session_run : list Z -> list Z -> float * float)
         (pre post : list (string * string)) (a b : string),
    Forall dash_free pre -> Forall dash_free post ->
    no_dash a = true -> no_dash b = true -> a <> b ->
    let c := call_all session_run pre AIComparator.create in
    let v := fst (AIComparator.compare session_run a b c) in
    let d := call_all session_run post
               (snd (AIComparator.compare session_run a b c)) in
    AIComparator.compare session_run a b d = (v, d) /\
    AIComparator.compare session_run b a d = ((- v)%float, d).
Proof. exact compare_then_cached. Qed.

Lemma compare_cached_antisymmetric_witness :
  let c := call_all first_wins [("b"%string, "c"%string)]  AIComparator.create in
  let v := fst (AIComparator.compare first_wins "a"%string "b"%string c) in
  let d := call_all first_wins [("c"%string, "a"%string)] 
             (snd (AIComparator.compare first_wins "a"%string "b"%string c)) in
  AIComparator.compare first_wins "a"%string "b"%string d = (v, d) /\
  AIComparator.compare first_wins "b"%string "a"%string d = ((- v)%float, d).
Proof.
  apply (compare_cached_antisymmetric first_wins
           [("b"%string, "c"%string)]  [("c"%string, "a"%string)]  "a"%string "b"%string).
  - repeat constructor.
  - repeat constructor.
  - reflexivity.
  - reflexivity.
  - discriminate.
Defined.

(** C10 as stated fails when the two tokens are the same: the second
    [compare(a, a)] is the repeated call and the reversed call at once, and it
    returns the cached [1], not [-1]. *)
Lemma compare_same_token_not_negated :
  ~ (forall a b : string,
       no_dash a = true -> no_dash b = true ->
       let c1 := snd (AIComparator.compare first_wins a b AIComparator.create) in
       let v := fst (AIComparator.compare first_wins a b AIComparator.create) in
       fst (AIComparator.compare first_wins b a c1) = (- v)%float).
Proof.
  intros Hclaim.
  specialize (Hclaim "a"%string "a"%string eq_refl eq_refl).
  vm_compute in Hclaim.
  apply (f_equal (fun x => PrimFloat.ltb x 0%float)) in Hclaim.
  vm_compute in Hclaim. discriminate.
Qed.


(* ================================================================== *)
(** * Arrays *)

Section ArrayFacts.
Context {A : Type}.
Implicit Types (q : list A) (i j : nat) (x y : A).

Lemma array_set_length q i x : List.length (array_set q i x) = List.length q.
Proof.
  revert i. induction q as [| a q IH]; intros [| i]; simpl; auto.
Qed.

Lemma nth_error_array_set_same q i x :
  i < List.length q -> nth_error (array_set q i x) i = Some x.
Proof.
  revert i. induction q as [| a q IH]; intros [| i]; simpl; intros Hi;
    try lia; auto. apply IH. lia.
Qed.

Lemma nth_error_array_set_other q i j x :
  i <> j -> nth_error (array_set q i x) j = nth_error q j.
Proof.
  revert i j. induction q as [| a q IH]; intros [| i] [| j]; simpl;
    intros Hij; try congruence; auto.
Qed.

Lemma array_set_perm q j x y :
  nth_error q j = Some y -> Permutation (y :: array_set q j x) (x :: q).
Proof.
  revert j. induction q as [| a q IH]; intros [| j]; simpl; intros E;
    try discriminate.
  - injection E as ->. apply perm_swap.
  - rewrite perm_swap. rewrite (IH j E). apply perm_swap.
Qed.

Lemma array_set_id q i x : nth_error q i = Some x -> array_set q i x = q.
Proof.
  revert i. induction q as [| a q IH]; intros [| i]; simpl; intros E;
    try discriminate.
  - congruence.
  - f_equal. exact (IH i E).
Qed.
End ArrayFacts.

(* ================================================================== *)
(** * The heap as a container: any comparator, stateful or inconsistent *)

Section HeapContainer.
Context {T St R : Type} `{Number R}.
Variable cmp : Comparator T St R.

Local Abbreviation swap := (@PriorityQueue.swap T).

Lemma swap_length (q : list T) (i j : nat) :
  List.length (swap q i j) = List.length q.
Proof.
  unfold PriorityQueue.swap.
  destruct (nth_error q i), (nth_error q j); auto.
  now rewrite !array_set_length.
Qed.

Lemma swap_perm (q : list T) (i j : nat) : Permutation (swap q i j) q.
Proof.
  unfold PriorityQueue.swap.
  destruct (nth_error q i) as [x |] eqn:Ei; [| reflexivity].
  destruct (nth_error q j) as [y |] eqn:Ej; [| reflexivity].
  destruct (Nat.eq_dec i j) as [-> | Hij].
  - assert (x = y) by congruence. subst y.
    rewrite (array_set_id q j x Ej). rewrite (array_set_id q j x Ej).
    reflexivity.
  - apply (Permutation_cons_inv (a := y)).
    rewrite (array_set_perm (array_set q i y) j x y).
    + apply array_set_perm. exact Ei.
    + rewrite nth_error_array_set_other by exact Hij. exact Ej.
Qed.

Lemma swap_get_l (q : list T) (i j : nat) (x y : T) :
  nth_error q i = Some x -> nth_error q j = Some y ->
  nth_error (swap q i j) i = Some y.
Proof.
  intros Ei Ej. unfold PriorityQueue.swap. rewrite Ei, Ej.
  assert (Hi : i < List.length q) by (apply nth_error_Some; congruence).
  destruct (Nat.eq_dec i j) as [-> | Hij].
  - rewrite nth_error_array_set_same; [congruence |].
    now rewrite array_set_length.
  - rewrite nth_error_array_set_other by auto.
    now apply nth_error_array_set_same.
Qed.

Lemma swap_get_r (q : list T) (i j : nat) (x y : T) :
  nth_error q i = Some x -> nth_error q j = Some y ->
  nth_error (swap q i j) j = Some x.
Proof.
  intros Ei Ej. unfold PriorityQueue.swap. rewrite Ei, Ej.
  assert (Hj : j < List.length q) by (apply nth_error_Some; congruence).
  apply nth_error_array_set_same. now rewrite array_set_length.
Qed.

Lemma swap_get_other (q : list T) (i j k : nat) :
  k <> i -> k <> j -> nth_error (swap q i j) k = nth_error q k.
Proof.
  intros Hi Hj. unfold PriorityQueue.swap.
  destruct (nth_error q i), (nth_error q j); auto.
  now rewrite !nth_error_array_set_other by auto.
Qed.

Lemma siftUp_loop_perm (fuel : nat) (q : list T) (idx : nat) (s : St) :
  Permutation (fst (PriorityQueue.siftUp_loop cmp fuel q idx s)) q.
Proof.
  revert q idx s. induction fuel as [| fuel IH]; intros q idx s;
    cbn [PriorityQueue.siftUp_loop].
  - reflexivity.
  - destruct (idx =? 0); [reflexivity |].
    destruct (nth_error q idx) as [x |]; [| reflexivity].
    destruct (nth_error q ((idx - 1) / 2)) as [p |]; [| reflexivity].
    destruct (cmp x p s) as [r s'].
    destruct (ltz r); [| reflexivity].
    rewrite IH. apply swap_perm.
Qed.

Lemma push_perm (q : list T) (x : T) (s : St) :
  Permutation (fst (PriorityQueue.push cmp q x s)) (x :: q).
Proof.
  unfold PriorityQueue.push, PriorityQueue.siftUp.
  rewrite siftUp_loop_perm. rewrite Permutation_app_comm. reflexivity.
Qed.

Lemma siftDown_loop_perm (fuel : nat) (q : list T) (idx : nat) (s : St) :
  Permutation (fst (PriorityQueue.siftDown_loop cmp fuel q idx s)) q.
Proof.
  revert q idx s. induction fuel as [| fuel IH]; intros q idx s;
    cbn [PriorityQueue.siftDown_loop].
  - reflexivity.
  - destruct (PriorityQueue.pick cmp q (2 * idx + 1) idx s) as [min1 s1].
    destruct (PriorityQueue.pick cmp q (2 * idx + 2) min1 s1) as [min2 s2].
    destruct (min2 =? idx); [reflexivity |].
    rewrite IH. apply swap_perm.
Qed.

(** [pop] on the empty queue gives [undefined] and changes nothing. *)
Lemma pop_empty (s : St) :
  PriorityQueue.pop cmp [] s = (None, [], s).
Proof. reflexivity. Qed.

(** [pop] on a non-empty queue takes out the root. *)
Lemma pop_nonempty (top : T) (q : list T) (s : St) :
  exists q' s',
    PriorityQueue.pop cmp (top :: q) s = (Some top, q', s') /\
    Permutation (top :: q') (top :: q).
Proof.
  unfold PriorityQueue.pop.
  destruct (removelast (top :: q)) as [| a l] eqn:Er.
  - eexists _, _. split; [reflexivity |].
    destruct q as [| b q]; [reflexivity |]. simpl in Er.
    destruct q; discriminate.
  - destruct (PriorityQueue.siftDown cmp
                (array_set (a :: l) 0 (List.last (top :: q) top)) 0 s)
      as [q'' s'] eqn:Es.
    eexists _, _. split; [reflexivity |].
    assert (Hq : q'' = fst (PriorityQueue.siftDown cmp
                (array_set (a :: l) 0 (List.last (top :: q) top)) 0 s))
      by (rewrite Es; reflexivity).
    rewrite Hq. unfold PriorityQueue.siftDown. rewrite siftDown_loop_perm.
    simpl array_set.
    destruct q as [| b q]; [discriminate |].
    assert (Hsplit := app_removelast_last top (l := top :: b :: q)
                        ltac:(discriminate)).
    rewrite Er in Hsplit.
    assert (a = top) by (simpl in Er; destruct q; congruence). subst a.
    simpl in Hsplit. injection Hsplit as Hsplit.
    apply perm_skip. rewrite Hsplit at 2. apply Permutation_cons_append.
Qed.

Lemma pop_length (q : list T) (s : St) :
  List.length (snd (fst (PriorityQueue.pop cmp q s))) = List.length q - 1.
Proof.
  destruct q as [| top q]; [reflexivity |].
  destruct (pop_nonempty top q s) as (q' & s' & E & P).
  rewrite E. simpl. apply Permutation_length in P. simpl in P. lia.
Qed.

Lemma push_length (q : list T) (x : T) (s : St) :
  List.length (fst (PriorityQueue.push cmp q x s)) = S (List.length q).
Proof.
  rewrite (Permutation_length (push_perm q x s)). reflexivity.
Qed.
End HeapContainer.

(* ================================================================== *)
(** * The heap order

    The comparator is only asked to agree with a preorder [le]: a negative
    result puts the first argument not after the second, any other result
    puts the second not after the first. A three-way comparator of a total
    preorder does, and so does the [outW] comparator of [fasTopoSort], which
    answers [-1] on a tie in both directions. *)

Lemma parent_children (j k : nat) :
  0 < j -> (parent j = k <-> j = 2 * k + 1 \/ j = 2 * k + 2).
Proof.
  intros Hj. unfold parent.
  pose proof (Nat.div_mod_eq (j - 1) 2) as E.
  pose proof (Nat.mod_upper_bound (j - 1) 2 ltac:(lia)) as B.
  split.
  - intros <-. lia.
  - intros [-> | ->].
    + replace (2 * k + 1 - 1) with (k * 2) by lia. apply Nat.div_mul. lia.
    + replace (2 * k + 2 - 1) with (1 + k * 2) by lia.
      rewrite Nat.div_add by lia. reflexivity.
Qed.

Lemma parent_lt (j : nat) : 0 < j -> parent j < j.
Proof.
  intros Hj. destruct (proj1 (parent_children j (parent j) Hj) eq_refl); lia.
Qed.

Section HeapOrder.
Context {T St R : Type} `{Number R}.
Variable cmp : Comparator T St R.
Variable le : T -> T -> Prop.
Hypothesis le_trans : forall a b c, le a b -> le b c -> le a c.
Hypothesis lt_le : forall a b s, ltz (fst (cmp a b s)) = true -> le a b.
Hypothesis ge_le : forall a b s, ltz (fst (cmp a b s)) = false -> le b a.

Lemma le_refl (a : T) (s : St) : le a a.
Proof.
  destruct (ltz (fst (cmp a a s))) eqn:E; [eapply lt_le | eapply ge_le]; eauto.
Qed.

(** The root of a heap is a least element. *)
Lemma heap_root_least (q : list T) (s : St) :
  heap le q ->
  forall i top x, nth_error q 0 = Some top -> nth_error q i = Some x ->
    le top x.
Proof.
  intros Hq i. induction i as [i IH] using lt_wf_ind. intros top x Ht Hx.
  destruct i as [| i].
  - assert (x = top) by congruence. subst. eapply le_refl; eauto.
  - assert (Hp : parent (S i) < S i) by (apply parent_lt; lia).
    destruct (nth_error q (parent (S i))) as [p |] eqn:Ep.
    + apply le_trans with p.
      * apply (IH _ Hp top p Ht Ep).
      * apply (Hq (S i) x p); auto. lia.
    + apply nth_error_None in Ep.
      assert (S i < List.length q) by (apply nth_error_Some; congruence).
      lia.
Qed.

Lemma siftUp_loop_heap (fuel : nat) (q : list T) (k : nat) (s : St) :
  k <= fuel -> k < List.length q -> heap_but_up le q k ->
  heap le (fst (PriorityQueue.siftUp_loop cmp fuel q k s)).
Proof.
  revert q k s. induction fuel as [| fuel IH]; intros q k s Hf Hk [Hq Hg];
    cbn [PriorityQueue.siftUp_loop].
  - assert (k = 0) by lia. subst k. simpl.
    intros j x p Hj. apply (Hq j); [lia | exact Hj].
  - destruct (Nat.eqb_spec k 0) as [-> | Hk0].
    { simpl. intros j x p Hj. apply (Hq j); [lia | exact Hj]. }
    assert (Hp : parent k < k) by (apply parent_lt; lia).
    fold (parent k).
    destruct (nth_error q k) as [x |] eqn:Ex;
      [| apply nth_error_None in Ex; lia].
    destruct (nth_error q (parent k)) as [p |] eqn:Ep;
      [| apply nth_error_None in Ep; lia].
    destruct (cmp x p s) as [r s'] eqn:Ec.
    destruct (ltz r) eqn:Er.
    + (* the item moves up *)
      assert (Hxp : le x p).
      { apply (lt_le x p s). rewrite Ec. exact Er. }
      apply IH; [lia | rewrite swap_length; lia |].
      assert (Gk : nth_error (PriorityQueue.swap q k (parent k)) k = Some p)
        by (eapply swap_get_l; eauto).
      assert (Gp : nth_error (PriorityQueue.swap q k (parent k)) (parent k) = Some x)
        by (eapply swap_get_r; eauto).
      assert (Go : forall i, i <> k -> i <> parent k ->
                nth_error (PriorityQueue.swap q k (parent k)) i = nth_error q i)
        by (intros; apply swap_get_other; auto).
      split.
      * intros j Hj y g Hj0 Ey Eg.
        destruct (Nat.eq_dec j k) as [-> | Hjk].
        { (* the old parent, now below the item *)
          rewrite Gk in Ey. rewrite Gp in Eg. congruence. }
        assert (parent j < j) by (apply parent_lt; lia).
        rewrite Go in Ey by lia.
        destruct (Nat.eq_dec (parent j) k) as [Epk | Npk].
        { (* a child of [k]: its new parent is the old grandparent *)
          rewrite Epk, Gk in Eg. injection Eg as <-.
          apply (Hg j y p); auto. lia. }
        destruct (Nat.eq_dec (parent j) (parent k)) as [Epp | Npp].
        { (* the sibling of [k] *)
          rewrite Epp, Gp in Eg. injection Eg as <-.
          apply le_trans with p; [exact Hxp |].
          apply (Hq j Hjk y p); auto. rewrite Epp. exact Ep. }
        rewrite Go in Eg by auto.
        apply (Hq j Hjk y g); auto.
      * intros j y g Hpk Hj0 Ejp Ey Eg.
        assert (parent (parent k) < parent k) by (apply parent_lt; lia).
        rewrite Go in Eg by lia.
        assert (Hpg : le g p).
        { apply (Hq (parent k) ltac:(lia) p g); auto. }
        destruct (Nat.eq_dec j k) as [-> | Hjk].
        { rewrite Gk in Ey. injection Ey as <-. exact Hpg. }
        assert (parent j < j) by (apply parent_lt; lia).
        rewrite Go in Ey by lia.
        apply le_trans with p; [exact Hpg |].
        apply (Hq j Hjk y p); auto. rewrite Ejp. exact Ep.
    + (* the item stays *)
      assert (Hpx : le p x).
      { apply (ge_le x p s). rewrite Ec. exact Er. }
      simpl. intros j y g Hj0 Ey Eg.
      destruct (Nat.eq_dec j k) as [-> | Hjk].
      * congruence.
      * apply (Hq j Hjk y g); auto.
Qed.

Lemma push_heap (q : list T) (x : T) (s : St) :
  heap le q -> heap le (fst (PriorityQueue.push cmp q x s)).
Proof.
  intros Hq. unfold PriorityQueue.push, PriorityQueue.siftUp.
  rewrite length_app. simpl.
  replace (List.length q + 1 - 1) with (List.length q) by lia.
  apply siftUp_loop_heap; [lia | rewrite length_app; simpl; lia |].
  split.
  - intros j Hj y g Hj0 Ey Eg.
    assert (Hjl : j < List.length q).
    { assert (j < List.length (q ++ [x])) by (apply nth_error_Some; congruence).
      rewrite length_app in *. simpl in *. lia. }
    assert (parent j < j) by (apply parent_lt; lia).
    rewrite nth_error_app1 in Ey, Eg by lia.
    apply (Hq j y g); auto.
  - intros j y g Hk Hj0 Ejp Ey Eg.
    assert (j < List.length (q ++ [x])) by (apply nth_error_Some; congruence).
    rewrite length_app in *. simpl in *.
    apply parent_children in Ejp; lia.
Qed.
(** What one guarded comparison of [siftDown] decides. *)
Lemma pick_spec (q : list T) (child min : nat) (s : St) (xm : T) :
  nth_error q min = Some xm ->
  let m := fst (PriorityQueue.pick cmp q child min s) in
  (m = child /\ exists xc, nth_error q child = Some xc /\ le xc xm) \/
  (m = min /\ forall xc, nth_error q child = Some xc -> le xm xc).
Proof.
  intros Em. unfold PriorityQueue.pick.
  destruct (Nat.ltb_spec child (List.length q)) as [Hc | Hc].
  - destruct (nth_error q child) as [xc |] eqn:Ec;
      [| apply nth_error_None in Ec; lia].
    rewrite Em. destruct (cmp xc xm s) as [r s'] eqn:E.
    destruct (ltz r) eqn:Er; simpl.
    + left. split; [reflexivity |]. exists xc. split; [reflexivity |].
      apply (lt_le xc xm s). rewrite E. exact Er.
    + right. split; [reflexivity |]. intros y [= <-].
      apply (ge_le xc xm s). rewrite E. exact Er.
  - right. simpl. split; [reflexivity |]. intros y Ey.
    assert (child < List.length q) by (apply nth_error_Some; congruence). lia.
Qed.

Lemma heap_but_down_outside (q : list T) (k : nat) :
  List.length q <= k -> heap_but_down le q k -> heap le q.
Proof.
  intros Hk [Hq _] j x p Hj Ex Ep.
  destruct (Nat.eq_dec (parent j) k) as [E | NE].
  - assert (parent j < List.length q) by (apply nth_error_Some; congruence). lia.
  - apply (Hq j NE x p); auto.
Qed.

Lemma siftDown_loop_heap (fuel : nat) (q : list T) (k : nat) (s : St) :
  List.length q <= fuel + k -> heap_but_down le q k ->
  heap le (fst (PriorityQueue.siftDown_loop cmp fuel q k s)).
Proof.
  revert q k s. induction fuel as [| fuel IH]; intros q k s Hf Hd;
    cbn [PriorityQueue.siftDown_loop].
  - simpl. apply (heap_but_down_outside q k); [lia | exact Hd].
  - destruct (PriorityQueue.pick cmp q (2 * k + 1) k s) as [m1 s1] eqn:E1.
    destruct (PriorityQueue.pick cmp q (2 * k + 2) m1 s1) as [m2 s2] eqn:E2.
    destruct (nth_error q k) as [xk |] eqn:Ek.
    2:{ (* [k] is outside the array: nothing is compared *)
      assert (Hlen : List.length q <= k) by (apply nth_error_None; exact Ek).
      unfold PriorityQueue.pick in E1, E2.
      destruct (Nat.ltb_spec (2 * k + 1) (List.length q)); [lia |].
      injection E1 as <- <-.
      destruct (Nat.ltb_spec (2 * k + 2) (List.length q)); [lia |].
      injection E2 as <- <-. rewrite Nat.eqb_refl. simpl.
      apply (heap_but_down_outside q k); [lia | exact Hd]. }
    pose proof (pick_spec q (2 * k + 1) k s xk Ek) as P1.
    rewrite E1 in P1. cbn [fst] in P1.
    assert (Em1 : exists x1, nth_error q m1 = Some x1 /\ le x1 xk /\
              (m1 = k \/ m1 = 2 * k + 1) /\
              (forall xl, m1 <> 2 * k + 1 ->
                 nth_error q (2 * k + 1) = Some xl -> le x1 xl)).
    { destruct P1 as [[-> (xl & El & Hl)] | [-> Hl]].
      - exists xl. split; [exact El |]. split; [exact Hl |].
        split; [right; reflexivity |]. intros y Hy. contradiction.
      - exists xk. split; [exact Ek |]. split; [eapply le_refl; eauto |].
        split; [left; reflexivity |]. intros y _. apply Hl. }
    destruct Em1 as (x1 & Ex1 & Hx1k & Hm1 & Hx1l).
    pose proof (pick_spec q (2 * k + 2) m1 s1 x1 Ex1) as P2.
    rewrite E2 in P2. cbn [fst] in P2.
    destruct Hd as [Hq Hg].
    assert (Em2 : exists x2, nth_error q m2 = Some x2 /\ le x2 xk /\
              (m2 = k \/ m2 = 2 * k + 1 \/ m2 = 2 * k + 2) /\
              (forall j y, 0 < j -> parent j = k -> nth_error q j = Some y ->
                 le x2 y)).
    { destruct P2 as [[-> (xr & Er & Hr)] | [-> Hr]].
      - exists xr. split; [exact Er |].
        split; [apply le_trans with x1; assumption |].
        split; [right; right; reflexivity |].
        intros j y Hj Hp Ey. apply parent_children in Hp; [| exact Hj].
        destruct Hp as [-> | ->].
        * destruct Hm1 as [-> | ->].
          { apply le_trans with x1; [exact Hr |]. apply Hx1l; auto. lia. }
          { assert (y = x1) by congruence. subst. exact Hr. }
        * assert (y = xr) by congruence. subst. eapply le_refl; eauto.
      - exists x1. split; [exact Ex1 |]. split; [exact Hx1k |].
        split; [destruct Hm1; auto |].
        intros j y Hj Hp Ey. apply parent_children in Hp; [| exact Hj].
        destruct Hp as [-> | ->].
        * destruct Hm1 as [-> | ->].
          { apply Hx1l; auto. lia. }
          { assert (y = x1) by congruence. subst. eapply le_refl; eauto. }
        * apply Hr. exact Ey. }
    destruct Em2 as (x2 & Ex2 & Hx2k & Hm2 & Hx2c).
    destruct (Nat.eqb_spec m2 k) as [-> | Hne].
    + (* the item is in place *)
      simpl. assert (x2 = xk) by congruence. subst x2.
      intros j y g Hj Ey Eg.
      destruct (Nat.eq_dec (parent j) k) as [E | NE].
      * rewrite E, Ek in Eg. injection Eg as <-. apply (Hx2c j); auto.
      * apply (Hq j NE y g); auto.
    + (* the item moves down to [m2] *)
      assert (Hpm : parent m2 = k) by (apply parent_children; lia).
      assert (Hkm : k < m2) by lia.
      apply IH; [rewrite swap_length; lia |].
      assert (Gk : nth_error (PriorityQueue.swap q k m2) k = Some x2)
        by (eapply swap_get_l; eauto).
      assert (Gm : nth_error (PriorityQueue.swap q k m2) m2 = Some xk)
        by (eapply swap_get_r; eauto).
      assert (Go : forall i, i <> k -> i <> m2 ->
                nth_error (PriorityQueue.swap q k m2) i = nth_error q i)
        by (intros; apply swap_get_other; auto).
      split.
      * intros j Hj y g Hj0 Ey Eg.
        assert (parent j < j) by (apply parent_lt; lia).
        destruct (Nat.eq_dec j m2) as [-> | Hjm].
        { rewrite Gm in Ey. rewrite Hpm, Gk in Eg. congruence. }
        destruct (Nat.eq_dec j k) as [-> | Hjk].
        { (* [k] against its own parent *)
          rewrite Gk in Ey. injection Ey as <-.
          rewrite Go in Eg by lia.
          apply (Hg m2 x2 g); auto. lia. }
        rewrite Go in Ey by auto.
        destruct (Nat.eq_dec (parent j) k) as [Epk | Npk].
        { (* the other child of [k] *)
          rewrite Epk, Gk in Eg. injection Eg as <-. apply (Hx2c j); auto. }
        rewrite Go in Eg by auto.
        apply (Hq j Npk y g); auto.
      * intros j y g _ Hj0 Ejp Ey Eg.
        rewrite Hpm, Gk in Eg. injection Eg as <-.
        assert (parent j < j) by (apply parent_lt; lia).
        rewrite Go in Ey by lia.
        apply (Hq j ltac:(lia) y x2); auto. rewrite Ejp. exact Ex2.
Qed.

Lemma nth_error_removelast {A : Type} (q : list A) (j : nat) :
  j < List.length q - 1 -> nth_error (removelast q) j = nth_error q j.
Proof.
  intros Hj. rewrite removelast_firstn_len, nth_error_firstn.
  destruct (Nat.ltb_spec j (Nat.pred (List.length q))); [reflexivity | lia].
Qed.

Lemma pop_heap (q : list T) (s : St) :
  heap le q -> heap le (snd (fst (PriorityQueue.pop cmp q s))).
Proof.
  intros Hq. unfold PriorityQueue.pop.
  destruct q as [| top q]; [exact Hq |].
  destruct (removelast (top :: q)) as [| a l] eqn:Er.
  - simpl. intros j x p _ Ex. destruct j; discriminate.
  - destruct (PriorityQueue.siftDown cmp
                (array_set (a :: l) 0 (List.last (top :: q) top)) 0 s)
      as [q'' s'] eqn:Es.
    simpl.
    replace q'' with (fst (PriorityQueue.siftDown cmp
                (array_set (a :: l) 0 (List.last (top :: q) top)) 0 s))
      by (rewrite Es; reflexivity).
    unfold PriorityQueue.siftDown. apply siftDown_loop_heap; [lia |].
    assert (Hlen : List.length (a :: l) = List.length (top :: q) - 1).
    { rewrite <- Er, removelast_firstn_len, length_firstn. lia. }
    split.
    + intros j Hp y g Hj0 Ey Eg.
      assert (Hpj : parent j < j) by (apply parent_lt; lia).
      assert (Hjl : j < List.length (a :: l)).
      { rewrite <- (array_set_length (a :: l) 0 (List.last (top :: q) top)).
        apply nth_error_Some. congruence. }
      rewrite nth_error_array_set_other in Ey, Eg by lia.
      rewrite <- Er in Ey, Eg.
      rewrite nth_error_removelast in Ey, Eg by lia.
      apply (Hq j y g); auto.
    + intros j y g Hk. lia.
Qed.
End HeapOrder.

(* ================================================================== *)
(** * Sequences of pushes and pops *)

Section PriorityQueueRuns.
Context {T : Type}.
Variable f : T -> T -> Z.
Hypothesis f_ok : total_preorder f.

Local Abbreviation cmp := (pure_cmp f : Comparator T unit Z).
Local Abbreviation le := (not_after f).

Lemma not_after_trans (a b c : T) : le a b -> le b c -> le a c.
Proof. unfold not_after. apply (proj2 f_ok). Qed.

Lemma cmp_lt_not_after (a b : T) (s : unit) :
  ltz (fst (cmp a b s)) = true -> le a b.
Proof.
  unfold not_after, pure_cmp, ltz, Z_Number. simpl. intros E.
  apply Z.ltb_lt in E. lia.
Qed.

Lemma cmp_ge_not_after (a b : T) (s : unit) :
  ltz (fst (cmp a b s)) = false -> le b a.
Proof.
  unfold not_after, pure_cmp, ltz, Z_Number. simpl. intros E.
  apply Z.ltb_ge in E. pose proof (proj1 f_ok a b). lia.
Qed.

Lemma pq_run_heap (ops : list (pq_op T)) (q : list T) (s : unit) :
  heap le q -> heap le (snd (pq_run cmp ops q s)).
Proof.
  revert q s. induction ops as [| [x |] ops IH]; intros q s Hq; simpl.
  - exact Hq.
  - destruct (PriorityQueue.push cmp q x s) as [q' s'] eqn:E.
    apply IH. replace q' with (fst (PriorityQueue.push cmp q x s))
      by (rewrite E; reflexivity).
    exact (push_heap cmp le not_after_trans cmp_lt_not_after
             cmp_ge_not_after q x s Hq).
  - destruct (PriorityQueue.pop cmp q s) as [[r q'] s'] eqn:E.
    specialize (IH q' s').
    destruct (pq_run cmp ops q' s') as [out qf]. simpl. apply IH.
    replace q' with (snd (fst (PriorityQueue.pop cmp q s)))
      by (rewrite E; reflexivity).
    exact (pop_heap cmp le not_after_trans cmp_lt_not_after
             cmp_ge_not_after q s Hq).
Qed.

Lemma heap_nil : heap le [].
Proof. intros j x p _ E. destruct j; discriminate. Qed.

(** The length is the number of pushes minus the number of successful
    pops. *)
Lemma pq_run_length (ops : list (pq_op T)) (q : list T) (s : unit) :
  List.length (snd (pq_run cmp ops q s))
  + List.length (popped (fst (pq_run cmp ops q s)))
  = List.length q + pushes ops.
Proof.
  revert q s. induction ops as [| [x |] ops IH]; intros q s; simpl.
  - unfold pushes. simpl. lia.
  - destruct (PriorityQueue.push cmp q x s) as [q' s'] eqn:E.
    rewrite IH.
    replace q' with (fst (PriorityQueue.push cmp q x s))
      by (rewrite E; reflexivity).
    rewrite push_length. unfold pushes. simpl. lia.
  - destruct q as [| top q].
    + simpl. specialize (IH [] s).
      destruct (pq_run cmp ops [] s) as [out qf]. simpl in *.
      unfold pushes in *. simpl. exact IH.
    + destruct (pop_nonempty cmp top q s) as (q' & s' & E & P).
      rewrite E. specialize (IH q' s').
      destruct (pq_run cmp ops q' s') as [out qf]. simpl in *.
      apply Permutation_length in P. simpl in P.
      unfold pushes in *. simpl. lia.
Qed.

(** A run of pops takes the elements out in non-decreasing order: each one
    is a least element of what the queue holds when it is popped. *)
Lemma pops_sorted (n : nat) (q : list T) (s : unit) :
  heap le q ->
  let out := popped (fst (pq_run cmp (repeat OpPop n) q s)) in
  let rest := snd (pq_run cmp (repeat OpPop n) q s) in
  StronglySorted le out /\
  Permutation (out ++ rest) q /\
  (forall x y, In x out -> In y rest -> le x y).
Proof.
  revert q s. induction n as [| n IH]; intros q s Hq; simpl.
  - repeat split; [constructor | reflexivity | intros x y []].
  - destruct q as [| top q].
    + simpl. specialize (IH [] s Hq). simpl in IH.
      destruct (pq_run cmp (repeat OpPop n) [] s) as [out qf]. simpl in *.
      exact IH.
    + destruct (pop_nonempty cmp top q s) as (q' & s' & E & P).
      assert (Hq' : heap le q').
      { replace q' with (snd (fst (PriorityQueue.pop cmp (top :: q) s)))
          by (rewrite E; reflexivity).
        exact (pop_heap cmp le not_after_trans cmp_lt_not_after
                 cmp_ge_not_after (top :: q) s Hq). }
      assert (Hmin : forall y, In y (top :: q) -> le top y).
      { intros y Hy. apply In_nth_error in Hy. destruct Hy as [i Hi].
        apply (heap_root_least cmp le not_after_trans cmp_lt_not_after
                 cmp_ge_not_after (top :: q) s Hq i top y); auto. }
      rewrite E. specialize (IH q' s' Hq'). simpl in IH.
      destruct (pq_run cmp (repeat OpPop n) q' s') as [out qf]. simpl in *.
      destruct IH as (Hs & Hp & Hle).
      assert (Hin : forall y, In y (popped out ++ qf) -> In y (top :: q)).
      { intros y Hy. apply (Permutation_in y P). right.
        apply (Permutation_in y Hp). exact Hy. }
      repeat split.
      * constructor; [exact Hs |]. apply Forall_forall. intros y Hy.
        apply Hmin, Hin, in_or_app. auto.
      * rewrite Hp. exact P.
      * intros x y [<- | Hx] Hy; [| exact (Hle x y Hx Hy)].
        apply Hmin, Hin, in_or_app. auto.
Qed.
End PriorityQueueRuns.

(** C5, as amended. For a queue whose comparator is a three-way comparator
    of a total preorder, after any interleaved sequence [ops] of pushes and
    pops from the empty queue: the length is the number of pushes minus the
    number of successful pops; a run of [n] pops issued then returns a
    non-decreasing sequence, each popped element being a least element of what
    the queue held, and what was popped together with what is left is what the
    queue held; [pop] and [peek] on the empty queue return [undefined]. (Pops
    separated by a push need not be in order: the later push may be
    smaller.) *)
Theorem priority_queue_runs :
  forall (T : Type) (f : T -> T -> Z),
    total_preorder f ->
    forall (ops : list (pq_op T)) (n : nat),
      let cmp := pure_cmp f : Comparator T unit Z in
      let q := snd (pq_run cmp ops [] tt) in
      let out := popped (fst (pq_run cmp (repeat OpPop n) q tt)) in
      let rest := snd (pq_run cmp (repeat OpPop n) q tt) in
      PriorityQueue.length q
      + List.length (popped (fst (pq_run cmp ops [] tt))) = pushes ops /\
      StronglySorted (not_after f) out /\
      Permutation (out ++ rest) q /\
      (forall x y, In x out -> In y rest -> not_after f x y) /\
      PriorityQueue.pop cmp [] tt = (None, [], tt) /\
      PriorityQueue.peek (@nil T) = None.
Proof.
  intros T f Hf ops n cmp q out rest.
  split.
  - unfold PriorityQueue.length, q, cmp.
    rewrite (pq_run_length f ops [] tt). reflexivity.
  - assert (Hq : heap (not_after f) q).
    { apply (pq_run_heap f Hf). apply heap_nil. }
    destruct (pops_sorted f Hf n q tt Hq) as (Hs & Hp & Hle).
    repeat split; assumption.
Qed.

Lemma Z_sub_total_preorder : total_preorder Z.sub.
Proof. split; intros; lia. Qed.

Lemma priority_queue_runs_witness :
  let cmp := pure_cmp Z.sub : Comparator Z unit Z in
  let ops := [OpPush 5; OpPop; OpPush 3; OpPush 1; OpPush 4]%Z in
  let q := snd (pq_run cmp ops [] tt) in
  let out := popped (fst (pq_run cmp (repeat OpPop 2) q tt)) in
  let rest := snd (pq_run cmp (repeat OpPop 2) q tt) in
  PriorityQueue.length q
  + List.length (popped (fst (pq_run cmp ops [] tt))) = pushes ops /\
  StronglySorted (not_after Z.sub) out /\
  Permutation (out ++ rest) q /\
  (forall x y, In x out -> In y rest -> not_after Z.sub x y) /\
  PriorityQueue.pop cmp [] tt = (None, [], tt) /\
  PriorityQueue.peek (@nil Z) = None.
Proof.
  exact (priority_queue_runs Z Z.sub Z_sub_total_preorder
           [OpPush 5; OpPop; OpPush 3; OpPush 1; OpPush 4]%Z 2).
Defined.

(** C5 as stated fails: with the comparator [a - b] on integers, the
    sequence push 5, pop, push 3, pop returns 5 and then 3. *)
Lemma interleaved_pops_not_sorted :
  total_preorder Z.sub /\
  popped (fst (pq_run (pure_cmp Z.sub : Comparator Z unit Z)
                 [OpPush 5; OpPop; OpPush 3; OpPop]%Z [] tt)) = [5; 3]%Z /\
  ~ StronglySorted (not_after Z.sub)
      (popped (fst (pq_run (pure_cmp Z.sub : Comparator Z unit Z)
                      [OpPush 5; OpPop; OpPush 3; OpPop]%Z [] tt))).
Proof.
  split; [exact Z_sub_total_preorder |].
  split; [reflexivity |].
  intros Hs. vm_compute in Hs.
  inversion Hs as [| ? ? _ Hall]; subst.
  inversion Hall as [| ? ? Hle _]; subst.
  apply Hle. reflexivity.
Qed.


(* ================================================================== *)
(** * The multi-view queue: liveness *)

Section MultiQueueLiveness.
Context {T PK St R : Type} `{EqDec PK} `{Number R}.
Variable pKeys : list PK.
Variable pCmps : PK -> Comparator T St R.

Local Abbreviation mqueue := (MultiQueue.t (T := T) (PK := PK)).

Lemma peek_head (q : list (MultiQueue.Item T)) :
  PriorityQueue.peek q = hd_error q.
Proof. destruct q; reflexivity. Qed.

Lemma push_live (mq : mqueue) (d : T) (s : St) :
  let r := fst (MultiQueue.push pKeys pCmps mq d s) in
  fst r = {| MultiQueue.id := MultiQueue.nextId mq; MultiQueue.data := d |} /\
  MultiQueue.live (snd r) = set_add (MultiQueue.live mq) (MultiQueue.nextId mq) /\
  MultiQueue.nextId (snd r) = S (MultiQueue.nextId mq).
Proof.
  unfold MultiQueue.push.
  destruct (MultiQueue.push_all pCmps _ pKeys (MultiQueue.qs mq) s) as [qs' s'].
  simpl. auto.
Qed.

(** [pop] ends within its bound; it returns a live wrapper, which it marks
    dead, or nothing, and then it leaves the live set alone. *)
Lemma pop_loop_live (fuel : nat) (key : PK) (mq : mqueue) (s : St) :
  List.length (MultiQueue.qs mq key) < fuel ->
  exists r mq' s',
    MultiQueue.pop_loop pCmps fuel key mq s = Ret (r, mq', s') /\
    MultiQueue.nextId mq' = MultiQueue.nextId mq /\
    match r with
    | Some it =>
        In (MultiQueue.id it) (MultiQueue.live mq) /\
        MultiQueue.live mq' = set_delete (MultiQueue.live mq) (MultiQueue.id it)
    | None => MultiQueue.live mq' = MultiQueue.live mq
    end.
Proof.
  revert mq s. induction fuel as [| fuel IH]; intros mq s Hf; [lia |].
  cbn [MultiQueue.pop_loop].
  destruct (MultiQueue.qs mq key) as [| top q] eqn:Eq.
  - simpl. exists None, mq, s. auto.
  - cbn [PriorityQueue.peek nth_error].
    destruct (pop_nonempty (MultiQueue.item_cmp pCmps key) top q s)
      as (q' & s' & E & P).
    rewrite E.
    destruct (set_has (MultiQueue.live mq) (MultiQueue.id top)) eqn:El.
    + eexists _, _, _. split; [reflexivity |]. simpl.
      split; [reflexivity |]. split; [| reflexivity].
      apply set_has_In. exact El.
    + edestruct (IH {| MultiQueue.qs := MultiQueue.set_q (MultiQueue.qs mq) key q';
                       MultiQueue.live := MultiQueue.live mq;
                       MultiQueue.nextId := MultiQueue.nextId mq |} s')
        as (r & mq' & s'' & E' & Hn & Hr).
      { simpl. unfold MultiQueue.set_q. destruct (eq_dec key key); [| congruence].
        apply Permutation_length in P. simpl in *. lia. }
      exists r, mq', s''. split; [exact E' |]. split; [exact Hn | exact Hr].
Qed.

(** [peek] ends within its bound; what it returns is live, and it leaves
    the live set alone. *)
Lemma peek_loop_live (fuel : nat) (key : PK) (mq : mqueue) (s : St) :
  List.length (MultiQueue.qs mq key) < fuel ->
  exists r mq' s',
    MultiQueue.peek_loop pCmps fuel key mq s = Ret (r, mq', s') /\
    MultiQueue.nextId mq' = MultiQueue.nextId mq /\
    MultiQueue.live mq' = MultiQueue.live mq /\
    match r with
    | Some it => In (MultiQueue.id it) (MultiQueue.live mq)
    | None => True
    end.
Proof.
  revert mq s. induction fuel as [| fuel IH]; intros mq s Hf; [lia |].
  cbn [MultiQueue.peek_loop].
  destruct (MultiQueue.qs mq key) as [| top q] eqn:Eq.
  - simpl. exists None, mq, s. auto.
  - cbn [PriorityQueue.peek nth_error].
    destruct (set_has (MultiQueue.live mq) (MultiQueue.id top)) eqn:El.
    + exists (Some top), mq, s. repeat split; auto.
      apply set_has_In. exact El.
    + destruct (pop_nonempty (MultiQueue.item_cmp pCmps key) top q s)
        as (q' & s' & E & P).
      rewrite E.
      edestruct (IH {| MultiQueue.qs := MultiQueue.set_q (MultiQueue.qs mq) key q';
                       MultiQueue.live := MultiQueue.live mq;
                       MultiQueue.nextId := MultiQueue.nextId mq |} s')
        as (r & mq' & s'' & E' & Hn & Hl & Hr).
      { simpl. unfold MultiQueue.set_q. destruct (eq_dec key key); [| congruence].
        apply Permutation_length in P. simpl in *. lia. }
      exists r, mq', s''. repeat split; assumption.
Qed.


Lemma accounted_length (mq : mqueue) (dead : list nat) :
  accounted mq dead ->
  MultiQueue.length mq + List.length (nodup Nat.eq_dec dead)
  = MultiQueue.nextId mq.
Proof.
  intros (Hnd & Hdis & Hall). unfold MultiQueue.length.
  assert (P : Permutation (MultiQueue.live mq ++ nodup Nat.eq_dec dead)
                (seq 0 (MultiQueue.nextId mq))).
  { apply NoDup_Permutation.
    - apply NoDup_app; [exact Hnd | apply NoDup_nodup |].
      intros i Hi Hd. apply nodup_In in Hd. exact (Hdis i Hi Hd).
    - apply seq_NoDup.
    - intros i. rewrite in_app_iff, nodup_In, in_seq.
      specialize (Hall i). split.
      + intros Hi. assert (i < MultiQueue.nextId mq) by tauto. lia.
      + intros Hi. apply Hall. lia. }
  apply Permutation_length in P. rewrite length_app, length_seq in P.
  exact P.
Qed.

Lemma accounted_push (mq : mqueue) (dead : list nat) (d : T) (s : St) :
  accounted mq dead ->
  accounted (snd (fst (MultiQueue.push pKeys pCmps mq d s))) dead.
Proof.
  intros (Hnd & Hdis & Hall).
  destruct (push_live mq d s) as (_ & Hl & Hn). cbv zeta in Hl, Hn.
  unfold accounted. rewrite Hl, Hn.
  split; [apply set_add_NoDup; exact Hnd |].
  split.
  - intros i Hi Hd. apply set_add_In in Hi. destruct Hi as [-> | Hi].
    + assert (MultiQueue.nextId mq < MultiQueue.nextId mq)
        by (apply Hall; auto). lia.
    + exact (Hdis i Hi Hd).
  - intros i. rewrite set_add_In. specialize (Hall i).
    split; [intros Hi | intros [[-> | Hi] | Hi]]; try lia.
    + destruct (Nat.eq_dec i (MultiQueue.nextId mq)); [auto |].
      assert (i < MultiQueue.nextId mq) by lia. tauto.
    + assert (i < MultiQueue.nextId mq) by tauto. lia.
    + assert (i < MultiQueue.nextId mq) by tauto. lia.
Qed.

Lemma accounted_remove (live live' : list nat) (qs qs' : PK -> list (MultiQueue.Item T))
  (n : nat) (dead : list nat) (i : nat) :
  accounted {| MultiQueue.qs := qs; MultiQueue.live := live; MultiQueue.nextId := n |} dead ->
  i < n -> live' = set_delete live i ->
  accounted {| MultiQueue.qs := qs'; MultiQueue.live := live'; MultiQueue.nextId := n |}
    (dead ++ [i]).
Proof.
  intros (Hnd & Hdis & Hall) Hi ->. simpl in *.
  split; [apply set_delete_NoDup; exact Hnd |]. simpl.
  split.
  - intros j Hj Hd. apply set_delete_In in Hj; [| exact Hnd].
    apply in_app_iff in Hd. destruct Hd as [Hd | [<- | []]].
    + exact (Hdis j (proj1 Hj) Hd).
    + tauto.
  - intros j. rewrite (set_delete_In live i j Hnd), in_app_iff. simpl.
    specialize (Hall j). destruct (Nat.eq_dec j i) as [-> | Hne].
    + split; auto.
    + split.
      * intros Hj. apply Hall in Hj. tauto.
      * intros [[Hj _] | [Hj | [Hj | []]]];
          [apply Hall; auto | apply Hall; auto | congruence].
Qed.

Lemma mq_run_accounted (ops : list (mq_op T PK)) (mq : mqueue) (s : St)
  (dead : list nat) :
  accounted mq dead -> issued_only (MultiQueue.nextId mq) ops ->
  exists evs mq',
    mq_run pKeys pCmps ops mq s = Ret (evs, mq') /\
    accounted mq' (dead ++ dead_ids evs) /\
    fresh_returns dead evs /\
    MultiQueue.nextId mq' = MultiQueue.nextId mq + List.length (pushed_ids evs).
Proof.
  revert mq s dead.
  induction ops as [| [d | k | k | i] ops IH]; intros mq s dead Ha Hv;
    cbn [mq_run].
  - exists [], mq. simpl. rewrite app_nil_r.
    split; [reflexivity |]. split; [exact Ha |]. split; [exact I | lia].
  - (* push *)
    destruct (MultiQueue.push pKeys pCmps mq d s) as [[it mq1] s1] eqn:E.
    assert (Ha1 := accounted_push mq dead d s Ha). rewrite E in Ha1.
    destruct (push_live mq d s) as (_ & _ & Hn). cbv zeta in Hn.
    rewrite E in Hn. simpl in Ha1, Hn.
    destruct (IH mq1 s1 dead Ha1) as (evs & mq' & Er & Ha' & Hf & Hn').
    { rewrite Hn. exact Hv. }
    rewrite Er. simpl. eexists _, _. split; [reflexivity |].
    simpl. split; [exact Ha' |]. split; [split; [exact I | rewrite app_nil_r; exact Hf] |].
    rewrite Hn', Hn. lia.
  - (* pop *)
    unfold MultiQueue.pop_item.
    destruct (pop_loop_live (S (List.length (MultiQueue.qs mq k))) k mq s)
      as (r & mq1 & s1 & E & Hn & Hr); [lia |].
    rewrite E. cbn [bind fst snd].
    assert (Ha1 : accounted mq1 (dead ++ dead_of (EvPopped r)) /\
                  match r with
                  | Some it => ~ In (MultiQueue.id it) dead
                  | None => True
                  end).
    { destruct r as [it |]; simpl.
      - destruct Hr as [Hin Hl].
        destruct mq as [qs0 live0 n0], mq1 as [qs1 live1 n1]. simpl in *.
        subst n1. split.
        + apply (accounted_remove live0 live1 qs0 qs1 n0 dead _ Ha); auto.
          destruct Ha as (_ & _ & Hall). apply Hall. auto.
        + destruct Ha as (_ & Hdis & _). apply Hdis. exact Hin.
      - rewrite app_nil_r.
        destruct mq as [qs0 live0 n0], mq1 as [qs1 live1 n1]. simpl in *.
        subst. split; [exact Ha | exact I]. }
    destruct Ha1 as [Ha1 Hfresh].
    destruct (IH mq1 s1 _ Ha1) as (evs & mq' & Er & Ha' & Hf & Hn').
    { rewrite Hn. exact Hv. }
    rewrite Er. cbn [bind fst snd]. eexists _, _. split; [reflexivity |].
    cbn [dead_ids flat_map pushed_ids fresh_returns returned].
    fold (dead_ids evs). fold (pushed_ids evs).
    rewrite app_assoc. split; [exact Ha' |].
    split; [split; [exact Hfresh | exact Hf] |]. simpl. congruence.
  - (* peek *)
    unfold MultiQueue.peek_item.
    destruct (peek_loop_live (S (List.length (MultiQueue.qs mq k))) k mq s)
      as (r & mq1 & s1 & E & Hn & Hl & Hr); [lia |].
    rewrite E. cbn [bind fst snd].
    assert (Ha1 : accounted mq1 dead).
    { destruct mq as [qs0 live0 n0], mq1 as [qs1 live1 n1]. simpl in *.
      subst. exact Ha. }
    destruct (IH mq1 s1 dead Ha1) as (evs & mq' & Er & Ha' & Hf & Hn').
    { rewrite Hn. exact Hv. }
    rewrite Er. cbn [bind fst snd]. eexists _, _. split; [reflexivity |].
    cbn [dead_ids flat_map pushed_ids fresh_returns returned dead_of].
    fold (dead_ids evs). fold (pushed_ids evs).
    rewrite app_nil_r. split; [exact Ha' |].
    split; [split; [| exact Hf] | simpl; congruence].
    destruct r as [it |]; [| exact I].
    destruct Ha as (_ & Hdis & _). apply Hdis. exact Hr.
  - (* delete *)
    destruct Hv as [Hi Hv].
    assert (Ha1 : accounted (MultiQueue.delete i mq) (dead ++ [i])).
    { destruct mq as [qs0 live0 n0]. unfold MultiQueue.delete. simpl in *.
      apply (accounted_remove live0 _ qs0 qs0 n0 dead i Ha); auto. }
    destruct (IH (MultiQueue.delete i mq) s _ Ha1) as (evs & mq' & Er & Ha' & Hf & Hn').
    { exact Hv. }
    rewrite Er. cbn [bind fst snd]. eexists _, _. split; [reflexivity |].
    cbn [dead_ids flat_map pushed_ids fresh_returns returned dead_of].
    fold (dead_ids evs). fold (pushed_ids evs).
    rewrite app_assoc. split; [exact Ha' |].
    split; [split; [exact I | exact Hf] | simpl; exact Hn'].
Qed.
End MultiQueueLiveness.

(** C6, as amended. For every [MultiQueue], whatever its comparators, and
    every interleaved sequence of push, pop, peek and delete in which each
    [delete] names an id that a push has already issued: the run ends; the
    length is the number of ids pushed minus the number of distinct ids
    popped or deleted; and no pop or peek through any view returns the payload
    of an id that an earlier event popped or deleted. *)
Theorem multi_queue_liveness :
  forall (T PK St R : Type) (HPK : EqDec PK) (HR : Number R)
         (pKeys : list PK) (pCmps : PK -> Comparator T St R)
         (ops : list (mq_op T PK)) (s : St),
    issued_only 0 ops ->
    exists evs mq,
      mq_run pKeys pCmps ops MultiQueue.empty s = Ret (evs, mq) /\
      MultiQueue.length mq + List.length (nodup Nat.eq_dec (dead_ids evs))
      = List.length (pushed_ids evs) /\
      fresh_returns [] evs.
Proof.
  intros T PK St R HPK HR pKeys pCmps ops s Hv.
  destruct (mq_run_accounted pKeys pCmps ops MultiQueue.empty s [])
    as (evs & mq & E & Ha & Hf & Hn).
  - split; [constructor |]. split; [intros i [] |].
    intros i. simpl. split; [lia | tauto].
  - exact Hv.
  - exists evs, mq. split; [exact E |]. split; [| exact Hf].
    pose proof (accounted_length mq _ Ha) as L. simpl in L, Hn. lia.
Qed.

(** The queue of [fasTopoSort] with its three views: three pushes, the
    deletion of the second wrapper, then a peek and three pops. *)
Lemma multi_queue_liveness_witness :
  exists evs mq,
    mq_run FAS.views FAS.view_cmp
      [MqPush (FAS.mkData "a"%string 2 0); MqPush (FAS.mkData "b"%string 0 1);
       MqPush (FAS.mkData "c"%string 1 1); MqDelete 1; MqPeek FAS.ByOutW;
       MqPop FAS.ByInW; MqPop FAS.ByOutW; MqPop FAS.ByScore]
      MultiQueue.empty tt = Ret (evs, mq) /\
    MultiQueue.length mq + List.length (nodup Nat.eq_dec (dead_ids evs))
    = List.length (pushed_ids evs) /\
    fresh_returns [] evs.
Proof.
  apply (multi_queue_liveness FAS.Data FAS.view unit Z _ _ FAS.views
           FAS.view_cmp).
  simpl. lia.
Defined.

(** C6 as stated fails for a [delete] of an id that is issued only later:
    after [delete(0)] on a fresh queue the first push is given the id [0], is
    live, and is returned by the next pop. *)
Lemma deleted_id_returned :
  exists it mq,
    mq_run FAS.views FAS.view_cmp
      [MqDelete 0; MqPush (FAS.mkData "a"%string 0 0); MqPop FAS.ByOutW]
      MultiQueue.empty tt
    = Ret ([EvDeleted 0; EvPushed it; EvPopped (Some it)], mq) /\
    MultiQueue.id it = 0 /\
    ~ fresh_returns [] [EvDeleted 0; EvPushed it; EvPopped (Some it)].
Proof.
  eexists _, _. split; [vm_compute; reflexivity |].
  split; [reflexivity |].
  simpl. intros (_ & _ & Hfresh & _). apply Hfresh. auto.
Qed.


(* ================================================================== *)
(** * Reachability *)

Section Reachability.
Variable g : DAG.t.

Lemma reach_trans (u v w : string) : reach g u v -> reach g v w -> reach g u w.
Proof.
  induction 1 as [| u x v Hux Hxv IH]; intros Hw; [exact Hw |].
  apply reach_step with x; auto.
Qed.

Lemma reach_edge (u v : string) : edge g u v -> reach g u v.
Proof. intros E. apply reach_step with v; [exact E | apply reach_refl]. Qed.

Lemma reach_snoc (u v w : string) : reach g u v -> edge g v w -> reach g u w.
Proof. intros R E. apply reach_trans with v; [exact R | now apply reach_edge]. Qed.

Lemma clos_trans_reach (u v : string) :
  clos_trans string (edge g) u v <-> exists x, edge g u x /\ reach g x v.
Proof.
  split.
  - intros C. apply clos_trans_t1n in C.
    induction C as [u v E | u x v E C IH].
    + exists v. split; [exact E | apply reach_refl].
    + destruct IH as (y & Exy & Ryv). exists x. split; [exact E |].
      apply reach_step with y; assumption.
  - intros (x & E & Rx). revert u E.
    induction Rx as [x | x y v Exy Ryv IH]; intros u E.
    + apply t_step. exact E.
    + apply t_trans with x; [apply t_step; exact E |]. apply IH. exact Exy.
Qed.

Lemma acyclic_no_back_path : acyclic g <-> no_back_path g.
Proof.
  unfold acyclic, no_back_path. split.
  - intros Ha u v E Rvu. apply (Ha u). apply clos_trans_reach. eauto.
  - intros Hn u C. apply clos_trans_reach in C. destruct C as (x & E & R).
    exact (Hn u x E R).
Qed.
End Reachability.

Lemma reach_extends (g g' : DAG.t) (u v : string) :
  extends g g' -> reach g u v -> reach g' u v.
Proof.
  intros He. induction 1 as [| u x v E R IH]; [apply reach_refl |].
  apply reach_step with x; [apply He; exact E | exact IH].
Qed.

Lemma extends_refl (g : DAG.t) : extends g g.
Proof. intros u v E. exact E. Qed.

Lemma extends_trans (g1 g2 g3 : DAG.t) :
  extends g1 g2 -> extends g2 g3 -> extends g1 g3.
Proof. intros H1 H2 u v E. apply H2, H1, E. Qed.

(* ================================================================== *)
(** * hasPath computes reachability *)

Lemma pending_mono (g : DAG.t) (visited : list string) (x : string) :
  pending g (set_add visited x) <= pending g visited.
Proof.
  unfold pending. induction g as [| [k nb] g IH]; simpl; [lia |].
  destruct (set_has visited k) eqn:Ek.
  - assert (set_has (set_add visited x) k = true) as ->.
    { apply set_has_In, set_add_In. right. apply set_has_In. exact Ek. }
    exact IH.
  - destruct (set_has (set_add visited x) k); simpl; lia.
Qed.

(** Expanding a node takes its entry out of what is pending. *)
Lemma pending_visit (g : DAG.t) (visited : list string) (node : string)
  (nbrs : list string) :
  map_get g node = Some nbrs -> set_has visited node = false ->
  pending g (set_add visited node) + S (List.length nbrs) <= pending g visited.
Proof.
  intros Hg Hv. unfold pending.
  induction g as [| [k nb] g IH]; simpl in *; [discriminate |].
  destruct (eq_dec k node) as [-> | Hne].
  - injection Hg as ->. rewrite Hv.
    assert (set_has (set_add visited node) node = true) as ->.
    { apply set_has_In, set_add_In. auto. }
    pose proof (pending_mono g visited node) as M. unfold pending in M.
    simpl. lia.
  - specialize (IH Hg).
    assert (set_has (set_add visited node) k = set_has visited k) as ->.
    { destruct (set_has visited k) eqn:Ek.
      - apply set_has_In, set_add_In. right. apply set_has_In. exact Ek.
      - apply set_has_false. rewrite set_add_In. intros [E | Hin]; [congruence |].
        apply set_has_false in Ek. contradiction. }
    destruct (set_has visited k); simpl; lia.
Qed.

Lemma pending_nil (g : DAG.t) : S (S (pending g [])) = DAG.hasPath_fuel g.
Proof. reflexivity. Qed.

Section HasPath.
Variable g : DAG.t.
Hypothesis g_closed :
  forall u nbrs v, map_get g u = Some nbrs -> In v nbrs -> In v (map_keys g).
Variable src : string.
Variable dstList : list string.

Lemma traversal_done (visited reachable : list string) (v : string) :
  traversal g src dstList visited [] reachable ->
  In v dstList -> (In v reachable <-> reach g src v).
Proof.
  intros I Hv. split.
  - intros Hr. apply (tr_sound _ _ _ _ _ _ I v Hr).
  - intros R. apply (tr_found _ _ _ _ _ _ I v); [| exact Hv].
    assert (Hs : In src visited).
    { destruct (tr_src _ _ _ _ _ _ I) as [Hs | []]. exact Hs. }
    assert (Closed : forall a b, reach g a b -> In a visited -> In b visited).
    { intros a b Rab. induction Rab as [u | u x w E Rxw IH]; intros Hu;
        [exact Hu |].
      apply IH. destruct (tr_frontier _ _ _ _ _ _ I u x Hu E) as [Hx | []]. exact Hx. }
    exact (Closed src v R Hs).
Qed.

Lemma hasPath_loop_spec (fuel : nat) (visited stack reachable : list string) :
  traversal g src dstList visited stack reachable ->
  List.length stack + pending g visited < fuel ->
  exists found,
    DAG.hasPath_loop fuel g dstList visited stack reachable = Ret found /\
    forall v, In v dstList -> (In v found <-> reach g src v).
Proof.
  revert visited stack reachable.
  induction fuel as [| fuel IH]; intros visited stack reachable I Hf; [lia |].
  cbn [DAG.hasPath_loop].
  destruct stack as [| node stack].
  - exists reachable. split; [reflexivity |].
    intros v Hv. apply (traversal_done visited); assumption.
  - destruct (tr_stack _ _ _ _ _ _ I node (or_introl eq_refl)) as [Rn Kn].
    set (reachable' := if set_has dstList node then set_add reachable node
                       else reachable).
    assert (Hsound : forall x, In x reachable' -> In x dstList /\ reach g src x).
    { intros x Hx. subst reachable'.
      destruct (set_has dstList node) eqn:Ed.
      - apply set_add_In in Hx. destruct Hx as [-> | Hx].
        + split; [apply set_has_In; exact Ed | exact Rn].
        + apply (tr_sound _ _ _ _ _ _ I x Hx).
      - apply (tr_sound _ _ _ _ _ _ I x Hx). }
    assert (Hnd : NoDup reachable').
    { subst reachable'. destruct (set_has dstList node).
      - apply set_add_NoDup. apply (tr_nodup _ _ _ _ _ _ I).
      - apply (tr_nodup _ _ _ _ _ _ I). }
    assert (Hkeep : forall x, In x reachable -> In x reachable').
    { intros x Hx. subst reachable'. destruct (set_has dstList node); auto.
      apply set_add_In. auto. }
    assert (Hnode : In node dstList -> In node reachable').
    { intros Hd. subst reachable'. apply set_has_In in Hd. rewrite Hd.
      apply set_add_In. auto. }
    destruct (set_has dstList node
              && (List.length reachable' =? List.length dstList)) eqn:Ebreak.
    + (* every destination has been reached *)
      exists reachable'. split; [reflexivity |].
      apply andb_true_iff in Ebreak. destruct Ebreak as [_ El].
      apply Nat.eqb_eq in El.
      intros v Hv. split; [intros Hr; apply (Hsound v Hr) |].
      intros _.
      assert (Hall : incl dstList reachable').
      { apply (NoDup_length_incl Hnd); [lia |].
        intros x Hx. apply (Hsound x Hx). }
      exact (Hall v Hv).
    + destruct (set_has visited node) eqn:Ev.
      * (* already expanded *)
        apply IH; [| simpl in Hf; lia].
        apply set_has_In in Ev.
        constructor.
        -- intros x Hx. apply (tr_stack _ _ _ _ _ _ I). right. exact Hx.
        -- apply (tr_visited _ _ _ _ _ _ I).
        -- intros x y Hx E.
           destruct (tr_frontier _ _ _ _ _ _ I x y Hx E) as [Hy | [<- | Hy]]; auto.
        -- intros x Hx Hd. apply Hkeep. apply (tr_found _ _ _ _ _ _ I); assumption.
        -- exact Hsound.
        -- exact Hnd.
        -- destruct (tr_src _ _ _ _ _ _ I) as [Hs | [<- | Hs]]; auto.
      * (* expand [node] *)
        destruct (map_get g node) as [nbrs |] eqn:Eg.
        2:{ exfalso. apply map_get_None in Eg. contradiction. }
        apply IH.
        -- constructor.
           ++ intros x Hx. apply in_app_iff in Hx. destruct Hx as [Hx | Hx].
              ** apply in_rev in Hx. split.
                 --- apply reach_snoc with node; [exact Rn |].
                     exists nbrs. auto.
                 --- apply (g_closed node nbrs x Eg Hx).
              ** apply (tr_stack _ _ _ _ _ _ I). right. exact Hx.
           ++ intros x Hx. apply set_add_In in Hx. destruct Hx as [-> | Hx];
                [exact Rn | apply (tr_visited _ _ _ _ _ _ I x Hx)].
           ++ intros x y Hx E. rewrite set_add_In, in_app_iff.
              apply set_add_In in Hx. destruct Hx as [-> | Hx].
              ** right. left. apply -> in_rev.
                 destruct E as (nb & Enb & Hy). congruence.
              ** destruct (tr_frontier _ _ _ _ _ _ I x y Hx E) as [Hy | [<- | Hy]];
                   auto.
           ++ intros x Hx Hd. apply set_add_In in Hx. destruct Hx as [-> | Hx].
              ** apply Hnode. exact Hd.
              ** apply Hkeep. apply (tr_found _ _ _ _ _ _ I); assumption.
           ++ exact Hsound.
           ++ exact Hnd.
           ++ rewrite set_add_In, in_app_iff.
              destruct (tr_src _ _ _ _ _ _ I) as [Hs | [<- | Hs]]; auto.
        -- pose proof (pending_visit g visited node nbrs Eg Ev) as P.
           rewrite length_app, length_rev. simpl in Hf. lia.
Qed.

(** [hasPath] ends and answers, for every destination, whether it can be
    reached from the source. *)
Lemma hasPath_spec :
  In src (map_keys g) ->
  exists found,
    DAG.hasPath g src dstList = Ret (map (set_has found) dstList) /\
    forall v, In v dstList -> (In v found <-> reach g src v).
Proof.
  intros Hs. unfold DAG.hasPath.
  destruct (hasPath_loop_spec (DAG.hasPath_fuel g) [] [src] [])
    as (found & E & Hfound).
  - constructor; simpl; try tauto.
    + intros x [<- | []]. split; [apply reach_refl | exact Hs].
    + constructor.
  - rewrite <- pending_nil. simpl. lia.
  - exists found. rewrite E. split; [reflexivity | exact Hfound].
Qed.
End HasPath.

(* ================================================================== *)
(** * Adding edges *)

Lemma getMatchingNodes_keys (g : DAG.t) (n x : string) :
  In x (DAG.getMatchingNodes g n) -> In x (map_keys g).
Proof.
  unfold DAG.getMatchingNodes.
  destruct (endsWith n "*").
  - intros Hx. apply filter_In in Hx. tauto.
  - destruct (map_has g n) eqn:E; [| intros []].
    intros [<- | []]. apply map_has_keys. exact E.
Qed.

(** Matching only looks at the node set. *)
Lemma getMatchingNodes_same_keys (g g' : DAG.t) (n : string) :
  map_keys g = map_keys g' ->
  DAG.getMatchingNodes g n = DAG.getMatchingNodes g' n.
Proof.
  intros E. unfold DAG.getMatchingNodes. rewrite E.
  destruct (endsWith n "*"); [reflexivity |].
  assert (map_has g n = map_has g' n) as ->; [| reflexivity].
  destruct (map_has g' n) eqn:E'.
  - apply map_has_keys. rewrite E. apply map_has_keys. exact E'.
  - destruct (map_has g n) eqn:E''; [| reflexivity].
    apply map_has_keys in E''. rewrite E in E''. apply map_has_keys in E''.
    congruence.
Qed.

Section AddEdge.
Variable g : DAG.t.
Variables u v : string.
Hypothesis u_key : In u (map_keys g).

Lemma add_edge_keys : map_keys (add_edge g u v) = map_keys g.
Proof.
  unfold add_edge. destruct (map_get g u) eqn:E; [| reflexivity].
  apply map_set_keys_present. exact u_key.
Qed.

Lemma add_edge_edge (a b : string) :
  edge (add_edge g u v) a b <-> edge g a b \/ (a = u /\ b = v).
Proof.
  unfold add_edge, edge.
  destruct (map_get g u) as [nbrs |] eqn:E.
  2:{ apply map_get_None in E. contradiction. }
  destruct (string_dec a u) as [-> | Hne].
  - rewrite map_get_set_same. split.
    + intros (nb & [= <-] & Hb). apply set_add_In in Hb.
      destruct Hb as [-> | Hb]; [auto | left; eauto].
    + intros [(nb & Enb & Hb) | [_ ->]].
      * exists (set_add nbrs v). split; [reflexivity |].
        apply set_add_In. right. congruence.
      * exists (set_add nbrs v). split; [reflexivity |].
        apply set_add_In. auto.
  - rewrite map_get_set_other by exact Hne. split; [auto |].
    intros [H | [-> _]]; [exact H | congruence].
Qed.

Lemma add_edge_well_formed :
  In v (map_keys g) -> well_formed g -> well_formed (add_edge g u v).
Proof.
  intros v_key (Hk & Hc & Hn). unfold well_formed. rewrite add_edge_keys.
  split; [exact Hk |]. split.
  - intros a nb b Ea Hb.
    assert (E : edge (add_edge g u v) a b) by (exists nb; auto).
    apply add_edge_edge in E. destruct E as [(nb' & Ea' & Hb') | [_ ->]];
      [eapply Hc; eauto | exact v_key].
  - intros a nb. unfold add_edge.
    destruct (map_get g u) as [nbrs |] eqn:E; [| apply Hn].
    destruct (string_dec a u) as [-> | Hne].
    + rewrite map_get_set_same. intros [= <-]. apply set_add_NoDup.
      apply (Hn u nbrs E).
    + rewrite map_get_set_other by exact Hne. apply Hn.
Qed.

(** Adding an edge that is there changes nothing, not even the order. *)
Lemma add_edge_present : edge g u v -> add_edge g u v = g.
Proof.
  intros (nbrs & E & Hv). unfold add_edge. rewrite E.
  apply map_set_same. rewrite E. f_equal. unfold set_add.
  apply set_has_In in Hv. rewrite Hv. reflexivity.
Qed.
End AddEdge.

Section Linked.
Variable v : string.

Lemma linked_keys (ubs : list (string * bool)) (g : DAG.t) :
  (forall ub, In ub ubs -> In (fst ub) (map_keys g)) ->
  map_keys (linked g v ubs) = map_keys g.
Proof.
  revert g. induction ubs as [| [u b] ubs IH]; intros g Hk; simpl;
    [reflexivity |].
  assert (Hu : In u (map_keys g)) by (apply (Hk (u, b)); simpl; auto).
  destruct b; simpl.
  - apply IH. intros ub Hub. apply Hk. simpl. auto.
  - rewrite IH; [apply add_edge_keys; exact Hu |].
    intros ub Hub. rewrite add_edge_keys by exact Hu. apply Hk. simpl. auto.
Qed.

Lemma linked_edge (ubs : list (string * bool)) (g : DAG.t) (a b : string) :
  (forall ub, In ub ubs -> In (fst ub) (map_keys g)) ->
  (edge (linked g v ubs) a b <->
   edge g a b \/ (b = v /\ In (a, false) ubs)).
Proof.
  revert g. induction ubs as [| [u c] ubs IH]; intros g Hk; simpl.
  - tauto.
  - assert (Hu : In u (map_keys g)) by (apply (Hk (u, c)); simpl; auto).
    destruct c; simpl.
    + rewrite IH by (intros ub Hub; apply Hk; simpl; auto).
      split; [intros [E | [-> Hin]]; auto |].
      intros [E | [-> [[=] | Hin]]]; auto.
    + rewrite IH.
      2:{ intros ub Hub. rewrite add_edge_keys by exact Hu.
          apply Hk. simpl. auto. }
      rewrite add_edge_edge by exact Hu.
      split.
      * intros [[E | [-> ->]] | [-> Hin]]; auto.
      * intros [E | [-> [[= ->] | Hin]]]; auto.
Qed.

Lemma linked_well_formed (ubs : list (string * bool)) (g : DAG.t) :
  (forall ub, In ub ubs -> In (fst ub) (map_keys g)) ->
  In v (map_keys g) -> well_formed g -> well_formed (linked g v ubs).
Proof.
  revert g. induction ubs as [| [u c] ubs IH]; intros g Hk Hv Hg; simpl;
    [exact Hg |].
  assert (Hu : In u (map_keys g)) by (apply (Hk (u, c)); simpl; auto).
  destruct c; simpl.
  - apply IH; auto. intros ub Hub. apply Hk. simpl. auto.
  - apply IH.
    + intros ub Hub. rewrite add_edge_keys by exact Hu. apply Hk. simpl. auto.
    + rewrite add_edge_keys by exact Hu. exact Hv.
    + apply add_edge_well_formed; assumption.
Qed.

(** The heart of [addEdges]: edges into [v] from nodes that [v] does not
    reach close no cycle, however many are added at once. *)
Lemma linked_no_back_path (ubs : list (string * bool)) (g : DAG.t) :
  (forall ub, In ub ubs -> In (fst ub) (map_keys g)) ->
  (forall u, In (u, false) ubs -> ~ reach g v u) ->
  no_back_path g -> no_back_path (linked g v ubs).
Proof.
  intros Hk Hnew Hg.
  set (g' := linked g v ubs).
  assert (Hedge : forall a b, edge g' a b <->
                    edge g a b \/ (b = v /\ In (a, false) ubs))
    by (intros; apply linked_edge; exact Hk).
  (* a path of the new graph, cut at its first new edge *)
  assert (Cut : forall x y, reach g' x y ->
            reach g x y \/
            exists u, In (u, false) ubs /\ reach g x u /\ reach g' v y).
  { intros x y R. induction R as [x | x z y E R IH].
    - left. apply reach_refl.
    - apply Hedge in E. destruct E as [E | [-> Hin]].
      + destruct IH as [IH | (u & Hu & Rzu & Rvy)].
        * left. apply reach_step with z; assumption.
        * right. exists u. split; [exact Hu |].
          split; [apply reach_step with z; assumption | exact Rvy].
      + right. exists x. split; [exact Hin |].
        split; [apply reach_refl | exact R]. }
  (* from [v] no new edge can be the first one *)
  assert (FromV : forall y, reach g' v y -> reach g v y).
  { intros y R. destruct (Cut v y R) as [R' | (u & Hu & Rvu & _)];
      [exact R' | exfalso; exact (Hnew u Hu Rvu)]. }
  intros a b E R. apply Hedge in E. destruct E as [E | [-> Hin]].
  - destruct (Cut b a R) as [R' | (u & Hu & Rbu & Rva)].
    + exact (Hg a b E R').
    + apply (Hnew u Hu). apply reach_trans with a; [apply FromV; exact Rva |].
      apply reach_step with b; assumption.
  - exact (Hnew a Hin (FromV a R)).
Qed.

Lemma linked_extends (ubs : list (string * bool)) (g : DAG.t) :
  (forall ub, In ub ubs -> In (fst ub) (map_keys g)) ->
  extends g (linked g v ubs).
Proof. intros Hk a b E. apply linked_edge; auto. Qed.
End Linked.

Lemma in_combine_map {A B : Type} (f : A -> B) (l : list A) (a : A) (b : B) :
  In (a, b) (combine l (map f l)) -> In a l /\ b = f a.
Proof.
  induction l as [| x l IH]; simpl; [intros [] |].
  intros [[= -> ->] | Hin]; [auto |]. destruct (IH Hin). auto.
Qed.

Lemma pruned_incl (ubs : list (string * bool)) (ce : list string) (x : string) :
  In x (pruned ce ubs) -> In x ce.
Proof.
  revert ce. induction ubs as [| [u b] ubs IH]; intros ce; simpl; [auto |].
  destruct b; simpl; intros Hx; [auto |].
  apply (set_delete_incl ce u). apply IH. exact Hx.
Qed.

Section Link.
Variable us : list string.
Variable v : string.

Lemma link_body_spec (ubs : list (string * bool)) (g : DAG.t)
  (ce : list string) :
  (forall ub, In ub ubs -> In (fst ub) (map_keys g)) ->
  for_each ubs
    (fun (uh : string * bool) (acc : DAG.t * list string) =>
       let (g, chainEnds) := acc in
       if snd uh then Ret (g, chainEnds)
       else
         match map_get g (fst uh) with
         | None => TypeError
         | Some nbrs =>
             Ret (map_set g (fst uh) (set_add nbrs v),
                  set_delete chainEnds (fst uh))
         end)
    (g, ce)
  = Ret (linked g v ubs, pruned ce ubs).
Proof.
  revert g ce. induction ubs as [| [u b] ubs IH]; intros g ce Hk; simpl;
    [reflexivity |].
  assert (Hu : In u (map_keys g)) by (apply (Hk (u, b)); simpl; auto).
  destruct b; simpl.
  - apply IH. intros ub Hub. apply Hk. simpl. auto.
  - unfold add_edge. destruct (map_get g u) as [nbrs |] eqn:E.
    2:{ apply map_get_None in E. contradiction. }
    simpl. apply IH. intros ub Hub.
    rewrite map_set_keys_present by exact Hu. apply Hk. simpl. auto.
Qed.

(** [link]: the answers of [hasPath] are those of reachability in the graph
    as it is when the node [v] is taken up. *)
Lemma link_spec (g : DAG.t) (ce : list string) :
  well_formed g -> (forall u, In u us -> In u (map_keys g)) ->
  In v (map_keys g) ->
  exists found,
    (forall u, In u us -> (In u found <-> reach g v u)) /\
    DAG.link us v (g, ce)
    = Ret (linked g v (combine us (map (set_has found) us)),
           pruned ce (combine us (map (set_has found) us))).
Proof.
  intros (Hk & Hc & Hn) Hus Hv.
  destruct (hasPath_spec g Hc v us Hv) as (found & E & Hfound).
  exists found. split; [exact Hfound |].
  unfold DAG.link. cbn [fst]. rewrite E. cbn [bind].
  apply link_body_spec. intros [u b] Hub.
  apply in_combine_map in Hub. apply Hus. tauto.
Qed.

Lemma link_sound (g : DAG.t) (ce : list string) :
  sound g -> (forall u, In u us -> In u (map_keys g)) ->
  In v (map_keys g) ->
  exists g' ce',
    DAG.link us v (g, ce) = Ret (g', ce') /\
    sound g' /\ map_keys g' = map_keys g /\ extends g g' /\
    (forall x, In x ce' -> In x ce).
Proof.
  intros [Hw Hb] Hus Hv.
  destruct (link_spec g ce Hw Hus Hv) as (found & Hfound & E).
  set (ubs := combine us (map (set_has found) us)) in *.
  assert (Hk : forall ub, In ub ubs -> In (fst ub) (map_keys g)).
  { intros [u b] Hub. apply in_combine_map in Hub. apply Hus. tauto. }
  exists (linked g v ubs), (pruned ce ubs). split; [exact E |].
  split; [split |].
  - apply linked_well_formed; assumption.
  - apply linked_no_back_path; [exact Hk | | exact Hb].
    intros u Hu R. apply in_combine_map in Hu. destruct Hu as [Hu Hf].
    symmetry in Hf. apply set_has_false in Hf. apply Hf.
    apply Hfound; assumption.
  - split; [apply linked_keys; exact Hk |].
    split; [apply linked_extends; exact Hk | apply pruned_incl].
Qed.
End Link.

Lemma link_each_sound (us vs : list string) (g : DAG.t) (ce : list string) :
  sound g -> (forall u, In u us -> In u (map_keys g)) ->
  (forall v, In v vs -> In v (map_keys g)) ->
  exists g' ce',
    for_each vs (DAG.link us) (g, ce) = Ret (g', ce') /\
    sound g' /\ map_keys g' = map_keys g /\ extends g g' /\
    (forall x, In x ce' -> In x ce).
Proof.
  revert g ce. induction vs as [| v vs IH]; intros g ce Hg Hus Hvs; simpl.
  - exists g, ce. split; [reflexivity |].
    split; [exact Hg |]. split; [reflexivity |].
    split; [apply extends_refl | auto].
  - destruct (link_sound us v g ce Hg Hus (Hvs v (or_introl eq_refl)))
      as (g1 & ce1 & E1 & Hg1 & Hk1 & He1 & Hc1).
    rewrite E1. simpl.
    destruct (IH g1 ce1 Hg1) as (g2 & ce2 & E2 & Hg2 & Hk2 & He2 & Hc2).
    + intros u Hu. rewrite Hk1. auto.
    + intros x Hx. rewrite Hk1. apply Hvs. right. exact Hx.
    + exists g2, ce2. split; [exact E2 |]. split; [exact Hg2 |].
      split; [congruence |].
      split; [apply extends_trans with g1; assumption | auto].
Qed.

Lemma link_all_sound (order us : list string) (g : DAG.t) :
  sound g -> (forall u, In u us -> In u (map_keys g)) ->
  exists g',
    DAG.link_all g us order = Ret g' /\
    sound g' /\ map_keys g' = map_keys g /\ extends g g'.
Proof.
  revert us g. induction order as [| x order IH]; intros us g Hg Hus;
    cbn [DAG.link_all].
  - exists g. split; [reflexivity |]. split; [exact Hg |].
    split; [reflexivity | apply extends_refl].
  - destruct (DAG.getMatchingNodes g x) as [| v0 vs0] eqn:Ev.
    + apply IH; assumption.
    + destruct (link_each_sound us (v0 :: vs0) g (set_of us) Hg Hus)
        as (g1 & ce1 & E1 & Hg1 & Hk1 & He1 & Hc1).
      { intros v Hv. rewrite <- Ev in Hv.
        apply (getMatchingNodes_keys g x v Hv). }
      rewrite E1. cbn [bind fst snd].
      destruct (IH (ce1 ++ v0 :: vs0) g1 Hg1) as (g2 & E2 & Hg2 & Hk2 & He2).
      * intros u Hu. rewrite Hk1. apply in_app_iff in Hu.
        destruct Hu as [Hu | Hu].
        -- apply Hus. apply (proj2 (set_of_spec us)). apply Hc1. exact Hu.
        -- rewrite <- Ev in Hu. apply (getMatchingNodes_keys g x u Hu).
      * exists g2. split; [exact E2 |]. split; [exact Hg2 |].
        split; [congruence | apply extends_trans with g1; assumption].
Qed.

Lemma first_match_keys (g : DAG.t) (order : list string) (u : string) :
  In u (fst (DAG.first_match g order)) -> In u (map_keys g).
Proof.
  induction order as [| x order IH]; cbn [DAG.first_match]; [intros [] |].
  destruct (DAG.getMatchingNodes g x) as [| v0 vs0] eqn:Ev; [exact IH |].
  cbn [fst]. rewrite <- Ev. apply getMatchingNodes_keys.
Qed.

(** [addEdges] never raises, and keeps the graph well formed and free of
    cycles, on the same nodes, with the edges it had. *)
Lemma addEdges_sound (g : DAG.t) (order : list string) :
  sound g ->
  exists g',
    DAG.addEdges g order = Ret g' /\
    sound g' /\ map_keys g' = map_keys g /\ extends g g'.
Proof.
  intros Hg. unfold DAG.addEdges.
  destruct (DAG.first_match g order) as [us rest] eqn:E.
  apply link_all_sound; [exact Hg |].
  intros u Hu. apply (first_match_keys g order). rewrite E. exact Hu.
Qed.

Lemma apply_hints_sound (hints : list (list string)) (g : DAG.t) :
  sound g ->
  exists g',
    apply_hints g hints = Ret g' /\
    sound g' /\ map_keys g' = map_keys g /\ extends g g'.
Proof.
  unfold apply_hints. revert g.
  induction hints as [| h hints IH]; intros g Hg; simpl.
  - exists g. split; [reflexivity |]. split; [exact Hg |].
    split; [reflexivity | apply extends_refl].
  - destruct (addEdges_sound g h Hg) as (g1 & E1 & Hg1 & Hk1 & He1).
    rewrite E1. simpl.
    destruct (IH g1 Hg1) as (g2 & E2 & Hg2 & Hk2 & He2).
    exists g2. split; [exact E2 |]. split; [exact Hg2 |].
    split; [congruence | apply extends_trans with g1; assumption].
Qed.

(** The constructor: one node per distinct vertex, no edge. *)
Lemma new_spec (verts : list string) :
  (forall u, map_get (DAG.new verts) u <> None -> map_get (DAG.new verts) u = Some []) /\
  NoDup (map_keys (DAG.new verts)) /\
  (forall u, In u (map_keys (DAG.new verts)) <-> In u verts).
Proof.
  unfold DAG.new.
  assert (G : forall acc : DAG.t,
            (forall u, map_get acc u <> None -> map_get acc u = Some []) ->
            NoDup (map_keys acc) ->
            let g := fold_left (fun g v => map_set g v []) verts acc in
            (forall u, map_get g u <> None -> map_get g u = Some []) /\
            NoDup (map_keys g) /\
            (forall u, In u (map_keys g) <-> In u (map_keys acc) \/ In u verts)).
  { induction verts as [| v verts IH]; intros acc He Hn; simpl.
    - repeat split; auto. tauto.
    - destruct (IH (map_set acc v [])) as (He' & Hn' & Hk').
      + intros u. destruct (string_dec u v) as [-> | Hne].
        * rewrite map_get_set_same. auto.
        * rewrite map_get_set_other by exact Hne. apply He.
      + apply map_set_keys_NoDup. exact Hn.
      + split; [exact He' |]. split; [exact Hn' |].
        intros u. rewrite Hk', map_set_keys_In. intuition congruence. }
  destruct (G [] ltac:(simpl; congruence) (NoDup_nil _)) as (He & Hn & Hk).
  split; [exact He |]. split; [exact Hn |].
  intros u. rewrite Hk. simpl. tauto.
Qed.

Lemma new_sound (verts : list string) : sound (DAG.new verts).
Proof.
  destruct (new_spec verts) as (He & Hn & Hk).
  assert (Hnone : forall u v, ~ edge (DAG.new verts) u v).
  { intros u v (nbrs & E & Hv). rewrite He in E by congruence.
    injection E as <-. exact Hv. }
  split; [split; [exact Hn | split] |].
  - intros u nbrs v E Hv. exfalso. apply (Hnone u v). exists nbrs. auto.
  - intros u nbrs E. rewrite He in E by congruence. injection E as <-.
    constructor.
  - intros u v E. exfalso. exact (Hnone u v E).
Qed.

(** C2. For every node set given to the constructor and every sequence of
    [addEdges] calls, whatever the hints (contradictory ones and wildcard
    patterns included), every call returns and the resulting graph is
    acyclic: no node reaches itself by a non-empty path. *)
Theorem addEdges_acyclic :
  forall (verts : list string) (hints : list (list string)),
    exists g,
      apply_hints (DAG.new verts) hints = Ret g /\ acyclic g.
Proof.
  intros verts hints.
  destruct (apply_hints_sound hints (DAG.new verts) (new_sound verts))
    as (g & E & [_ Hb] & _ & _).
  exists g. split; [exact E |]. apply acyclic_no_back_path. exact Hb.
Qed.

(* ================================================================== *)
(** * Applying hints a second time *)

Lemma in_combine_map_intro {A B : Type} (f : A -> B) (l : list A) (a : A) :
  In a l -> In (a, f a) (combine l (map f l)).
Proof.
  induction l as [| x l IH]; simpl; [intros [] |].
  intros [-> | Hin]; auto.
Qed.

Lemma linked_present (v : string) (ubs : list (string * bool)) (g : DAG.t) :
  (forall u, In (u, false) ubs -> edge g u v) -> linked g v ubs = g.
Proof.
  induction ubs as [| [u b] ubs IH]; intros He; simpl; [reflexivity |].
  destruct b; simpl.
  - apply IH. intros x Hx. apply He. simpl. auto.
  - rewrite add_edge_present by (apply He; simpl; auto).
    apply IH. intros x Hx. apply He. simpl. auto.
Qed.

(** In any later graph, [link] gives the same answers as it did, and so adds
    nothing. *)
Lemma link_again (us : list string) (v : string) (ga ga1 gb : DAG.t)
  (ce ce1 : list string) :
  sound ga -> (forall u, In u us -> In u (map_keys ga)) ->
  In v (map_keys ga) ->
  DAG.link us v (ga, ce) = Ret (ga1, ce1) ->
  sound gb -> map_keys gb = map_keys ga -> extends ga1 gb ->
  DAG.link us v (gb, ce) = Ret (gb, ce1).
Proof.
  intros [Hwa Hba] Hus Hv Ea [Hwb Hbb] Hk He.
  destruct (link_spec us v ga ce Hwa Hus Hv) as (fa & Hfa & Ea').
  rewrite Ea in Ea'. injection Ea' as -> ->.
  destruct (link_spec us v gb ce Hwb) as (fb & Hfb & Eb).
  { intros u Hu. rewrite Hk. auto. }
  { rewrite Hk. exact Hv. }
  set (ubs := combine us (map (set_has fa) us)) in *.
  assert (Hka : forall ub, In ub ubs -> In (fst ub) (map_keys ga)).
  { intros [u b] Hub. apply in_combine_map in Hub. apply Hus. tauto. }
  assert (Hnew : forall u, In (u, false) ubs -> edge gb u v).
  { intros u Hu. apply He. apply linked_edge; [exact Hka | auto]. }
  assert (Hsame : map (set_has fb) us = map (set_has fa) us).
  { apply map_ext_in. intros u Hu.
    destruct (set_has fa u) eqn:Efa.
    - apply set_has_In. apply Hfb; [exact Hu |].
      apply reach_extends with ga.
      + apply extends_trans with (linked ga v ubs); [| exact He].
        apply linked_extends. exact Hka.
      + apply Hfa; [exact Hu |]. apply set_has_In. exact Efa.
    - apply set_has_false. intros Hb. apply Hfb in Hb; [| exact Hu].
      apply (Hbb u v); [| exact Hb].
      apply Hnew. subst ubs. rewrite <- Efa.
      apply in_combine_map_intro. exact Hu. }
  rewrite Eb, Hsame. fold ubs. f_equal. f_equal.
  apply linked_present. exact Hnew.
Qed.

Lemma link_each_again (us vs : list string) (ga ga' gb : DAG.t)
  (ce ce' : list string) :
  sound ga -> (forall u, In u us -> In u (map_keys ga)) ->
  (forall v, In v vs -> In v (map_keys ga)) ->
  for_each vs (DAG.link us) (ga, ce) = Ret (ga', ce') ->
  sound gb -> map_keys gb = map_keys ga -> extends ga' gb ->
  for_each vs (DAG.link us) (gb, ce) = Ret (gb, ce').
Proof.
  revert ga ce. induction vs as [| v vs IH]; intros ga ce Hga Hus Hvs Ea Hgb Hk He;
    simpl in *.
  - injection Ea as -> ->. reflexivity.
  - destruct (link_sound us v ga ce Hga Hus (Hvs v (or_introl eq_refl)))
      as (g1 & ce1 & E1 & Hg1 & Hk1 & He1 & _).
    rewrite E1 in Ea. simpl in Ea.
    destruct (link_each_sound us vs g1 ce1 Hg1) as (g2 & ce2 & E2 & _ & _ & He2 & _).
    { intros u Hu. rewrite Hk1. auto. }
    { intros x Hx. rewrite Hk1. auto. }
    assert (g2 = ga' /\ ce2 = ce') as [-> ->] by (split; congruence).
    rewrite (link_again us v ga g1 gb ce ce1); auto.
    + simpl. apply (IH g1 ce1); auto.
      * intros u Hu. rewrite Hk1. auto.
      * intros x Hx. rewrite Hk1. auto.
      * congruence.
    + apply extends_trans with ga'; assumption.
Qed.

Lemma link_all_again (order us : list string) (ga ga' gb : DAG.t) :
  sound ga -> (forall u, In u us -> In u (map_keys ga)) ->
  DAG.link_all ga us order = Ret ga' ->
  sound gb -> map_keys gb = map_keys ga -> extends ga' gb ->
  DAG.link_all gb us order = Ret gb.
Proof.
  revert us ga. induction order as [| x order IH];
    intros us ga Hga Hus Ea Hgb Hk He; cbn [DAG.link_all] in *.
  - reflexivity.
  - rewrite (getMatchingNodes_same_keys gb ga x Hk).
    destruct (DAG.getMatchingNodes ga x) as [| v0 vs0] eqn:Ev.
    + apply (IH us ga); assumption.
    + assert (Hvs : forall v, In v (v0 :: vs0) -> In v (map_keys ga)).
      { intros v Hv. rewrite <- Ev in Hv.
        apply (getMatchingNodes_keys ga x v Hv). }
      destruct (link_each_sound us (v0 :: vs0) ga (set_of us) Hga Hus Hvs)
        as (g1 & ce1 & E1 & Hg1 & Hk1 & He1 & Hc1).
      rewrite E1 in Ea. cbn [bind fst snd] in Ea.
      assert (Hus1 : forall u, In u (ce1 ++ v0 :: vs0) -> In u (map_keys g1)).
      { intros u Hu. rewrite Hk1. apply in_app_iff in Hu.
        destruct Hu as [Hu | Hu]; [| auto].
        apply Hus. apply (proj2 (set_of_spec us)). apply Hc1. exact Hu. }
      destruct (link_all_sound order _ g1 Hg1 Hus1) as (g2 & E2 & _ & _ & He2).
      assert (g2 = ga') as -> by congruence.
      rewrite (link_each_again us (v0 :: vs0) ga g1 gb (set_of us) ce1); auto.
      * cbn [bind fst snd]. apply (IH _ g1); auto. congruence.
      * apply extends_trans with ga'; assumption.
Qed.

Lemma first_match_same_keys (g g' : DAG.t) (order : list string) :
  map_keys g = map_keys g' -> DAG.first_match g order = DAG.first_match g' order.
Proof.
  intros Hk. induction order as [| x order IH]; cbn [DAG.first_match];
    [reflexivity |].
  rewrite (getMatchingNodes_same_keys g g' x Hk), IH. reflexivity.
Qed.

Lemma addEdges_again (order : list string) (ga ga' gb : DAG.t) :
  sound ga -> DAG.addEdges ga order = Ret ga' ->
  sound gb -> map_keys gb = map_keys ga -> extends ga' gb ->
  DAG.addEdges gb order = Ret gb.
Proof.
  intros Hga Ea Hgb Hk He. unfold DAG.addEdges in *.
  rewrite (first_match_same_keys gb ga order Hk).
  destruct (DAG.first_match ga order) as [us rest] eqn:E.
  apply (link_all_again rest us ga ga'); auto.
  intros u Hu. apply (first_match_keys ga order). rewrite E. exact Hu.
Qed.

Lemma apply_hints_again (hints : list (list string)) (ga ga' gb : DAG.t) :
  sound ga -> apply_hints ga hints = Ret ga' ->
  sound gb -> map_keys gb = map_keys ga -> extends ga' gb ->
  apply_hints gb hints = Ret gb.
Proof.
  unfold apply_hints. revert ga.
  induction hints as [| h hints IH]; intros ga Hga Ea Hgb Hk He; simpl in *.
  - reflexivity.
  - destruct (addEdges_sound ga h Hga) as (g1 & E1 & Hg1 & Hk1 & He1).
    rewrite E1 in Ea. simpl in Ea.
    destruct (apply_hints_sound hints g1 Hg1) as (g2 & E2 & _ & _ & He2).
    unfold apply_hints in E2.
    assert (g2 = ga') as -> by congruence.
    rewrite (addEdges_again h ga g1 gb); auto.
    + simpl. apply (IH g1); auto. congruence.
    + apply extends_trans with ga'; assumption.
Qed.

(** C4. On every graph [g0] built by the constructor and [addEdges] calls,
    and for every list of hints: applying the list a second time, in the same
    order, returns the very graph the first application returned (no edge is
    added, no order of insertion changes), so [topoSort] with the same
    tie-breaker returns the same output after it. *)
Theorem addEdges_idempotent :
  forall (verts : list string) (earlier hints : list (list string)),
    exists g0 g1,
      apply_hints (DAG.new verts) earlier = Ret g0 /\
      apply_hints g0 hints = Ret g1 /\
      apply_hints g1 hints = Ret g1 /\
      forall (St R : Type) (HR : Number R)
             (tieBreaker : Comparator string St R) (s : St),
        (g2 <- apply_hints g1 hints ;; DAG.topoSort tieBreaker g2 s)
        = DAG.topoSort tieBreaker g1 s.
Proof.
  intros verts earlier hints.
  destruct (apply_hints_sound earlier (DAG.new verts) (new_sound verts))
    as (g0 & E0 & Hg0 & _ & _).
  destruct (apply_hints_sound hints g0 Hg0) as (g1 & E1 & Hg1 & Hk1 & _).
  assert (E2 : apply_hints g1 hints = Ret g1).
  { apply (apply_hints_again hints g0 g1 g1); auto. apply extends_refl. }
  exists g0, g1. split; [exact E0 |]. split; [exact E1 |].
  split; [exact E2 |]. intros St R HR tieBreaker s. rewrite E2. reflexivity.
Qed.


(* ================================================================== *)
(** * Finite descent *)

(** In a relation without cycles, no non-empty finite set has a predecessor
    inside the set for each of its elements. *)
Lemma descent_empty {A : Type} (R : A -> A -> Prop) :
  (forall x, ~ clos_trans A R x x) ->
  forall S : list A,
    (forall z, In z S -> exists y, In y S /\ clos_trans A R y z) -> S = [].
Proof.
  intros Hacyc. induction S as [| x S IH]; intros Hpred; [reflexivity |].
  exfalso.
  assert (HS : S = []).
  { apply IH. intros z Hz.
    destruct (Hpred z (or_intror Hz)) as (y & [<- | Hy] & Hyz); [| eauto].
    destruct (Hpred x (or_introl eq_refl)) as (y' & [<- | Hy'] & Hyx).
    - exfalso. exact (Hacyc x Hyx).
    - exists y'. split; [exact Hy' |]. apply t_trans with x; assumption. }
  subst S.
  destruct (Hpred x (or_introl eq_refl)) as (y & [<- | []] & Hyx).
  exact (Hacyc x Hyx).
Qed.

(* ================================================================== *)
(** * The in-degree table *)

Lemma degree_set_same (m : jsmap string Z) (x : string) (d : Z) :
  degree (map_set m x d) x = d.
Proof. unfold degree. now rewrite map_get_set_same. Qed.

Lemma degree_set_other (m : jsmap string Z) (x y : string) (d : Z) :
  y <> x -> degree (map_set m x d) y = degree m y.
Proof. intros Hne. unfold degree. now rewrite map_get_set_other. Qed.

Lemma count_edge_degree (m : jsmap string Z) (v x : string) :
  degree (DAG.count_edge m v) x
  = (degree m x + if string_dec v x then 1 else 0)%Z.
Proof.
  unfold DAG.count_edge. destruct (string_dec v x) as [-> | Hne].
  - rewrite degree_set_same. reflexivity.
  - rewrite degree_set_other by congruence. lia.
Qed.

Lemma count_edges_spec (nbrs : list string) (m : jsmap string Z) :
  let m' := fold_left DAG.count_edge nbrs m in
  (NoDup (map_keys m) -> NoDup (map_keys m')) /\
  (forall x, In x (map_keys m') <-> In x (map_keys m) \/ In x nbrs) /\
  (forall x, degree m' x
             = (degree m x + Z.of_nat (count_occ string_dec nbrs x))%Z).
Proof.
  revert m. induction nbrs as [| v nbrs IH]; intros m; simpl.
  - split; [auto |]. split; [tauto | intros; lia].
  - destruct (IH (DAG.count_edge m v)) as (Hn & Hk & Hd).
    split; [| split].
    + intros Hm. apply Hn. apply map_set_keys_NoDup. exact Hm.
    + intros x. rewrite Hk. unfold DAG.count_edge. rewrite map_set_keys_In.
      intuition congruence.
    + intros x. rewrite Hd, count_edge_degree.
      destruct (string_dec v x); lia.
Qed.

Lemma indegree_fold_spec (g : DAG.t) (m : jsmap string Z) :
  let step := fun indegree (e : string * list string) =>
                let indegree1 :=
                  if map_has indegree (fst e) then indegree
                  else map_set indegree (fst e) 0%Z in
                fold_left DAG.count_edge (snd e) indegree1 in
  let m' := fold_left step g m in
  (NoDup (map_keys m) -> NoDup (map_keys m')) /\
  (forall x, In x (map_keys m') <->
             In x (map_keys m) \/ In x (map_keys g) \/
             exists e, In e g /\ In x (snd e)) /\
  (forall x, degree m' x
             = (degree m x
                + Z.of_nat (list_sum
                    (map (fun e : string * list string =>
                            count_occ string_dec (snd e) x) g)))%Z).
Proof.
  revert m. induction g as [| [k nb] g IH]; intros m; simpl.
  - split; [auto |]. split; [| intros; lia].
    intros x. split; [auto |]. intros [H | [[] | (e & [] & _)]]. exact H.
  - set (m1 := if map_has m k then m else map_set m k 0%Z).
    assert (H1n : NoDup (map_keys m) -> NoDup (map_keys m1)).
    { intros Hm. subst m1. destruct (map_has m k); [exact Hm |].
      apply map_set_keys_NoDup. exact Hm. }
    assert (H1k : forall x, In x (map_keys m1) <-> In x (map_keys m) \/ x = k).
    { intros x. subst m1. destruct (map_has m k) eqn:E.
      - apply map_has_keys in E. intuition congruence.
      - rewrite map_set_keys_In. tauto. }
    assert (H1d : forall x, degree m1 x = degree m x).
    { intros x. subst m1. destruct (map_has m k) eqn:E; [reflexivity |].
      destruct (string_dec x k) as [-> | Hne].
      - rewrite degree_set_same. unfold degree. unfold map_has in E.
        destruct (map_get m k); [discriminate | reflexivity].
      - now rewrite degree_set_other. }
    destruct (count_edges_spec nb m1) as (H2n & H2k & H2d).
    destruct (IH (fold_left DAG.count_edge nb m1)) as (Hn & Hk & Hd).
    split; [| split].
    + intros Hm. auto.
    + intros x. rewrite Hk, H2k, H1k. split.
      * intros [[[H | ->] | H] | [H | (e & He & Hx)]]; auto.
        -- right. right. exists (k, nb). auto.
        -- right. right. exists e. auto.
      * intros [H | [[<- | H] | (e & [<- | He] & Hx)]]; auto.
        right. right. exists e. auto.
    + intros x. rewrite Hd, H2d, H1d. lia.
Qed.

Lemma remaining_nil (g : DAG.t) (x : string) :
  remaining g [] x
  = list_sum (map (fun e : string * list string =>
                     count_occ string_dec (snd e) x) g).
Proof. reflexivity. Qed.

Lemma indegree_of_spec (g : DAG.t) :
  well_formed g ->
  NoDup (map_keys (DAG.indegree_of g)) /\
  (forall x, In x (map_keys (DAG.indegree_of g)) <-> In x (map_keys g)) /\
  (forall x, degree (DAG.indegree_of g) x = Z.of_nat (remaining g [] x)).
Proof.
  intros (Hk & Hc & Hn). unfold DAG.indegree_of.
  destruct (indegree_fold_spec g []) as (Hn' & Hk' & Hd').
  split; [apply Hn'; constructor |]. split.
  - intros x. rewrite Hk'. simpl. split; [| auto].
    intros [[] | [H | ([u nb] & He & Hx)]]; [exact H |].
    apply (Hc u nb x); [| exact Hx]. apply In_map_get; assumption.
  - intros x. rewrite Hd', remaining_nil. unfold degree. simpl. lia.
Qed.

(* ================================================================== *)
(** * Predecessors not emitted yet *)

Lemma set_has_snoc (l : list string) (u k : string) :
  set_has (l ++ [u]) k = set_has l k || if string_dec u k then true else false.
Proof.
  induction l as [| y l IH]; simpl.
  - unfold eq_dec, string_EqDec. destruct (string_dec u k); reflexivity.
  - destruct (eq_dec y k); [reflexivity | exact IH].
Qed.

Lemma remaining_absent (g : DAG.t) (result : list string) (u x : string) :
  ~ In u (map_keys g) ->
  remaining g (result ++ [u]) x = remaining g result x.
Proof.
  unfold remaining. induction g as [| [k nb] g IH]; simpl; [reflexivity |].
  intros Hu. rewrite IH by tauto. rewrite set_has_snoc.
  destruct (string_dec u k) as [-> | Hne]; [tauto |]. now rewrite orb_false_r.
Qed.

(** Emitting [u] takes its edges out of the count. *)
Lemma remaining_emit (g : DAG.t) (result : list string) (u x : string)
  (nbrs : list string) :
  NoDup (map_keys g) -> map_get g u = Some nbrs -> ~ In u result ->
  remaining g result x
  = remaining g (result ++ [u]) x + count_occ string_dec nbrs x.
Proof.
  intros Hk Hg Hu. unfold remaining.
  induction g as [| [k nb] g IH]; simpl in *; [discriminate |].
  inversion Hk as [| ? ? Hkn Hk']; subst.
  rewrite set_has_snoc.
  destruct (eq_dec k u) as [-> | Hne].
  - injection Hg as ->.
    apply set_has_false in Hu. rewrite Hu.
    destruct (string_dec u u); [| congruence]. simpl.
    pose proof (remaining_absent g result u x Hkn) as Ra.
    unfold remaining in Ra. rewrite Ra. lia.
  - destruct (string_dec u k); [congruence |]. rewrite orb_false_r.
    rewrite (IH Hk' Hg). lia.
Qed.

Lemma remaining_zero (g : DAG.t) (result : list string) (a x : string) :
  remaining g result x = 0 -> edge g a x -> In a result.
Proof.
  intros Hz (nbrs & Hg & Hx). apply map_get_In in Hg.
  unfold remaining in Hz.
  induction g as [| [k nb] g IH]; simpl in *; [contradiction |].
  destruct Hg as [[= -> ->] | Hg].
  - destruct (set_has result a) eqn:E; [apply set_has_In; exact E |].
    exfalso. apply (count_occ_In string_dec) in Hx. lia.
  - apply IH; [lia | exact Hg].
Qed.

Lemma remaining_positive (g : DAG.t) (result : list string) (x : string) :
  NoDup (map_keys g) -> remaining g result x <> 0 ->
  exists a, edge g a x /\ ~ In a result.
Proof.
  intros Hk Hp. unfold remaining in Hp.
  assert (G : exists a nb, In (a, nb) g /\ ~ In a result /\ In x nb).
  { clear Hk. induction g as [| [k nb] g IH]; simpl in *; [congruence |].
    destruct (set_has result k) eqn:E.
    - destruct (IH Hp) as (a & nb' & Hin & Ha & Hx). exists a, nb'. auto.
    - destruct (Nat.eq_dec (count_occ string_dec nb x) 0) as [Ez | Ez].
      + destruct (IH ltac:(lia)) as (a & nb' & Hin & Ha & Hx).
        exists a, nb'. auto.
      + exists k, nb. split; [auto |]. split.
        * apply set_has_false. exact E.
        * apply (count_occ_In string_dec). lia. }
  destruct G as (a & nb & Hin & Ha & Hx).
  exists a. split; [| exact Ha]. exists nb. split; [| exact Hx].
  apply In_map_get; assumption.
Qed.

(* ================================================================== *)
(** * Kahn's loop *)

Lemma precedes_app (l : list string) (u v w : string) :
  precedes l u v -> precedes (l ++ [w]) u v.
Proof.
  intros (l1 & l2 & l3 & ->). exists l1, l2, (l3 ++ [w]).
  rewrite <- !app_assoc. simpl. rewrite <- app_assoc. reflexivity.
Qed.

Lemma precedes_last (l : list string) (u v : string) :
  In u l -> precedes (l ++ [v]) u v.
Proof.
  intros Hu. apply in_split in Hu. destruct Hu as (l1 & l2 & ->).
  exists l1, l2, []. rewrite <- app_assoc. reflexivity.
Qed.

Section Kahn.
Context {St R : Type} `{Number R}.
Variable tieBreaker : Comparator string St R.
Variable g : DAG.t.
Hypothesis g_wf : well_formed g.

Lemma seed_fold_perm (indegree : jsmap string Z) (acc : list string * St) :
  Permutation
    (fst (fold_left
            (fun (acc : list string * St) (e : string * Z) =>
               if (snd e =? 0)%Z
               then PriorityQueue.push tieBreaker (fst acc) (fst e) (snd acc)
               else acc)
            indegree acc))
    (map fst (filter (fun e : string * Z => (snd e =? 0)%Z) indegree) ++ fst acc).
Proof.
  revert acc. induction indegree as [| [k d] m IH]; intros acc; simpl.
  - reflexivity.
  - rewrite IH. destruct (d =? 0)%Z; simpl; [| reflexivity].
    rewrite push_perm. symmetry. apply Permutation_middle.
Qed.

Lemma seed_spec (indegree : jsmap string Z) (s : St) :
  NoDup (map_keys indegree) ->
  let pq := fst (DAG.seed tieBreaker indegree s) in
  NoDup pq /\
  forall x, In x pq <-> In x (map_keys indegree) /\ degree indegree x = 0%Z.
Proof.
  intros Hn pq.
  assert (P : Permutation pq
            (map fst (filter (fun e : string * Z => (snd e =? 0)%Z) indegree))).
  { subst pq. unfold DAG.seed. rewrite seed_fold_perm. simpl.
    now rewrite app_nil_r. }
  assert (Hin : forall x,
            In x (map fst (filter (fun e : string * Z => (snd e =? 0)%Z) indegree))
            <-> In x (map_keys indegree) /\ degree indegree x = 0%Z).
  { intros x. rewrite in_map_iff. split.
    - intros ([k d] & <- & Hf). apply filter_In in Hf. destruct Hf as [Hi Hd].
      simpl in *. apply Z.eqb_eq in Hd. subst d. split.
      + change k with (fst (k, 0%Z)). apply in_map. exact Hi.
      + unfold degree. now rewrite (In_map_get indegree k 0%Z Hn Hi).
    - intros [Hk Hd]. unfold degree in Hd.
      destruct (map_get indegree x) as [d |] eqn:E.
      + subst d. exists (x, 0%Z). split; [reflexivity |].
        apply filter_In. split; [apply map_get_In; exact E | reflexivity].
      + apply map_get_None in E. contradiction. }
  split.
  - apply (Permutation_NoDup (Permutation_sym P)).
    clear P Hin. unfold map_keys in Hn.
    induction indegree as [| [k d] m IH]; simpl in *; [constructor |].
    inversion Hn as [| ? ? Hk Hm]; subst.
    destruct (d =? 0)%Z; simpl; [| auto].
    constructor; [| auto].
    intros Hin. apply Hk. apply in_map_iff in Hin.
    destruct Hin as (e & <- & He). apply filter_In in He.
    apply in_map. tauto.
  - intros x. rewrite <- Hin. split; apply Permutation_in; [| symmetry]; exact P.
Qed.

(** The loop over the successors of the node just emitted. *)
Lemma relax_all (nbrs : list string) (indegree : jsmap string Z)
  (pq result : list string) (s : St) :
  NoDup nbrs -> (forall v, In v nbrs -> In v (map_keys g)) ->
  kahn g indegree pq result nbrs ->
  exists indegree' pq' s',
    fold_left (DAG.relax tieBreaker) nbrs (indegree, pq, s)
    = (indegree', pq', s') /\
    kahn g indegree' pq' result [].
Proof.
  revert indegree pq s.
  induction nbrs as [| v nbrs IH]; intros indegree pq s Hn Hk K; simpl.
  - eauto.
  - inversion Hn as [| ? ? Hv Hn']; subst.
    assert (Kv : In v (map_keys g)) by (apply Hk; simpl; auto).
    destruct (map_get indegree v) as [d |] eqn:Ed.
    2:{ exfalso. exact (kahn_table _ _ _ _ _ K v Kv Ed). }
    assert (Hd : d = Z.of_nat (remaining g result v + 1)).
    { pose proof (kahn_degree _ _ _ _ _ K v Kv) as D.
      unfold degree in D. rewrite Ed in D. simpl in D.
      destruct (string_dec v v); [| congruence].
      rewrite (proj1 (count_occ_not_In string_dec nbrs v) Hv) in D. lia. }
    assert (Hnot : ~ In v (result ++ pq)).
    { intros Hin. apply (kahn_zero _ _ _ _ _ K v Kv) in Hin.
      unfold degree in Hin. rewrite Ed in Hin. lia. }
    set (indegree' := map_set indegree v (d - 1)%Z).
    assert (Htable : forall x, In x (map_keys g) -> map_get indegree' x <> None).
    { intros x Hx. subst indegree'. destruct (string_dec x v) as [-> | Hne].
      - rewrite map_get_set_same. discriminate.
      - rewrite map_get_set_other by exact Hne.
        apply (kahn_table _ _ _ _ _ K x Hx). }
    assert (Hdeg : forall x, In x (map_keys g) ->
              degree indegree' x
              = Z.of_nat (remaining g result x + count_occ string_dec nbrs x)).
    { intros x Hx. subst indegree'. destruct (string_dec x v) as [-> | Hne].
      - rewrite degree_set_same.
        rewrite (proj1 (count_occ_not_In string_dec nbrs v) Hv). lia.
      - rewrite degree_set_other by exact Hne.
        rewrite (kahn_degree _ _ _ _ _ K x Hx). simpl.
        destruct (string_dec v x); [congruence | reflexivity]. }
    destruct (d - 1 =? 0)%Z eqn:Ez.
    + (* the last predecessor was emitted: [v] is queued *)
      apply Z.eqb_eq in Ez.
      destruct (PriorityQueue.push tieBreaker pq v s) as [pq' s'] eqn:Ep.
      assert (Pp : Permutation pq' (v :: pq)).
      { replace pq' with (fst (PriorityQueue.push tieBreaker pq v s))
          by (rewrite Ep; reflexivity). apply push_perm. }
      apply IH; [exact Hn' | intros x Hx; apply Hk; simpl; auto |].
      constructor.
      * apply Permutation_NoDup with (v :: result ++ pq).
        -- rewrite Pp. apply Permutation_middle.
        -- constructor; [exact Hnot | apply (kahn_nodup _ _ _ _ _ K)].
      * intros x Hx. apply in_app_iff in Hx. destruct Hx as [Hx | Hx].
        -- apply (kahn_nodes _ _ _ _ _ K). apply in_app_iff. auto.
        -- apply (Permutation_in x Pp) in Hx. destruct Hx as [<- | Hx];
             [exact Kv |].
           apply (kahn_nodes _ _ _ _ _ K). apply in_app_iff. auto.
      * exact Htable.
      * exact Hdeg.
      * intros x Hx. destruct (string_dec x v) as [-> | Hne].
        -- subst indegree'. rewrite degree_set_same. split; [lia |].
           intros _. apply in_app_iff. right.
           apply (Permutation_in v (Permutation_sym Pp)). simpl. auto.
        -- subst indegree'. rewrite degree_set_other by exact Hne.
           rewrite <- (kahn_zero _ _ _ _ _ K x Hx).
           rewrite !in_app_iff. split.
           ++ intros [Hr | Hq]; [auto |].
              apply (Permutation_in x Pp) in Hq.
              destruct Hq as [<- | Hq]; [congruence | auto].
           ++ intros [Hr | Hq]; [auto |]. right.
              apply (Permutation_in x (Permutation_sym Pp)). simpl. auto.
      * apply (kahn_order _ _ _ _ _ K).
    + apply Z.eqb_neq in Ez.
      apply IH; [exact Hn' | intros x Hx; apply Hk; simpl; auto |].
      constructor.
      * apply (kahn_nodup _ _ _ _ _ K).
      * apply (kahn_nodes _ _ _ _ _ K).
      * exact Htable.
      * exact Hdeg.
      * intros x Hx. destruct (string_dec x v) as [-> | Hne].
        -- subst indegree'. rewrite degree_set_same. split; [| lia].
           intros Hin. contradiction.
        -- subst indegree'. rewrite degree_set_other by exact Hne.
           apply (kahn_zero _ _ _ _ _ K x Hx).
      * apply (kahn_order _ _ _ _ _ K).
Qed.

Lemma kahn_result_short (indegree : jsmap string Z) (pq result : list string) :
  kahn g indegree pq result [] ->
  List.length result + List.length pq <= List.length (map_keys g).
Proof.
  intros K. rewrite <- length_app. apply NoDup_incl_length.
  - apply (kahn_nodup _ _ _ _ _ K).
  - intros x. apply (kahn_nodes _ _ _ _ _ K).
Qed.

Lemma topo_loop_spec (fuel : nat) (indegree : jsmap string Z)
  (pq result : list string) (s : St) :
  kahn g indegree pq result [] ->
  List.length (map_keys g) < fuel + List.length result ->
  exists out s' indegree',
    DAG.topo_loop tieBreaker fuel g indegree pq result s = Ret (out, s') /\
    kahn g indegree' [] out [].
Proof.
  revert indegree pq result s.
  induction fuel as [| fuel IH]; intros indegree pq result s K Hf.
  - pose proof (kahn_result_short _ _ _ K). lia.
  - cbn [DAG.topo_loop]. unfold PriorityQueue.length.
    destruct pq as [| top rest].
    + simpl. eauto.
    + cbn [List.length Nat.eqb].
      destruct (pop_nonempty tieBreaker top rest s) as (pq1 & s1 & Ep & Pp).
      rewrite Ep.
      assert (Ktop : In top (map_keys g)).
      { apply (kahn_nodes _ _ _ _ _ K). apply in_app_iff. simpl. auto. }
      destruct (map_get g top) as [nbrs |] eqn:Eg.
      2:{ exfalso. apply map_get_None in Eg. contradiction. }
      destruct g_wf as (Hkeys & Hclosed & Hnd).
      assert (Pall : Permutation ((result ++ [top]) ++ pq1) (result ++ top :: rest)).
      { rewrite <- app_assoc. simpl. apply Permutation_app_head. exact Pp. }
      assert (Hfresh : ~ In top result).
      { pose proof (kahn_nodup _ _ _ _ _ K) as N.
        apply NoDup_remove_2 in N. intros Hin. apply N.
        apply in_app_iff. auto. }
      assert (Hzero : remaining g result top = 0).
      { pose proof (kahn_degree _ _ _ _ _ K top Ktop) as D.
        rewrite (proj1 (kahn_zero _ _ _ _ _ K top Ktop)) in D
          by (apply in_app_iff; simpl; auto).
        simpl in D. lia. }
      destruct (relax_all nbrs indegree pq1 (result ++ [top]) s1)
        as (indegree' & pq2 & s2 & Er & K').
      * apply (Hnd top nbrs Eg).
      * intros v Hv. apply (Hclosed top nbrs v Eg Hv).
      * constructor.
        -- apply (Permutation_NoDup (Permutation_sym Pall)).
           apply (kahn_nodup _ _ _ _ _ K).
        -- intros x Hx. apply (kahn_nodes _ _ _ _ _ K).
           apply (Permutation_in x Pall). exact Hx.
        -- apply (kahn_table _ _ _ _ _ K).
        -- intros x Hx. rewrite (kahn_degree _ _ _ _ _ K x Hx). simpl.
           rewrite (remaining_emit g result top x nbrs Hkeys Eg Hfresh). lia.
        -- intros x Hx. rewrite <- (kahn_zero _ _ _ _ _ K x Hx).
           split; apply Permutation_in; [| symmetry]; exact Pall.
        -- intros a b E Hb. apply in_app_iff in Hb.
           destruct Hb as [Hb | [<- | []]].
           ++ apply precedes_app. apply (kahn_order _ _ _ _ _ K); assumption.
           ++ apply precedes_last. apply (remaining_zero g result a top Hzero E).
      * unfold PriorityQueue.t in *. rewrite Er. apply IH; [exact K' |].
        rewrite length_app. simpl. lia.
Qed.

(** With the queue empty and no cycle in the graph, every node has been
    emitted. *)
Lemma kahn_complete (indegree : jsmap string Z) (out : list string) :
  no_back_path g -> kahn g indegree [] out [] ->
  forall x, In x (map_keys g) -> In x out.
Proof.
  intros Hacyc K.
  destruct g_wf as (Hkeys & Hclosed & Hnd).
  set (left := filter (fun x => negb (set_has out x)) (map_keys g)).
  assert (Hleft : left = []).
  { apply (descent_empty (edge g)).
    - apply acyclic_no_back_path. exact Hacyc.
    - intros z Hz. apply filter_In in Hz. destruct Hz as [Kz Hz].
      apply negb_true_iff, set_has_false in Hz.
      assert (Hdeg : remaining g out z <> 0).
      { intros E. apply Hz.
        assert (In z (out ++ [])) as Hin.
        { apply (kahn_zero _ _ _ _ _ K z Kz).
          rewrite (kahn_degree _ _ _ _ _ K z Kz), E. reflexivity. }
        rewrite app_nil_r in Hin. exact Hin. }
      destruct (remaining_positive g out z Hkeys Hdeg) as (a & E & Ha).
      exists a. split; [| apply t_step; exact E].
      apply filter_In. split.
      + destruct E as (nb & Eg & _). apply map_get_keys. congruence.
      + apply negb_true_iff, set_has_false. exact Ha. }
  intros x Kx. destruct (set_has out x) eqn:E; [apply set_has_In; exact E |].
  exfalso. assert (In x left) as Hin.
  { apply filter_In. split; [exact Kx | now rewrite E]. }
  rewrite Hleft in Hin. exact Hin.
Qed.

(** [topoSort] on a well-formed graph without cycles: it returns, every
    node is in the result exactly once, and every edge goes forward. *)
Lemma topoSort_spec (s : St) :
  no_back_path g ->
  exists out s',
    DAG.topoSort tieBreaker g s = Ret (out, s') /\
    NoDup out /\
    (forall x, In x out <-> In x (map_keys g)) /\
    (forall u v, edge g u v -> precedes out u v).
Proof.
  intros Hacyc. unfold DAG.topoSort.
  destruct (indegree_of_spec g g_wf) as (Hn & Hk & Hd).
  destruct (seed_spec (DAG.indegree_of g) s Hn) as (Hpn & Hpq).
  destruct (DAG.seed tieBreaker (DAG.indegree_of g) s) as [pq s0] eqn:Es.
  cbn [fst] in Hpn, Hpq.
  assert (K : kahn g (DAG.indegree_of g) pq [] []).
  { constructor.
    - exact Hpn.
    - intros x Hx. simpl in Hx. apply Hk, Hpq, Hx.
    - intros x Hx. apply map_get_keys, Hk, Hx.
    - intros x Hx. rewrite Hd. simpl. f_equal. lia.
    - intros x Hx. simpl. rewrite Hpq, Hk. tauto.
    - intros u v _ []. }
  assert (Hlen : List.length (DAG.indegree_of g) = List.length (map_keys g)).
  { rewrite <- (length_map fst (DAG.indegree_of g)).
    apply Permutation_length. apply NoDup_Permutation; auto.
    apply (proj1 g_wf). }
  destruct (topo_loop_spec (S (List.length (DAG.indegree_of g)))
              (DAG.indegree_of g) pq [] s0 K)
    as (out & s' & indegree' & E & K'); [simpl; lia |].
  exists out, s'. split; [exact E |].
  assert (Hno : NoDup out).
  { pose proof (kahn_nodup _ _ _ _ _ K') as N. now rewrite app_nil_r in N. }
  assert (Hall : forall x, In x (map_keys g) -> In x out)
    by (apply (kahn_complete indegree'); assumption).
  split; [exact Hno |]. split.
  - intros x. split; [| apply Hall].
    intros Hx. apply (kahn_nodes _ _ _ _ _ K'). rewrite app_nil_r. exact Hx.
  - intros u v E'. apply (kahn_order _ _ _ _ _ K'); [exact E' |].
    apply Hall. destruct g_wf as (_ & Hclosed & _).
    destruct E' as (nb & Eg & Hv). apply (Hclosed u nb v Eg Hv).
Qed.
End Kahn.

(** C3. For every graph built by the constructor and any sequence of
    [addEdges] calls, and every tie-breaker (stateful or not, consistent or
    not), [topoSort] returns a list in which every node of the constructor's
    node set appears exactly once and nothing else does, and in which [u]
    comes before [v] for every edge [u -> v] of the graph. *)
Theorem topoSort_permutation_respects_edges :
  forall (verts : list string) (hints : list (list string))
         (St R : Type) (HR : Number R)
         (tieBreaker : Comparator string St R) (s : St),
    exists g out s',
      apply_hints (DAG.new verts) hints = Ret g /\
      DAG.topoSort tieBreaker g s = Ret (out, s') /\
      NoDup out /\
      (forall x, In x out <-> In x verts) /\
      (forall u v, edge g u v -> precedes out u v).
Proof.
  intros verts hints St R HR tieBreaker s.
  destruct (apply_hints_sound hints (DAG.new verts) (new_sound verts))
    as (g & E & [Hw Hb] & Hk & _).
  destruct (topoSort_spec tieBreaker g Hw s Hb) as (out & s' & Et & Hn & Hin & Ho).
  exists g, out, s'. split; [exact E |]. split; [exact Et |].
  split; [exact Hn |]. split; [| exact Ho].
  intros x. rewrite Hin, Hk. apply (proj2 (proj2 (new_spec verts))).
Qed.


(* ================================================================== *)
(** * The orchestrator *)

Section PreferenceSorterFacts.
Variable order : list string.
Variable splitIdentifier : string -> string.
Variables Math_log Math_exp : float -> float.
Variable session_run : list Z -> list Z -> float * float.

Local Abbreviation sort :=
  (PreferenceSorter.sort Math_log Math_exp session_run).

(** The graph of [sort] after the hints: the nodes are the input tokens. *)
Lemma addAll_sound (arr : list string) (hints : list (list string)) :
  exists dag,
    PreferenceSorter.addAll (DAG.new arr) hints = Ret dag /\
    sound dag /\ (forall x, In x (map_keys dag) <-> In x arr).
Proof.
  destruct (apply_hints_sound hints (DAG.new arr) (new_sound arr))
    as (dag & E & Hs & Hk & _).
  exists dag. split; [exact E |]. split; [exact Hs |].
  intros x. rewrite Hk. apply (proj2 (proj2 (new_spec arr))).
Qed.

Lemma topoSort_perm {St R : Type} `{Number R}
  (tieBreaker : Comparator string St R) (dag : DAG.t) (arr : list string)
  (s : St) :
  sound dag -> (forall x, In x (map_keys dag) <-> In x arr) -> NoDup arr ->
  exists out s',
    DAG.topoSort tieBreaker dag s = Ret (out, s') /\ Permutation out arr.
Proof.
  intros [Hw Hb] Hk Hn.
  destruct (topoSort_spec tieBreaker dag Hw s Hb) as (out & s' & E & Hno & Hin & _).
  exists out, s'. split; [exact E |].
  apply NoDup_Permutation; [exact Hno | exact Hn |].
  intros x. rewrite Hin. apply Hk.
Qed.

(** The tail shared by the modes ['stable'] and ['no'], whatever order
    [arr'] the last hint puts the tokens in. *)
Lemma finish_perm (dag : DAG.t) (arr arr' : list string) :
  sound dag -> (forall x, In x (map_keys dag) <-> In x arr) -> NoDup arr ->
  exists out,
    PreferenceSorter.finish dag arr' = Ret out /\ Permutation out arr.
Proof.
  intros Hs Hk Hn. unfold PreferenceSorter.finish.
  destruct (addEdges_sound dag arr' Hs) as (dag' & E & Hs' & Hk' & _).
  rewrite E. cbn [bind].
  destruct (topoSort_perm
              (PreferenceSorter.index_cmp (PreferenceSorter.indexMap_of arr'))
              dag' arr tt Hs')
    as (out & s' & Et & P); [| exact Hn |].
  - intros x. rewrite Hk'. apply Hk.
  - rewrite Et. cbn [bind fst]. eauto.
Qed.

Lemma sort_perm (this : PreferenceSorter.t) (arr : list string) :
  NoDup arr ->
  PreferenceSorter.useAI this = "no"%string \/
  ((PreferenceSorter.useAI this = "yes"%string \/
    PreferenceSorter.useAI this = "stable"%string) /\
   PreferenceSorter.aiComparator this <> None) ->
  exists out this',
    sort this arr = Ret (Some out, this') /\ Permutation out arr.
Proof.
  intros Hn Hmode. unfold PreferenceSorter.sort.
  destruct (Nat.ltb (List.length arr) 2); [eauto |].
  destruct (addAll_sound arr (PreferenceSorter.orders this))
    as (dag & E & Hs & Hk).
  rewrite E. cbn [bind].
  destruct Hmode as [Hno | [[Hyes | Hst] Hai]].
  - rewrite Hno. cbn [String.eqb Ascii.eqb Bool.eqb].
    destruct (finish_perm dag arr arr Hs Hk Hn) as (out & Ef & P).
    rewrite Ef. cbn [bind]. eauto.
  - rewrite Hyes. cbn [String.eqb Ascii.eqb Bool.eqb].
    destruct (PreferenceSorter.aiComparator this) as [ai |]; [| congruence].
    destruct (topoSort_perm (AIComparator.compare session_run) dag arr ai Hs Hk Hn)
      as (out & ai' & Et & P).
    rewrite Et. cbn [bind fst snd]. eauto.
  - rewrite Hst. cbn [String.eqb Ascii.eqb Bool.eqb].
    destruct (PreferenceSorter.aiComparator this) as [ai |]; [| congruence].
    destruct (PreferenceSorter.fill_wins session_run arr ai) as [w ai'].
    destruct (finish_perm dag arr
                (PreferenceSorter.by_strength
                   (BradleyTerry.bradleyTerry Math_log Math_exp w) arr)
                Hs Hk Hn)
      as (out & Ef & P).
    rewrite Ef. cbn [bind]. eauto.
Qed.

(** A mode selector outside the three values is not looked at before the
    [switch]: the graph is built and the hints are applied, then the call
    returns [undefined]. *)
Lemma sort_other_mode (this : PreferenceSorter.t) (arr : list string) :
  PreferenceSorter.useAI this <> "no"%string ->
  PreferenceSorter.useAI this <> "yes"%string ->
  PreferenceSorter.useAI this <> "stable"%string ->
  (exists dag,
     PreferenceSorter.addAll (DAG.new arr) (PreferenceSorter.orders this)
     = Ret dag) /\
  sort this arr
  = if Nat.ltb (List.length arr) 2 then Ret (Some arr, this)
    else Ret (None, this).
Proof.
  intros Hno Hyes Hst.
  destruct (addAll_sound arr (PreferenceSorter.orders this))
    as (dag & E & _ & _).
  split; [eauto |].
  unfold PreferenceSorter.sort.
  destruct (Nat.ltb (List.length arr) 2); [reflexivity |].
  rewrite E. cbn [bind].
  apply String.eqb_neq in Hno, Hyes, Hst. rewrite Hno, Hyes, Hst.
  reflexivity.
Qed.
End PreferenceSorterFacts.

(** C1. For every input list of pairwise-distinct tokens, every list of
    hints held by the sorter (custom and canonical) and every one of the
    modes ['no'], ['yes'] and ['stable'] (the latter two with their
    comparator), [sort] returns a list that is a permutation of the input. *)
Theorem sort_permutation :
  forall (Math_log Math_exp : float -> float)
         (session_run : list Z -> list Z -> float * float)
         (this : PreferenceSorter.t) (arr : list string),
    NoDup arr ->
    PreferenceSorter.useAI this = "no"%string \/
    ((PreferenceSorter.useAI this = "yes"%string \/
      PreferenceSorter.useAI this = "stable"%string) /\
     PreferenceSorter.aiComparator this <> None) ->
    exists out this',
      PreferenceSorter.sort Math_log Math_exp session_run this arr
      = Ret (Some out, this') /\
      Permutation out arr /\
      List.length out = List.length arr.
Proof.
  intros lg ex run this arr Hn Hmode.
  destruct (sort_perm lg ex run this arr Hn Hmode) as (out & this' & E & P).
  exists out, this'. split; [exact E |]. split; [exact P |].
  apply Permutation_length. exact P.
Qed.

(** A sorter made by [create] in the mode ['stable'], on four props. *)
Lemma sort_permutation_witness :
  exists out this',
    PreferenceSorter.sort nan_only nan_only first_wins
      (PreferenceSorter.create ["key"; "ref"; "on *"]%string (fun x => x)
         "stable" ["custom1"; "custom2"]%string)
      ["z"; "custom2"; "a"; "custom1"]%string
    = Ret (Some out, this') /\
    Permutation out ["z"; "custom2"; "a"; "custom1"]%string /\
    List.length out = 4.
Proof.
  apply (sort_permutation nan_only nan_only first_wins).
  - repeat constructor; simpl; intuition discriminate.
  - right. split; [right; reflexivity | discriminate].
Defined.

(** C9, as amended. [PreferenceSorter] does not validate the mode selector
    (its type allows the three values only): for any other value [create]
    builds a sorter, with a comparator as for the AI modes, and [sort] on two
    or more tokens builds the graph, applies every hint without raising, and
    returns [undefined]; on fewer than two tokens it returns its input. No
    error is raised. *)
Theorem invalid_mode_falls_through :
  forall (order : list string) (splitIdentifier : string -> string)
         (Math_log Math_exp : float -> float)
         (session_run : list Z -> list Z -> float * float)
         (useAI : string) (customOrder arr : list string),
    useAI <> "no"%string -> useAI <> "yes"%string ->
    useAI <> "stable"%string ->
    let this := PreferenceSorter.create order splitIdentifier useAI customOrder in
    PreferenceSorter.aiComparator this = Some AIComparator.create /\
    (exists dag,
       PreferenceSorter.addAll (DAG.new arr) (PreferenceSorter.orders this)
       = Ret dag) /\
    PreferenceSorter.sort Math_log Math_exp session_run this arr
    = if Nat.ltb (List.length arr) 2 then Ret (Some arr, this)
      else Ret (None, this).
Proof.
  intros order splitIdentifier lg ex run useAI customOrder arr Hno Hyes Hst this.
  assert (Hmode : PreferenceSorter.useAI this = useAI).
  { subst this. unfold PreferenceSorter.create.
    destruct (String.eqb useAI "no"); reflexivity. }
  split.
  - subst this. unfold PreferenceSorter.create.
    apply String.eqb_neq in Hno. rewrite Hno. reflexivity.
  - apply sort_other_mode; rewrite Hmode; assumption.
Qed.

Lemma invalid_mode_falls_through_witness :
  let this := PreferenceSorter.create ["key"; "ref"]%string (fun x => x)
                "fast" ["custom1"; "custom2"]%string in
  PreferenceSorter.aiComparator this = Some AIComparator.create /\
  (exists dag,
     PreferenceSorter.addAll (DAG.new ["b"; "a"]%string)
       (PreferenceSorter.orders this) = Ret dag) /\
  PreferenceSorter.sort nan_only nan_only first_wins this ["b"; "a"]%string
  = if Nat.ltb (List.length ["b"; "a"]%string) 2
    then Ret (Some ["b"; "a"]%string, this)
    else Ret (None, this).
Proof.
  apply (invalid_mode_falls_through ["key"; "ref"]%string (fun x => x)
           nan_only nan_only first_wins "fast"
           ["custom1"; "custom2"]%string ["b"; "a"]%string);
    discriminate.
Defined.

(** C9 as stated fails: with the mode ['fast'], [create] returns a sorter
    and [sort] returns normally, with [undefined], after the graph work. *)
Lemma invalid_mode_not_rejected :
  let this := PreferenceSorter.create ["key"; "ref"]%string (fun x => x)
                "fast" [] in
  PreferenceSorter.sort nan_only nan_only first_wins this ["b"; "a"]%string
  = Ret (None, this) /\
  PreferenceSorter.sort nan_only nan_only first_wins this ["b"; "a"]%string
  <> TypeError.
Proof.
  split; [vm_compute; reflexivity |].
  vm_compute. discriminate.
Qed.


(* ================================================================== *)
(** * The multi-view queue: what the views hold *)

Section MultiQueueViews.
Context {T PK St R : Type} `{EqDec PK} `{Number R}.
Variable pKeys : list PK.
Variable pCmps : PK -> Comparator T St R.

Local Abbreviation mqueue := (MultiQueue.t (T := T) (PK := PK)).
Local Abbreviation item := (MultiQueue.Item T).

Lemma set_q_same (f : PK -> list item) (k : PK) (q : list item) :
  MultiQueue.set_q f k q k = q.
Proof. unfold MultiQueue.set_q. destruct (eq_dec k k); congruence. Qed.

Lemma set_q_other (f : PK -> list item) (k k' : PK) (q : list item) :
  k <> k' -> MultiQueue.set_q f k q k' = f k'.
Proof. intros Hne. unfold MultiQueue.set_q. destruct (eq_dec k k'); congruence. Qed.

(** A push puts the wrapper into every view listed, once. *)
Lemma push_all_perm (it : item) (ks : list PK) (f : PK -> list item) (s : St)
  (k : PK) :
  NoDup ks ->
  Permutation (fst (MultiQueue.push_all pCmps it ks f s) k)
    (if in_dec eq_dec k ks then it :: f k else f k).
Proof.
  unfold MultiQueue.push_all. revert f s.
  induction ks as [| k0 ks IH]; intros f s Hn; simpl; [reflexivity |].
  inversion Hn as [| ? ? Hk0 Hn']; subst.
  destruct (PriorityQueue.push (MultiQueue.item_cmp pCmps k0) (f k0) it s)
    as [q' s'] eqn:Ep.
  rewrite (IH _ _ Hn').
  assert (Pq : Permutation q' (it :: f k0)).
  { replace q' with (fst (PriorityQueue.push (MultiQueue.item_cmp pCmps k0)
                            (f k0) it s)) by (rewrite Ep; reflexivity).
    apply push_perm. }
  destruct (eq_dec k0 k) as [-> | Hne].
  - destruct (in_dec eq_dec k ks) as [Hin | _]; [contradiction |].
    rewrite set_q_same. exact Pq.
  - rewrite set_q_other by exact Hne.
    destruct (in_dec eq_dec k ks); reflexivity.
Qed.

Lemma push_views (mq : mqueue) (d : T) (s : St) (k : PK) :
  NoDup pKeys -> In k pKeys ->
  let r := fst (MultiQueue.push pKeys pCmps mq d s) in
  Permutation (MultiQueue.qs (snd r) k) (fst r :: MultiQueue.qs mq k).
Proof.
  intros Hn Hk. unfold MultiQueue.push.
  pose proof (push_all_perm
                {| MultiQueue.id := MultiQueue.nextId mq; MultiQueue.data := d |}
                pKeys (MultiQueue.qs mq) s k Hn) as P.
  destruct (MultiQueue.push_all pCmps _ pKeys (MultiQueue.qs mq) s) as [qs' s'].
  simpl in *. destruct (in_dec eq_dec k pKeys); [exact P | contradiction].
Qed.

(** [pop], in full: the view loses the wrapper returned and dead wrappers
    only, the other views are not touched. *)
Lemma pop_loop_views (fuel : nat) (key : PK) (mq : mqueue) (s : St) :
  List.length (MultiQueue.qs mq key) < fuel ->
  exists r mq' s',
    MultiQueue.pop_loop pCmps fuel key mq s = Ret (r, mq', s') /\
    MultiQueue.nextId mq' = MultiQueue.nextId mq /\
    (forall k, k <> key -> MultiQueue.qs mq' k = MultiQueue.qs mq k) /\
    (forall x, In x (MultiQueue.qs mq' key) -> In x (MultiQueue.qs mq key)) /\
    match r with
    | Some it =>
        In it (MultiQueue.qs mq key) /\
        In (MultiQueue.id it) (MultiQueue.live mq) /\
        MultiQueue.live mq'
        = set_delete (MultiQueue.live mq) (MultiQueue.id it) /\
        (forall x, In x (MultiQueue.qs mq key) ->
                   In (MultiQueue.id x) (MultiQueue.live mq) ->
                   x = it \/ In x (MultiQueue.qs mq' key))
    | None =>
        MultiQueue.live mq' = MultiQueue.live mq /\
        (forall x, In x (MultiQueue.qs mq key) ->
                   ~ In (MultiQueue.id x) (MultiQueue.live mq))
    end.
Proof.
  revert mq s. induction fuel as [| fuel IH]; intros mq s Hf; [lia |].
  cbn [MultiQueue.pop_loop].
  destruct (MultiQueue.qs mq key) as [| top q] eqn:Eq.
  - simpl. exists None, mq, s. rewrite Eq. repeat split; auto.
  - cbn [PriorityQueue.peek nth_error].
    destruct (pop_nonempty (MultiQueue.item_cmp pCmps key) top q s)
      as (q' & s' & E & P).
    rewrite E.
    assert (Hsub : forall x, In x q' -> In x (top :: q)).
    { intros x Hx. apply (Permutation_in x P). right. exact Hx. }
    assert (Hkeep : forall x, In x (top :: q) -> x = top \/ In x q').
    { intros x Hx. apply (Permutation_in x (Permutation_sym P)) in Hx.
      destruct Hx; auto. }
    destruct (set_has (MultiQueue.live mq) (MultiQueue.id top)) eqn:El.
    + apply set_has_In in El.
      eexists _, _, _. split; [reflexivity |]. cbn [MultiQueue.nextId
        MultiQueue.qs MultiQueue.live].
      split; [reflexivity |].
      split; [intros k Hk; apply set_q_other; congruence |].
      rewrite set_q_same.
      split; [exact Hsub |]. split; [simpl; auto |].
      split; [exact El |]. split; [reflexivity |].
      intros x Hx _. apply Hkeep. exact Hx.
    + apply set_has_false in El.
      edestruct (IH {| MultiQueue.qs := MultiQueue.set_q (MultiQueue.qs mq) key q';
                       MultiQueue.live := MultiQueue.live mq;
                       MultiQueue.nextId := MultiQueue.nextId mq |} s')
        as (r & mq' & s'' & E' & Hn & Ho & Hs & Hr).
      { cbn [MultiQueue.qs]. rewrite set_q_same.
        apply Permutation_length in P. simpl in *. lia. }
      cbn [MultiQueue.qs MultiQueue.live MultiQueue.nextId] in *.
      rewrite set_q_same in *.
      exists r, mq', s''. split; [exact E' |]. split; [exact Hn |].
      split.
      { intros k Hk. rewrite (Ho k Hk). apply set_q_other. congruence. }
      split; [intros x Hx; apply Hsub, Hs, Hx |].
      destruct r as [it |].
      * destruct Hr as (Hin & Hl & Hlive & Hrest).
        split; [apply Hsub; exact Hin |]. split; [exact Hl |].
        split; [exact Hlive |].
        intros x Hx Hxl. destruct (Hkeep x Hx) as [-> | Hx'];
          [contradiction | auto].
      * destruct Hr as (Hlive & Hdead). split; [exact Hlive |].
        intros x Hx. destruct (Hkeep x Hx) as [-> | Hx']; [exact El | auto].
Qed.

(** [peek], in full: the view loses dead wrappers only and ends with the
    wrapper returned, which is live, at its root. *)
Lemma peek_loop_views (fuel : nat) (key : PK) (mq : mqueue) (s : St) :
  List.length (MultiQueue.qs mq key) < fuel ->
  exists r mq' s',
    MultiQueue.peek_loop pCmps fuel key mq s = Ret (r, mq', s') /\
    MultiQueue.nextId mq' = MultiQueue.nextId mq /\
    MultiQueue.live mq' = MultiQueue.live mq /\
    (forall k, k <> key -> MultiQueue.qs mq' k = MultiQueue.qs mq k) /\
    (forall x, In x (MultiQueue.qs mq' key) -> In x (MultiQueue.qs mq key)) /\
    (forall x, In x (MultiQueue.qs mq key) ->
               In (MultiQueue.id x) (MultiQueue.live mq) ->
               In x (MultiQueue.qs mq' key)) /\
    match r with
    | Some it =>
        hd_error (MultiQueue.qs mq' key) = Some it /\
        In (MultiQueue.id it) (MultiQueue.live mq)
    | None =>
        forall x, In x (MultiQueue.qs mq key) ->
                  ~ In (MultiQueue.id x) (MultiQueue.live mq)
    end.
Proof.
  revert mq s. induction fuel as [| fuel IH]; intros mq s Hf; [lia |].
  cbn [MultiQueue.peek_loop].
  destruct (MultiQueue.qs mq key) as [| top q] eqn:Eq.
  - simpl. exists None, mq, s. rewrite Eq. repeat split; auto.
  - cbn [PriorityQueue.peek nth_error].
    destruct (set_has (MultiQueue.live mq) (MultiQueue.id top)) eqn:El.
    + apply set_has_In in El.
      exists (Some top), mq, s. rewrite Eq. repeat split; auto.
    + apply set_has_false in El.
      destruct (pop_nonempty (MultiQueue.item_cmp pCmps key) top q s)
        as (q' & s' & E & P).
      rewrite E.
      assert (Hsub : forall x, In x q' -> In x (top :: q)).
      { intros x Hx. apply (Permutation_in x P). right. exact Hx. }
      assert (Hkeep : forall x, In x (top :: q) -> x = top \/ In x q').
      { intros x Hx. apply (Permutation_in x (Permutation_sym P)) in Hx.
        destruct Hx; auto. }
      edestruct (IH {| MultiQueue.qs := MultiQueue.set_q (MultiQueue.qs mq) key q';
                       MultiQueue.live := MultiQueue.live mq;
                       MultiQueue.nextId := MultiQueue.nextId mq |} s')
        as (r & mq' & s'' & E' & Hn & Hl & Ho & Hs & Hk & Hr).
      { cbn [MultiQueue.qs]. rewrite set_q_same.
        apply Permutation_length in P. simpl in *. lia. }
      cbn [MultiQueue.qs MultiQueue.live MultiQueue.nextId] in *.
      rewrite set_q_same in *.
      exists r, mq', s''. split; [exact E' |]. split; [exact Hn |].
      split; [exact Hl |]. split.
      { intros k Hk'. rewrite (Ho k Hk'). apply set_q_other. congruence. }
      split; [intros x Hx; apply Hsub, Hs, Hx |].
      split.
      { intros x Hx Hxl. destruct (Hkeep x Hx) as [-> | Hx'];
          [contradiction | auto]. }
      destruct r as [it |]; [exact Hr |].
      intros x Hx. destruct (Hkeep x Hx) as [-> | Hx']; [exact El | auto].
Qed.

(** A [pop] right after a [peek] that found a wrapper returns that wrapper. *)
Lemma pop_at_root (key : PK) (mq : mqueue) (s : St) (it : item) :
  hd_error (MultiQueue.qs mq key) = Some it ->
  In (MultiQueue.id it) (MultiQueue.live mq) ->
  exists mq' s',
    MultiQueue.pop_item pCmps key mq s = Ret (Some it, mq', s') /\
    MultiQueue.nextId mq' = MultiQueue.nextId mq /\
    MultiQueue.live mq' = set_delete (MultiQueue.live mq) (MultiQueue.id it) /\
    (forall k, k <> key -> MultiQueue.qs mq' k = MultiQueue.qs mq k) /\
    Permutation (it :: MultiQueue.qs mq' key) (MultiQueue.qs mq key) /\
    MultiQueue.qs mq' key
    = snd (fst (PriorityQueue.pop (MultiQueue.item_cmp pCmps key)
                  (MultiQueue.qs mq key) s)).
Proof.
  intros Hhd Hl. unfold MultiQueue.pop_item. cbn [MultiQueue.pop_loop].
  destruct (MultiQueue.qs mq key) as [| top q] eqn:Eq; [discriminate |].
  injection Hhd as ->. cbn [PriorityQueue.peek nth_error].
  destruct (pop_nonempty (MultiQueue.item_cmp pCmps key) it q s)
    as (q' & s' & E & P).
  rewrite E. apply set_has_In in Hl. rewrite Hl.
  eexists _, _. split; [reflexivity |].
  cbn [MultiQueue.nextId MultiQueue.qs MultiQueue.live fst snd].
  rewrite set_q_same.
  split; [reflexivity |]. split; [reflexivity |].
  split; [intros k Hk; apply set_q_other; congruence |].
  split; [exact P | reflexivity].
Qed.
End MultiQueueViews.

(* ================================================================== *)
(** * The queue of the greedy sort *)

Lemma views_NoDup : NoDup FAS.views.
Proof. repeat constructor; simpl; intuition discriminate. Qed.

Lemma views_all (k : FAS.view) : In k FAS.views.
Proof. destruct k; simpl; auto. Qed.

(** [q.push(d)]: a fresh id, live, in the three views. *)
Lemma q_push_spec (mq : FAS.queue) (d : FAS.Data) :
  let r := FAS.q_push mq d in
  fst r = {| MultiQueue.id := MultiQueue.nextId mq; MultiQueue.data := d |} /\
  MultiQueue.live (snd r) = set_add (MultiQueue.live mq) (MultiQueue.nextId mq) /\
  MultiQueue.nextId (snd r) = S (MultiQueue.nextId mq) /\
  forall k, Permutation (MultiQueue.qs (snd r) k) (fst r :: MultiQueue.qs mq k).
Proof.
  unfold FAS.q_push.
  destruct (push_live FAS.views FAS.view_cmp mq d tt) as (Hi & Hl & Hn).
  cbv zeta in *. repeat split; auto.
  intros k. apply (push_views FAS.views FAS.view_cmp mq d tt k views_NoDup
                     (views_all k)).
Qed.

Section Queued.
Implicit Types (present : list string)
  (nodeMap : jsmap string (MultiQueue.Item FAS.Data)) (q : FAS.queue).

Lemma queued_perm present present' nodeMap q :
  Permutation present present' ->
  queued present nodeMap q -> queued present' nodeMap q.
Proof.
  intros P Q.
  assert (Hin : forall n, In n present' <-> In n present).
  { intros n. split; apply Permutation_in; [symmetry |]; exact P. }
  constructor.
  - apply (Permutation_NoDup P). apply (qd_nodup _ _ _ Q).
  - intros n Hn. apply (qd_item _ _ _ Q). apply Hin. exact Hn.
  - intros i Hi. destruct (qd_live _ _ _ Q i Hi) as (n & it & Hn & E & Ei).
    exists n, it. split; [apply Hin; exact Hn | auto].
  - intros n n' it it' Hn Hn'. apply (qd_inj _ _ _ Q); apply Hin; assumption.
  - apply (qd_live_nodup _ _ _ Q).
  - apply (qd_fresh _ _ _ Q).
  - intros k n it Hn. apply (qd_views _ _ _ Q). apply Hin. exact Hn.
  - apply (qd_ids _ _ _ Q).
  - intros k it Hi Hl. destruct (qd_current _ _ _ Q k it Hi Hl) as (n & Hn & E).
    exists n. split; [apply Hin; exact Hn | exact E].
Qed.

(** The live ids are as many as the nodes present. *)
Lemma queued_length present nodeMap q :
  queued present nodeMap q ->
  MultiQueue.length q = List.length present.
Proof.
  intros Q. unfold MultiQueue.length.
  rewrite <- (length_map (id_of nodeMap) present).
  apply Permutation_length. apply NoDup_Permutation.
  - apply (qd_live_nodup _ _ _ Q).
  - pose proof (qd_nodup _ _ _ Q) as Hn.
    assert (Hinj : forall n n', In n present -> In n' present ->
              id_of nodeMap n = id_of nodeMap n' -> n = n').
    { intros n n' Hn1 Hn2 E. unfold id_of in E.
      destruct (qd_item _ _ _ Q n Hn1) as (it & E1 & _).
      destruct (qd_item _ _ _ Q n' Hn2) as (it' & E2 & _).
      rewrite E1, E2 in E. apply (qd_inj _ _ _ Q n n' it it'); assumption. }
    clear Q. induction present as [| a l IH]; simpl; [constructor |].
    inversion Hn as [| ? ? Ha Hl]; subst. constructor.
    + intros Hin. apply in_map_iff in Hin. destruct Hin as (b & E & Hb).
      assert (b = a) by (apply Hinj; simpl; auto). subst b. contradiction.
    + apply IH; [exact Hl |]. intros n n' H1 H2. apply Hinj; simpl; auto.
  - intros i. rewrite in_map_iff. split.
    + intros Hi. destruct (qd_live _ _ _ Q i Hi) as (n & it & Hn & E & Ei).
      exists n. split; [| exact Hn]. unfold id_of. now rewrite E.
    + intros (n & E & Hn). destruct (qd_item _ _ _ Q n Hn) as (it & E1 & _ & Hl).
      unfold id_of in E. rewrite E1 in E. now subst i.
Qed.

(** A node enters with a fresh wrapper. *)
Lemma queued_add present nodeMap q q' (n : string)
  (it : MultiQueue.Item FAS.Data) :
  queued present nodeMap q -> ~ In n present ->
  FAS.u (MultiQueue.data it) = n ->
  MultiQueue.id it = MultiQueue.nextId q ->
  MultiQueue.live q' = set_add (MultiQueue.live q) (MultiQueue.nextId q) ->
  MultiQueue.nextId q' = S (MultiQueue.nextId q) ->
  (forall k, Permutation (MultiQueue.qs q' k) (it :: MultiQueue.qs q k)) ->
  queued (present ++ [n]) (map_set nodeMap n it) q'.
Proof.
  intros Q Hn Hu Hid Hl Hnext Hq.
  assert (Hfresh : ~ In (MultiQueue.nextId q) (MultiQueue.live q)).
  { intros Hin. apply (qd_fresh _ _ _ Q) in Hin. lia. }
  assert (Hold : forall n0, In n0 present -> n0 <> n) by (intros n0 H0 ->; auto).
  assert (Hqin : forall k x, In x (MultiQueue.qs q' k) <->
                             x = it \/ In x (MultiQueue.qs q k)).
  { intros k x. split.
    - intros Hx. apply (Permutation_in x (Hq k)) in Hx. destruct Hx; auto.
    - intros Hx. apply (Permutation_in x (Permutation_sym (Hq k))).
      destruct Hx; [left | right]; auto. }
  constructor.
  - apply NoDup_app; [apply (qd_nodup _ _ _ Q) | repeat constructor; simpl; tauto |].
    intros a Ha [<- | []]. contradiction.
  - intros n0 H0. apply in_app_iff in H0. destruct H0 as [H0 | [<- | []]].
    + destruct (qd_item _ _ _ Q n0 H0) as (it0 & E0 & U0 & L0).
      exists it0. rewrite map_get_set_other by (apply Hold; exact H0).
      split; [exact E0 |]. split; [exact U0 |].
      rewrite Hl. apply set_add_In. auto.
    + exists it. rewrite map_get_set_same. split; [reflexivity |].
      split; [exact Hu |]. rewrite Hl, Hid. apply set_add_In. auto.
  - intros i Hi. rewrite Hl in Hi. apply set_add_In in Hi.
    destruct Hi as [-> | Hi].
    + exists n, it. rewrite map_get_set_same, in_app_iff. simpl. auto.
    + destruct (qd_live _ _ _ Q i Hi) as (n0 & it0 & H0 & E0 & Ei).
      exists n0, it0. rewrite in_app_iff.
      rewrite map_get_set_other by (apply Hold; exact H0). auto.
  - intros a b ia ib Ha Hb Ea Eb Eid.
    apply in_app_iff in Ha, Hb.
    assert (Hlt : forall c ic, In c present -> map_get nodeMap c = Some ic ->
                    MultiQueue.id ic < MultiQueue.nextId q).
    { intros c ic Hc Ec. destruct (qd_item _ _ _ Q c Hc) as (ic' & Ec' & _ & Lc).
      assert (ic' = ic) by congruence. subst. apply (qd_fresh _ _ _ Q). exact Lc. }
    destruct Ha as [Ha | [<- | []]], Hb as [Hb | [<- | []]]; auto.
    + rewrite map_get_set_other in Ea, Eb by (apply Hold; assumption).
      apply (qd_inj _ _ _ Q a b ia ib); assumption.
    + rewrite map_get_set_other in Ea by (apply Hold; assumption).
      rewrite map_get_set_same in Eb. injection Eb as <-.
      pose proof (Hlt a ia Ha Ea). lia.
    + rewrite map_get_set_other in Eb by (apply Hold; assumption).
      rewrite map_get_set_same in Ea. injection Ea as <-.
      pose proof (Hlt b ib Hb Eb). lia.
  - rewrite Hl. apply set_add_NoDup. apply (qd_live_nodup _ _ _ Q).
  - intros i Hi. rewrite Hl in Hi. rewrite Hnext. apply set_add_In in Hi.
    destruct Hi as [-> | Hi]; [lia |]. apply (qd_fresh _ _ _ Q) in Hi. lia.
  - intros k n0 it0 H0 E0. apply Hqin. apply in_app_iff in H0.
    destruct H0 as [H0 | [<- | []]].
    + rewrite map_get_set_other in E0 by (apply Hold; exact H0).
      right. apply (qd_views _ _ _ Q k n0 it0 H0 E0).
    + rewrite map_get_set_same in E0. left. congruence.
  - intros k x Hx. rewrite Hnext. apply Hqin in Hx. destruct Hx as [-> | Hx].
    + lia.
    + apply (qd_ids _ _ _ Q) in Hx. lia.
  - intros k x Hx Hlx. apply Hqin in Hx. destruct Hx as [-> | Hx].
    + exists n. rewrite map_get_set_same, in_app_iff. simpl. auto.
    + pose proof (qd_ids _ _ _ Q k x Hx) as Hlt.
      rewrite Hl in Hlx. apply set_add_In in Hlx.
      destruct Hlx as [E | Hlx]; [lia |].
      destruct (qd_current _ _ _ Q k x Hx Hlx) as (n0 & H0 & E0).
      exists n0. rewrite in_app_iff.
      rewrite map_get_set_other by (apply Hold; exact H0). auto.
Qed.

(** A node leaves: its id is taken out of the live set, the views may lose
    wrappers that are dead by then. *)
Lemma queued_remove present nodeMap q q' (n : string)
  (it : MultiQueue.Item FAS.Data) :
  queued present nodeMap q -> In n present -> map_get nodeMap n = Some it ->
  MultiQueue.live q' = set_delete (MultiQueue.live q) (MultiQueue.id it) ->
  MultiQueue.nextId q' = MultiQueue.nextId q ->
  (forall k x, In x (MultiQueue.qs q' k) -> In x (MultiQueue.qs q k)) ->
  (forall k x, In x (MultiQueue.qs q k) ->
               In (MultiQueue.id x) (MultiQueue.live q') ->
               In x (MultiQueue.qs q' k)) ->
  queued (set_delete present n) nodeMap q'.
Proof.
  intros Q Hn En Hl Hnext Hsub Hkeep.
  pose proof (qd_nodup _ _ _ Q) as Hnd.
  pose proof (qd_live_nodup _ _ _ Q) as Hlnd.
  assert (Hin : forall a, In a (set_delete present n) <-> In a present /\ a <> n)
    by (intros a; apply set_delete_In; exact Hnd).
  assert (Hlin : forall i, In i (MultiQueue.live q') <->
                   In i (MultiQueue.live q) /\ i <> MultiQueue.id it).
  { intros i. rewrite Hl. apply set_delete_In. exact Hlnd. }
  constructor.
  - apply set_delete_NoDup. exact Hnd.
  - intros a Ha. apply Hin in Ha. destruct Ha as [Ha Hne].
    destruct (qd_item _ _ _ Q a Ha) as (ia & Ea & Ua & La).
    exists ia. split; [exact Ea |]. split; [exact Ua |].
    apply Hlin. split; [exact La |]. intros Eid. apply Hne.
    apply (qd_inj _ _ _ Q a n ia it); assumption.
  - intros i Hi. apply Hlin in Hi. destruct Hi as [Hi Hne].
    destruct (qd_live _ _ _ Q i Hi) as (a & ia & Ha & Ea & Ei).
    exists a, ia. split; [| auto]. apply Hin. split; [exact Ha |].
    intros ->. congruence.
  - intros a b ia ib Ha Hb. apply Hin in Ha, Hb.
    apply (qd_inj _ _ _ Q); tauto.
  - rewrite Hl. apply set_delete_NoDup. exact Hlnd.
  - intros i Hi. apply Hlin in Hi. rewrite Hnext. apply (qd_fresh _ _ _ Q). tauto.
  - intros k a ia Ha Ea. apply Hin in Ha. destruct Ha as [Ha Hne].
    apply Hkeep; [apply (qd_views _ _ _ Q k a ia Ha Ea) |].
    destruct (qd_item _ _ _ Q a Ha) as (ia' & Ea' & _ & La).
    assert (ia' = ia) by congruence. subst ia'.
    apply Hlin. split; [exact La |]. intros Eid. apply Hne.
    apply (qd_inj _ _ _ Q a n ia it); assumption.
  - intros k x Hx. rewrite Hnext. apply (qd_ids _ _ _ Q k). apply Hsub. exact Hx.
  - intros k x Hx Hlx. apply Hlin in Hlx. destruct Hlx as [Hlx Hne].
    destruct (qd_current _ _ _ Q k x (Hsub k x Hx) Hlx) as (a & Ha & Ea).
    exists a. split; [| exact Ea]. apply Hin. split; [exact Ha |].
    intros ->. congruence.
Qed.

(** The views may lose dead wrappers at any time. *)
Lemma queued_shrink present nodeMap q q' :
  queued present nodeMap q ->
  MultiQueue.live q' = MultiQueue.live q ->
  MultiQueue.nextId q' = MultiQueue.nextId q ->
  (forall k x, In x (MultiQueue.qs q' k) -> In x (MultiQueue.qs q k)) ->
  (forall k x, In x (MultiQueue.qs q k) ->
               In (MultiQueue.id x) (MultiQueue.live q) ->
               In x (MultiQueue.qs q' k)) ->
  queued present nodeMap q'.
Proof.
  intros Q Hl Hnext Hsub Hkeep. constructor.
  - apply (qd_nodup _ _ _ Q).
  - intros n Hn. rewrite Hl. apply (qd_item _ _ _ Q n Hn).
  - intros i Hi. rewrite Hl in Hi. apply (qd_live _ _ _ Q i Hi).
  - apply (qd_inj _ _ _ Q).
  - rewrite Hl. apply (qd_live_nodup _ _ _ Q).
  - intros i Hi. rewrite Hl in Hi. rewrite Hnext. apply (qd_fresh _ _ _ Q i Hi).
  - intros k n it Hn En. apply Hkeep; [apply (qd_views _ _ _ Q k n it Hn En) |].
    destruct (qd_item _ _ _ Q n Hn) as (it' & E' & _ & L). congruence.
  - intros k x Hx. rewrite Hnext. apply (qd_ids _ _ _ Q k), Hsub, Hx.
  - intros k x Hx Hlx. rewrite Hl in Hlx.
    apply (qd_current _ _ _ Q k x (Hsub k x Hx) Hlx).
Qed.

(** An entry of [nodeMap] for a node that is gone does not matter. *)
Lemma queued_forget present nodeMap q (n : string) :
  queued present nodeMap q -> ~ In n present ->
  queued present (map_delete nodeMap n) q.
Proof.
  intros Q Hn.
  assert (Hget : forall a, In a present ->
            map_get (map_delete nodeMap n) a = map_get nodeMap a).
  { intros a Ha. apply map_get_delete_other. intros ->. contradiction. }
  constructor.
  - apply (qd_nodup _ _ _ Q).
  - intros a Ha. rewrite (Hget a Ha). apply (qd_item _ _ _ Q a Ha).
  - intros i Hi. destruct (qd_live _ _ _ Q i Hi) as (a & ia & Ha & Ea & Ei).
    exists a, ia. rewrite (Hget a Ha). auto.
  - intros a b ia ib Ha Hb. rewrite (Hget a Ha), (Hget b Hb).
    apply (qd_inj _ _ _ Q); assumption.
  - apply (qd_live_nodup _ _ _ Q).
  - apply (qd_fresh _ _ _ Q).
  - intros k a ia Ha. rewrite (Hget a Ha). apply (qd_views _ _ _ Q k a ia Ha).
  - apply (qd_ids _ _ _ Q).
  - intros k x Hx Hlx. destruct (qd_current _ _ _ Q k x Hx Hlx) as (a & Ha & Ea).
    exists a. rewrite (Hget a Ha). auto.
Qed.
End Queued.

(* ================================================================== *)
(** * Removing a node *)

Lemma set_delete_perm {K : Type} `{EqDec K} (s : list K) (x : K) :
  In x s -> Permutation (set_delete s x ++ [x]) s.
Proof.
  induction s as [| y s IH]; simpl; [intros [] |].
  destruct (eq_dec y x) as [-> | Hne]; intros Hin.
  - symmetry. apply Permutation_cons_append.
  - simpl. apply perm_skip. apply IH. destruct Hin; [contradiction | assumption].
Qed.

Lemma set_delete_not_in {K : Type} `{EqDec K} (s : list K) (x : K) :
  NoDup s -> ~ In x (set_delete s x).
Proof. intros Hn Hin. apply set_delete_In in Hin; tauto. Qed.

(** Taking a neighbour out of the queue and pushing it again with an
    adjusted weight keeps the queue in shape. *)
Lemma resubmit_queued (present : list string) (adjust : FAS.Data -> Z -> FAS.Data)
  (vw : string * Z) (nodeMap : jsmap string (MultiQueue.Item FAS.Data))
  (mq : FAS.queue) :
  (forall d w, FAS.u (adjust d w) = FAS.u d) ->
  queued present nodeMap mq ->
  exists nodeMap' mq',
    FAS.resubmit present adjust vw (nodeMap, mq) = Ret (nodeMap', mq') /\
    queued present nodeMap' mq'.
Proof.
  intros Hadj Q. unfold FAS.resubmit. cbn [fst snd].
  destruct (set_has present (fst vw)) eqn:Ev; cbn [negb]; [| eauto].
  apply set_has_In in Ev.
  destruct (qd_item _ _ _ Q (fst vw) Ev) as (old & Eo & Uo & Lo).
  rewrite Eo.
  set (mq1 := MultiQueue.delete (MultiQueue.id old) mq).
  set (d := adjust (MultiQueue.data old) (snd vw)).
  destruct (q_push_spec mq1 d) as (Hi & Hl & Hn & Hq). cbv zeta in *.
  destruct (FAS.q_push mq1 d) as [it mq2]. cbn [fst snd] in *.
  eexists _, _. split; [reflexivity |].
  assert (Q1 : queued (set_delete present (fst vw)) nodeMap mq1).
  { apply (queued_remove present nodeMap mq mq1 (fst vw) old Q Ev Eo);
      subst mq1; simpl; auto. }
  apply (queued_perm (set_delete present (fst vw) ++ [fst vw])).
  - apply set_delete_perm. exact Ev.
  - apply (queued_add _ nodeMap mq1 mq2 (fst vw) it Q1).
    + apply set_delete_not_in. apply (qd_nodup _ _ _ Q).
    + rewrite Hi. simpl. subst d. rewrite Hadj. exact Uo.
    + rewrite Hi. reflexivity.
    + exact Hl.
    + exact Hn.
    + exact Hq.
Qed.

Lemma resubmit_all_queued (present : list string)
  (adjust : FAS.Data -> Z -> FAS.Data) (vws : list (string * Z))
  (nodeMap : jsmap string (MultiQueue.Item FAS.Data)) (mq : FAS.queue) :
  (forall d w, FAS.u (adjust d w) = FAS.u d) ->
  queued present nodeMap mq ->
  exists nodeMap' mq',
    for_each vws (FAS.resubmit present adjust) (nodeMap, mq)
    = Ret (nodeMap', mq') /\
    queued present nodeMap' mq'.
Proof.
  intros Hadj. revert nodeMap mq.
  induction vws as [| vw vws IH]; intros nodeMap mq Q; simpl; [eauto |].
  destruct (resubmit_queued present adjust vw nodeMap mq Hadj Q)
    as (nm1 & mq1 & E1 & Q1).
  rewrite E1. simpl. apply IH. exact Q1.
Qed.

(** [removeNode] of a node whose wrapper has just been popped. *)
Lemma removeNode_ok (node : string) (st : FAS.state) :
  NoDup (FAS.nodes st) -> In node (FAS.nodes st) ->
  queued (set_delete (FAS.nodes st) node) (FAS.nodeMap st) (FAS.q st) ->
  (forall n, In n (FAS.nodes st) -> map_get (FAS.outAdj st) n <> None) ->
  (forall n, In n (FAS.nodes st) -> map_get (FAS.inAdj st) n <> None) ->
  exists st',
    FAS.removeNode node st = Ret st' /\
    fas_state_ok st' /\
    FAS.nodes st' = set_delete (FAS.nodes st) node.
Proof.
  intros Hnd Hin Q Hout Hinn. unfold FAS.removeNode.
  destruct (map_get (FAS.outAdj st) node) as [outs |] eqn:Eo;
    [| exfalso; exact (Hout node Hin Eo)].
  destruct (resubmit_all_queued (set_delete (FAS.nodes st) node) FAS.less_in
              outs (FAS.nodeMap st) (FAS.q st) ltac:(reflexivity) Q)
    as (nm1 & mq1 & E1 & Q1).
  rewrite E1. cbn [bind].
  destruct (map_get (FAS.inAdj st) node) as [ins |] eqn:Ei;
    [| exfalso; exact (Hinn node Hin Ei)].
  destruct (resubmit_all_queued (set_delete (FAS.nodes st) node) FAS.less_out
              ins nm1 mq1 ltac:(reflexivity) Q1)
    as (nm2 & mq2 & E2 & Q2).
  rewrite E2. cbn [bind fst snd].
  eexists. split; [reflexivity |]. split; [| reflexivity].
  assert (Hother : forall n, In n (set_delete (FAS.nodes st) node) ->
            In n (FAS.nodes st) /\ n <> node)
    by (intros n Hn; apply set_delete_In in Hn; assumption).
  constructor; cbn [FAS.nodes FAS.nodeMap FAS.q FAS.outAdj FAS.inAdj].
  - apply queued_forget; [exact Q2 |]. apply set_delete_not_in. exact Hnd.
  - intros n Hn. destruct (Hother n Hn) as [Hn' Hne].
    rewrite map_get_delete_other by exact Hne. apply Hout. exact Hn'.
  - intros n Hn. destruct (Hother n Hn) as [Hn' Hne].
    rewrite map_get_delete_other by exact Hne. apply Hinn. exact Hn'.
Qed.

(* ================================================================== *)
(** * Taking nodes out of the queue *)

Lemma q_pop_spec (key : FAS.view) (mq : FAS.queue) :
  exists r mq',
    FAS.q_pop key mq = Ret (option_map (@MultiQueue.data FAS.Data) r, mq') /\
    match r with
    | Some it => popped_from mq key it mq'
    | None =>
        MultiQueue.nextId mq' = MultiQueue.nextId mq /\
        MultiQueue.live mq' = MultiQueue.live mq /\
        (forall k, k <> key -> MultiQueue.qs mq' k = MultiQueue.qs mq k) /\
        (forall x, In x (MultiQueue.qs mq' key) -> In x (MultiQueue.qs mq key)) /\
        (forall x, In x (MultiQueue.qs mq key) ->
                   ~ In (MultiQueue.id x) (MultiQueue.live mq))
    end.
Proof.
  unfold FAS.q_pop, MultiQueue.pop, MultiQueue.pop_item.
  destruct (pop_loop_views FAS.view_cmp
              (S (List.length (MultiQueue.qs mq key))) key mq tt)
    as (r & mq' & s' & E & Hn & Ho & Hs & Hr); [lia |].
  rewrite E. cbn [bind fst snd]. exists r, mq'. split; [reflexivity |].
  destruct r as [it |].
  - destruct Hr as (Hin & Hl & Hlive & Hkeep).
    unfold popped_from. repeat split; auto.
  - destruct Hr as (Hlive & Hdead). repeat split; auto.
Qed.

Lemma q_pop_root (key : FAS.view) (mq : FAS.queue)
  (it : MultiQueue.Item FAS.Data) :
  hd_error (MultiQueue.qs mq key) = Some it ->
  In (MultiQueue.id it) (MultiQueue.live mq) ->
  exists mq',
    FAS.q_pop key mq = Ret (Some (MultiQueue.data it), mq') /\
    popped_from mq key it mq' /\
    MultiQueue.qs mq' key
    = snd (fst (PriorityQueue.pop (MultiQueue.item_cmp FAS.view_cmp key)
                  (MultiQueue.qs mq key) tt)).
Proof.
  intros Hhd Hl. unfold FAS.q_pop, MultiQueue.pop.
  destruct (pop_at_root FAS.view_cmp key mq tt it Hhd Hl)
    as (mq' & s' & E & Hn & Hlive & Ho & P & Eq).
  rewrite E. cbn [bind fst snd option_map]. exists mq'.
  split; [reflexivity |]. split; [| exact Eq].
  unfold popped_from. split; [exact Hn |]. split; [exact Hlive |].
  split; [apply (Permutation_in it P); simpl; auto |].
  split; [exact Hl |]. split; [exact Ho |]. split.
  - intros x Hx. apply (Permutation_in x P). simpl. auto.
  - intros x Hx _. apply (Permutation_in x (Permutation_sym P)) in Hx.
    destruct Hx; auto.
Qed.

Lemma q_peek_spec (key : FAS.view) (mq : FAS.queue) :
  exists r mq',
    FAS.q_peek key mq = Ret (option_map (@MultiQueue.data FAS.Data) r, mq') /\
    MultiQueue.nextId mq' = MultiQueue.nextId mq /\
    MultiQueue.live mq' = MultiQueue.live mq /\
    (forall k, k <> key -> MultiQueue.qs mq' k = MultiQueue.qs mq k) /\
    (forall x, In x (MultiQueue.qs mq' key) -> In x (MultiQueue.qs mq key)) /\
    (forall x, In x (MultiQueue.qs mq key) ->
               In (MultiQueue.id x) (MultiQueue.live mq) ->
               In x (MultiQueue.qs mq' key)) /\
    match r with
    | Some it =>
        hd_error (MultiQueue.qs mq' key) = Some it /\
        In (MultiQueue.id it) (MultiQueue.live mq)
    | None =>
        forall x, In x (MultiQueue.qs mq key) ->
                  ~ In (MultiQueue.id x) (MultiQueue.live mq)
    end.
Proof.
  unfold FAS.q_peek, MultiQueue.peek, MultiQueue.peek_item.
  destruct (peek_loop_views FAS.view_cmp
              (S (List.length (MultiQueue.qs mq key))) key mq tt)
    as (r & mq' & s' & E & Hn & Hl & Ho & Hs & Hk & Hr); [lia |].
  rewrite E. cbn [bind fst snd]. exists r, mq'. repeat split; auto.
Qed.

(** The views of a queue in shape hold a live wrapper while a node is
    present. *)
Lemma queued_not_all_dead (present : list string)
  (nodeMap : jsmap string (MultiQueue.Item FAS.Data)) (mq : FAS.queue)
  (key : FAS.view) :
  queued present nodeMap mq -> present <> [] ->
  ~ (forall x, In x (MultiQueue.qs mq key) ->
               ~ In (MultiQueue.id x) (MultiQueue.live mq)).
Proof.
  intros Q Hne Hdead. destruct present as [| n rest]; [congruence |].
  destruct (qd_item _ _ _ Q n (or_introl eq_refl)) as (it & E & _ & L).
  apply (Hdead it); [| exact L].
  apply (qd_views _ _ _ Q key n it); simpl; auto.
Qed.

(** The node of a wrapper that was popped leaves the queue. *)
Lemma popped_queued (present : list string)
  (nodeMap : jsmap string (MultiQueue.Item FAS.Data)) (mq mq' : FAS.queue)
  (key : FAS.view) (it : MultiQueue.Item FAS.Data) :
  queued present nodeMap mq -> popped_from mq key it mq' ->
  In (FAS.u (MultiQueue.data it)) present /\
  map_get nodeMap (FAS.u (MultiQueue.data it)) = Some it /\
  queued (set_delete present (FAS.u (MultiQueue.data it))) nodeMap mq'.
Proof.
  intros Q (Hn & Hlive & Hin & Hl & Ho & Hs & Hk).
  destruct (qd_current _ _ _ Q key it Hin Hl) as (n & Hp & E).
  destruct (qd_item _ _ _ Q n Hp) as (it' & E' & U & _).
  assert (it' = it) by congruence. subst it'. rewrite U.
  split; [exact Hp |]. split; [exact E |].
  assert (Hnot : ~ In (MultiQueue.id it) (MultiQueue.live mq')).
  { rewrite Hlive. apply set_delete_not_in. apply (qd_live_nodup _ _ _ Q). }
  apply (queued_remove present nodeMap mq mq' n it Q Hp E Hlive Hn).
  - intros k x Hx. destruct (eq_dec k key) as [-> | Hne].
    + apply Hs. exact Hx.
    + rewrite <- (Ho k Hne). exact Hx.
  - intros k x Hx Hlx. destruct (eq_dec k key) as [-> | Hne].
    + assert (Hlx' : In (MultiQueue.id x) (MultiQueue.live mq)).
      { rewrite Hlive in Hlx. apply set_delete_incl in Hlx. exact Hlx. }
      destruct (Hk x Hx Hlx') as [-> | Hx']; [contradiction | exact Hx'].
    + rewrite (Ho k Hne). exact Hx.
Qed.

(* ================================================================== *)
(** * Filling the result array *)

Lemma array_set_app_r {A : Type} (l1 l2 : list A) (i : nat) (x : A) :
  array_set (l1 ++ l2) (List.length l1 + i) x = l1 ++ array_set l2 i x.
Proof. induction l1 as [| a l1 IH]; simpl; [reflexivity | now rewrite IH]. Qed.

Lemma array_set_last_free (m : nat) (tail : list (option string)) (x : string) :
  array_set (repeat None (S m) ++ tail) m (Some x)
  = repeat None m ++ Some x :: tail.
Proof. induction m as [| m IH]; simpl in *; [reflexivity | now rewrite IH]. Qed.

Lemma order_set_right (L Rt : list string) (m : nat) (x : string) :
  FAS.order_set (map Some L ++ repeat None (S m) ++ map Some Rt)
    (Z.of_nat (List.length L + S m) - 1) x
  = map Some L ++ repeat None m ++ map Some (x :: Rt).
Proof.
  unfold FAS.order_set.
  destruct (Z.ltb_spec (Z.of_nat (List.length L + S m) - 1) 0); [lia |].
  replace (Z.to_nat (Z.of_nat (List.length L + S m) - 1))
    with (List.length (map (@Some string) L) + m)
    by (rewrite length_map; lia).
  rewrite array_set_app_r, array_set_last_free. reflexivity.
Qed.

Lemma order_set_left (L Rt : list string) (m : nat) (x : string) :
  FAS.order_set (map Some L ++ repeat None (S m) ++ map Some Rt)
    (Z.of_nat (List.length L)) x
  = map Some (L ++ [x]) ++ repeat None m ++ map Some Rt.
Proof.
  unfold FAS.order_set.
  destruct (Z.ltb_spec (Z.of_nat (List.length L)) 0); [lia |].
  rewrite Nat2Z.id.
  replace (List.length L) with (List.length (map (@Some string) L) + 0)
    by (rewrite length_map; lia).
  rewrite array_set_app_r. simpl. rewrite map_app, <- app_assoc. reflexivity.
Qed.

Lemma place_ok (all : list string) (c : FAS.cursor) (L Rt : list string)
  (x : string) (st' : FAS.state) (at_right : bool) :
  cursor_ok all c L Rt -> In x (FAS.nodes (FAS.st c)) ->
  fas_state_ok st' -> FAS.nodes st' = set_delete (FAS.nodes (FAS.st c)) x ->
  cursor_ok all (FAS.place at_right x c st')
    (if at_right then L else L ++ [x]) (if at_right then x :: Rt else Rt).
Proof.
  intros C Hx Hst Hnodes.
  pose proof (set_delete_length (FAS.nodes (FAS.st c)) x Hx) as Hlen.
  rewrite <- Hnodes in Hlen.
  pose proof (set_delete_perm (FAS.nodes (FAS.st c)) x Hx) as P.
  rewrite <- Hnodes in P.
  destruct at_right; constructor; cbn [FAS.place FAS.st FAS.order FAS.left
    FAS.right].
  - exact Hst.
  - rewrite (co_order _ _ _ _ C), (co_right _ _ _ _ C), <- Hlen.
    apply order_set_right.
  - apply (co_left _ _ _ _ C).
  - rewrite (co_right _ _ _ _ C), <- Hlen. lia.
  - rewrite <- (co_all _ _ _ _ C). apply Permutation_app_head.
    rewrite <- P, <- app_assoc. reflexivity.
  - exact Hst.
  - rewrite (co_order _ _ _ _ C), (co_left _ _ _ _ C), <- Hlen.
    apply order_set_left.
  - rewrite (co_left _ _ _ _ C), length_app. simpl. lia.
  - rewrite (co_right _ _ _ _ C), <- Hlen, length_app. simpl. lia.
  - rewrite <- (co_all _ _ _ _ C), <- app_assoc.
    apply Permutation_app_head. rewrite <- P, <- app_assoc.
    simpl. apply Permutation_middle.
Qed.

(* ================================================================== *)
(** * The loops *)

Lemma peeked_queued (key : FAS.view) (present : list string)
  (nodeMap : jsmap string (MultiQueue.Item FAS.Data)) (mq mq' : FAS.queue) :
  queued present nodeMap mq ->
  MultiQueue.nextId mq' = MultiQueue.nextId mq ->
  MultiQueue.live mq' = MultiQueue.live mq ->
  (forall k, k <> key -> MultiQueue.qs mq' k = MultiQueue.qs mq k) ->
  (forall x, In x (MultiQueue.qs mq' key) -> In x (MultiQueue.qs mq key)) ->
  (forall x, In x (MultiQueue.qs mq key) ->
             In (MultiQueue.id x) (MultiQueue.live mq) ->
             In x (MultiQueue.qs mq' key)) ->
  queued present nodeMap mq'.
Proof.
  intros Q Hn Hl Ho Hs Hk.
  apply (queued_shrink present nodeMap mq mq' Q Hl Hn).
  - intros k x Hx. destruct (eq_dec k key) as [-> | Hne]; [auto |].
    rewrite <- (Ho k Hne). exact Hx.
  - intros k x Hx Hlx. destruct (eq_dec k key) as [-> | Hne]; [auto |].
    rewrite (Ho k Hne). exact Hx.
Qed.

(** With a node present, a [peek] finds a live wrapper, the [pop] that
    follows returns it, and its node can be removed. *)
Lemma take_root (key : FAS.view) (st : FAS.state) :
  fas_state_ok st -> FAS.nodes st <> [] ->
  exists it mq1 mq2 st',
    FAS.q_peek key (FAS.q st) = Ret (Some (MultiQueue.data it), mq1) /\
    FAS.q_pop key mq1 = Ret (Some (MultiQueue.data it), mq2) /\
    FAS.removeNode (FAS.u (MultiQueue.data it)) (with_q st mq2) = Ret st' /\
    fas_state_ok (with_q st mq1) /\
    fas_state_ok st' /\
    FAS.nodes st' = set_delete (FAS.nodes st) (FAS.u (MultiQueue.data it)) /\
    In (FAS.u (MultiQueue.data it)) (FAS.nodes st) /\
    map_get (FAS.nodeMap st) (FAS.u (MultiQueue.data it)) = Some it /\
    hd_error (MultiQueue.qs mq1 key) = Some it /\
    MultiQueue.qs mq2 key
    = snd (fst (PriorityQueue.pop (MultiQueue.item_cmp FAS.view_cmp key)
                  (MultiQueue.qs mq1 key) tt)).
Proof.
  intros [Q Hout Hin] Hne.
  destruct (q_peek_spec key (FAS.q st))
    as (r & mq1 & E1 & Hn1 & Hl1 & Ho1 & Hs1 & Hk1 & Hr).
  assert (Q1 : queued (FAS.nodes st) (FAS.nodeMap st) mq1)
    by (apply (peeked_queued key _ _ _ _ Q Hn1 Hl1 Ho1 Hs1 Hk1)).
  destruct r as [it |];
    [| exfalso; exact (queued_not_all_dead _ _ _ key Q Hne Hr)].
  destruct Hr as (Hhd & Hlive). rewrite <- Hl1 in Hlive.
  destruct (q_pop_root key mq1 it Hhd Hlive) as (mq2 & E2 & Hpop & Eq2).
  destruct (popped_queued _ _ _ _ key it Q1 Hpop) as (Hp & Em & Q2).
  destruct (removeNode_ok (FAS.u (MultiQueue.data it)) (with_q st mq2))
    as (st' & E3 & Hst' & Hnodes); cbn [with_q FAS.nodes FAS.nodeMap FAS.q
      FAS.outAdj FAS.inAdj]; auto.
  { apply (qd_nodup _ _ _ Q). }
  exists it, mq1, mq2, st'. cbn [option_map] in E1.
  split; [exact E1 |]. split; [exact E2 |]. split; [exact E3 |].
  split; [constructor; assumption |]. split; [exact Hst' |].
  split; [exact Hnodes |]. split; [exact Hp |]. split; [exact Em |].
  split; [exact Hhd | exact Eq2].
Qed.

Lemma drain_ok (all : list string) (key : FAS.view) (weight : FAS.Data -> Z)
  (at_right : bool) (fuel : nat) (c : FAS.cursor) (L Rt : list string) :
  cursor_ok all c L Rt -> List.length (FAS.nodes (FAS.st c)) < fuel ->
  exists c' L' Rt',
    FAS.drain fuel key weight at_right c = Ret c' /\
    cursor_ok all c' L' Rt' /\
    List.length (FAS.nodes (FAS.st c')) <= List.length (FAS.nodes (FAS.st c)).
Proof.
  revert c L Rt. induction fuel as [| fuel IH]; intros c L Rt C Hf; [lia |].
  cbn [FAS.drain].
  rewrite (queued_length _ _ _ (so_queued _ (co_state _ _ _ _ C))).
  destruct (Nat.eqb_spec (List.length (FAS.nodes (FAS.st c))) 0) as [E0 | Hne].
  { exists c, L, Rt. auto. }
  destruct (take_root key (FAS.st c) (co_state _ _ _ _ C))
    as (it & mq1 & mq2 & st' & E1 & E2 & E3 & Hst1 & Hst' & Hnodes & Hp & _).
  { intros E. rewrite E in Hne. simpl in Hne. lia. }
  rewrite E1. cbn [bind fst snd].
  destruct (negb (weight (MultiQueue.data it) =? 0)%Z).
  - eexists _, L, Rt. split; [reflexivity |]. split; [| simpl; lia].
    destruct C as [_ Co Cl Cr Ca]. constructor; assumption.
  - rewrite E2. cbn [bind fst snd]. fold (with_q (FAS.st c) mq2).
    rewrite E3. cbn [bind].
    pose proof (place_ok all c L Rt _ st' at_right C Hp Hst' Hnodes) as C'.
    pose proof (set_delete_length (FAS.nodes (FAS.st c)) _ Hp) as Hlen.
    assert (Hn' : FAS.nodes (FAS.st (FAS.place at_right
                     (FAS.u (MultiQueue.data it)) c st')) = FAS.nodes st').
    { destruct at_right; reflexivity. }
    destruct (IH _ _ _ C') as (c' & L' & Rt' & E & C'' & Hle).
    { rewrite Hn', Hnodes. lia. }
    exists c', L', Rt'. split; [exact E |]. split; [exact C'' |].
    rewrite Hn', Hnodes in Hle. lia.
Qed.

Lemma main_loop_ok (all : list string) (fuel : nat) (c : FAS.cursor)
  (L Rt : list string) :
  cursor_ok all c L Rt -> List.length (FAS.nodes (FAS.st c)) < fuel ->
  exists c' L' Rt',
    FAS.main_loop fuel c = Ret c' /\ cursor_ok all c' L' Rt' /\
    FAS.nodes (FAS.st c') = [].
Proof.
  revert c L Rt. induction fuel as [| fuel IH]; intros c L Rt C Hf; [lia |].
  cbn [FAS.main_loop].
  destruct (Nat.eqb_spec (List.length (FAS.nodes (FAS.st c))) 0) as [E0 | Hne].
  { exists c, L, Rt. split; [reflexivity |]. split; [exact C |].
    apply length_zero_iff_nil. exact E0. }
  destruct (drain_ok all FAS.ByOutW FAS.outW true (FAS.drain_fuel c) c L Rt C)
    as (c1 & L1 & Rt1 & E1 & C1 & Hle1).
  { unfold FAS.drain_fuel.
    rewrite (queued_length _ _ _ (so_queued _ (co_state _ _ _ _ C))). lia. }
  rewrite E1. cbn [bind].
  destruct (drain_ok all FAS.ByInW FAS.inW false (FAS.drain_fuel c1) c1 L1 Rt1 C1)
    as (c2 & L2 & Rt2 & E2 & C2 & Hle2).
  { unfold FAS.drain_fuel.
    rewrite (queued_length _ _ _ (so_queued _ (co_state _ _ _ _ C1))). lia. }
  rewrite E2. cbn [bind].
  destruct (q_pop_spec FAS.ByScore (FAS.q (FAS.st c2))) as (r & mq' & E3 & Hr).
  rewrite E3. cbn [bind fst snd].
  pose proof (co_state _ _ _ _ C2) as [Q2 Hout2 Hin2].
  destruct r as [it |]; cbn [option_map].
  - destruct (popped_queued _ _ _ _ FAS.ByScore it Q2 Hr) as (Hp & Em & Q3).
    fold (with_q (FAS.st c2) mq').
    destruct (removeNode_ok (FAS.u (MultiQueue.data it)) (with_q (FAS.st c2) mq'))
      as (st' & E4 & Hst' & Hnodes); cbn [with_q FAS.nodes FAS.nodeMap FAS.q
        FAS.outAdj FAS.inAdj]; auto.
    { apply (qd_nodup _ _ _ Q2). }
    rewrite E4. cbn [bind].
    cbn [with_q FAS.nodes] in Hnodes.
    pose proof (place_ok all c2 L2 Rt2 _ st' false C2 Hp Hst' Hnodes) as C'.
    pose proof (set_delete_length (FAS.nodes (FAS.st c2)) _ Hp) as Hlen.
    apply (IH _ _ _ C'). cbn [FAS.place FAS.st]. rewrite Hnodes. lia.
  - destruct Hr as (Hn & Hl & Ho & Hs & Hdead).
    assert (Hnil : FAS.nodes (FAS.st c2) = []).
    { destruct (FAS.nodes (FAS.st c2)) as [| n rest] eqn:En; [reflexivity |].
      exfalso. apply (queued_not_all_dead _ _ _ FAS.ByScore Q2);
        [congruence | exact Hdead]. }
    eexists _, L2, Rt2. split; [reflexivity |].
    split; [| exact Hnil].
    destruct C2 as [_ Co Cl Cr Ca]. constructor; cbn [FAS.st FAS.order
      FAS.left FAS.right FAS.nodes FAS.nodeMap FAS.q]; try assumption.
    constructor; cbn [FAS.nodes FAS.nodeMap FAS.q FAS.outAdj FAS.inAdj];
      try assumption.
    apply (peeked_queued FAS.ByScore _ _ _ _ Q2 Hn Hl Ho Hs).
    intros x Hx Hlx. exfalso. exact (Hdead x Hx Hlx).
Qed.

(* ================================================================== *)
(** * What the views keep *)

Section MultiQueueKeeps.
Context {T PK St R : Type} `{EqDec PK} `{Number R}.
Variable pKeys : list PK.
Variable pCmps : PK -> Comparator T St R.
Variable key : PK.
Variable P : list (MultiQueue.Item T) -> Prop.

Lemma push_all_keeps (it : MultiQueue.Item T) :
  (forall q s, P q ->
     P (fst (PriorityQueue.push (MultiQueue.item_cmp pCmps key) q it s))) ->
  forall ks f s, P (f key) -> P (fst (MultiQueue.push_all pCmps it ks f s) key).
Proof.
  intros Hpush. unfold MultiQueue.push_all.
  induction ks as [| k0 ks IH]; intros f s Hf; simpl; [exact Hf |].
  destruct (PriorityQueue.push (MultiQueue.item_cmp pCmps k0) (f k0) it s)
    as [q' s'] eqn:Ep.
  apply IH. unfold MultiQueue.set_q.
  destruct (eq_dec k0 key) as [-> | Hne]; [| exact Hf].
  replace q' with (fst (PriorityQueue.push (MultiQueue.item_cmp pCmps key)
                          (f key) it s)) by (rewrite Ep; reflexivity).
  apply Hpush. exact Hf.
Qed.

Lemma push_keeps (mq : MultiQueue.t (T := T) (PK := PK)) (d : T) (s : St) :
  (forall q it s, P q ->
     P (fst (PriorityQueue.push (MultiQueue.item_cmp pCmps key) q it s))) ->
  P (MultiQueue.qs mq key) ->
  P (MultiQueue.qs (snd (fst (MultiQueue.push pKeys pCmps mq d s))) key).
Proof.
  intros Hpush Hq. unfold MultiQueue.push.
  pose proof (push_all_keeps
                {| MultiQueue.id := MultiQueue.nextId mq; MultiQueue.data := d |}
                (fun q s => Hpush q _ s) pKeys (MultiQueue.qs mq) s Hq) as K.
  destruct (MultiQueue.push_all pCmps _ pKeys (MultiQueue.qs mq) s) as [qs' s'].
  exact K.
Qed.

Lemma peek_loop_keeps :
  (forall q s, P q ->
     P (snd (fst (PriorityQueue.pop (MultiQueue.item_cmp pCmps key) q s)))) ->
  forall fuel mq s r mq' s',
    MultiQueue.peek_loop pCmps fuel key mq s = Ret (r, mq', s') ->
    P (MultiQueue.qs mq key) -> P (MultiQueue.qs mq' key).
Proof.
  intros Hpop. induction fuel as [| fuel IH]; intros mq s r mq' s' E Hq;
    [discriminate |].
  cbn [MultiQueue.peek_loop] in E.
  destruct (PriorityQueue.peek (MultiQueue.qs mq key)) as [top |].
  - destruct (set_has (MultiQueue.live mq) (MultiQueue.id top)).
    + injection E as _ <- _. exact Hq.
    + pose proof (Hpop _ s Hq) as Hq'.
      destruct (PriorityQueue.pop (MultiQueue.item_cmp pCmps key)
                  (MultiQueue.qs mq key) s) as [[o q'] s1].
      apply IH in E; [exact E |].
      cbn [MultiQueue.qs]. unfold MultiQueue.set_q.
      destruct (eq_dec key key); [exact Hq' | congruence].
  - injection E as _ <- _. exact Hq.
Qed.
End MultiQueueKeeps.

(** The view [ByOutW] is a heap for [le_out], whatever is done to the
    queue. *)
Lemma le_out_trans (a b c : MultiQueue.Item FAS.Data) :
  le_out a b -> le_out b c -> le_out a c.
Proof. unfold le_out. lia. Qed.

Lemma le_out_lt (a b : MultiQueue.Item FAS.Data) (s : unit) :
  ltz (fst (MultiQueue.item_cmp FAS.view_cmp FAS.ByOutW a b s)) = true ->
  le_out a b.
Proof.
  unfold MultiQueue.item_cmp, FAS.view_cmp, pure_cmp, FAS.or_else, ltz,
    Z_Number, le_out. cbn [fst].
  destruct (Z.eqb_spec (FAS.outW (MultiQueue.data a)
                        - FAS.outW (MultiQueue.data b)) 0); intros E.
  - lia.
  - apply Z.ltb_lt in E. lia.
Qed.

Lemma le_out_ge (a b : MultiQueue.Item FAS.Data) (s : unit) :
  ltz (fst (MultiQueue.item_cmp FAS.view_cmp FAS.ByOutW a b s)) = false ->
  le_out b a.
Proof.
  unfold MultiQueue.item_cmp, FAS.view_cmp, pure_cmp, FAS.or_else, ltz,
    Z_Number, le_out. cbn [fst].
  destruct (Z.eqb_spec (FAS.outW (MultiQueue.data a)
                        - FAS.outW (MultiQueue.data b)) 0); intros E.
  - discriminate.
  - apply Z.ltb_ge in E. lia.
Qed.

Lemma q_push_heap (mq : FAS.queue) (d : FAS.Data) :
  heap le_out (MultiQueue.qs mq FAS.ByOutW) ->
  heap le_out (MultiQueue.qs (snd (FAS.q_push mq d)) FAS.ByOutW).
Proof.
  intros Hq. unfold FAS.q_push.
  apply (push_keeps FAS.views FAS.view_cmp FAS.ByOutW (heap le_out) mq d tt);
    [| exact Hq].
  intros q it s. apply (push_heap _ le_out le_out_trans le_out_lt le_out_ge).
Qed.

Lemma q_peek_heap (mq mq1 : FAS.queue) (r : option FAS.Data) :
  FAS.q_peek FAS.ByOutW mq = Ret (r, mq1) ->
  heap le_out (MultiQueue.qs mq FAS.ByOutW) ->
  heap le_out (MultiQueue.qs mq1 FAS.ByOutW).
Proof.
  unfold FAS.q_peek, MultiQueue.peek, MultiQueue.peek_item. intros E Hq.
  apply bind_Ret_inv in E. destruct E as ([[r0 mq0] s0] & E & E').
  apply bind_Ret_inv in E. destruct E as ([[r1 mq2] s1] & E & E2).
  injection E2 as <- <- <-. injection E' as _ <-.
  apply (peek_loop_keeps FAS.view_cmp FAS.ByOutW (heap le_out)) in E;
    [exact E | | exact Hq].
  intros q s. apply (pop_heap _ le_out le_out_trans le_out_lt le_out_ge).
Qed.

(* ================================================================== *)
(** * The set-up *)

Lemma nodes_of_fold (edges : list FAS.edge) (acc : list string) :
  NoDup acc ->
  let ns := fold_left
              (fun ns (e : FAS.edge) =>
                 set_add (set_add ns (fst (fst e))) (snd (fst e))) edges acc in
  NoDup ns /\ forall x, In x ns <-> In x acc \/ mentioned edges x.
Proof.
  revert acc. induction edges as [| e edges IH]; intros acc Hn; simpl.
  - split; [exact Hn |]. intros x. split; [auto |].
    intros [Hx | (e & [] & _)]. exact Hx.
  - destruct (IH (set_add (set_add acc (fst (fst e))) (snd (fst e))))
      as (Hn' & Hin); [apply set_add_NoDup, set_add_NoDup, Hn |].
    split; [exact Hn' |]. intros x. rewrite Hin, !set_add_In.
    unfold mentioned. split.
    + intros [[-> | [-> | Hx]] | (e' & He' & Hm)]; auto.
      * right. exists e. simpl. auto.
      * right. exists e. simpl. auto.
      * right. exists e'. simpl. auto.
    + intros [Hx | (e' & [<- | He'] & Hm)]; auto.
      * destruct Hm as [<- | <-]; auto.
      * right. exists e'. auto.
Qed.

Lemma nodes_of_spec (edges : list FAS.edge) :
  NoDup (FAS.nodes_of edges) /\
  forall x, In x (FAS.nodes_of edges) <-> mentioned edges x.
Proof.
  destruct (nodes_of_fold edges [] (NoDup_nil _)) as (Hn & Hin).
  split; [exact Hn |]. intros x. unfold FAS.nodes_of. rewrite Hin.
  simpl. tauto.
Qed.

Lemma empty_adj_fold (ns : list string) (acc : FAS.adjacency) (n : string) :
  let adj := fold_left (fun adj n => map_set adj n (@nil (string * Z))) ns acc in
  ((forall m, map_get acc n = Some m -> m = []) ->
   forall m, map_get adj n = Some m -> m = []) /\
  (In n ns \/ map_get acc n <> None -> map_get adj n <> None).
Proof.
  revert acc. induction ns as [| n0 ns IH]; intros acc; simpl.
  - split; [auto |]. intros [[] | Hn]. exact Hn.
  - destruct (IH (map_set acc n0 [])) as (IH1 & IH2). split.
    + intros Hacc. apply IH1. intros m.
      destruct (string_dec n n0) as [-> | Hne].
      * rewrite map_get_set_same. congruence.
      * rewrite map_get_set_other by exact Hne. apply Hacc.
    + intros Hn. apply IH2.
      destruct (string_dec n n0) as [-> | Hne].
      * right. rewrite map_get_set_same. discriminate.
      * rewrite map_get_set_other by exact Hne.
        destruct Hn as [[-> | Hn] | Hn]; [congruence | auto | auto].
Qed.

Lemma empty_adj_spec (ns : list string) (n : string) :
  (forall m, map_get (FAS.empty_adj ns) n = Some m -> m = []) /\
  (In n ns -> map_get (FAS.empty_adj ns) n <> None).
Proof.
  destruct (empty_adj_fold ns [] n) as (H1 & H2). split.
  - apply H1. discriminate.
  - intros Hn. apply H2. auto.
Qed.

Lemma weight_of_empty (ns : list string) (a b : string) :
  weight_of (FAS.empty_adj ns) a b = None.
Proof.
  unfold weight_of.
  destruct (map_get (FAS.empty_adj ns) a) as [m |] eqn:E; [| reflexivity].
  apply (proj1 (empty_adj_spec ns a)) in E. subst m. reflexivity.
Qed.

Lemma weight_of_set (adj : FAS.adjacency) (a b : string) (w : Z)
  (m : jsmap string Z) (a' b' : string) :
  map_get adj a = Some m ->
  weight_of (map_set adj a (map_set m b w)) a' b'
  = if string_dec a' a then
      if string_dec b' b then Some w else weight_of adj a' b'
    else weight_of adj a' b'.
Proof.
  intros Hm. unfold weight_of.
  destruct (string_dec a' a) as [-> | Ha].
  - rewrite map_get_set_same, Hm.
    destruct (string_dec b' b) as [-> | Hb].
    + apply map_get_set_same.
    + apply map_get_set_other. exact Hb.
  - rewrite map_get_set_other by exact Ha. reflexivity.
Qed.

Lemma network_empty (edges : list FAS.edge) :
  network edges (FAS.empty_adj (FAS.nodes_of edges))
    (FAS.empty_adj (FAS.nodes_of edges)).
Proof.
  constructor.
  - intros n Hn. apply empty_adj_spec, nodes_of_spec, Hn.
  - intros n Hn. apply empty_adj_spec, nodes_of_spec, Hn.
  - intros a b. now rewrite !weight_of_empty.
  - intros n m E. apply empty_adj_spec in E. subst m. constructor.
  - intros n m E. apply empty_adj_spec in E. subst m. constructor.
  - intros a b w E. rewrite weight_of_empty in E. discriminate.
Qed.

Lemma network_set (edges : list FAS.edge) (o i : FAS.adjacency)
  (src dst : string) (w : Z) :
  network edges o i -> In (src, dst, w) edges ->
  exists o' i',
    FAS.adj_set o src dst w = Ret o' /\ FAS.adj_set i dst src w = Ret i' /\
    network edges o' i' /\
    (forall a b, weight_of o' a b
                 = if string_dec a src then
                     if string_dec b dst then Some w else weight_of o a b
                   else weight_of o a b).
Proof.
  intros N He.
  assert (Hs : mentioned edges src) by (exists (src, dst, w); simpl; auto).
  assert (Hd : mentioned edges dst) by (exists (src, dst, w); simpl; auto).
  unfold FAS.adj_set.
  destruct (map_get o src) as [mo |] eqn:Eo;
    [| exfalso; exact (nw_out _ _ _ N src Hs Eo)].
  destruct (map_get i dst) as [mi |] eqn:Ei;
    [| exfalso; exact (nw_in _ _ _ N dst Hd Ei)].
  eexists _, _. split; [reflexivity |]. split; [reflexivity |].
  split; [| intros a b; apply weight_of_set; exact Eo].
  constructor.
  - intros n Hn. destruct (string_dec n src) as [-> | Hne].
    + rewrite map_get_set_same. discriminate.
    + rewrite map_get_set_other by exact Hne. apply (nw_out _ _ _ N n Hn).
  - intros n Hn. destruct (string_dec n dst) as [-> | Hne].
    + rewrite map_get_set_same. discriminate.
    + rewrite map_get_set_other by exact Hne. apply (nw_in _ _ _ N n Hn).
  - intros a b. rewrite (weight_of_set o src dst w mo a b Eo),
      (weight_of_set i dst src w mi b a Ei).
    rewrite (nw_mirror _ _ _ N a b).
    destruct (string_dec a src), (string_dec b dst); reflexivity.
  - intros n m. destruct (string_dec n src) as [-> | Hne].
    + rewrite map_get_set_same. intros [= <-].
      apply map_set_keys_NoDup. apply (nw_keys_out _ _ _ N src mo Eo).
    + rewrite map_get_set_other by exact Hne. apply (nw_keys_out _ _ _ N n m).
  - intros n m. destruct (string_dec n dst) as [-> | Hne].
    + rewrite map_get_set_same. intros [= <-].
      apply map_set_keys_NoDup. apply (nw_keys_in _ _ _ N dst mi Ei).
    + rewrite map_get_set_other by exact Hne. apply (nw_keys_in _ _ _ N n m).
  - intros a b w'. rewrite (weight_of_set o src dst w mo a b Eo).
    destruct (string_dec a src) as [-> | Ha];
      [destruct (string_dec b dst) as [-> | Hb] |];
      try apply (nw_arcs _ _ _ N).
    intros [= <-]. exact He.
Qed.

Lemma fill_adj_spec (edges : list FAS.edge) :
  forall rest o i,
    incl rest edges -> network edges o i ->
    exists o' i',
      FAS.fill_adj rest (o, i) = Ret (o', i') /\ network edges o' i' /\
      (forall a b, weight_of o a b <> None -> weight_of o' a b <> None) /\
      (forall a b w, In (a, b, w) rest -> weight_of o' a b <> None).
Proof.
  unfold FAS.fill_adj.
  induction rest as [| [[src dst] w] rest IH]; intros o i Hincl N.
  - exists o, i. split; [reflexivity |]. split; [exact N |].
    split; [auto |]. intros a b w [].
  - destruct (network_set edges o i src dst w N) as (o1 & i1 & E1 & E2 & N1 & Hw).
    { apply Hincl. simpl. auto. }
    cbn [for_each fst snd]. rewrite E1. cbn [bind]. rewrite E2. cbn [bind].
    destruct (IH o1 i1) as (o' & i' & E & N' & Hmono & Hrest).
    { intros e He. apply Hincl. simpl. auto. }
    { exact N1. }
    exists o', i'. split; [exact E |]. split; [exact N' |]. split.
    + intros a b Hab. apply Hmono. rewrite Hw.
      destruct (string_dec a src); [destruct (string_dec b dst) |];
        congruence.
    + intros a b w' [[= <- <- <-] | Hin].
      * apply Hmono. rewrite Hw.
        destruct (string_dec src src); [| congruence].
        destruct (string_dec dst dst); congruence.
      * apply (Hrest a b w' Hin).
Qed.

(** ** Sums of weights *)

Lemma fold_add_shift (l : list Z) (a : Z) :
  fold_left Z.add l a = (a + fold_left Z.add l 0)%Z.
Proof.
  revert a. induction l as [| x l IH]; intros a; simpl; [lia |].
  rewrite (IH (a + x)%Z), (IH x). lia.
Qed.

Lemma psum_all (present : list string) (m : jsmap string Z) :
  (forall v w, In (v, w) m -> In v present) ->
  psum present m = fold_left Z.add (map snd m) 0%Z.
Proof.
  induction m as [| [v w] m IH]; intros Hin; simpl; [reflexivity |].
  rewrite fold_add_shift, <- IH by (intros v' w' H'; apply (Hin v' w'); simpl; auto).
  assert (Hv : set_has present v = true)
    by (apply set_has_In, (Hin v w); simpl; auto).
  rewrite Hv. reflexivity.
Qed.

Lemma set_has_delete (present : list string) (x v : string) :
  NoDup present ->
  set_has (set_delete present x) v
  = if string_dec v x then false else set_has present v.
Proof.
  intros Hn. destruct (string_dec v x) as [-> | Hne].
  - apply set_has_false. apply set_delete_not_in. exact Hn.
  - destruct (set_has present v) eqn:E.
    + apply set_has_In. apply set_delete_In; [exact Hn |].
      split; [apply set_has_In; exact E | exact Hne].
    + apply set_has_false. apply set_has_false in E.
      intros Hin. apply E. apply (set_delete_incl _ _ _ Hin).
Qed.

(** Taking [x] out of the nodes present takes the weight towards [x] off
    the sum. *)
Lemma psum_delete (present : list string) (x : string) (m : jsmap string Z) :
  NoDup present -> In x present -> NoDup (map_keys m) ->
  psum (set_delete present x) m
  = (psum present m - match map_get m x with Some w => w | None => 0 end)%Z.
Proof.
  intros Hn Hx. induction m as [| [v w] m IH]; intros Hk;
    cbn [psum map_get]; [reflexivity |].
  inversion Hk as [| ? ? Hv Hk']; subst.
  rewrite (IH Hk'), (set_has_delete present x v Hn).
  change (eq_dec v x) with (string_dec v x).
  destruct (string_dec v x) as [-> | Hne].
  - assert (E : map_get m x = None) by (apply map_get_None; exact Hv).
    rewrite E. apply set_has_In in Hx. rewrite Hx. lia.
  - lia.
Qed.

Lemma psum_nonneg (present : list string) (m : jsmap string Z) :
  (forall v w, In (v, w) m -> (0 < w)%Z) -> (0 <= psum present m)%Z.
Proof.
  induction m as [| [v w] m IH]; intros Hpos; simpl; [lia |].
  assert (0 < w)%Z by (apply (Hpos v); simpl; auto).
  assert (0 <= psum present m)%Z
    by (apply IH; intros v' w' H'; apply (Hpos v'); simpl; auto).
  destruct (set_has present v); lia.
Qed.

Lemma psum_zero (present : list string) (m : jsmap string Z) :
  (forall v w, In (v, w) m -> (0 < w)%Z) -> psum present m = 0%Z ->
  forall v w, In (v, w) m -> ~ In v present.
Proof.
  induction m as [| [v0 w0] m IH]; intros Hpos Hz v w Hin; [destruct Hin |].
  simpl in Hz.
  assert (H0 : (0 < w0)%Z) by (apply (Hpos v0); simpl; auto).
  assert (Hpos' : forall v w, In (v, w) m -> (0 < w)%Z)
    by (intros v' w' H'; apply (Hpos v'); simpl; auto).
  pose proof (psum_nonneg present m Hpos') as Hge.
  destruct (set_has present v0) eqn:E; [lia |].
  destruct Hin as [[= <- <-] | Hin].
  - apply set_has_false. exact E.
  - apply (IH Hpos' ltac:(lia) v w Hin).
Qed.

Lemma psum_positive (present : list string) (m : jsmap string Z) :
  (0 < psum present m)%Z -> exists v w, In (v, w) m /\ In v present.
Proof.
  induction m as [| [v0 w0] m IH]; simpl; [lia |]. intros Hp.
  destruct (set_has present v0) eqn:E.
  - exists v0, w0. split; [auto |]. apply set_has_In. exact E.
  - destruct IH as (v & w & Hin & Hv); [lia |]. exists v, w. auto.
Qed.

(** ** The first pushes *)

Lemma queued_empty : queued [] [] MultiQueue.empty.
Proof.
  constructor; simpl; try (intros; contradiction); try constructor.
Qed.

Lemma init_push (all : list string) (o i : FAS.adjacency) :
  (forall n outs v w, map_get o n = Some outs -> In (v, w) outs -> In v all) ->
  forall rest done nm mq,
    NoDup (done ++ rest) ->
    (forall n, In n rest -> map_get o n <> None /\ map_get i n <> None) ->
    queued done nm mq ->
    heap le_out (MultiQueue.qs mq FAS.ByOutW) ->
    (forall n it outs, In n done -> map_get nm n = Some it ->
       map_get o n = Some outs -> FAS.outW (MultiQueue.data it) = psum all outs) ->
    exists nm' mq',
      for_each rest
        (fun n (nq : jsmap string (MultiQueue.Item FAS.Data) * FAS.queue) =>
           ow <- FAS.total o n ;;
           iw <- FAS.total i n ;;
           let (item, mq) := FAS.q_push (snd nq)
                               {| FAS.u := n; FAS.outW := ow; FAS.inW := iw |} in
           Ret (map_set (fst nq) n item, mq))
        (nm, mq) = Ret (nm', mq') /\
      queued (done ++ rest) nm' mq' /\
      heap le_out (MultiQueue.qs mq' FAS.ByOutW) /\
      (forall n it outs, In n (done ++ rest) -> map_get nm' n = Some it ->
         map_get o n = Some outs -> FAS.outW (MultiQueue.data it) = psum all outs).
Proof.
  intros Hall. induction rest as [| n rest IH]; intros done nm mq Hn Hk Q Hh Hs.
  - exists nm, mq. rewrite app_nil_r. simpl. auto.
  - cbn [for_each]. destruct (Hk n (or_introl eq_refl)) as (Ho & Hi).
    unfold FAS.total at 1 2.
    destruct (map_get o n) as [outs |] eqn:Eo; [| congruence].
    destruct (map_get i n) as [ins |] eqn:Ei; [| congruence].
    cbn [bind fst snd].
    pose proof (q_push_spec mq
      {| FAS.u := n; FAS.outW := fold_left Z.add (map snd outs) 0%Z;
         FAS.inW := fold_left Z.add (map snd ins) 0%Z |}) as Hp.
    pose proof (q_push_heap mq
      {| FAS.u := n; FAS.outW := fold_left Z.add (map snd outs) 0%Z;
         FAS.inW := fold_left Z.add (map snd ins) 0%Z |} Hh) as Hh'.
    destruct (FAS.q_push mq _) as [item mq1]. cbv zeta in Hp.
    cbn [fst snd] in Hp, Hh'. destruct Hp as (Eit & Hl & Hnx & Hperm).
    assert (Hnd : ~ In n done).
    { apply NoDup_remove_2 in Hn. intros Hd. apply Hn.
      apply in_or_app. auto. }
    assert (Q' : queued (done ++ [n]) (map_set nm n item) mq1).
    { apply (queued_add done nm mq mq1 n item Q Hnd); auto.
      - rewrite Eit. reflexivity.
      - rewrite Eit. reflexivity. }
    destruct (IH (done ++ [n]) (map_set nm n item) mq1)
      as (nm' & mq' & E & Q'' & Hh'' & Hs'').
    + rewrite <- app_assoc. exact Hn.
    + intros n' Hn'. apply Hk. simpl. auto.
    + exact Q'.
    + exact Hh'.
    + intros n' it outs' Hin Em Eo'.
      destruct (string_dec n' n) as [-> | Hne].
      * rewrite map_get_set_same in Em. injection Em as <-.
        rewrite Eit. cbn [MultiQueue.data FAS.outW].
        assert (outs' = outs) by congruence. subst outs'.
        symmetry. apply psum_all. intros v w. apply (Hall n outs v w Eo).
      * rewrite map_get_set_other in Em by exact Hne.
        apply in_app_or in Hin. destruct Hin as [Hin | [-> | []]];
          [| congruence].
        apply (Hs n' it outs' Hin Em Eo').
    + exists nm', mq'. rewrite <- app_assoc in Q'', Hs''.
      split; [exact E |]. split; [exact Q'' |]. split; [exact Hh'' | exact Hs''].
Qed.

Lemma init_spec (edges : list FAS.edge) :
  exists st0,
    FAS.init edges = Ret st0 /\
    FAS.nodes st0 = FAS.nodes_of edges /\
    fas_state_ok st0 /\
    network edges (FAS.outAdj st0) (FAS.inAdj st0) /\
    (forall a b w, In (a, b, w) edges ->
       weight_of (FAS.outAdj st0) a b <> None) /\
    heap le_out (MultiQueue.qs (FAS.q st0) FAS.ByOutW) /\
    (forall n it outs, In n (FAS.nodes st0) ->
       map_get (FAS.nodeMap st0) n = Some it ->
       map_get (FAS.outAdj st0) n = Some outs ->
       FAS.outW (MultiQueue.data it) = psum (FAS.nodes st0) outs).
Proof.
  unfold FAS.init.
  destruct (fill_adj_spec edges edges (FAS.empty_adj (FAS.nodes_of edges))
              (FAS.empty_adj (FAS.nodes_of edges)) (incl_refl _)
              (network_empty edges)) as (o & i & E & N & _ & Hcover).
  rewrite E. cbn [bind fst snd].
  destruct (nodes_of_spec edges) as (Hnd & Hment).
  destruct (init_push (FAS.nodes_of edges) o i) with
    (rest := FAS.nodes_of edges) (done := @nil string)
    (nm := @nil (string * MultiQueue.Item FAS.Data))
    (mq := MultiQueue.empty (T := FAS.Data) (PK := FAS.view))
    as (nm' & mq' & E' & Q & Hh & Hs).
  - intros n outs v w Eo Hin. apply Hment. exists (n, v, w). split; [| simpl; auto].
    apply (nw_arcs _ _ _ N). unfold weight_of. rewrite Eo.
    apply In_map_get; [apply (nw_keys_out _ _ _ N n outs Eo) | exact Hin].
  - simpl. exact Hnd.
  - intros n Hn. apply Hment in Hn.
    split; [apply (nw_out _ _ _ N n Hn) | apply (nw_in _ _ _ N n Hn)].
  - exact queued_empty.
  - intros j x p _ Ex. destruct j; discriminate.
  - intros n it outs [].
  - simpl in Q, Hs. unfold FAS.queue, jsmap in E' |- *.
    rewrite E'. cbn [bind fst snd].
    eexists. split; [reflexivity |].
    cbn [FAS.nodes FAS.outAdj FAS.inAdj FAS.nodeMap FAS.q].
    split; [reflexivity |]. split.
    { constructor; cbn [FAS.nodes FAS.outAdj FAS.inAdj FAS.nodeMap FAS.q].
      - exact Q.
      - intros n Hn. apply (nw_out _ _ _ N n). apply Hment. exact Hn.
      - intros n Hn. apply (nw_in _ _ _ N n). apply Hment. exact Hn. }
    split; [exact N |]. split; [exact Hcover |]. split; [exact Hh | exact Hs].
Qed.

(** The first part of the claim: the result lists the nodes, once each. *)
Lemma fasTopoSort_nodes (edges : list FAS.edge) :
  exists out,
    FAS.fasTopoSort edges = Ret (map Some out) /\
    Permutation out (FAS.nodes_of edges).
Proof.
  unfold FAS.fasTopoSort.
  destruct (init_spec edges) as (st0 & E0 & Hnodes & Hst & _).
  rewrite E0. cbn [bind].
  destruct (main_loop_ok (FAS.nodes_of edges) (S (List.length (FAS.nodes st0)))
              {| FAS.st := st0;
                 FAS.order := repeat None (List.length (FAS.nodes st0));
                 FAS.left := 0;
                 FAS.right := Z.of_nat (List.length (FAS.nodes st0)) - 1 |}
              [] [])
    as (c' & L' & Rt' & E & C' & Hnil).
  - constructor; cbn [FAS.st FAS.order FAS.left FAS.right]; simpl.
    + exact Hst.
    + now rewrite app_nil_r.
    + reflexivity.
    + reflexivity.
    + rewrite app_nil_r, Hnodes. reflexivity.
  - simpl. lia.
  - rewrite E. cbn [bind]. exists (L' ++ Rt'). split.
    + rewrite (co_order _ _ _ _ C'), Hnil. simpl. now rewrite map_app.
    + rewrite <- (co_all _ _ _ _ C'), Hnil. reflexivity.
Qed.

(* ================================================================== *)
(** * The weights the queue holds *)

Lemma resubmit_effect (present : list string)
  (adjust : FAS.Data -> Z -> FAS.Data) (vw : string * Z)
  (nm nm' : jsmap string (MultiQueue.Item FAS.Data)) (mq mq' : FAS.queue) :
  FAS.resubmit present adjust vw (nm, mq) = Ret (nm', mq') ->
  heap le_out (MultiQueue.qs mq FAS.ByOutW) ->
  heap le_out (MultiQueue.qs mq' FAS.ByOutW) /\
  if set_has present (fst vw) then
    exists old it, map_get nm (fst vw) = Some old /\
      nm' = map_set nm (fst vw) it /\
      MultiQueue.data it = adjust (MultiQueue.data old) (snd vw)
  else nm' = nm.
Proof.
  unfold FAS.resubmit. cbn [fst snd].
  destruct (set_has present (fst vw)); cbn [negb].
  - destruct (map_get nm (fst vw)) as [old |]; [| discriminate].
    intros E Hh.
    pose proof (q_push_spec (MultiQueue.delete (MultiQueue.id old) mq)
                  (adjust (MultiQueue.data old) (snd vw))) as Hp.
    pose proof (q_push_heap (MultiQueue.delete (MultiQueue.id old) mq)
                  (adjust (MultiQueue.data old) (snd vw)) Hh) as Hh'.
    destruct (FAS.q_push (MultiQueue.delete (MultiQueue.id old) mq) _)
      as [it mq2].
    cbv zeta in Hp. cbn [fst snd] in Hp, Hh'. destruct Hp as (Eit & _).
    injection E as <- <-. split; [exact Hh' |].
    exists old, it. split; [reflexivity |]. split; [reflexivity |].
    rewrite Eit. reflexivity.
  - intros [= <- <-] Hh. auto.
Qed.

(** The first loop of [removeNode] does not touch [outW]. *)
Lemma resubmit_in_weights (present : list string) (G : string -> Z -> Prop) :
  forall outs nm mq nm' mq',
    for_each outs (FAS.resubmit present FAS.less_in) (nm, mq) = Ret (nm', mq') ->
    heap le_out (MultiQueue.qs mq FAS.ByOutW) ->
    out_weights present G nm ->
    heap le_out (MultiQueue.qs mq' FAS.ByOutW) /\ out_weights present G nm'.
Proof.
  induction outs as [| vw outs IH]; intros nm mq nm' mq' E Hh Hw.
  - injection E as <- <-. auto.
  - cbn [for_each] in E. apply bind_Ret_inv in E.
    destruct E as ([nm1 mq1] & E1 & E).
    destruct (resubmit_effect _ _ _ _ _ _ _ E1 Hh) as (Hh1 & Heff).
    apply (IH nm1 mq1 nm' mq' E Hh1).
    destruct (set_has present (fst vw)) eqn:Ev; [| subst nm1; exact Hw].
    destruct Heff as (old & it & Eold & -> & Ed).
    intros n it' Hn Em. destruct (string_dec n (fst vw)) as [-> | Hne].
    + rewrite map_get_set_same in Em. injection Em as <-.
      rewrite Ed. cbn [FAS.less_in FAS.outW].
      apply (Hw (fst vw) old Hn Eold).
    + rewrite map_get_set_other in Em by exact Hne. apply (Hw n it' Hn Em).
Qed.

(** The second loop takes the weight of each edge into the removed node off
    its source, once. *)
Lemma resubmit_out_weights (present : list string) (A B : string -> Z) :
  forall ins nm mq nm' mq',
    NoDup (map_keys ins) ->
    (forall v w, In (v, w) ins -> In v present -> B v = (A v - w)%Z) ->
    for_each ins (FAS.resubmit present FAS.less_out) (nm, mq) = Ret (nm', mq') ->
    heap le_out (MultiQueue.qs mq FAS.ByOutW) ->
    out_weights present
      (fun n z => z = if set_has (map_keys ins) n then A n else B n) nm ->
    heap le_out (MultiQueue.qs mq' FAS.ByOutW) /\
    out_weights present (fun n z => z = B n) nm'.
Proof.
  induction ins as [| [v w] ins IH]; intros nm mq nm' mq' Hk HB E Hh Hw.
  - injection E as <- <-. split; [exact Hh |]. exact Hw.
  - cbn [for_each] in E. apply bind_Ret_inv in E.
    destruct E as ([nm1 mq1] & E1 & E).
    destruct (resubmit_effect _ _ _ _ _ _ _ E1 Hh) as (Hh1 & Heff).
    inversion Hk as [| ? ? Hv Hk']; subst.
    apply (IH nm1 mq1 nm' mq' Hk'); [| exact E | exact Hh1 |].
    { intros v' w' Hin. apply HB. simpl. auto. }
    assert (Hvf : set_has (map_keys ins) v = false)
      by (apply set_has_false; exact Hv).
    cbn [fst snd] in Heff.
    assert (Hrest : forall n it, n <> v -> In n present ->
              map_get nm n = Some it ->
              FAS.outW (MultiQueue.data it)
              = if set_has (map_keys ins) n then A n else B n).
    { intros n it Hne Hn Em. rewrite (Hw n it Hn Em).
      cbn [map_keys map fst set_has].
      change (eq_dec v n) with (string_dec v n).
      destruct (string_dec v n); [congruence | reflexivity]. }
    destruct (set_has present v) eqn:Ev.
    + destruct Heff as (old & it & Eold & -> & Ed). apply set_has_In in Ev.
      intros n it' Hn Em. destruct (string_dec n v) as [-> | Hne].
      * rewrite map_get_set_same in Em. injection Em as <-.
        rewrite Ed, Hvf. cbn [FAS.less_out FAS.outW].
        rewrite (Hw v old Ev Eold). cbn [map_keys map fst set_has].
        change (eq_dec v v) with (string_dec v v).
        destruct (string_dec v v); [| congruence].
        symmetry. apply HB; simpl; auto.
      * rewrite map_get_set_other in Em by exact Hne.
        apply (Hrest n it' Hne Hn Em).
    + subst nm1. apply set_has_false in Ev.
      intros n it Hn Em. apply (Hrest n it); auto. congruence.
Qed.

Lemma out_sum_delete (edges : list FAS.edge) (o0 i0 : FAS.adjacency)
  (present : list string) (x n : string) :
  network edges o0 i0 -> NoDup present -> In x present ->
  out_sum o0 (set_delete present x) n
  = (out_sum o0 present n
     - match weight_of o0 n x with Some w => w | None => 0 end)%Z.
Proof.
  intros N Hnd Hx. unfold out_sum, weight_of.
  destruct (map_get o0 n) as [outs |] eqn:Eo; [| reflexivity].
  apply psum_delete; auto. apply (nw_keys_out _ _ _ N n outs Eo).
Qed.

(** [removeNode] keeps the weights of the nodes that stay up to date. *)
Lemma removeNode_weighed (edges : list FAS.edge) (o0 i0 : FAS.adjacency)
  (x : string) (st st' : FAS.state) :
  network edges o0 i0 -> NoDup (FAS.nodes st) -> In x (FAS.nodes st) ->
  weighed o0 i0 st -> FAS.removeNode x st = Ret st' -> weighed o0 i0 st'.
Proof.
  intros N Hnd Hx [Wo Wi Ws Wh] E. unfold FAS.removeNode in E.
  destruct (map_get (FAS.outAdj st) x) as [outs |] eqn:Eo; [| discriminate].
  apply bind_Ret_inv in E. destruct E as ([nm1 mq1] & E1 & E).
  destruct (map_get (FAS.inAdj st) x) as [ins |] eqn:Ei; [| discriminate].
  apply bind_Ret_inv in E. destruct E as ([nm2 mq2] & E2 & E).
  injection E as <-. cbn [fst snd].
  assert (Hother : forall n, In n (set_delete (FAS.nodes st) x) ->
            In n (FAS.nodes st) /\ n <> x)
    by (intros n Hn; apply set_delete_In in Hn; assumption).
  destruct (resubmit_in_weights (set_delete (FAS.nodes st) x)
              (fun n z => z = out_sum o0 (FAS.nodes st) n)
              outs _ _ _ _ E1 Wh) as (Hh1 & Hw1).
  { intros n it Hn Em. apply (Ws n it); [apply (Hother n Hn) | exact Em]. }
  rewrite (Wi x Hx) in Ei.
  assert (Hmirror : forall v, weight_of o0 v x = map_get ins v).
  { intros v. rewrite <- (nw_mirror _ _ _ N v x). unfold weight_of.
    rewrite Ei. reflexivity. }
  assert (HB : forall v w, In (v, w) ins ->
            In v (set_delete (FAS.nodes st) x) ->
            out_sum o0 (set_delete (FAS.nodes st) x) v
            = (out_sum o0 (FAS.nodes st) v - w)%Z).
  { intros v w Hin _.
    rewrite (out_sum_delete edges o0 i0 _ x v N Hnd Hx), Hmirror.
    rewrite (In_map_get ins v w (nw_keys_in _ _ _ N x ins Ei) Hin).
    reflexivity. }
  assert (Hpre : out_weights (set_delete (FAS.nodes st) x)
            (fun n z => z = if set_has (map_keys ins) n
                            then out_sum o0 (FAS.nodes st) n
                            else out_sum o0 (set_delete (FAS.nodes st) x) n)
            nm1).
  { intros n it Hn Em. rewrite (Hw1 n it Hn Em).
    destruct (set_has (map_keys ins) n) eqn:Ek; [reflexivity |].
    apply set_has_false in Ek. apply map_get_None in Ek.
    rewrite (out_sum_delete edges o0 i0 _ x n N Hnd Hx), Hmirror, Ek. lia. }
  destruct (resubmit_out_weights (set_delete (FAS.nodes st) x)
              (out_sum o0 (FAS.nodes st))
              (out_sum o0 (set_delete (FAS.nodes st) x))
              ins nm1 mq1 nm2 mq2 (nw_keys_in _ _ _ N x ins Ei) HB E2 Hh1 Hpre)
    as (Hh2 & Hw2).
  constructor; cbn [FAS.nodes FAS.outAdj FAS.inAdj FAS.nodeMap FAS.q].
  - intros n Hn. destruct (Hother n Hn) as (Hn' & Hne).
    rewrite map_get_delete_other by exact Hne. apply Wo. exact Hn'.
  - intros n Hn. destruct (Hother n Hn) as (Hn' & Hne).
    rewrite map_get_delete_other by exact Hne. apply Wi. exact Hn'.
  - intros n it Hn Em. destruct (Hother n Hn) as (Hn' & Hne).
    rewrite map_get_delete_other in Em by exact Hne.
    apply (Hw2 n it Hn Em).
  - exact Hh2.
Qed.

(* ================================================================== *)
(** * Edges without a cycle *)

Lemma clos_trans_flip {A : Type} (R : A -> A -> Prop) (x y : A) :
  clos_trans A (fun a b => R b a) x y -> clos_trans A R y x.
Proof.
  induction 1 as [x y Hxy | x y z _ IH1 _ IH2].
  - apply t_step. exact Hxy.
  - apply t_trans with y; assumption.
Qed.

Lemma precedes_cons (l : list string) (n a b : string) :
  precedes l a b -> precedes (n :: l) a b.
Proof.
  intros (l1 & l2 & l3 & ->). exists (n :: l1), l2, l3. reflexivity.
Qed.

Lemma precedes_head (l : list string) (n b : string) :
  In b l -> precedes (n :: l) n b.
Proof.
  intros Hb. apply in_split in Hb. destruct Hb as (l2 & l3 & ->).
  exists [], l2, l3. reflexivity.
Qed.

Section Sinks.
Variable edges : list FAS.edge.
Variables o0 i0 : FAS.adjacency.
Hypothesis N : network edges o0 i0.
Hypothesis Hpos : arcs_positive edges.
Hypothesis Hacyc : arcs_acyclic edges.

Lemma table_positive (n : string) (outs : jsmap string Z) (v : string) (w : Z) :
  map_get o0 n = Some outs -> In (v, w) outs -> (0 < w)%Z /\ arc edges n v.
Proof.
  intros Eo Hin.
  assert (He : In (n, v, w) edges).
  { apply (nw_arcs _ _ _ N). unfold weight_of. rewrite Eo.
    apply In_map_get; [apply (nw_keys_out _ _ _ N n outs Eo) | exact Hin]. }
  split; [apply (Hpos n v w He) | exists w; exact He].
Qed.

Lemma out_sum_nonneg (present : list string) (n : string) :
  (0 <= out_sum o0 present n)%Z.
Proof.
  unfold out_sum. destruct (map_get o0 n) as [outs |] eqn:Eo; [| lia].
  apply psum_nonneg. intros v w Hin. apply (table_positive n outs v w Eo Hin).
Qed.

(** A node whose weight towards the nodes present is positive has a
    successor among them. *)
Lemma out_sum_successor (present : list string) (n : string) :
  (0 < out_sum o0 present n)%Z -> exists v, In v present /\ arc edges n v.
Proof.
  unfold out_sum. destruct (map_get o0 n) as [outs |] eqn:Eo; [| lia].
  intros Hp. destruct (psum_positive present outs Hp) as (v & w & Hin & Hv).
  exists v. split; [exact Hv |]. apply (table_positive n outs v w Eo Hin).
Qed.

(** A node whose weight towards the nodes present is [0] has no successor
    among them. *)
Lemma out_sum_sink (present : list string) (n b : string) :
  out_sum o0 present n = 0%Z -> weight_of o0 n b <> None -> ~ In b present.
Proof.
  unfold out_sum, weight_of.
  destruct (map_get o0 n) as [outs |] eqn:Eo; [| congruence].
  intros Hz Hb. destruct (map_get outs b) as [w |] eqn:Eb; [| congruence].
  apply (psum_zero present outs) with (w := w); [| exact Hz |].
  - intros v w' Hin. apply (table_positive n outs v w' Eo Hin).
  - apply map_get_In. exact Eb.
Qed.

(** Without a cycle, some node present has weight [0] towards the others:
    the least weight in the queue is [0]. *)
Lemma least_weight_zero (present : list string) (z : Z) :
  present <> [] ->
  (forall m, In m present -> (z <= out_sum o0 present m)%Z) ->
  (z <= 0)%Z.
Proof.
  intros Hne Hleast.
  destruct (Z_le_gt_dec z 0) as [Hle | Hgt]; [exact Hle |].
  exfalso. apply Hne.
  apply (descent_empty (fun y x => arc edges x y)).
  - intros x Hx. apply (Hacyc x). apply clos_trans_flip. exact Hx.
  - intros m Hm. destruct (out_sum_successor present m) as (v & Hv & Harc).
    + specialize (Hleast m Hm). lia.
    + exists v. split; [exact Hv |]. apply t_step. exact Harc.
Qed.
End Sinks.

(** On edges without a cycle the first inner loop takes every node: each
    node it looks at is a sink of what is left, and goes in front of all its
    successors. *)
Lemma drain_sinks (edges : list FAS.edge) (o0 i0 : FAS.adjacency) :
  network edges o0 i0 -> arcs_positive edges -> arcs_acyclic edges ->
  forall fuel c Rt,
    cursor_ok (FAS.nodes_of edges) c [] Rt ->
    weighed o0 i0 (FAS.st c) ->
    List.length (FAS.nodes (FAS.st c)) < fuel ->
    (forall a b, weight_of o0 a b <> None -> In a Rt -> precedes Rt a b) ->
    exists c' Rt',
      FAS.drain fuel FAS.ByOutW FAS.outW true c = Ret c' /\
      cursor_ok (FAS.nodes_of edges) c' [] Rt' /\
      FAS.nodes (FAS.st c') = [] /\
      (forall a b, weight_of o0 a b <> None -> In a Rt' -> precedes Rt' a b).
Proof.
  intros N Hpos Hacyc.
  induction fuel as [| fuel IH]; intros c Rt C W Hf Hord; [lia |].
  cbn [FAS.drain].
  pose proof (co_state _ _ _ _ C) as Hst.
  rewrite (queued_length _ _ _ (so_queued _ Hst)).
  destruct (Nat.eqb_spec (List.length (FAS.nodes (FAS.st c))) 0) as [E0 | Hne].
  { exists c, Rt. split; [reflexivity |]. split; [exact C |].
    split; [apply length_zero_iff_nil; exact E0 | exact Hord]. }
  assert (Hne' : FAS.nodes (FAS.st c) <> []).
  { intros E. rewrite E in Hne. simpl in Hne. lia. }
  destruct (take_root FAS.ByOutW (FAS.st c) Hst Hne')
    as (it & mq1 & mq2 & st' & E1 & E2 & E3 & Hst1 & Hst' & Hnodes & Hp & Em
        & Hhd & Eq2).
  destruct W as [Wo Wi Ws Wh].
  pose proof (q_peek_heap _ _ _ E1 Wh) as Hh1.
  pose proof (Ws _ it Hp Em) as Hit. cbv beta in Hit.
  assert (Hzero : FAS.outW (MultiQueue.data it) = 0%Z).
  { pose proof (out_sum_nonneg edges o0 i0 N Hpos (FAS.nodes (FAS.st c))
                  (FAS.u (MultiQueue.data it))) as Hge.
    assert (Hle : (FAS.outW (MultiQueue.data it) <= 0)%Z); [| lia].
    apply (least_weight_zero edges o0 i0 N Hpos Hacyc (FAS.nodes (FAS.st c)));
      [exact Hne' |].
    intros m Hm.
    destruct (qd_item _ _ _ (so_queued _ Hst) m Hm) as (itm & Emm & _ & _).
    rewrite <- (Ws m itm Hm Emm).
    pose proof (qd_views _ _ _ (so_queued _ Hst1) FAS.ByOutW m itm Hm Emm)
      as Hin.
    cbn [with_q FAS.q] in Hin.
    apply In_nth_error in Hin. destruct Hin as (j & Hj).
    apply (heap_root_least _ le_out le_out_trans le_out_lt le_out_ge
             (MultiQueue.qs mq1 FAS.ByOutW) tt Hh1 j it itm); [| exact Hj].
    destruct (MultiQueue.qs mq1 FAS.ByOutW); [discriminate | exact Hhd]. }
  rewrite E1. cbn [bind fst snd]. rewrite Hzero. cbn [Z.eqb negb].
  rewrite E2. cbn [bind fst snd]. fold (with_q (FAS.st c) mq2).
  rewrite E3. cbn [bind].
  pose proof (place_ok (FAS.nodes_of edges) c [] Rt
                (FAS.u (MultiQueue.data it)) st' true C Hp Hst' Hnodes) as C'.
  cbv iota in C'.
  pose proof (set_delete_length (FAS.nodes (FAS.st c)) _ Hp) as Hlen.
  assert (W2 : weighed o0 i0 (with_q (FAS.st c) mq2)).
  { constructor; cbn [with_q FAS.nodes FAS.outAdj FAS.inAdj FAS.nodeMap
      FAS.q]; auto.
    rewrite Eq2.
    apply (pop_heap _ le_out le_out_trans le_out_lt le_out_ge). exact Hh1. }
  pose proof (removeNode_weighed edges o0 i0 (FAS.u (MultiQueue.data it))
                (with_q (FAS.st c) mq2) st' N
                (qd_nodup _ _ _ (so_queued _ Hst)) Hp W2 E3) as W'.
  apply (IH _ _ C').
  - exact W'.
  - cbn [FAS.place FAS.st]. rewrite Hnodes. lia.
  - intros a b Hab [<- | Ha].
    + apply precedes_head.
      assert (Hb : ~ In b (FAS.nodes (FAS.st c))).
      { apply (out_sum_sink edges o0 i0 N Hpos _ (FAS.u (MultiQueue.data it)) b);
          [congruence | exact Hab]. }
      assert (Hball : In b (FAS.nodes_of edges)).
      { apply nodes_of_spec. destruct (weight_of o0 _ b) as [w |] eqn:Ew;
          [| congruence].
        exists (FAS.u (MultiQueue.data it), b, w).
        split; [apply (nw_arcs _ _ _ N); exact Ew | simpl; auto]. }
      apply (Permutation_in b (Permutation_sym (co_all _ _ _ _ C))) in Hball.
      simpl in Hball. apply in_app_or in Hball. tauto.
    + apply precedes_cons. apply (Hord a b Hab Ha).
Qed.

(** The second part of the claim. *)
Lemma fasTopoSort_edges (edges : list FAS.edge) :
  arcs_acyclic edges -> arcs_positive edges ->
  exists out,
    FAS.fasTopoSort edges = Ret (map Some out) /\
    forall a b w, In (a, b, w) edges -> precedes out a b.
Proof.
  intros Hacyc Hpos. unfold FAS.fasTopoSort.
  destruct (init_spec edges)
    as (st0 & E0 & Hnodes & Hst & N & Hcover & Hh & Hs).
  rewrite E0. cbn [bind FAS.main_loop FAS.st].
  destruct (Nat.eqb_spec (List.length (FAS.nodes st0)) 0) as [Z0 | Hne].
  { cbn [bind FAS.order]. rewrite Z0. exists []. split; [reflexivity |].
    intros a b w He. exfalso.
    assert (Ha : In a (FAS.nodes st0)).
    { rewrite Hnodes. apply nodes_of_spec. exists (a, b, w). simpl. auto. }
    apply length_zero_iff_nil in Z0. rewrite Z0 in Ha. exact Ha. }
  set (c0 := {| FAS.st := st0;
                FAS.order := repeat None (List.length (FAS.nodes st0));
                FAS.left := 0;
                FAS.right := Z.of_nat (List.length (FAS.nodes st0)) - 1 |}).
  assert (C0 : cursor_ok (FAS.nodes_of edges) c0 [] []).
  { constructor; subst c0; cbn [FAS.st FAS.order FAS.left FAS.right]; simpl.
    - exact Hst.
    - now rewrite app_nil_r.
    - reflexivity.
    - reflexivity.
    - rewrite app_nil_r, Hnodes. reflexivity. }
  destruct (drain_sinks edges (FAS.outAdj st0) (FAS.inAdj st0) N Hpos Hacyc
              (FAS.drain_fuel c0) c0 [] C0)
    as (c1 & Rt & E1 & C1 & Hnil & Hord).
  - subst c0. constructor; cbn [FAS.st]; auto.
    intros n it Hn Em. unfold out_sum.
    destruct (map_get (FAS.outAdj st0) n) as [outs |] eqn:Eo.
    + apply (Hs n it outs Hn Em Eo).
    + exfalso. exact (so_out _ Hst n Hn Eo).
  - unfold FAS.drain_fuel.
    rewrite (queued_length _ _ _ (so_queued _ (co_state _ _ _ _ C0))). lia.
  - intros a b _ [].
  - rewrite E1. cbn [bind]. unfold FAS.drain_fuel at 1. cbn [FAS.drain].
    pose proof (co_state _ _ _ _ C1) as [Q1 Ho1 Hi1].
    rewrite (queued_length _ _ _ Q1), Hnil. cbn [List.length Nat.eqb bind].
    destruct (q_pop_spec FAS.ByScore (FAS.q (FAS.st c1))) as (r & mq' & E3 & Hr).
    rewrite E3. cbn [bind fst snd].
    destruct r as [it |]; cbn [option_map].
    { exfalso. destruct (popped_queued _ _ _ _ FAS.ByScore it Q1 Hr) as (Hp & _).
      rewrite Hnil in Hp. exact Hp. }
    cbn [FAS.order]. exists Rt. split.
    + rewrite (co_order _ _ _ _ C1), Hnil. reflexivity.
    + intros a b w He. apply Hord.
      * apply (Hcover a b w He).
      * assert (Ha : In a (FAS.nodes_of edges)).
        { apply nodes_of_spec. exists (a, b, w). simpl. auto. }
        apply (Permutation_in a (Permutation_sym (co_all _ _ _ _ C1))) in Ha.
        rewrite Hnil in Ha. exact Ha.
Qed.


(* ================================================================== *)
(** * Integers in binary64 *)

Lemma shl_add (a b : nat) (p : positive) : shl (a + b) p = shl a (shl b p).
Proof. apply Nat.iter_add. Qed.

Lemma shl_digits (k : nat) (p : positive) :
  Zpos (digits2_pos (shl k p)) = (Zpos (digits2_pos p) + Z.of_nat k)%Z.
Proof.
  induction k as [| k IH].
  - simpl. lia.
  - unfold shl in *. rewrite Nat.iter_succ. cbn [digits2_pos].
    rewrite Pos2Z.inj_succ, IH. lia.
Qed.

Lemma shl_value (k : nat) (p : positive) :
  Zpos (shl k p) = (Zpos p * 2 ^ Z.of_nat k)%Z.
Proof.
  induction k as [| k IH].
  - simpl. lia.
  - unfold shl in *. rewrite Nat.iter_succ, Pos2Z.inj_xO, IH.
    rewrite Nat2Z.inj_succ, Z.pow_succ_r by lia. lia.
Qed.

Lemma shl_inj (k : nat) (p q : positive) : shl k p = shl k q -> p = q.
Proof.
  intros E. apply (f_equal Zpos) in E. rewrite !shl_value in E.
  assert (0 < 2 ^ Z.of_nat k)%Z by (apply Z.pow_pos_nonneg; lia).
  apply Pos2Z.inj. nia.
Qed.

Lemma digits_bounds (p : positive) :
  (2 ^ (Zpos (digits2_pos p) - 1) <= Zpos p < 2 ^ Zpos (digits2_pos p))%Z.
Proof.
  induction p as [p IH | p IH |]; cbn [digits2_pos].
  - rewrite Pos2Z.inj_succ, (Pos2Z.inj_xI p).
    replace (Z.succ (Zpos (digits2_pos p)) - 1)%Z
      with (Z.succ (Zpos (digits2_pos p) - 1))%Z by lia.
    rewrite !Z.pow_succ_r by lia.
    generalize dependent (2 ^ (Zpos (digits2_pos p) - 1))%Z.
    generalize (2 ^ Zpos (digits2_pos p))%Z. intros; lia.
  - rewrite Pos2Z.inj_succ, (Pos2Z.inj_xO p).
    replace (Z.succ (Zpos (digits2_pos p)) - 1)%Z
      with (Z.succ (Zpos (digits2_pos p) - 1))%Z by lia.
    rewrite !Z.pow_succ_r by lia.
    generalize dependent (2 ^ (Zpos (digits2_pos p) - 1))%Z.
    generalize (2 ^ Zpos (digits2_pos p))%Z. intros; lia.
  - simpl. lia.
Qed.

Lemma dg_Z (p : positive) : Z.of_nat (dg p) = Zpos (digits2_pos p).
Proof. unfold dg. apply positive_nat_Z. Qed.

Lemma dg_small (p : positive) : (Zpos p < 2 ^ 53)%Z -> dg p <= 53.
Proof.
  intros Hp. pose proof (digits_bounds p) as [Hlo _].
  pose proof (dg_Z p) as Ed.
  destruct (Z_le_gt_dec (Zpos (digits2_pos p)) 53) as [Hle | Hgt]; [lia |].
  exfalso.
  assert (2 ^ 53 <= 2 ^ (Zpos (digits2_pos p) - 1))%Z
    by (apply Z.pow_le_mono_r; lia).
  lia.
Qed.

Lemma iter_pos_nat {A : Type} (f : A -> A) (n : positive) (x : A) :
  iter_pos f n x = Nat.iter (Pos.to_nat n) f x.
Proof.
  revert x. induction n as [n IH | n IH |]; intros x; cbn [iter_pos].
  - rewrite !IH, Pos2Nat.inj_xI, <- Nat.iter_add, <- Nat.iter_succ_r.
    f_equal. lia.
  - rewrite !IH, Pos2Nat.inj_xO, <- Nat.iter_add. f_equal. lia.
  - reflexivity.
Qed.

Lemma shr_shl (n : nat) (q : positive) :
  Nat.iter n shr_1 {| shr_m := Zpos (shl n q); shr_r := false; shr_s := false |}
  = {| shr_m := Zpos q; shr_r := false; shr_s := false |}.
Proof.
  induction n as [| n IH]; [reflexivity |].
  rewrite Nat.iter_succ_r. unfold shl. rewrite Nat.iter_succ. exact IH.
Qed.

(** A mantissa of 53 digits followed by [n] zeros is kept as it is. *)
Lemma binary_round_aux_exact (s : bool) (n : nat) (q : positive) (e : Z) :
  Zpos (digits2_pos q) = 53%Z ->
  (-1074 <= e + Z.of_nat n <= 971)%Z ->
  binary_round_aux prec emax s (Zpos (shl n q)) e loc_Exact
  = S754_finite s q (e + Z.of_nat n).
Proof.
  intros Hq He. unfold binary_round_aux.
  assert (E1 : shr_fexp prec emax (Zpos (shl n q)) e loc_Exact
               = ({| shr_m := Zpos q; shr_r := false; shr_s := false |},
                  (e + Z.of_nat n)%Z)).
  { unfold shr_fexp. cbn [Zdigits2 shr_record_of_loc].
    rewrite shl_digits, Hq. unfold fexp, emin, prec, emax.
    replace (Z.max (53 + Z.of_nat n + e - 53) (3 - 1024 - 53) - e)%Z
      with (Z.of_nat n) by lia.
    destruct n as [| n].
    - cbn [Z.of_nat shr]. f_equal. lia.
    - unfold shr. cbn [Z.of_nat]. rewrite iter_pos_nat.
      rewrite SuccNat2Pos.id_succ, shr_shl. reflexivity. }
  rewrite E1. cbn [shr_m loc_of_shr_record round_nearest_even].
  assert (E2 : shr_fexp prec emax (Zpos q) (e + Z.of_nat n) loc_Exact
               = ({| shr_m := Zpos q; shr_r := false; shr_s := false |},
                  (e + Z.of_nat n)%Z)).
  { unfold shr_fexp. cbn [Zdigits2 shr_record_of_loc].
    rewrite Hq. unfold fexp, emin, prec, emax.
    replace (Z.max (53 + (e + Z.of_nat n) - 53) (3 - 1024 - 53)
             - (e + Z.of_nat n))%Z with 0%Z by lia.
    reflexivity. }
  rewrite E2. cbn [shr_m]. unfold prec, emax.
  destruct (Z.leb_spec (e + Z.of_nat n) (1024 - 53)); [reflexivity | lia].
Qed.

Lemma binary_round_aux_full (s : bool) (q : positive) (e : Z) :
  Zpos (digits2_pos q) = 53%Z ->
  (-1074 <= e <= 971)%Z ->
  binary_round_aux prec emax s (Zpos q) e loc_Exact = S754_finite s q e.
Proof.
  intros Hq He.
  pose proof (binary_round_aux_exact s 0 q e Hq) as E.
  cbn [shl Nat.iter Z.of_nat] in E. rewrite Z.add_0_r in E.
  apply E. exact He.
Qed.

(** An integer below [2^53] written with [k] more zeros than needed is
    rounded to itself. *)
Lemma binary_round_exact (s : bool) (k : nat) (p : positive) :
  dg p <= 53 ->
  binary_round prec emax s (shl k p) (- Z.of_nat k)
  = S754_finite s (shl (53 - dg p) p) (Z.of_nat (dg p) - 53).
Proof.
  intros Hd. unfold binary_round.
  pose proof (dg_Z p) as Ed.
  assert (Hd1 : 1 <= dg p) by (unfold dg; lia).
  assert (Ef : fexp prec emax (Zpos (digits2_pos (shl k p)) + - Z.of_nat k)
               = (Z.of_nat (dg p) - 53)%Z).
  { rewrite shl_digits. unfold fexp, emin, prec, emax. lia. }
  rewrite Ef. unfold shl_align.
  assert (Hfull : Zpos (digits2_pos (shl (53 - dg p) p)) = 53%Z)
    by (rewrite shl_digits; lia).
  destruct (Z.of_nat (dg p) - 53 - - Z.of_nat k)%Z as [| d | d] eqn:Ek.
  - (* the zeros are just enough *)
    assert (k = 53 - dg p) by lia. subst k.
    rewrite binary_round_aux_full by (try exact Hfull; lia).
    f_equal. lia.
  - (* too many zeros: they are shifted out *)
    assert (Ek' : k = Pos.to_nat d + (53 - dg p)) by lia.
    rewrite Ek', shl_add.
    rewrite (binary_round_aux_exact s (Pos.to_nat d) (shl (53 - dg p) p))
      by (try exact Hfull; lia).
    f_equal. lia.
  - (* too few: the mantissa is moved left *)
    assert (E : Pos.iter xO (shl k p) d = shl (Pos.to_nat d + k) p)
      by (rewrite Pos2Nat.inj_iter; symmetry; apply shl_add).
    rewrite E.
    replace (Pos.to_nat d + k) with (53 - dg p) by lia.
    rewrite binary_round_aux_full by (try exact Hfull; lia).
    reflexivity.
Qed.

Lemma binary_normalize_exact (z : Z) (k : nat) :
  (Z.abs z < 2 ^ 53)%Z ->
  binary_normalize prec emax (z * 2 ^ Z.of_nat k) (- Z.of_nat k) false
  = SFint z.
Proof.
  intros Hz. destruct z as [| p | p].
  - reflexivity.
  - assert (E : (Zpos p * 2 ^ Z.of_nat k)%Z = Zpos (shl k p))
      by (rewrite shl_value; reflexivity).
    rewrite E. cbn [binary_normalize SFint].
    apply binary_round_exact. apply dg_small. lia.
  - assert (E : (Zneg p * 2 ^ Z.of_nat k)%Z = Zneg (shl k p)).
    { rewrite <- !Pos2Z.opp_pos, shl_value. lia. }
    rewrite E. cbn [binary_normalize SFint].
    apply binary_round_exact. apply dg_small. lia.
Qed.

Lemma num_spec (z : Z) : (Z.abs z < 2 ^ 53)%Z -> Prim2SF (num z) = SFint z.
Proof.
  intros Hz. unfold num.
  assert (Hnat : forall y, (0 <= y < 2 ^ 53)%Z ->
            Prim2SF (of_uint63 (Uint63.of_Z y)) = SFint y).
  { intros y Hy. rewrite FloatAxioms.of_uint63_spec, Uint63.of_Z_spec.
    rewrite Z.mod_small.
    - rewrite <- (binary_normalize_exact y 0) by lia.
      cbn [Z.of_nat Z.opp]. rewrite Z.pow_0_r, Z.mul_1_r. reflexivity.
    - split; [lia |]. apply Z.lt_trans with (2 ^ 53)%Z; [lia |].
      reflexivity. }
  destruct (Z.ltb_spec z 0) as [Hneg | Hpos].
  - rewrite FloatAxioms.opp_spec, Hnat by lia.
    destruct z as [| p | p]; try lia. reflexivity.
  - apply Hnat. lia.
Qed.

Lemma shl_align_value (mx : positive) (ex ez : Z) :
  (ez <= ex)%Z ->
  Zpos (fst (shl_align mx ex ez)) = (Zpos mx * 2 ^ (ex - ez))%Z.
Proof.
  intros Hle. unfold shl_align.
  destruct (ez - ex)%Z as [| d | d] eqn:Ed; cbn [fst].
  - replace (ex - ez)%Z with 0%Z by lia. lia.
  - lia.
  - assert (E : Pos.iter xO mx d = shl (Pos.to_nat d) mx)
      by apply Pos2Nat.inj_iter.
    rewrite E, shl_value. f_equal. f_equal. lia.
Qed.

(** The datum of a non-zero integer, read back. *)
Lemma SFint_finite (z : Z) :
  z <> 0%Z -> (Z.abs z < 2 ^ 53)%Z ->
  exists s m k,
    SFint z = S754_finite s m (- Z.of_nat k) /\
    k <= 52 /\
    cond_Zopp s (Zpos m) = (z * 2 ^ Z.of_nat k)%Z.
Proof.
  intros Hz Hb.
  assert (Hp : forall p, (Zpos p < 2 ^ 53)%Z ->
            1 <= dg p <= 53 /\
            (Z.of_nat (dg p) - 53)%Z = (- Z.of_nat (53 - dg p))%Z).
  { intros p Hp. pose proof (dg_small p Hp).
    assert (1 <= dg p) by (unfold dg; lia). lia. }
  destruct z as [| p | p]; [congruence | |].
  - destruct (Hp p) as ((H1 & H2) & E); [lia |].
    exists false, (shl (53 - dg p) p), (53 - dg p).
    cbn [SFint cond_Zopp]. rewrite E, shl_value.
    split; [reflexivity |]. split; [lia | reflexivity].
  - destruct (Hp p) as ((H1 & H2) & E); [lia |].
    exists true, (shl (53 - dg p) p), (53 - dg p).
    cbn [SFint cond_Zopp]. rewrite E.
    split; [reflexivity |]. split; [lia |].
    rewrite shl_value. generalize (2 ^ Z.of_nat (53 - dg p))%Z. intros; lia.
Qed.

Lemma aligned_sum (op : Z -> Z -> Z) (a b : Z) (sa sb : bool)
  (ma mb : positive) (ka kb : nat) :
  (forall x y c, op (x * c) (y * c) = op x y * c)%Z ->
  cond_Zopp sa (Zpos ma) = (a * 2 ^ Z.of_nat ka)%Z ->
  cond_Zopp sb (Zpos mb) = (b * 2 ^ Z.of_nat kb)%Z ->
  let ez := Z.min (- Z.of_nat ka) (- Z.of_nat kb) in
  ez = (- Z.of_nat (Nat.max ka kb))%Z /\
  op (cond_Zopp sa (Zpos (fst (shl_align ma (- Z.of_nat ka) ez))))
     (cond_Zopp sb (Zpos (fst (shl_align mb (- Z.of_nat kb) ez))))
  = (op a b * 2 ^ Z.of_nat (Nat.max ka kb))%Z.
Proof.
  intros Hop Ea Eb ez.
  assert (Ez : ez = (- Z.of_nat (Nat.max ka kb))%Z) by (subst ez; lia).
  split; [exact Ez |].
  assert (Hs : forall s m k z, k <= Nat.max ka kb ->
            cond_Zopp s (Zpos m) = (z * 2 ^ Z.of_nat k)%Z ->
            cond_Zopp s (Zpos (fst (shl_align m (- Z.of_nat k) ez)))
            = (z * 2 ^ Z.of_nat (Nat.max ka kb))%Z).
  { intros s m k z Hk E. rewrite shl_align_value by lia.
    replace (- Z.of_nat k - ez)%Z with (Z.of_nat (Nat.max ka kb - k)) by lia.
    replace (Z.of_nat (Nat.max ka kb))
      with (Z.of_nat k + Z.of_nat (Nat.max ka kb - k))%Z by lia.
    rewrite Z.pow_add_r by lia.
    destruct s; cbn [cond_Zopp] in *.
    - rewrite Z.mul_assoc, <- E. lia.
    - rewrite Z.mul_assoc, <- E. reflexivity. }
  rewrite (Hs sa ma ka a), (Hs sb mb kb b) by (assumption || lia).
  apply Hop.
Qed.

Lemma SFadd_int (a b : Z) :
  (Z.abs a < 2 ^ 53)%Z -> (Z.abs b < 2 ^ 53)%Z -> (Z.abs (a + b) < 2 ^ 53)%Z ->
  SFadd prec emax (SFint a) (SFint b) = SFint (a + b).
Proof.
  intros Ha Hb Hab.
  destruct (Z.eq_dec a 0) as [-> | Hna].
  { destruct b; reflexivity. }
  destruct (Z.eq_dec b 0) as [-> | Hnb].
  { rewrite Z.add_0_r. destruct a; reflexivity. }
  destruct (SFint_finite a Hna Ha) as (sa & ma & ka & Ea & Hka & Va).
  destruct (SFint_finite b Hnb Hb) as (sb & mb & kb & Eb & Hkb & Vb).
  rewrite Ea, Eb. cbn [SFadd].
  destruct (aligned_sum Z.add a b sa sb ma mb ka kb) as (Ez & Es);
    [intros; lia | exact Va | exact Vb |].
  cbv zeta in Ez, Es. rewrite Es, Ez.
  apply binary_normalize_exact. exact Hab.
Qed.

Lemma SFsub_int (a b : Z) :
  (Z.abs a < 2 ^ 53)%Z -> (Z.abs b < 2 ^ 53)%Z -> (Z.abs (a - b) < 2 ^ 53)%Z ->
  SFsub prec emax (SFint a) (SFint b) = SFint (a - b).
Proof.
  intros Ha Hb Hab.
  destruct (Z.eq_dec b 0) as [-> | Hnb].
  { rewrite Z.sub_0_r. destruct a; reflexivity. }
  destruct (Z.eq_dec a 0) as [-> | Hna].
  { destruct b; try congruence; reflexivity. }
  destruct (SFint_finite a Hna Ha) as (sa & ma & ka & Ea & Hka & Va).
  destruct (SFint_finite b Hnb Hb) as (sb & mb & kb & Eb & Hkb & Vb).
  rewrite Ea, Eb. cbn [SFsub].
  destruct (aligned_sum Z.sub a b sa sb ma mb ka kb) as (Ez & Es);
    [intros; lia | exact Va | exact Vb |].
  cbv zeta in Ez, Es. rewrite Es, Ez.
  apply binary_normalize_exact. exact Hab.
Qed.

Lemma SFint_ltz (a : Z) :
  SFltb (SFint a) (S754_zero false) = (a <? 0)%Z.
Proof. destruct a; reflexivity. Qed.

Lemma SFint_eqz (a : Z) :
  SFeqb (SFint a) (S754_zero false) = (a =? 0)%Z.
Proof. destruct a; reflexivity. Qed.

Lemma SFint_eq_self (a : Z) : SFeqb (SFint a) (SFint a) = true.
Proof.
  destruct a as [| p | p]; [reflexivity | |]; unfold SFeqb; cbn [SFint SFcompare];
    rewrite Z.compare_refl, Pos.compare_cont_refl; reflexivity.
Qed.

(** Sums and differences of integers are exact while they stay below
    [2^53] in size. *)
Lemma num_add (a b : Z) :
  (Z.abs a < 2 ^ 53)%Z -> (Z.abs b < 2 ^ 53)%Z -> (Z.abs (a + b) < 2 ^ 53)%Z ->
  (num a + num b)%float = num (a + b).
Proof.
  intros Ha Hb Hab. apply Prim2SF_inj.
  rewrite FloatAxioms.add_spec, !num_spec by assumption. apply SFadd_int; assumption.
Qed.

Lemma num_sub (a b : Z) :
  (Z.abs a < 2 ^ 53)%Z -> (Z.abs b < 2 ^ 53)%Z -> (Z.abs (a - b) < 2 ^ 53)%Z ->
  (num a - num b)%float = num (a - b).
Proof.
  intros Ha Hb Hab. apply Prim2SF_inj.
  rewrite FloatAxioms.sub_spec, !num_spec by assumption. apply SFsub_int; assumption.
Qed.

Lemma num_ltz (a : Z) :
  (Z.abs a < 2 ^ 53)%Z -> (num a <? 0)%float = (a <? 0)%Z.
Proof.
  intros Ha. rewrite FloatAxioms.ltb_spec, num_spec by assumption. apply SFint_ltz.
Qed.

Lemma num_eqz (a : Z) :
  (Z.abs a < 2 ^ 53)%Z -> (num a =? 0)%float = (a =? 0)%Z.
Proof.
  intros Ha. rewrite FloatAxioms.eqb_spec, num_spec by assumption. apply SFint_eqz.
Qed.

Lemma num_is_nan (a : Z) :
  (Z.abs a < 2 ^ 53)%Z -> PrimFloat.is_nan (num a) = false.
Proof.
  intros Ha. unfold PrimFloat.is_nan.
  rewrite FloatAxioms.eqb_spec, num_spec by assumption. rewrite SFint_eq_self. reflexivity.
Qed.

Lemma num_is_zero (a : Z) :
  (Z.abs a < 2 ^ 53)%Z -> PrimFloat.is_zero (num a) = (a =? 0)%Z.
Proof. intros Ha. unfold PrimFloat.is_zero. apply num_eqz. exact Ha. Qed.


(* ================================================================== *)
(** * The queue of the greedy sort, on binary64 weights

    The lemmas on the queue, the removal of a node and the loops do not look
    at a weight; they are those of the integer reading, on the state of
    [FAS64]. *)

(** [q.push(d)]: a fresh id, live, in the three views. *)
Lemma q_push_spec64 (mq : FAS64.queue) (d : FAS64.Data) :
  let r := FAS64.q_push mq d in
  fst r = {| MultiQueue.id := MultiQueue.nextId mq; MultiQueue.data := d |} /\
  MultiQueue.live (snd r) = set_add (MultiQueue.live mq) (MultiQueue.nextId mq) /\
  MultiQueue.nextId (snd r) = S (MultiQueue.nextId mq) /\
  forall k, Permutation (MultiQueue.qs (snd r) k) (fst r :: MultiQueue.qs mq k).
Proof.
  unfold FAS64.q_push.
  destruct (push_live FAS.views FAS64.view_cmp mq d tt) as (Hi & Hl & Hn).
  cbv zeta in *. repeat split; auto.
  intros k. apply (push_views FAS.views FAS64.view_cmp mq d tt k views_NoDup
                     (views_all k)).
Qed.

Section Queued64.
Implicit Types (present : list string)
  (nodeMap : jsmap string (MultiQueue.Item FAS64.Data)) (q : FAS64.queue).

Lemma queued_perm64 present present' nodeMap q :
  Permutation present present' ->
  queued64 present nodeMap q -> queued64 present' nodeMap q.
Proof.
  intros P Q.
  assert (Hin : forall n, In n present' <-> In n present).
  { intros n. split; apply Permutation_in; [symmetry |]; exact P. }
  constructor.
  - apply (Permutation_NoDup P). apply (qd_nodup64 _ _ _ Q).
  - intros n Hn. apply (qd_item64 _ _ _ Q). apply Hin. exact Hn.
  - intros i Hi. destruct (qd_live64 _ _ _ Q i Hi) as (n & it & Hn & E & Ei).
    exists n, it. split; [apply Hin; exact Hn | auto].
  - intros n n' it it' Hn Hn'. apply (qd_inj64 _ _ _ Q); apply Hin; assumption.
  - apply (qd_live_nodup64 _ _ _ Q).
  - apply (qd_fresh64 _ _ _ Q).
  - intros k n it Hn. apply (qd_views64 _ _ _ Q). apply Hin. exact Hn.
  - apply (qd_ids64 _ _ _ Q).
  - intros k it Hi Hl. destruct (qd_current64 _ _ _ Q k it Hi Hl) as (n & Hn & E).
    exists n. split; [apply Hin; exact Hn | exact E].
Qed.

(** The live ids are as many as the nodes present. *)
Lemma queued_length64 present nodeMap q :
  queued64 present nodeMap q ->
  MultiQueue.length q = List.length present.
Proof.
  intros Q. unfold MultiQueue.length.
  rewrite <- (length_map (id_of64 nodeMap) present).
  apply Permutation_length. apply NoDup_Permutation.
  - apply (qd_live_nodup64 _ _ _ Q).
  - pose proof (qd_nodup64 _ _ _ Q) as Hn.
    assert (Hinj : forall n n', In n present -> In n' present ->
              id_of64 nodeMap n = id_of64 nodeMap n' -> n = n').
    { intros n n' Hn1 Hn2 E. unfold id_of64 in E.
      destruct (qd_item64 _ _ _ Q n Hn1) as (it & E1 & _).
      destruct (qd_item64 _ _ _ Q n' Hn2) as (it' & E2 & _).
      rewrite E1, E2 in E. apply (qd_inj64 _ _ _ Q n n' it it'); assumption. }
    clear Q. induction present as [| a l IH]; simpl; [constructor |].
    inversion Hn as [| ? ? Ha Hl]; subst. constructor.
    + intros Hin. apply in_map_iff in Hin. destruct Hin as (b & E & Hb).
      assert (b = a) by (apply Hinj; simpl; auto). subst b. contradiction.
    + apply IH; [exact Hl |]. intros n n' H1 H2. apply Hinj; simpl; auto.
  - intros i. rewrite in_map_iff. split.
    + intros Hi. destruct (qd_live64 _ _ _ Q i Hi) as (n & it & Hn & E & Ei).
      exists n. split; [| exact Hn]. unfold id_of64. now rewrite E.
    + intros (n & E & Hn). destruct (qd_item64 _ _ _ Q n Hn) as (it & E1 & _ & Hl).
      unfold id_of64 in E. rewrite E1 in E. now subst i.
Qed.

(** A node enters with a fresh wrapper. *)
Lemma queued_add64 present nodeMap q q' (n : string)
  (it : MultiQueue.Item FAS64.Data) :
  queued64 present nodeMap q -> ~ In n present ->
  FAS64.u (MultiQueue.data it) = n ->
  MultiQueue.id it = MultiQueue.nextId q ->
  MultiQueue.live q' = set_add (MultiQueue.live q) (MultiQueue.nextId q) ->
  MultiQueue.nextId q' = S (MultiQueue.nextId q) ->
  (forall k, Permutation (MultiQueue.qs q' k) (it :: MultiQueue.qs q k)) ->
  queued64 (present ++ [n]) (map_set nodeMap n it) q'.
Proof.
  intros Q Hn Hu Hid Hl Hnext Hq.
  assert (Hfresh : ~ In (MultiQueue.nextId q) (MultiQueue.live q)).
  { intros Hin. apply (qd_fresh64 _ _ _ Q) in Hin. lia. }
  assert (Hold : forall n0, In n0 present -> n0 <> n) by (intros n0 H0 ->; auto).
  assert (Hqin : forall k x, In x (MultiQueue.qs q' k) <->
                             x = it \/ In x (MultiQueue.qs q k)).
  { intros k x. split.
    - intros Hx. apply (Permutation_in x (Hq k)) in Hx. destruct Hx; auto.
    - intros Hx. apply (Permutation_in x (Permutation_sym (Hq k))).
      destruct Hx; [left | right]; auto. }
  constructor.
  - apply NoDup_app; [apply (qd_nodup64 _ _ _ Q) | repeat constructor; simpl; tauto |].
    intros a Ha [<- | []]. contradiction.
  - intros n0 H0. apply in_app_iff in H0. destruct H0 as [H0 | [<- | []]].
    + destruct (qd_item64 _ _ _ Q n0 H0) as (it0 & E0 & U0 & L0).
      exists it0. rewrite map_get_set_other by (apply Hold; exact H0).
      split; [exact E0 |]. split; [exact U0 |].
      rewrite Hl. apply set_add_In. auto.
    + exists it. rewrite map_get_set_same. split; [reflexivity |].
      split; [exact Hu |]. rewrite Hl, Hid. apply set_add_In. auto.
  - intros i Hi. rewrite Hl in Hi. apply set_add_In in Hi.
    destruct Hi as [-> | Hi].
    + exists n, it. rewrite map_get_set_same, in_app_iff. simpl. auto.
    + destruct (qd_live64 _ _ _ Q i Hi) as (n0 & it0 & H0 & E0 & Ei).
      exists n0, it0. rewrite in_app_iff.
      rewrite map_get_set_other by (apply Hold; exact H0). auto.
  - intros a b ia ib Ha Hb Ea Eb Eid.
    apply in_app_iff in Ha, Hb.
    assert (Hlt : forall c ic, In c present -> map_get nodeMap c = Some ic ->
                    MultiQueue.id ic < MultiQueue.nextId q).
    { intros c ic Hc Ec. destruct (qd_item64 _ _ _ Q c Hc) as (ic' & Ec' & _ & Lc).
      assert (ic' = ic) by congruence. subst. apply (qd_fresh64 _ _ _ Q). exact Lc. }
    destruct Ha as [Ha | [<- | []]], Hb as [Hb | [<- | []]]; auto.
    + rewrite map_get_set_other in Ea, Eb by (apply Hold; assumption).
      apply (qd_inj64 _ _ _ Q a b ia ib); assumption.
    + rewrite map_get_set_other in Ea by (apply Hold; assumption).
      rewrite map_get_set_same in Eb. injection Eb as <-.
      pose proof (Hlt a ia Ha Ea). lia.
    + rewrite map_get_set_other in Eb by (apply Hold; assumption).
      rewrite map_get_set_same in Ea. injection Ea as <-.
      pose proof (Hlt b ib Hb Eb). lia.
  - rewrite Hl. apply set_add_NoDup. apply (qd_live_nodup64 _ _ _ Q).
  - intros i Hi. rewrite Hl in Hi. rewrite Hnext. apply set_add_In in Hi.
    destruct Hi as [-> | Hi]; [lia |]. apply (qd_fresh64 _ _ _ Q) in Hi. lia.
  - intros k n0 it0 H0 E0. apply Hqin. apply in_app_iff in H0.
    destruct H0 as [H0 | [<- | []]].
    + rewrite map_get_set_other in E0 by (apply Hold; exact H0).
      right. apply (qd_views64 _ _ _ Q k n0 it0 H0 E0).
    + rewrite map_get_set_same in E0. left. congruence.
  - intros k x Hx. rewrite Hnext. apply Hqin in Hx. destruct Hx as [-> | Hx].
    + lia.
    + apply (qd_ids64 _ _ _ Q) in Hx. lia.
  - intros k x Hx Hlx. apply Hqin in Hx. destruct Hx as [-> | Hx].
    + exists n. rewrite map_get_set_same, in_app_iff. simpl. auto.
    + pose proof (qd_ids64 _ _ _ Q k x Hx) as Hlt.
      rewrite Hl in Hlx. apply set_add_In in Hlx.
      destruct Hlx as [E | Hlx]; [lia |].
      destruct (qd_current64 _ _ _ Q k x Hx Hlx) as (n0 & H0 & E0).
      exists n0. rewrite in_app_iff.
      rewrite map_get_set_other by (apply Hold; exact H0). auto.
Qed.

(** A node leaves: its id is taken out of the live set, the views may lose
    wrappers that are dead by then. *)
Lemma queued_remove64 present nodeMap q q' (n : string)
  (it : MultiQueue.Item FAS64.Data) :
  queued64 present nodeMap q -> In n present -> map_get nodeMap n = Some it ->
  MultiQueue.live q' = set_delete (MultiQueue.live q) (MultiQueue.id it) ->
  MultiQueue.nextId q' = MultiQueue.nextId q ->
  (forall k x, In x (MultiQueue.qs q' k) -> In x (MultiQueue.qs q k)) ->
  (forall k x, In x (MultiQueue.qs q k) ->
               In (MultiQueue.id x) (MultiQueue.live q') ->
               In x (MultiQueue.qs q' k)) ->
  queued64 (set_delete present n) nodeMap q'.
Proof.
  intros Q Hn En Hl Hnext Hsub Hkeep.
  pose proof (qd_nodup64 _ _ _ Q) as Hnd.
  pose proof (qd_live_nodup64 _ _ _ Q) as Hlnd.
  assert (Hin : forall a, In a (set_delete present n) <-> In a present /\ a <> n)
    by (intros a; apply set_delete_In; exact Hnd).
  assert (Hlin : forall i, In i (MultiQueue.live q') <->
                   In i (MultiQueue.live q) /\ i <> MultiQueue.id it).
  { intros i. rewrite Hl. apply set_delete_In. exact Hlnd. }
  constructor.
  - apply set_delete_NoDup. exact Hnd.
  - intros a Ha. apply Hin in Ha. destruct Ha as [Ha Hne].
    destruct (qd_item64 _ _ _ Q a Ha) as (ia & Ea & Ua & La).
    exists ia. split; [exact Ea |]. split; [exact Ua |].
    apply Hlin. split; [exact La |]. intros Eid. apply Hne.
    apply (qd_inj64 _ _ _ Q a n ia it); assumption.
  - intros i Hi. apply Hlin in Hi. destruct Hi as [Hi Hne].
    destruct (qd_live64 _ _ _ Q i Hi) as (a & ia & Ha & Ea & Ei).
    exists a, ia. split; [| auto]. apply Hin. split; [exact Ha |].
    intros ->. congruence.
  - intros a b ia ib Ha Hb. apply Hin in Ha, Hb.
    apply (qd_inj64 _ _ _ Q); tauto.
  - rewrite Hl. apply set_delete_NoDup. exact Hlnd.
  - intros i Hi. apply Hlin in Hi. rewrite Hnext. apply (qd_fresh64 _ _ _ Q). tauto.
  - intros k a ia Ha Ea. apply Hin in Ha. destruct Ha as [Ha Hne].
    apply Hkeep; [apply (qd_views64 _ _ _ Q k a ia Ha Ea) |].
    destruct (qd_item64 _ _ _ Q a Ha) as (ia' & Ea' & _ & La).
    assert (ia' = ia) by congruence. subst ia'.
    apply Hlin. split; [exact La |]. intros Eid. apply Hne.
    apply (qd_inj64 _ _ _ Q a n ia it); assumption.
  - intros k x Hx. rewrite Hnext. apply (qd_ids64 _ _ _ Q k). apply Hsub. exact Hx.
  - intros k x Hx Hlx. apply Hlin in Hlx. destruct Hlx as [Hlx Hne].
    destruct (qd_current64 _ _ _ Q k x (Hsub k x Hx) Hlx) as (a & Ha & Ea).
    exists a. split; [| exact Ea]. apply Hin. split; [exact Ha |].
    intros ->. congruence.
Qed.

(** The views may lose dead wrappers at any time. *)
Lemma queued_shrink64 present nodeMap q q' :
  queued64 present nodeMap q ->
  MultiQueue.live q' = MultiQueue.live q ->
  MultiQueue.nextId q' = MultiQueue.nextId q ->
  (forall k x, In x (MultiQueue.qs q' k) -> In x (MultiQueue.qs q k)) ->
  (forall k x, In x (MultiQueue.qs q k) ->
               In (MultiQueue.id x) (MultiQueue.live q) ->
               In x (MultiQueue.qs q' k)) ->
  queued64 present nodeMap q'.
Proof.
  intros Q Hl Hnext Hsub Hkeep. constructor.
  - apply (qd_nodup64 _ _ _ Q).
  - intros n Hn. rewrite Hl. apply (qd_item64 _ _ _ Q n Hn).
  - intros i Hi. rewrite Hl in Hi. apply (qd_live64 _ _ _ Q i Hi).
  - apply (qd_inj64 _ _ _ Q).
  - rewrite Hl. apply (qd_live_nodup64 _ _ _ Q).
  - intros i Hi. rewrite Hl in Hi. rewrite Hnext. apply (qd_fresh64 _ _ _ Q i Hi).
  - intros k n it Hn En. apply Hkeep; [apply (qd_views64 _ _ _ Q k n it Hn En) |].
    destruct (qd_item64 _ _ _ Q n Hn) as (it' & E' & _ & L). congruence.
  - intros k x Hx. rewrite Hnext. apply (qd_ids64 _ _ _ Q k), Hsub, Hx.
  - intros k x Hx Hlx. rewrite Hl in Hlx.
    apply (qd_current64 _ _ _ Q k x (Hsub k x Hx) Hlx).
Qed.

(** An entry of [nodeMap] for a node that is gone does not matter. *)
Lemma queued_forget64 present nodeMap q (n : string) :
  queued64 present nodeMap q -> ~ In n present ->
  queued64 present (map_delete nodeMap n) q.
Proof.
  intros Q Hn.
  assert (Hget : forall a, In a present ->
            map_get (map_delete nodeMap n) a = map_get nodeMap a).
  { intros a Ha. apply map_get_delete_other. intros ->. contradiction. }
  constructor.
  - apply (qd_nodup64 _ _ _ Q).
  - intros a Ha. rewrite (Hget a Ha). apply (qd_item64 _ _ _ Q a Ha).
  - intros i Hi. destruct (qd_live64 _ _ _ Q i Hi) as (a & ia & Ha & Ea & Ei).
    exists a, ia. rewrite (Hget a Ha). auto.
  - intros a b ia ib Ha Hb. rewrite (Hget a Ha), (Hget b Hb).
    apply (qd_inj64 _ _ _ Q); assumption.
  - apply (qd_live_nodup64 _ _ _ Q).
  - apply (qd_fresh64 _ _ _ Q).
  - intros k a ia Ha. rewrite (Hget a Ha). apply (qd_views64 _ _ _ Q k a ia Ha).
  - apply (qd_ids64 _ _ _ Q).
  - intros k x Hx Hlx. destruct (qd_current64 _ _ _ Q k x Hx Hlx) as (a & Ha & Ea).
    exists a. rewrite (Hget a Ha). auto.
Qed.
End Queued64.

(* ================================================================== *)
(** * Removing a node *)

(** Taking a neighbour out of the queue and pushing it again with an
    adjusted weight keeps the queue in shape. *)
Lemma resubmit_queued64 (present : list string) (adjust : FAS64.Data -> float -> FAS64.Data)
  (vw : string * float) (nodeMap : jsmap string (MultiQueue.Item FAS64.Data))
  (mq : FAS64.queue) :
  (forall d w, FAS64.u (adjust d w) = FAS64.u d) ->
  queued64 present nodeMap mq ->
  exists nodeMap' mq',
    FAS64.resubmit present adjust vw (nodeMap, mq) = Ret (nodeMap', mq') /\
    queued64 present nodeMap' mq'.
Proof.
  intros Hadj Q. unfold FAS64.resubmit. cbn [fst snd].
  destruct (set_has present (fst vw)) eqn:Ev; cbn [negb]; [| eauto].
  apply set_has_In in Ev.
  destruct (qd_item64 _ _ _ Q (fst vw) Ev) as (old & Eo & Uo & Lo).
  rewrite Eo.
  set (mq1 := MultiQueue.delete (MultiQueue.id old) mq).
  set (d := adjust (MultiQueue.data old) (snd vw)).
  destruct (q_push_spec64 mq1 d) as (Hi & Hl & Hn & Hq). cbv zeta in *.
  destruct (FAS64.q_push mq1 d) as [it mq2]. cbn [fst snd] in *.
  eexists _, _. split; [reflexivity |].
  assert (Q1 : queued64 (set_delete present (fst vw)) nodeMap mq1).
  { apply (queued_remove64 present nodeMap mq mq1 (fst vw) old Q Ev Eo);
      subst mq1; simpl; auto. }
  apply (queued_perm64 (set_delete present (fst vw) ++ [fst vw])).
  - apply set_delete_perm. exact Ev.
  - apply (queued_add64 _ nodeMap mq1 mq2 (fst vw) it Q1).
    + apply set_delete_not_in. apply (qd_nodup64 _ _ _ Q).
    + rewrite Hi. simpl. subst d. rewrite Hadj. exact Uo.
    + rewrite Hi. reflexivity.
    + exact Hl.
    + exact Hn.
    + exact Hq.
Qed.

Lemma resubmit_all_queued64 (present : list string)
  (adjust : FAS64.Data -> float -> FAS64.Data) (vws : list (string * float))
  (nodeMap : jsmap string (MultiQueue.Item FAS64.Data)) (mq : FAS64.queue) :
  (forall d w, FAS64.u (adjust d w) = FAS64.u d) ->
  queued64 present nodeMap mq ->
  exists nodeMap' mq',
    for_each vws (FAS64.resubmit present adjust) (nodeMap, mq)
    = Ret (nodeMap', mq') /\
    queued64 present nodeMap' mq'.
Proof.
  intros Hadj. revert nodeMap mq.
  induction vws as [| vw vws IH]; intros nodeMap mq Q; simpl; [eauto |].
  destruct (resubmit_queued64 present adjust vw nodeMap mq Hadj Q)
    as (nm1 & mq1 & E1 & Q1).
  rewrite E1. simpl. apply IH. exact Q1.
Qed.

(** [removeNode] of a node whose wrapper has just been popped. *)
Lemma removeNode_ok64 (node : string) (st : FAS64.state) :
  NoDup (FAS64.nodes st) -> In node (FAS64.nodes st) ->
  queued64 (set_delete (FAS64.nodes st) node) (FAS64.nodeMap st) (FAS64.q st) ->
  (forall n, In n (FAS64.nodes st) -> map_get (FAS64.outAdj st) n <> None) ->
  (forall n, In n (FAS64.nodes st) -> map_get (FAS64.inAdj st) n <> None) ->
  exists st',
    FAS64.removeNode node st = Ret st' /\
    fas_state_ok64 st' /\
    FAS64.nodes st' = set_delete (FAS64.nodes st) node.
Proof.
  intros Hnd Hin Q Hout Hinn. unfold FAS64.removeNode.
  destruct (map_get (FAS64.outAdj st) node) as [outs |] eqn:Eo;
    [| exfalso; exact (Hout node Hin Eo)].
  destruct (resubmit_all_queued64 (set_delete (FAS64.nodes st) node) FAS64.less_in
              outs (FAS64.nodeMap st) (FAS64.q st) ltac:(reflexivity) Q)
    as (nm1 & mq1 & E1 & Q1).
  rewrite E1. cbn [bind].
  destruct (map_get (FAS64.inAdj st) node) as [ins |] eqn:Ei;
    [| exfalso; exact (Hinn node Hin Ei)].
  destruct (resubmit_all_queued64 (set_delete (FAS64.nodes st) node) FAS64.less_out
              ins nm1 mq1 ltac:(reflexivity) Q1)
    as (nm2 & mq2 & E2 & Q2).
  rewrite E2. cbn [bind fst snd].
  eexists. split; [reflexivity |]. split; [| reflexivity].
  assert (Hother : forall n, In n (set_delete (FAS64.nodes st) node) ->
            In n (FAS64.nodes st) /\ n <> node)
    by (intros n Hn; apply set_delete_In in Hn; assumption).
  constructor; cbn [FAS64.nodes FAS64.nodeMap FAS64.q FAS64.outAdj FAS64.inAdj].
  - apply queued_forget64; [exact Q2 |]. apply set_delete_not_in. exact Hnd.
  - intros n Hn. destruct (Hother n Hn) as [Hn' Hne].
    rewrite map_get_delete_other by exact Hne. apply Hout. exact Hn'.
  - intros n Hn. destruct (Hother n Hn) as [Hn' Hne].
    rewrite map_get_delete_other by exact Hne. apply Hinn. exact Hn'.
Qed.

(* ================================================================== *)
(** * Taking nodes out of the queue *)

Lemma q_pop_spec64 (key : FAS.view) (mq : FAS64.queue) :
  exists r mq',
    FAS64.q_pop key mq = Ret (option_map (@MultiQueue.data FAS64.Data) r, mq') /\
    match r with
    | Some it => popped_from64 mq key it mq'
    | None =>
        MultiQueue.nextId mq' = MultiQueue.nextId mq /\
        MultiQueue.live mq' = MultiQueue.live mq /\
        (forall k, k <> key -> MultiQueue.qs mq' k = MultiQueue.qs mq k) /\
        (forall x, In x (MultiQueue.qs mq' key) -> In x (MultiQueue.qs mq key)) /\
        (forall x, In x (MultiQueue.qs mq key) ->
                   ~ In (MultiQueue.id x) (MultiQueue.live mq))
    end.
Proof.
  unfold FAS64.q_pop, MultiQueue.pop, MultiQueue.pop_item.
  destruct (pop_loop_views FAS64.view_cmp
              (S (List.length (MultiQueue.qs mq key))) key mq tt)
    as (r & mq' & s' & E & Hn & Ho & Hs & Hr); [lia |].
  rewrite E. cbn [bind fst snd]. exists r, mq'. split; [reflexivity |].
  destruct r as [it |].
  - destruct Hr as (Hin & Hl & Hlive & Hkeep).
    unfold popped_from64. repeat split; auto.
  - destruct Hr as (Hlive & Hdead). repeat split; auto.
Qed.

Lemma q_pop_root64 (key : FAS.view) (mq : FAS64.queue)
  (it : MultiQueue.Item FAS64.Data) :
  hd_error (MultiQueue.qs mq key) = Some it ->
  In (MultiQueue.id it) (MultiQueue.live mq) ->
  exists mq',
    FAS64.q_pop key mq = Ret (Some (MultiQueue.data it), mq') /\
    popped_from64 mq key it mq' /\
    MultiQueue.qs mq' key
    = snd (fst (PriorityQueue.pop (MultiQueue.item_cmp FAS64.view_cmp key)
                  (MultiQueue.qs mq key) tt)).
Proof.
  intros Hhd Hl. unfold FAS64.q_pop, MultiQueue.pop.
  destruct (pop_at_root FAS64.view_cmp key mq tt it Hhd Hl)
    as (mq' & s' & E & Hn & Hlive & Ho & P & Eq).
  rewrite E. cbn [bind fst snd option_map]. exists mq'.
  split; [reflexivity |]. split; [| exact Eq].
  unfold popped_from64. split; [exact Hn |]. split; [exact Hlive |].
  split; [apply (Permutation_in it P); simpl; auto |].
  split; [exact Hl |]. split; [exact Ho |]. split.
  - intros x Hx. apply (Permutation_in x P). simpl. auto.
  - intros x Hx _. apply (Permutation_in x (Permutation_sym P)) in Hx.
    destruct Hx; auto.
Qed.

Lemma q_peek_spec64 (key : FAS.view) (mq : FAS64.queue) :
  exists r mq',
    FAS64.q_peek key mq = Ret (option_map (@MultiQueue.data FAS64.Data) r, mq') /\
    MultiQueue.nextId mq' = MultiQueue.nextId mq /\
    MultiQueue.live mq' = MultiQueue.live mq /\
    (forall k, k <> key -> MultiQueue.qs mq' k = MultiQueue.qs mq k) /\
    (forall x, In x (MultiQueue.qs mq' key) -> In x (MultiQueue.qs mq key)) /\
    (forall x, In x (MultiQueue.qs mq key) ->
               In (MultiQueue.id x) (MultiQueue.live mq) ->
               In x (MultiQueue.qs mq' key)) /\
    match r with
    | Some it =>
        hd_error (MultiQueue.qs mq' key) = Some it /\
        In (MultiQueue.id it) (MultiQueue.live mq)
    | None =>
        forall x, In x (MultiQueue.qs mq key) ->
                  ~ In (MultiQueue.id x) (MultiQueue.live mq)
    end.
Proof.
  unfold FAS64.q_peek, MultiQueue.peek, MultiQueue.peek_item.
  destruct (peek_loop_views FAS64.view_cmp
              (S (List.length (MultiQueue.qs mq key))) key mq tt)
    as (r & mq' & s' & E & Hn & Hl & Ho & Hs & Hk & Hr); [lia |].
  rewrite E. cbn [bind fst snd]. exists r, mq'. repeat split; auto.
Qed.

(** The views of a queue in shape hold a live wrapper while a node is
    present. *)
Lemma queued_not_all_dead64 (present : list string)
  (nodeMap : jsmap string (MultiQueue.Item FAS64.Data)) (mq : FAS64.queue)
  (key : FAS.view) :
  queued64 present nodeMap mq -> present <> [] ->
  ~ (forall x, In x (MultiQueue.qs mq key) ->
               ~ In (MultiQueue.id x) (MultiQueue.live mq)).
Proof.
  intros Q Hne Hdead. destruct present as [| n rest]; [congruence |].
  destruct (qd_item64 _ _ _ Q n (or_introl eq_refl)) as (it & E & _ & L).
  apply (Hdead it); [| exact L].
  apply (qd_views64 _ _ _ Q key n it); simpl; auto.
Qed.

(** The node of a wrapper that was popped leaves the queue. *)
Lemma popped_queued64 (present : list string)
  (nodeMap : jsmap string (MultiQueue.Item FAS64.Data)) (mq mq' : FAS64.queue)
  (key : FAS.view) (it : MultiQueue.Item FAS64.Data) :
  queued64 present nodeMap mq -> popped_from64 mq key it mq' ->
  In (FAS64.u (MultiQueue.data it)) present /\
  map_get nodeMap (FAS64.u (MultiQueue.data it)) = Some it /\
  queued64 (set_delete present (FAS64.u (MultiQueue.data it))) nodeMap mq'.
Proof.
  intros Q (Hn & Hlive & Hin & Hl & Ho & Hs & Hk).
  destruct (qd_current64 _ _ _ Q key it Hin Hl) as (n & Hp & E).
  destruct (qd_item64 _ _ _ Q n Hp) as (it' & E' & U & _).
  assert (it' = it) by congruence. subst it'. rewrite U.
  split; [exact Hp |]. split; [exact E |].
  assert (Hnot : ~ In (MultiQueue.id it) (MultiQueue.live mq')).
  { rewrite Hlive. apply set_delete_not_in. apply (qd_live_nodup64 _ _ _ Q). }
  apply (queued_remove64 present nodeMap mq mq' n it Q Hp E Hlive Hn).
  - intros k x Hx. destruct (eq_dec k key) as [-> | Hne].
    + apply Hs. exact Hx.
    + rewrite <- (Ho k Hne). exact Hx.
  - intros k x Hx Hlx. destruct (eq_dec k key) as [-> | Hne].
    + assert (Hlx' : In (MultiQueue.id x) (MultiQueue.live mq)).
      { rewrite Hlive in Hlx. apply set_delete_incl in Hlx. exact Hlx. }
      destruct (Hk x Hx Hlx') as [-> | Hx']; [contradiction | exact Hx'].
    + rewrite (Ho k Hne). exact Hx.
Qed.

(* ================================================================== *)
(** * Filling the result array *)

Lemma place_ok64 (all : list string) (c : FAS64.cursor) (L Rt : list string)
  (x : string) (st' : FAS64.state) (at_right : bool) :
  cursor_ok64 all c L Rt -> In x (FAS64.nodes (FAS64.st c)) ->
  fas_state_ok64 st' -> FAS64.nodes st' = set_delete (FAS64.nodes (FAS64.st c)) x ->
  cursor_ok64 all (FAS64.place at_right x c st')
    (if at_right then L else L ++ [x]) (if at_right then x :: Rt else Rt).
Proof.
  intros C Hx Hst Hnodes.
  pose proof (set_delete_length (FAS64.nodes (FAS64.st c)) x Hx) as Hlen.
  rewrite <- Hnodes in Hlen.
  pose proof (set_delete_perm (FAS64.nodes (FAS64.st c)) x Hx) as P.
  rewrite <- Hnodes in P.
  destruct at_right; constructor; cbn [FAS64.place FAS64.st FAS64.order FAS64.left
    FAS64.right].
  - exact Hst.
  - rewrite (co_order64 _ _ _ _ C), (co_right64 _ _ _ _ C), <- Hlen.
    apply order_set_right.
  - apply (co_left64 _ _ _ _ C).
  - rewrite (co_right64 _ _ _ _ C), <- Hlen. lia.
  - rewrite <- (co_all64 _ _ _ _ C). apply Permutation_app_head.
    rewrite <- P, <- app_assoc. reflexivity.
  - exact Hst.
  - rewrite (co_order64 _ _ _ _ C), (co_left64 _ _ _ _ C), <- Hlen.
    apply order_set_left.
  - rewrite (co_left64 _ _ _ _ C), length_app. simpl. lia.
  - rewrite (co_right64 _ _ _ _ C), <- Hlen, length_app. simpl. lia.
  - rewrite <- (co_all64 _ _ _ _ C), <- app_assoc.
    apply Permutation_app_head. rewrite <- P, <- app_assoc.
    simpl. apply Permutation_middle.
Qed.

(* ================================================================== *)
(** * The loops *)

Lemma peeked_queued64 (key : FAS.view) (present : list string)
  (nodeMap : jsmap string (MultiQueue.Item FAS64.Data)) (mq mq' : FAS64.queue) :
  queued64 present nodeMap mq ->
  MultiQueue.nextId mq' = MultiQueue.nextId mq ->
  MultiQueue.live mq' = MultiQueue.live mq ->
  (forall k, k <> key -> MultiQueue.qs mq' k = MultiQueue.qs mq k) ->
  (forall x, In x (MultiQueue.qs mq' key) -> In x (MultiQueue.qs mq key)) ->
  (forall x, In x (MultiQueue.qs mq key) ->
             In (MultiQueue.id x) (MultiQueue.live mq) ->
             In x (MultiQueue.qs mq' key)) ->
  queued64 present nodeMap mq'.
Proof.
  intros Q Hn Hl Ho Hs Hk.
  apply (queued_shrink64 present nodeMap mq mq' Q Hl Hn).
  - intros k x Hx. destruct (eq_dec k key) as [-> | Hne]; [auto |].
    rewrite <- (Ho k Hne). exact Hx.
  - intros k x Hx Hlx. destruct (eq_dec k key) as [-> | Hne]; [auto |].
    rewrite (Ho k Hne). exact Hx.
Qed.

(** With a node present, a [peek] finds a live wrapper, the [pop] that
    follows returns it, and its node can be removed. *)
Lemma take_root64 (key : FAS.view) (st : FAS64.state) :
  fas_state_ok64 st -> FAS64.nodes st <> [] ->
  exists it mq1 mq2 st',
    FAS64.q_peek key (FAS64.q st) = Ret (Some (MultiQueue.data it), mq1) /\
    FAS64.q_pop key mq1 = Ret (Some (MultiQueue.data it), mq2) /\
    FAS64.removeNode (FAS64.u (MultiQueue.data it)) (with_q64 st mq2) = Ret st' /\
    fas_state_ok64 (with_q64 st mq1) /\
    fas_state_ok64 st' /\
    FAS64.nodes st' = set_delete (FAS64.nodes st) (FAS64.u (MultiQueue.data it)) /\
    In (FAS64.u (MultiQueue.data it)) (FAS64.nodes st) /\
    map_get (FAS64.nodeMap st) (FAS64.u (MultiQueue.data it)) = Some it /\
    hd_error (MultiQueue.qs mq1 key) = Some it /\
    MultiQueue.qs mq2 key
    = snd (fst (PriorityQueue.pop (MultiQueue.item_cmp FAS64.view_cmp key)
                  (MultiQueue.qs mq1 key) tt)).
Proof.
  intros [Q Hout Hin] Hne.
  destruct (q_peek_spec64 key (FAS64.q st))
    as (r & mq1 & E1 & Hn1 & Hl1 & Ho1 & Hs1 & Hk1 & Hr).
  assert (Q1 : queued64 (FAS64.nodes st) (FAS64.nodeMap st) mq1)
    by (apply (peeked_queued64 key _ _ _ _ Q Hn1 Hl1 Ho1 Hs1 Hk1)).
  destruct r as [it |];
    [| exfalso; exact (queued_not_all_dead64 _ _ _ key Q Hne Hr)].
  destruct Hr as (Hhd & Hlive). rewrite <- Hl1 in Hlive.
  destruct (q_pop_root64 key mq1 it Hhd Hlive) as (mq2 & E2 & Hpop & Eq2).
  destruct (popped_queued64 _ _ _ _ key it Q1 Hpop) as (Hp & Em & Q2).
  destruct (removeNode_ok64 (FAS64.u (MultiQueue.data it)) (with_q64 st mq2))
    as (st' & E3 & Hst' & Hnodes); cbn [with_q64 FAS64.nodes FAS64.nodeMap FAS64.q
      FAS64.outAdj FAS64.inAdj]; auto.
  { apply (qd_nodup64 _ _ _ Q). }
  exists it, mq1, mq2, st'. cbn [option_map] in E1.
  split; [exact E1 |]. split; [exact E2 |]. split; [exact E3 |].
  split; [constructor; assumption |]. split; [exact Hst' |].
  split; [exact Hnodes |]. split; [exact Hp |]. split; [exact Em |].
  split; [exact Hhd | exact Eq2].
Qed.

Lemma drain_ok64 (all : list string) (key : FAS.view) (weight : FAS64.Data -> float)
  (at_right : bool) (fuel : nat) (c : FAS64.cursor) (L Rt : list string) :
  cursor_ok64 all c L Rt -> List.length (FAS64.nodes (FAS64.st c)) < fuel ->
  exists c' L' Rt',
    FAS64.drain fuel key weight at_right c = Ret c' /\
    cursor_ok64 all c' L' Rt' /\
    List.length (FAS64.nodes (FAS64.st c')) <= List.length (FAS64.nodes (FAS64.st c)).
Proof.
  revert c L Rt. induction fuel as [| fuel IH]; intros c L Rt C Hf; [lia |].
  cbn [FAS64.drain].
  rewrite (queued_length64 _ _ _ (so_queued64 _ (co_state64 _ _ _ _ C))).
  destruct (Nat.eqb_spec (List.length (FAS64.nodes (FAS64.st c))) 0) as [E0 | Hne].
  { exists c, L, Rt. auto. }
  destruct (take_root64 key (FAS64.st c) (co_state64 _ _ _ _ C))
    as (it & mq1 & mq2 & st' & E1 & E2 & E3 & Hst1 & Hst' & Hnodes & Hp & _).
  { intros E. rewrite E in Hne. simpl in Hne. lia. }
  rewrite E1. cbn [bind fst snd].
  destruct (negb (weight (MultiQueue.data it) =? 0)%float).
  - eexists _, L, Rt. split; [reflexivity |]. split; [| simpl; lia].
    destruct C as [_ Co Cl Cr Ca]. constructor; assumption.
  - rewrite E2. cbn [bind fst snd]. fold (with_q64 (FAS64.st c) mq2).
    rewrite E3. cbn [bind].
    pose proof (place_ok64 all c L Rt _ st' at_right C Hp Hst' Hnodes) as C'.
    pose proof (set_delete_length (FAS64.nodes (FAS64.st c)) _ Hp) as Hlen.
    assert (Hn' : FAS64.nodes (FAS64.st (FAS64.place at_right
                     (FAS64.u (MultiQueue.data it)) c st')) = FAS64.nodes st').
    { destruct at_right; reflexivity. }
    destruct (IH _ _ _ C') as (c' & L' & Rt' & E & C'' & Hle).
    { rewrite Hn', Hnodes. lia. }
    exists c', L', Rt'. split; [exact E |]. split; [exact C'' |].
    rewrite Hn', Hnodes in Hle. lia.
Qed.

Lemma main_loop_ok64 (all : list string) (fuel : nat) (c : FAS64.cursor)
  (L Rt : list string) :
  cursor_ok64 all c L Rt -> List.length (FAS64.nodes (FAS64.st c)) < fuel ->
  exists c' L' Rt',
    FAS64.main_loop fuel c = Ret c' /\ cursor_ok64 all c' L' Rt' /\
    FAS64.nodes (FAS64.st c') = [].
Proof.
  revert c L Rt. induction fuel as [| fuel IH]; intros c L Rt C Hf; [lia |].
  cbn [FAS64.main_loop].
  destruct (Nat.eqb_spec (List.length (FAS64.nodes (FAS64.st c))) 0) as [E0 | Hne].
  { exists c, L, Rt. split; [reflexivity |]. split; [exact C |].
    apply length_zero_iff_nil. exact E0. }
  destruct (drain_ok64 all FAS.ByOutW FAS64.outW true (FAS64.drain_fuel c) c L Rt C)
    as (c1 & L1 & Rt1 & E1 & C1 & Hle1).
  { unfold FAS64.drain_fuel.
    rewrite (queued_length64 _ _ _ (so_queued64 _ (co_state64 _ _ _ _ C))). lia. }
  rewrite E1. cbn [bind].
  destruct (drain_ok64 all FAS.ByInW FAS64.inW false (FAS64.drain_fuel c1) c1 L1 Rt1 C1)
    as (c2 & L2 & Rt2 & E2 & C2 & Hle2).
  { unfold FAS64.drain_fuel.
    rewrite (queued_length64 _ _ _ (so_queued64 _ (co_state64 _ _ _ _ C1))). lia. }
  rewrite E2. cbn [bind].
  destruct (q_pop_spec64 FAS.ByScore (FAS64.q (FAS64.st c2))) as (r & mq' & E3 & Hr).
  rewrite E3. cbn [bind fst snd].
  pose proof (co_state64 _ _ _ _ C2) as [Q2 Hout2 Hin2].
  destruct r as [it |]; cbn [option_map].
  - destruct (popped_queued64 _ _ _ _ FAS.ByScore it Q2 Hr) as (Hp & Em & Q3).
    fold (with_q64 (FAS64.st c2) mq').
    destruct (removeNode_ok64 (FAS64.u (MultiQueue.data it)) (with_q64 (FAS64.st c2) mq'))
      as (st' & E4 & Hst' & Hnodes); cbn [with_q64 FAS64.nodes FAS64.nodeMap FAS64.q
        FAS64.outAdj FAS64.inAdj]; auto.
    { apply (qd_nodup64 _ _ _ Q2). }
    rewrite E4. cbn [bind].
    cbn [with_q64 FAS64.nodes] in Hnodes.
    pose proof (place_ok64 all c2 L2 Rt2 _ st' false C2 Hp Hst' Hnodes) as C'.
    pose proof (set_delete_length (FAS64.nodes (FAS64.st c2)) _ Hp) as Hlen.
    apply (IH _ _ _ C'). cbn [FAS64.place FAS64.st]. rewrite Hnodes. lia.
  - destruct Hr as (Hn & Hl & Ho & Hs & Hdead).
    assert (Hnil : FAS64.nodes (FAS64.st c2) = []).
    { destruct (FAS64.nodes (FAS64.st c2)) as [| n rest] eqn:En; [reflexivity |].
      exfalso. apply (queued_not_all_dead64 _ _ _ FAS.ByScore Q2);
        [congruence | exact Hdead]. }
    eexists _, L2, Rt2. split; [reflexivity |].
    split; [| exact Hnil].
    destruct C2 as [_ Co Cl Cr Ca]. constructor; cbn [FAS64.st FAS64.order
      FAS64.left FAS64.right FAS64.nodes FAS64.nodeMap FAS64.q]; try assumption.
    constructor; cbn [FAS64.nodes FAS64.nodeMap FAS64.q FAS64.outAdj FAS64.inAdj];
      try assumption.
    apply (peeked_queued64 FAS.ByScore _ _ _ _ Q2 Hn Hl Ho Hs).
    intros x Hx Hlx. exfalso. exact (Hdead x Hx Hlx).
Qed.

(* ================================================================== *)
(** * The set-up, on binary64 weights *)

Lemma nodes_of_fold64 (edges : list FAS64.edge) (acc : list string) :
  NoDup acc ->
  let ns := fold_left
              (fun ns (e : FAS64.edge) =>
                 set_add (set_add ns (fst (fst e))) (snd (fst e))) edges acc in
  NoDup ns /\ forall x, In x ns <-> In x acc \/ mentioned64 edges x.
Proof.
  revert acc. induction edges as [| e edges IH]; intros acc Hn; simpl.
  - split; [exact Hn |]. intros x. split; [auto |].
    intros [Hx | (e & [] & _)]. exact Hx.
  - destruct (IH (set_add (set_add acc (fst (fst e))) (snd (fst e))))
      as (Hn' & Hin); [apply set_add_NoDup, set_add_NoDup, Hn |].
    split; [exact Hn' |]. intros x. rewrite Hin, !set_add_In.
    unfold mentioned64. split.
    + intros [[-> | [-> | Hx]] | (e' & He' & Hm)]; auto.
      * right. exists e. simpl. auto.
      * right. exists e. simpl. auto.
      * right. exists e'. simpl. auto.
    + intros [Hx | (e' & [<- | He'] & Hm)]; auto.
      * destruct Hm as [<- | <-]; auto.
      * right. exists e'. auto.
Qed.

Lemma nodes_of_spec64 (edges : list FAS64.edge) :
  NoDup (FAS64.nodes_of edges) /\
  forall x, In x (FAS64.nodes_of edges) <-> mentioned64 edges x.
Proof.
  destruct (nodes_of_fold64 edges [] (NoDup_nil _)) as (Hn & Hin).
  split; [exact Hn |]. intros x. unfold FAS64.nodes_of. rewrite Hin.
  simpl. tauto.
Qed.

Lemma empty_adj_fold64 (ns : list string) (acc : FAS64.adjacency) (n : string) :
  In n ns \/ map_get acc n <> None ->
  map_get (fold_left (fun adj n => map_set adj n (@nil (string * float))) ns acc)
    n <> None.
Proof.
  revert acc. induction ns as [| n0 ns IH]; intros acc; simpl.
  - intros [[] | Hn]. exact Hn.
  - intros Hn. apply IH.
    destruct (string_dec n n0) as [-> | Hne].
    + right. rewrite map_get_set_same. discriminate.
    + rewrite map_get_set_other by exact Hne.
      destruct Hn as [[-> | Hn] | Hn]; [congruence | auto | auto].
Qed.

Lemma empty_adj_spec64 (ns : list string) (n : string) :
  In n ns -> map_get (FAS64.empty_adj ns) n <> None.
Proof. intros Hn. apply empty_adj_fold64. auto. Qed.

(** [adj.get(a)!.set(b, w)] keeps the keys of the table. *)
Lemma adj_set_keys64 (adj : FAS64.adjacency) (a b : string) (w : float) :
  map_get adj a <> None ->
  exists adj',
    FAS64.adj_set adj a b w = Ret adj' /\
    forall n, map_get adj n <> None -> map_get adj' n <> None.
Proof.
  intros Ha. unfold FAS64.adj_set.
  destruct (map_get adj a) as [m |] eqn:E; [| congruence].
  eexists. split; [reflexivity |]. intros n Hn.
  destruct (string_dec n a) as [-> | Hne].
  - rewrite map_get_set_same. discriminate.
  - rewrite map_get_set_other by exact Hne. exact Hn.
Qed.

Lemma fill_adj_spec64 (ns : list string) :
  forall rest (o i : FAS64.adjacency),
    (forall e, In e rest -> In (fst (fst e)) ns /\ In (snd (fst e)) ns) ->
    (forall n, In n ns -> map_get o n <> None) ->
    (forall n, In n ns -> map_get i n <> None) ->
    exists o' i',
      FAS64.fill_adj rest (o, i) = Ret (o', i') /\
      (forall n, In n ns -> map_get o' n <> None) /\
      (forall n, In n ns -> map_get i' n <> None).
Proof.
  unfold FAS64.fill_adj.
  induction rest as [| [[src dst] w] rest IH]; intros o i Hin Ho Hi.
  - exists o, i. auto.
  - destruct (Hin (src, dst, w) (or_introl eq_refl)) as (Hs & Hd).
    cbn [fst snd] in Hs, Hd.
    destruct (adj_set_keys64 o src dst w (Ho src Hs)) as (o1 & E1 & Ho1).
    destruct (adj_set_keys64 i dst src w (Hi dst Hd)) as (i1 & E2 & Hi1).
    cbn [for_each fst snd]. rewrite E1. cbn [bind]. rewrite E2. cbn [bind].
    apply IH.
    + intros e He. apply Hin. simpl. auto.
    + intros n Hn. apply Ho1, Ho, Hn.
    + intros n Hn. apply Hi1, Hi, Hn.
Qed.

Lemma queued_empty64 : queued64 [] [] MultiQueue.empty.
Proof.
  constructor; simpl; try (intros; contradiction); try constructor.
Qed.

Lemma init_push64 (o i : FAS64.adjacency) :
  forall rest done nm mq,
    NoDup (done ++ rest) ->
    (forall n, In n rest -> map_get o n <> None /\ map_get i n <> None) ->
    queued64 done nm mq ->
    exists nm' mq',
      for_each rest
        (fun n (nq : jsmap string (MultiQueue.Item FAS64.Data) * FAS64.queue) =>
           ow <- FAS64.total o n ;;
           iw <- FAS64.total i n ;;
           let (item, mq) := FAS64.q_push (snd nq)
                               {| FAS64.u := n; FAS64.outW := ow;
                                  FAS64.inW := iw |} in
           Ret (map_set (fst nq) n item, mq))
        (nm, mq) = Ret (nm', mq') /\
      queued64 (done ++ rest) nm' mq'.
Proof.
  induction rest as [| n rest IH]; intros done nm mq Hn Hk Q.
  - exists nm, mq. rewrite app_nil_r. simpl. auto.
  - cbn [for_each]. destruct (Hk n (or_introl eq_refl)) as (Ho & Hi).
    unfold FAS64.total at 1 2.
    destruct (map_get o n) as [outs |] eqn:Eo; [| congruence].
    destruct (map_get i n) as [ins |] eqn:Ei; [| congruence].
    cbn [bind fst snd].
    pose proof (q_push_spec64 mq
      {| FAS64.u := n;
         FAS64.outW := fold_left PrimFloat.add (map snd outs) 0%float;
         FAS64.inW := fold_left PrimFloat.add (map snd ins) 0%float |}) as Hp.
    destruct (FAS64.q_push mq _) as [item mq1]. cbv zeta in Hp.
    cbn [fst snd] in Hp. destruct Hp as (Eit & Hl & Hnx & Hperm).
    assert (Hnd : ~ In n done).
    { apply NoDup_remove_2 in Hn. intros Hd. apply Hn.
      apply in_or_app. auto. }
    assert (Q' : queued64 (done ++ [n]) (map_set nm n item) mq1).
    { apply (queued_add64 done nm mq mq1 n item Q Hnd); auto.
      - rewrite Eit. reflexivity.
      - rewrite Eit. reflexivity. }
    destruct (IH (done ++ [n]) (map_set nm n item) mq1)
      as (nm' & mq' & E & Q'').
    + rewrite <- app_assoc. exact Hn.
    + intros n' Hn'. apply Hk. simpl. auto.
    + exact Q'.
    + exists nm', mq'. rewrite <- app_assoc in Q''. auto.
Qed.

Lemma init_spec64 (edges : list FAS64.edge) :
  exists st0,
    FAS64.init edges = Ret st0 /\
    FAS64.nodes st0 = FAS64.nodes_of edges /\
    fas_state_ok64 st0.
Proof.
  unfold FAS64.init. cbv zeta.
  destruct (nodes_of_spec64 edges) as (Hnd & Hment).
  destruct (fill_adj_spec64 (FAS64.nodes_of edges) edges
              (FAS64.empty_adj (FAS64.nodes_of edges))
              (FAS64.empty_adj (FAS64.nodes_of edges)))
    as (o & i & E & Ho & Hi).
  - intros e He. split; apply Hment; exists e; auto.
  - intros n. apply empty_adj_spec64.
  - intros n. apply empty_adj_spec64.
  - destruct (init_push64 o i) with
      (rest := FAS64.nodes_of edges) (done := @nil string)
      (nm := @nil (string * MultiQueue.Item FAS64.Data))
      (mq := MultiQueue.empty (T := FAS64.Data) (PK := FAS.view))
      as (nm' & mq' & E' & Q).
    + simpl. exact Hnd.
    + intros n Hn. split; [apply Ho | apply Hi]; exact Hn.
    + exact queued_empty64.
    + simpl in Q. eexists. split.
      { rewrite E. cbn [bind fst snd].
        unfold FAS64.queue, jsmap in E' |- *. rewrite E'. reflexivity. }
      cbn [FAS64.nodes FAS64.outAdj FAS64.inAdj FAS64.nodeMap FAS64.q fst snd].
      split; [reflexivity |].
      constructor; cbn [FAS64.nodes FAS64.outAdj FAS64.inAdj FAS64.nodeMap
                          FAS64.q]; assumption.
Qed.

(** Whatever the weights, the result lists the nodes, once each. *)
Lemma fasTopoSort_nodes64 (edges : list FAS64.edge) :
  exists out,
    FAS64.fasTopoSort edges = Ret (map Some out) /\
    Permutation out (FAS64.nodes_of edges).
Proof.
  unfold FAS64.fasTopoSort.
  destruct (init_spec64 edges) as (st0 & E0 & Hnodes & Hst).
  rewrite E0. cbn [bind].
  destruct (main_loop_ok64 (FAS64.nodes_of edges)
              (S (List.length (FAS64.nodes st0)))
              {| FAS64.st := st0;
                 FAS64.order := repeat None (List.length (FAS64.nodes st0));
                 FAS64.left := 0;
                 FAS64.right := Z.of_nat (List.length (FAS64.nodes st0)) - 1 |}
              [] [])
    as (c' & L' & Rt' & E & C' & Hnil).
  - constructor; cbn [FAS64.st FAS64.order FAS64.left FAS64.right]; simpl.
    + exact Hst.
    + now rewrite app_nil_r.
    + reflexivity.
    + reflexivity.
    + rewrite app_nil_r, Hnodes. reflexivity.
  - simpl. lia.
  - rewrite E. cbn [bind]. exists (L' ++ Rt'). split.
    + rewrite (co_order64 _ _ _ _ C'), Hnil. simpl. now rewrite map_app.
    + rewrite <- (co_all64 _ _ _ _ C'), Hnil. reflexivity.
Qed.


(* ================================================================== *)
(** * Tables with translated values *)

Section MapVals.
Context {K V V' : Type} `{EqDec K}.
Variable f : V -> V'.

Lemma map_vals_get (m : jsmap K V) (k : K) :
  map_get (map_vals f m) k = option_map f (map_get m k).
Proof.
  induction m as [| [k' v] m IH]; [reflexivity |].
  cbn [map_vals map map_get fst snd].
  destruct (eq_dec k' k); [reflexivity | exact IH].
Qed.

Lemma map_vals_set (m : jsmap K V) (k : K) (v : V) :
  map_set (map_vals f m) k (f v) = map_vals f (map_set m k v).
Proof.
  induction m as [| [k' v'] m IH]; [reflexivity |].
  cbn [map_vals map map_set fst snd].
  destruct (eq_dec k' k); [reflexivity |].
  cbn [map fst snd]. f_equal. exact IH.
Qed.

Lemma map_vals_delete (m : jsmap K V) (k : K) :
  map_delete (map_vals f m) k = map_vals f (map_delete m k).
Proof.
  induction m as [| [k' v'] m IH]; [reflexivity |].
  cbn [map_vals map map_delete fst snd].
  destruct (eq_dec k' k); [reflexivity |].
  cbn [map fst snd]. f_equal. exact IH.
Qed.

Lemma map_vals_keys (m : jsmap K V) : map_keys (map_vals f m) = map_keys m.
Proof.
  unfold map_keys, map_vals. rewrite map_map. reflexivity.
Qed.
End MapVals.

(* ================================================================== *)
(** * Lists with translated elements *)

Lemma last_translated {A B : Type} (f : A -> B) (l : list A) (d : A) :
  List.last (map f l) (f d) = f (List.last l d).
Proof.
  induction l as [| a l IHl]; [reflexivity |].
  destruct l as [| b l]; [reflexivity |].
  change (List.last (map f (a :: b :: l)) (f d))
    with (List.last (map f (b :: l)) (f d)).
  change (List.last (a :: b :: l) d) with (List.last (b :: l) d).
  exact IHl.
Qed.

Lemma removelast_translated {A B : Type} (f : A -> B) (l : list A) :
  removelast (map f l) = map f (removelast l).
Proof.
  induction l as [| a l IHl]; [reflexivity |].
  destruct l as [| b l]; [reflexivity |].
  change (removelast (map f (a :: b :: l)))
    with (f a :: removelast (map f (b :: l))).
  change (removelast (a :: b :: l)) with (a :: removelast (b :: l)).
  cbn [map]. f_equal. exact IHl.
Qed.

Lemma removelast_incl {A : Type} (l : list A) (x : A) :
  In x (removelast l) -> In x l.
Proof.
  induction l as [| a l IHl]; [intros [] |].
  destruct l as [| b l]; [intros [] |].
  change (removelast (a :: b :: l)) with (a :: removelast (b :: l)).
  intros [-> | Hx]; [left; reflexivity | right; apply IHl; exact Hx].
Qed.

Lemma last_In {A : Type} (l : list A) (d : A) : l <> [] -> In (List.last l d) l.
Proof.
  intros Hl. destruct (exists_last Hl) as (l' & a & E).
  rewrite E, last_last. apply in_or_app. right. left. reflexivity.
Qed.

(* ================================================================== *)
(** * The heap under two comparators that agree

    The heap asks a comparator one thing, whether its result is negative;
    two comparators that answer alike on the payloads in the heap move them
    alike. *)

Section HeapAlike.
Context {T T' : Type}.
Variable f : T -> T'.
Variable cmp : Comparator T unit Z.
Variable cmp' : Comparator T' unit float.
Variable P : T -> Prop.
Hypothesis agree : forall a b, P a -> P b ->
  ltz (fst (cmp' (f a) (f b) tt)) = ltz (fst (cmp a b tt)).

Lemma array_set_map (q : list T) (i : nat) (x : T) :
  array_set (map f q) i (f x) = map f (array_set q i x).
Proof.
  revert i. induction q as [| y q IH]; intros i; [reflexivity |].
  destruct i as [| i]; cbn [map array_set]; [reflexivity |].
  f_equal. apply IH.
Qed.

Lemma swap_map (q : list T) (i j : nat) :
  PriorityQueue.swap (map f q) i j = map f (PriorityQueue.swap q i j).
Proof.
  unfold PriorityQueue.swap. rewrite !nth_error_map.
  destruct (nth_error q i) as [x |]; [| reflexivity].
  destruct (nth_error q j) as [y |]; [| reflexivity].
  cbn [option_map]. rewrite !array_set_map. reflexivity.
Qed.

Lemma Forall_nth (q : list T) (i : nat) (x : T) :
  Forall P q -> nth_error q i = Some x -> P x.
Proof.
  intros Hq E. apply nth_error_In in E.
  rewrite Forall_forall in Hq. apply Hq. exact E.
Qed.

Lemma Forall_swap (q : list T) (i j : nat) :
  Forall P q -> Forall P (PriorityQueue.swap q i j).
Proof.
  intros Hq. rewrite Forall_forall in *. intros x Hx. apply Hq.
  apply (Permutation_in x (swap_perm q i j) Hx).
Qed.

Lemma siftUp_loop_alike (fuel : nat) (q : list T) (idx : nat) :
  Forall P q ->
  PriorityQueue.siftUp_loop cmp' fuel (map f q) idx tt
  = (map f (fst (PriorityQueue.siftUp_loop cmp fuel q idx tt)), tt).
Proof.
  revert q idx. induction fuel as [| fuel IH]; intros q idx Hq;
    cbn [PriorityQueue.siftUp_loop]; [reflexivity |].
  destruct (idx =? 0); [reflexivity |].
  rewrite !nth_error_map.
  destruct (nth_error q idx) as [x |] eqn:Ex; [| reflexivity].
  destruct (nth_error q ((idx - 1) / 2)) as [p |] eqn:Ep; [| reflexivity].
  cbn [option_map].
  pose proof (agree x p (Forall_nth q _ x Hq Ex) (Forall_nth q _ p Hq Ep))
    as Ha.
  destruct (cmp' (f x) (f p) tt) as [r' []].
  destruct (cmp x p tt) as [r []]. cbn [fst] in Ha. rewrite Ha.
  destruct (ltz r); [| reflexivity].
  rewrite swap_map. apply IH. apply Forall_swap. exact Hq.
Qed.

Lemma push_alike (q : list T) (x : T) :
  Forall P q -> P x ->
  PriorityQueue.push cmp' (map f q) (f x) tt
  = (map f (fst (PriorityQueue.push cmp q x tt)), tt).
Proof.
  intros Hq Hx. unfold PriorityQueue.push, PriorityQueue.siftUp.
  change (map f q ++ [f x]) with (map f q ++ map f [x]).
  rewrite <- map_app, !length_map. apply siftUp_loop_alike.
  apply Forall_app. split; [exact Hq | constructor; [exact Hx | constructor]].
Qed.

Lemma pick_alike (q : list T) (child min : nat) :
  Forall P q ->
  PriorityQueue.pick cmp' (map f q) child min tt
  = (fst (PriorityQueue.pick cmp q child min tt), tt).
Proof.
  intros Hq. unfold PriorityQueue.pick. rewrite length_map, !nth_error_map.
  destruct (child <? List.length q); [| reflexivity].
  destruct (nth_error q child) as [c |] eqn:Ec; [| reflexivity].
  destruct (nth_error q min) as [m |] eqn:Em; [| reflexivity].
  cbn [option_map].
  pose proof (agree c m (Forall_nth q _ c Hq Ec) (Forall_nth q _ m Hq Em))
    as Ha.
  destruct (cmp' (f c) (f m) tt) as [r' []].
  destruct (cmp c m tt) as [r []]. cbn [fst] in Ha. rewrite Ha.
  destruct (ltz r); reflexivity.
Qed.

Lemma siftDown_loop_alike (fuel : nat) (q : list T) (idx : nat) :
  Forall P q ->
  PriorityQueue.siftDown_loop cmp' fuel (map f q) idx tt
  = (map f (fst (PriorityQueue.siftDown_loop cmp fuel q idx tt)), tt).
Proof.
  revert q idx. induction fuel as [| fuel IH]; intros q idx Hq;
    cbn [PriorityQueue.siftDown_loop]; [reflexivity |].
  rewrite (pick_alike q (2 * idx + 1) idx Hq).
  destruct (PriorityQueue.pick cmp q (2 * idx + 1) idx tt) as [min1 []].
  cbn [fst]. rewrite (pick_alike q (2 * idx + 2) min1 Hq).
  destruct (PriorityQueue.pick cmp q (2 * idx + 2) min1 tt) as [min2 []].
  cbn [fst]. destruct (min2 =? idx); [reflexivity |].
  rewrite swap_map. apply IH. apply Forall_swap. exact Hq.
Qed.

Lemma pop_alike (q : list T) :
  Forall P q ->
  PriorityQueue.pop cmp' (map f q) tt
  = (option_map f (fst (fst (PriorityQueue.pop cmp q tt))),
     map f (snd (fst (PriorityQueue.pop cmp q tt))), tt).
Proof.
  intros Hq. unfold PriorityQueue.pop.
  destruct q as [| top q]; [reflexivity |].
  cbn [map].
  change (f top :: map f q) with (map f (top :: q)).
  rewrite (last_translated f (top :: q) top).
  rewrite (removelast_translated f (top :: q)).
  assert (Hr : Forall P (removelast (top :: q))).
  { rewrite Forall_forall in *. intros x Hx. apply Hq.
    apply removelast_incl. exact Hx. }
  assert (Hl : P (List.last (top :: q) top)).
  { rewrite Forall_forall in Hq. apply Hq. apply last_In. discriminate. }
  destruct (removelast (top :: q)) as [| a l] eqn:Eq; [reflexivity |].
  cbn [map]. unfold PriorityQueue.siftDown.
  change (array_set (f a :: map f l) 0 (f (List.last (top :: q) top)))
    with (map f (array_set (a :: l) 0 (List.last (top :: q) top))).
  rewrite length_map.
  rewrite siftDown_loop_alike.
  - cbn [length_map array_set List.length].
    destruct (PriorityQueue.siftDown_loop cmp _ _ 0 tt) as [q'' []].
    reflexivity.
  - cbn [array_set]. inversion Hr; subst. constructor; assumption.
Qed.
End HeapAlike.

(* ================================================================== *)
(** * The multi-queue under comparators that agree *)

Section MultiAlike.
Context {T T' PK : Type} `{EqDec PK}.
Variable f : T -> T'.
Variable pKeys : list PK.
Variable pCmps : PK -> Comparator T unit Z.
Variable pCmps' : PK -> Comparator T' unit float.
Variable P : T -> Prop.
Hypothesis agree : forall k a b, P a -> P b ->
  ltz (fst (pCmps' k (f a) (f b) tt)) = ltz (fst (pCmps k a b tt)).

Local Abbreviation fi := (on_item f).
Local Abbreviation Pi := (fun it : MultiQueue.Item T => P (MultiQueue.data it)).

Lemma item_agree (k : PK) (a b : MultiQueue.Item T) :
  Pi a -> Pi b ->
  ltz (fst (MultiQueue.item_cmp pCmps' k (fi a) (fi b) tt))
  = ltz (fst (MultiQueue.item_cmp pCmps k a b tt)).
Proof. intros Ha Hb. unfold MultiQueue.item_cmp. apply agree; assumption. Qed.

Lemma within_Forall (mq : MultiQueue.t (T := T) (PK := PK)) (k : PK) :
  within P mq -> Forall Pi (MultiQueue.qs mq k).
Proof. intros W. apply Forall_forall. intros it Hit. apply (W k it Hit). Qed.

Lemma push_all_alike (item : MultiQueue.Item T) (ks : list PK) :
  Pi item ->
  forall (fq : PK -> list (MultiQueue.Item T))
         (fq' : PK -> list (MultiQueue.Item T')),
    (forall k, fq' k = map fi (fq k)) ->
    (forall k, Forall Pi (fq k)) ->
    (forall k, fst (MultiQueue.push_all pCmps' (fi item) ks fq' tt) k
               = map fi (fst (MultiQueue.push_all pCmps item ks fq tt) k)) /\
    (forall k, Forall Pi (fst (MultiQueue.push_all pCmps item ks fq tt) k)).
Proof.
  intros Hitem. unfold MultiQueue.push_all.
  induction ks as [| k0 ks IH]; intros fq fq' Hv Hw; cbn [fold_left].
  - split; [exact Hv | exact Hw].
  - rewrite (Hv k0).
    rewrite (push_alike fi (MultiQueue.item_cmp pCmps k0)
               (MultiQueue.item_cmp pCmps' k0) Pi (item_agree k0)
               (fq k0) item (Hw k0) Hitem).
    destruct (PriorityQueue.push (MultiQueue.item_cmp pCmps k0) (fq k0) item tt)
      as [q1 []] eqn:Ep.
    cbn [fst]. apply IH.
    + intros k. unfold MultiQueue.set_q.
      destruct (eq_dec k0 k); [reflexivity | apply Hv].
    + intros k. unfold MultiQueue.set_q.
      destruct (eq_dec k0 k); [| apply Hw].
      apply Forall_forall. intros x Hx.
      pose proof (push_perm (MultiQueue.item_cmp pCmps k0) (fq k0) item tt)
        as Hperm.
      rewrite Ep in Hperm. cbn [fst] in Hperm.
      apply (Permutation_in x Hperm) in Hx. destruct Hx as [<- | Hx].
      * exact Hitem.
      * pose proof (Hw k0) as Hk. rewrite Forall_forall in Hk. apply Hk, Hx.
Qed.

Lemma multi_push_alike (mq : MultiQueue.t (T := T) (PK := PK))
  (mq' : MultiQueue.t (T := T') (PK := PK)) (d : T) :
  alike f mq mq' -> within P mq -> P d ->
  fst (fst (MultiQueue.push pKeys pCmps' mq' (f d) tt))
  = fi (fst (fst (MultiQueue.push pKeys pCmps mq d tt))) /\
  alike f (snd (fst (MultiQueue.push pKeys pCmps mq d tt)))
    (snd (fst (MultiQueue.push pKeys pCmps' mq' (f d) tt))) /\
  within P (snd (fst (MultiQueue.push pKeys pCmps mq d tt))).
Proof.
  intros [Hv Hl Hn] W Hd. unfold MultiQueue.push. rewrite Hn, Hl.
  destruct (push_all_alike
              {| MultiQueue.id := MultiQueue.nextId mq; MultiQueue.data := d |}
              pKeys Hd (MultiQueue.qs mq) (MultiQueue.qs mq') Hv
              (fun k => within_Forall mq k W)) as (Hv' & Hw').
  change {| MultiQueue.id := MultiQueue.nextId mq; MultiQueue.data := f d |}
    with (fi {| MultiQueue.id := MultiQueue.nextId mq; MultiQueue.data := d |}).
  destruct (MultiQueue.push_all pCmps' _ pKeys (MultiQueue.qs mq') tt)
    as [qs2' []].
  destruct (MultiQueue.push_all pCmps _ pKeys (MultiQueue.qs mq) tt)
    as [qs2 []].
  cbn [fst snd] in *. split; [reflexivity |]. split.
  - constructor; cbn [MultiQueue.qs MultiQueue.live MultiQueue.nextId];
      [exact Hv' | reflexivity | reflexivity].
  - intros k it Hit. cbn [MultiQueue.qs] in Hit.
    pose proof (Hw' k) as Hk. rewrite Forall_forall in Hk. apply Hk, Hit.
Qed.

Lemma popped_view (mq : MultiQueue.t (T := T) (PK := PK))
  (mq' : MultiQueue.t (T := T') (PK := PK)) (key : PK) :
  alike f mq mq' -> within P mq ->
  PriorityQueue.pop (MultiQueue.item_cmp pCmps' key) (MultiQueue.qs mq' key) tt
  = (option_map fi
       (fst (fst (PriorityQueue.pop (MultiQueue.item_cmp pCmps key)
                    (MultiQueue.qs mq key) tt))),
     map fi
       (snd (fst (PriorityQueue.pop (MultiQueue.item_cmp pCmps key)
                    (MultiQueue.qs mq key) tt))), tt) /\
  Forall Pi (snd (fst (PriorityQueue.pop (MultiQueue.item_cmp pCmps key)
                         (MultiQueue.qs mq key) tt))).
Proof.
  intros [Hv Hl Hn] W. rewrite (Hv key). split.
  - apply (pop_alike fi (MultiQueue.item_cmp pCmps key)
             (MultiQueue.item_cmp pCmps' key) Pi (item_agree key)).
    apply within_Forall. exact W.
  - apply Forall_forall. intros x Hx.
    destruct (MultiQueue.qs mq key) as [| top q] eqn:Eq; [destruct Hx |].
    destruct (pop_nonempty (MultiQueue.item_cmp pCmps key) top q tt)
      as (q' & s' & E & Hperm).
    rewrite E in Hx. cbn [fst snd] in Hx. apply (W key).
    rewrite Eq. apply (Permutation_in x Hperm). right. exact Hx.
Qed.

Lemma set_q_alike (mq : MultiQueue.t (T := T) (PK := PK))
  (mq' : MultiQueue.t (T := T') (PK := PK)) (key : PK)
  (q : list (MultiQueue.Item T)) (live : list nat) :
  alike f mq mq' -> within P mq -> Forall Pi q ->
  alike f
    {| MultiQueue.qs := MultiQueue.set_q (MultiQueue.qs mq) key q;
       MultiQueue.live := live; MultiQueue.nextId := MultiQueue.nextId mq |}
    {| MultiQueue.qs := MultiQueue.set_q (MultiQueue.qs mq') key (map fi q);
       MultiQueue.live := live; MultiQueue.nextId := MultiQueue.nextId mq' |} /\
  within P
    {| MultiQueue.qs := MultiQueue.set_q (MultiQueue.qs mq) key q;
       MultiQueue.live := live; MultiQueue.nextId := MultiQueue.nextId mq |}.
Proof.
  intros [Hv Hl Hn] W Hq. split.
  - constructor; cbn [MultiQueue.qs MultiQueue.live MultiQueue.nextId];
      [| reflexivity | exact Hn].
    intros k. unfold MultiQueue.set_q.
    destruct (eq_dec key k); [reflexivity | apply Hv].
  - intros k it. cbn [MultiQueue.qs]. unfold MultiQueue.set_q.
    destruct (eq_dec key k); [| apply W].
    rewrite Forall_forall in Hq. apply Hq.
Qed.

Lemma pop_loop_alike (fuel : nat) (key : PK) :
  forall (mq : MultiQueue.t (T := T) (PK := PK))
         (mq' : MultiQueue.t (T := T') (PK := PK)) r m s,
    alike f mq mq' -> within P mq ->
    MultiQueue.pop_loop pCmps fuel key mq tt = Ret (r, m, s) ->
    exists m',
      MultiQueue.pop_loop pCmps' fuel key mq' tt
      = Ret (option_map fi r, m', tt) /\
      alike f m m' /\ within P m.
Proof.
  induction fuel as [| fuel IH]; intros mq mq' r m s A W E; [discriminate |].
  cbn [MultiQueue.pop_loop] in *.
  destruct (popped_view mq mq' key A W) as (Epop & Hq).
  pose proof A as [Hv Hl Hn].
  unfold PriorityQueue.peek in *. rewrite (Hv key), nth_error_map.
  destruct (nth_error (MultiQueue.qs mq key) 0) as [top |] eqn:Etop.
  - cbn [option_map]. rewrite <- (Hv key), Epop.
    destruct (PriorityQueue.pop (MultiQueue.item_cmp pCmps key)
                (MultiQueue.qs mq key) tt) as [[t0 q1] []].
    cbn [fst snd] in *. rewrite Hl.
    change (MultiQueue.id (fi top)) with (MultiQueue.id top).
    destruct (set_q_alike mq mq' key q1
                (set_delete (MultiQueue.live mq) (MultiQueue.id top)) A W Hq)
      as (A1 & W1).
    destruct (set_q_alike mq mq' key q1 (MultiQueue.live mq) A W Hq)
      as (A2 & W2).
    destruct (set_has (MultiQueue.live mq) (MultiQueue.id top)).
    + injection E as <- <- <-. eexists. split; [reflexivity |].
      split; [exact A1 | exact W1].
    + apply (IH _ _ r m s A2 W2 E).
  - cbn [option_map]. injection E as <- <- <-. exists mq'.
    split; [reflexivity |]. split; [exact A | exact W].
Qed.

Lemma peek_loop_alike (fuel : nat) (key : PK) :
  forall (mq : MultiQueue.t (T := T) (PK := PK))
         (mq' : MultiQueue.t (T := T') (PK := PK)) r m s,
    alike f mq mq' -> within P mq ->
    MultiQueue.peek_loop pCmps fuel key mq tt = Ret (r, m, s) ->
    exists m',
      MultiQueue.peek_loop pCmps' fuel key mq' tt
      = Ret (option_map fi r, m', tt) /\
      alike f m m' /\ within P m.
Proof.
  induction fuel as [| fuel IH]; intros mq mq' r m s A W E; [discriminate |].
  cbn [MultiQueue.peek_loop] in *.
  destruct (popped_view mq mq' key A W) as (Epop & Hq).
  pose proof A as [Hv Hl Hn].
  unfold PriorityQueue.peek in *. rewrite (Hv key), nth_error_map.
  destruct (nth_error (MultiQueue.qs mq key) 0) as [top |] eqn:Etop.
  - cbn [option_map]. rewrite Hl.
    change (MultiQueue.id (fi top)) with (MultiQueue.id top).
    destruct (set_has (MultiQueue.live mq) (MultiQueue.id top)).
    + injection E as <- <- <-. exists mq'. split; [reflexivity |].
      split; [exact A | exact W].
    + rewrite <- (Hv key), Epop.
      destruct (PriorityQueue.pop (MultiQueue.item_cmp pCmps key)
                  (MultiQueue.qs mq key) tt) as [[t0 q1] []].
      cbn [fst snd] in *.
      destruct (set_q_alike mq mq' key q1 (MultiQueue.live mq) A W Hq)
        as (A2 & W2).
      apply (IH _ _ r m s A2 W2 E).
  - cbn [option_map]. injection E as <- <- <-. exists mq'.
    split; [reflexivity |]. split; [exact A | exact W].
Qed.

Lemma delete_alike (i : nat) (mq : MultiQueue.t (T := T) (PK := PK))
  (mq' : MultiQueue.t (T := T') (PK := PK)) :
  alike f mq mq' -> within P mq ->
  alike f (MultiQueue.delete i mq) (MultiQueue.delete i mq') /\
  within P (MultiQueue.delete i mq).
Proof.
  intros [Hv Hl Hn] W. split; [| exact W].
  constructor; cbn [MultiQueue.delete MultiQueue.qs MultiQueue.live
                      MultiQueue.nextId]; [exact Hv | | exact Hn].
  rewrite Hl. reflexivity.
Qed.
End MultiAlike.


(* ================================================================== *)
(** * The comparators on exact weights *)

Lemma small_exact (T z : Z) :
  (T < 2 ^ 52)%Z -> (0 <= z <= T)%Z -> (Z.abs z < 2 ^ 53)%Z.
Proof. intros HT Hz. change (2 ^ 52)%Z with 4503599627370496%Z in HT.
  change (2 ^ 53)%Z with 9007199254740992%Z. lia. Qed.

Lemma or_else_exact (x y : Z) (y' : float) :
  (Z.abs x < 2 ^ 53)%Z ->
  ltz y' = ltz y ->
  ltz (FAS64.or_else (num x) y') = ltz (FAS.or_else x y).
Proof.
  intros Hx Hy. unfold FAS64.or_else, FAS.or_else.
  rewrite num_is_zero, num_is_nan by exact Hx. rewrite orb_false_r.
  destruct (x =? 0)%Z; [exact Hy |].
  unfold ltz, float_Number, Z_Number. apply num_ltz. exact Hx.
Qed.

Lemma view_cmp_agree (T : Z) (k : FAS.view) (a b : FAS.Data) :
  (T < 2 ^ 52)%Z -> small T a -> small T b ->
  ltz (fst (FAS64.view_cmp k (as_number a) (as_number b) tt))
  = ltz (fst (FAS.view_cmp k a b tt)).
Proof.
  intros HT [Hao Hai] [Hbo Hbi].
  change (2 ^ 52)%Z with 4503599627370496%Z in HT.
  assert (Hx : forall z, (Z.abs z <= 2 * T)%Z -> (Z.abs z < 2 ^ 53)%Z).
  { intros z Hz. change (2 ^ 53)%Z with 9007199254740992%Z. lia. }
  unfold FAS64.view_cmp, FAS.view_cmp, pure_cmp. cbn [fst].
  cbn [as_number FAS64.outW FAS64.inW].
  destruct k.
  - rewrite num_sub by (apply Hx; lia).
    apply or_else_exact; [apply Hx; lia | reflexivity].
  - rewrite num_sub by (apply Hx; lia).
    unfold ltz, float_Number, Z_Number. apply num_ltz. apply Hx. lia.
  - cbv zeta. rewrite !num_sub by (apply Hx; lia).
    rewrite num_add by (apply Hx; lia).
    apply or_else_exact; [apply Hx; lia |].
    unfold ltz, float_Number, Z_Number. apply num_ltz. apply Hx. lia.
Qed.

(* ================================================================== *)
(** * The queue on exact weights *)

Section ExactQueue.
Variable T : Z.
Hypothesis HT : (T < 2 ^ 52)%Z.

Lemma q_push_agrees (mq : FAS.queue) (mq' : FAS64.queue) (d : FAS.Data) :
  alike as_number mq mq' -> within (small T) mq -> small T d ->
  fst (FAS64.q_push mq' (as_number d))
  = on_item as_number (fst (FAS.q_push mq d)) /\
  alike as_number (snd (FAS.q_push mq d))
    (snd (FAS64.q_push mq' (as_number d))) /\
  within (small T) (snd (FAS.q_push mq d)).
Proof.
  intros A W Hd. unfold FAS64.q_push, FAS.q_push.
  apply (multi_push_alike as_number FAS.views FAS.view_cmp FAS64.view_cmp
           (small T)
           (fun k a b Ha Hb => view_cmp_agree T k a b HT Ha Hb)
           mq mq' d A W Hd).
Qed.

Lemma q_pop_agrees (key : FAS.view) (mq : FAS.queue) (mq' : FAS64.queue)
  (r : option FAS.Data) (m : FAS.queue) :
  alike as_number mq mq' -> within (small T) mq ->
  FAS.q_pop key mq = Ret (r, m) ->
  exists m',
    FAS64.q_pop key mq' = Ret (option_map as_number r, m') /\
    alike as_number m m' /\ within (small T) m.
Proof.
  intros A W E. unfold FAS.q_pop, MultiQueue.pop, MultiQueue.pop_item in E.
  apply bind_Ret_inv in E. destruct E as ([[r0 m0] s0] & E & E').
  apply bind_Ret_inv in E. destruct E as ([[ri mi] si] & E & E'').
  injection E'' as <- <- <-. injection E' as <- <-.
  destruct (pop_loop_alike as_number FAS.view_cmp FAS64.view_cmp (small T)
              (fun k a b Ha Hb => view_cmp_agree T k a b HT Ha Hb)
              _ key mq mq' ri mi si A W E) as (m' & E64 & A' & W').
  exists m'. split; [| split; [exact A' | exact W']].
  unfold FAS64.q_pop, MultiQueue.pop, MultiQueue.pop_item.
  rewrite (al_views _ _ _ A key), length_map, E64. cbn [bind fst snd].
  destruct ri; reflexivity.
Qed.

Lemma q_peek_agrees (key : FAS.view) (mq : FAS.queue) (mq' : FAS64.queue)
  (r : option FAS.Data) (m : FAS.queue) :
  alike as_number mq mq' -> within (small T) mq ->
  FAS.q_peek key mq = Ret (r, m) ->
  exists m',
    FAS64.q_peek key mq' = Ret (option_map as_number r, m') /\
    alike as_number m m' /\ within (small T) m.
Proof.
  intros A W E. unfold FAS.q_peek, MultiQueue.peek, MultiQueue.peek_item in E.
  apply bind_Ret_inv in E. destruct E as ([[r0 m0] s0] & E & E').
  apply bind_Ret_inv in E. destruct E as ([[ri mi] si] & E & E'').
  injection E'' as <- <- <-. injection E' as <- <-.
  destruct (peek_loop_alike as_number FAS.view_cmp FAS64.view_cmp (small T)
              (fun k a b Ha Hb => view_cmp_agree T k a b HT Ha Hb)
              _ key mq mq' ri mi si A W E) as (m' & E64 & A' & W').
  exists m'. split; [| split; [exact A' | exact W']].
  unfold FAS64.q_peek, MultiQueue.peek, MultiQueue.peek_item.
  rewrite (al_views _ _ _ A key), length_map, E64. cbn [bind fst snd].
  destruct ri; reflexivity.
Qed.
End ExactQueue.

(* ================================================================== *)
(** * Removing a node, on exact weights *)

Section ExactRemoval.
Variable T : Z.
Hypothesis HT : (T < 2 ^ 52)%Z.

Lemma less_in_exact (d : FAS.Data) (w : Z) :
  small T d -> small T (FAS.less_in d w) ->
  FAS64.less_in (as_number d) (num w) = as_number (FAS.less_in d w).
Proof.
  intros [Ho Hi] [Ho' Hi']. cbn [FAS.less_in FAS.outW FAS.inW] in *.
  unfold FAS64.less_in, as_number.
  cbn [FAS64.u FAS64.outW FAS64.inW FAS.u FAS.outW FAS.inW FAS.less_in].
  change (2 ^ 52)%Z with 4503599627370496%Z in HT.
  rewrite num_sub by (change (2 ^ 53)%Z with 9007199254740992%Z; lia).
  reflexivity.
Qed.

Lemma less_out_exact (d : FAS.Data) (w : Z) :
  small T d -> small T (FAS.less_out d w) ->
  FAS64.less_out (as_number d) (num w) = as_number (FAS.less_out d w).
Proof.
  intros [Ho Hi] [Ho' Hi']. cbn [FAS.less_out FAS.outW FAS.inW] in *.
  unfold FAS64.less_out, as_number.
  cbn [FAS64.u FAS64.outW FAS64.inW FAS.u FAS.outW FAS.inW FAS.less_out].
  change (2 ^ 52)%Z with 4503599627370496%Z in HT.
  rewrite num_sub by (change (2 ^ 53)%Z with 9007199254740992%Z; lia).
  reflexivity.
Qed.

Section Loop.
Variable present : list string.
Variable adjust : FAS.Data -> Z -> FAS.Data.
Variable adjust' : FAS64.Data -> float -> FAS64.Data.
Variables taken kept : FAS.Data -> Z.
Hypothesis Hadj : forall d w, small T d -> small T (adjust d w) ->
  adjust' (as_number d) (num w) = as_number (adjust d w).
Hypothesis Htaken : forall d w, taken (adjust d w) = (taken d - w)%Z.
Hypothesis Hkept : forall d w, kept (adjust d w) = kept d.
Hypothesis Hsmall : forall d,
  (0 <= taken d <= T)%Z -> (0 <= kept d <= T)%Z -> small T d.
Variables A B G : string -> Z.
Hypothesis HA : forall n, In n present -> (0 <= A n <= T)%Z.
Hypothesis HB : forall n, In n present -> (0 <= B n <= T)%Z.
Hypothesis HG : forall n, In n present -> (0 <= G n <= T)%Z.

(** One loop of [removeNode]: each neighbour present is pushed again with
    the weight of its edge taken off one field, once; the binary64 run does
    the same on the same numbers. *)
Lemma resubmit_loop_agrees :
  forall rows nm (mq : FAS.queue) nm' (mq' : FAS.queue) (mq64 : FAS64.queue),
    NoDup (map_keys rows) ->
    (forall v w, In (v, w) rows -> In v present -> B v = (A v - w)%Z) ->
    for_each rows (FAS.resubmit present adjust) (nm, mq) = Ret (nm', mq') ->
    field_is present taken
      (fun n z => z = if set_has (map_keys rows) n then A n else B n) nm ->
    field_is present kept (fun n z => z = G n) nm ->
    within (small T) mq -> alike as_number mq mq64 ->
    field_is present taken (fun n z => z = B n) nm' /\
    field_is present kept (fun n z => z = G n) nm' /\
    within (small T) mq' /\
    exists mq64' : FAS64.queue,
      for_each (map_vals num rows) (FAS64.resubmit present adjust')
        (as_wrappers nm, mq64) = Ret (as_wrappers nm', mq64') /\
      alike as_number mq' mq64'.
Proof.
  induction rows as [| [v w] rows IH];
    intros nm mq nm' mq' mq64 Hk Hrows E Ft Fk W Al.
  - injection E as <- <-. split; [exact Ft |]. split; [exact Fk |].
    split; [exact W |]. exists mq64. split; [reflexivity | exact Al].
  - cbn [for_each] in E. apply bind_Ret_inv in E.
    destruct E as ([nm1 mq1] & E1 & E).
    inversion Hk as [| ? ? Hv Hk']; subst.
    assert (Hvf : set_has (map_keys rows) v = false)
      by (apply set_has_false; exact Hv).
    assert (Hrows' : forall v' w', In (v', w') rows -> In v' present ->
              B v' = (A v' - w')%Z)
      by (intros v' w' Hin; apply Hrows; simpl; auto).
    assert (Hmixed : forall n z, n <> v ->
              z = (if set_has (map_keys ((v, w) :: rows)) n then A n else B n) ->
              z = (if set_has (map_keys rows) n then A n else B n)).
    { intros n z Hne ->. cbn [map_keys map fst set_has].
      change (eq_dec v n) with (string_dec v n).
      destruct (string_dec v n); [congruence | reflexivity]. }
    cbn [map_vals map for_each fst snd].
    unfold FAS.resubmit in E1. unfold FAS64.resubmit at 1.
    cbn [fst snd] in E1 |- *.
    destruct (set_has present v) eqn:Ev; cbn [negb] in E1 |- *.
    + apply set_has_In in Ev.
      unfold as_wrappers at 1. rewrite map_vals_get.
      destruct (map_get nm v) as [old |] eqn:Eold; [| discriminate].
      cbn [option_map on_item MultiQueue.data MultiQueue.id].
      pose proof (Ft v old Ev Eold) as Hold_t. cbv beta in Hold_t.
      cbn [map_keys map fst set_has] in Hold_t.
      change (eq_dec v v) with (string_dec v v) in Hold_t.
      destruct (string_dec v v) as [_ |]; [| congruence].
      pose proof (Fk v old Ev Eold) as Hold_k. cbv beta in Hold_k.
      assert (HBv : B v = (A v - w)%Z) by (apply Hrows; simpl; auto).
      assert (Sold : small T (MultiQueue.data old)).
      { apply Hsmall; [rewrite Hold_t; apply HA | rewrite Hold_k; apply HG];
          exact Ev. }
      assert (Snew : small T (adjust (MultiQueue.data old) w)).
      { apply Hsmall.
        - rewrite Htaken, Hold_t, <- HBv. apply HB. exact Ev.
        - rewrite Hkept, Hold_k. apply HG. exact Ev. }
      rewrite (Hadj _ _ Sold Snew).
      destruct (delete_alike as_number (small T) (MultiQueue.id old) mq mq64
                  Al W) as (Al1 & W1).
      destruct (q_push_agrees T HT _ _ _ Al1 W1 Snew) as (Eit & Al2 & W2).
      pose proof (q_push_spec (MultiQueue.delete (MultiQueue.id old) mq)
                    (adjust (MultiQueue.data old) w)) as Hp.
      cbv zeta in Hp. destruct Hp as (Eitem & _).
      destruct (FAS.q_push (MultiQueue.delete (MultiQueue.id old) mq)
                  (adjust (MultiQueue.data old) w)) as [item mq2].
      destruct (FAS64.q_push (MultiQueue.delete (MultiQueue.id old) mq64)
                  (as_number (adjust (MultiQueue.data old) w)))
        as [item64 mq2'].
      cbn [fst snd] in Eit, Al2, W2, Eitem. subst item64.
      injection E1 as <- <-. cbn [bind].
      unfold as_wrappers at 1. rewrite map_vals_set.
      apply (IH (map_set nm v item) mq2 nm' mq' mq2' Hk' Hrows' E);
        [| | exact W2 | exact Al2].
      * intros n it Hn Em. destruct (string_dec n v) as [-> | Hne].
        -- rewrite map_get_set_same in Em. injection Em as <-.
           rewrite Hvf, Eitem. cbn [MultiQueue.data].
           rewrite Htaken, Hold_t. symmetry. exact HBv.
        -- rewrite map_get_set_other in Em by exact Hne.
           apply (Hmixed n _ Hne). apply (Ft n it Hn Em).
      * intros n it Hn Em. destruct (string_dec n v) as [-> | Hne].
        -- rewrite map_get_set_same in Em. injection Em as <-.
           rewrite Eitem. cbn [MultiQueue.data]. rewrite Hkept. exact Hold_k.
        -- rewrite map_get_set_other in Em by exact Hne.
           apply (Fk n it Hn Em).
    + injection E1 as <- <-. cbn [bind].
      apply set_has_false in Ev.
      apply (IH nm mq nm' mq' mq64 Hk' Hrows' E); [| exact Fk | exact W | exact Al].
      intros n it Hn Em. apply (Hmixed n); [congruence |].
      apply (Ft n it Hn Em).
Qed.
End Loop.
End ExactRemoval.

(* ================================================================== *)
(** * The bounds the weights keep *)

Lemma weight_sum_app (l1 l2 : list FAS.edge) :
  weight_sum (l1 ++ l2) = (weight_sum l1 + weight_sum l2)%Z.
Proof.
  unfold weight_sum. induction l1 as [| e l1 IH]; simpl; [reflexivity |].
  rewrite IH. lia.
Qed.

Lemma weight_sum_nonneg (edges : list FAS.edge) :
  arcs_positive edges -> (0 <= weight_sum edges)%Z.
Proof.
  induction edges as [| [[a b] w] edges IH]; intros Hpos;
    [cbn; lia |].
  change (weight_sum ((a, b, w) :: edges)) with (w + weight_sum edges)%Z.
  assert (0 < w)%Z by (apply (Hpos a b w); simpl; auto).
  assert (0 <= weight_sum edges)%Z
    by (apply IH; intros a' b' w' H'; apply (Hpos a' b' w'); simpl; auto).
  lia.
Qed.

(** Edges picked once each weigh no more than the whole list. *)
Lemma weight_sum_incl (l : list FAS.edge) :
  forall edges,
    arcs_positive edges -> NoDup l -> incl l edges ->
    (weight_sum l <= weight_sum edges)%Z.
Proof.
  induction l as [| e l IH]; intros edges Hpos Hn Hincl.
  - apply weight_sum_nonneg. exact Hpos.
  - inversion Hn as [| ? ? He Hn']; subst.
    destruct (in_split e edges (Hincl e (or_introl eq_refl)))
      as (l1 & l2 & ->).
    rewrite weight_sum_app.
    change (weight_sum (e :: l2)) with (snd e + weight_sum l2)%Z.
    change (weight_sum (e :: l)) with (snd e + weight_sum l)%Z.
    assert (Hle : (weight_sum l <= weight_sum (l1 ++ l2))%Z).
    { apply IH; [| exact Hn' |].
      - intros a b w Hin. apply (Hpos a b w).
        apply in_app_or in Hin. apply in_or_app. simpl. tauto.
      - intros y Hy. specialize (Hincl y (or_intror Hy)).
        apply in_app_or in Hincl. apply in_or_app.
        destruct Hincl as [H1 | [<- | H2]]; [auto | contradiction | auto]. }
    rewrite weight_sum_app in Hle. lia.
Qed.

Lemma flip_In (edges : list FAS.edge) (a b : string) (w : Z) :
  In (a, b, w) (flip edges) <-> In (b, a, w) edges.
Proof.
  unfold flip. rewrite in_map_iff. split.
  - intros ([[a' b'] w'] & E & Hin). cbn [fst snd] in E.
    injection E as <- <- <-. exact Hin.
  - intros Hin. exists (b, a, w). split; [reflexivity | exact Hin].
Qed.

Lemma flip_sum (edges : list FAS.edge) :
  weight_sum (flip edges) = weight_sum edges.
Proof.
  induction edges as [| e edges IH]; [reflexivity |].
  change (weight_sum (flip (e :: edges)))
    with (snd e + weight_sum (flip edges))%Z.
  rewrite IH. reflexivity.
Qed.

Lemma flip_positive (edges : list FAS.edge) :
  arcs_positive edges -> arcs_positive (flip edges).
Proof.
  intros Hpos a b w Hin. apply (Hpos b a w). apply flip_In. exact Hin.
Qed.

(** The two tables change places when the edges are turned round. *)
Lemma network_flip (edges : list FAS.edge) (o i : FAS.adjacency) :
  network edges o i -> network (flip edges) i o.
Proof.
  intros N.
  assert (Hm : forall n, mentioned (flip edges) n -> mentioned edges n).
  { intros n ([[a b] w] & Hin & Hn).
    apply (proj1 (flip_In edges a b w)) in Hin.
    exists (b, a, w). split; [exact Hin |]. cbn [fst snd] in *. tauto. }
  constructor.
  - intros n Hn. apply (nw_in _ _ _ N n (Hm n Hn)).
  - intros n Hn. apply (nw_out _ _ _ N n (Hm n Hn)).
  - intros a b. symmetry. apply (nw_mirror _ _ _ N b a).
  - apply (nw_keys_in _ _ _ N).
  - apply (nw_keys_out _ _ _ N).
  - intros a b w E. apply (proj2 (flip_In edges a b w)).
    apply (nw_arcs _ _ _ N).
    rewrite <- (nw_mirror _ _ _ N b a). exact E.
Qed.

Lemma psum_le_total (present : list string) (m : jsmap string Z) :
  (forall v w, In (v, w) m -> (0 < w)%Z) ->
  (psum present m <= fold_left Z.add (map snd m) 0)%Z.
Proof.
  induction m as [| [v w] m IH]; intros Hpos; cbn [psum map snd fold_left];
    [lia |].
  rewrite fold_add_shift.
  assert (0 < w)%Z by (apply (Hpos v); simpl; auto).
  assert (psum present m <= fold_left Z.add (map snd m) 0)%Z
    by (apply IH; intros v' w' H'; apply (Hpos v'); simpl; auto).
  destruct (set_has present v); lia.
Qed.

Section Bounds.
Variable edges : list FAS.edge.
Variables o0 i0 : FAS.adjacency.
Hypothesis N : network edges o0 i0.
Hypothesis Hpos : arcs_positive edges.

Lemma row_total (n : string) (outs : jsmap string Z) :
  map_get o0 n = Some outs ->
  (fold_left Z.add (map snd outs) 0 <= weight_sum edges)%Z.
Proof.
  intros Eo.
  assert (Es : fold_left Z.add (map snd outs) 0%Z
               = weight_sum (map (fun kv : string * Z => (n, fst kv, snd kv))
                               outs)).
  { clear Eo. induction outs as [| [v w] outs IH]; [reflexivity |].
    cbn [map snd fst fold_left].
    change (weight_sum ((n, v, w) :: ?l)) with (w + weight_sum l)%Z.
    rewrite fold_add_shift, IH. reflexivity. }
  rewrite Es. apply weight_sum_incl; [exact Hpos | |].
  - apply (NoDup_map_inv (fun e : FAS.edge => snd (fst e))).
    rewrite map_map. cbn [fst snd].
    apply (nw_keys_out _ _ _ N n outs Eo).
  - intros e He. apply in_map_iff in He. destruct He as ([v w] & <- & Hin).
    cbn [fst snd].
    destruct (table_positive edges o0 i0 N Hpos n outs v w Eo Hin)
      as (_ & _).
    apply (nw_arcs _ _ _ N). unfold weight_of. rewrite Eo.
    apply In_map_get; [apply (nw_keys_out _ _ _ N n outs Eo) | exact Hin].
Qed.

Lemma out_sum_bounds (present : list string) (n : string) :
  (0 <= out_sum o0 present n <= weight_sum edges)%Z.
Proof.
  split; [apply (out_sum_nonneg edges o0 i0 N Hpos) |].
  unfold out_sum. destruct (map_get o0 n) as [outs |] eqn:Eo.
  - apply Z.le_trans with (fold_left Z.add (map snd outs) 0)%Z.
    + apply psum_le_total. intros v w Hin.
      apply (table_positive edges o0 i0 N Hpos n outs v w Eo Hin).
    + apply (row_total n outs Eo).
  - apply weight_sum_nonneg. exact Hpos.
Qed.
End Bounds.

(* ================================================================== *)
(** * The run on exact weights *)

Section ExactRun.
Variable edges : list FAS.edge.
Variables o0 i0 : FAS.adjacency.
Hypothesis N : network edges o0 i0.
Hypothesis Hpos : arcs_positive edges.
Variable T : Z.
Hypothesis HT : (T < 2 ^ 52)%Z.
Hypothesis HS : (weight_sum edges <= T)%Z.

Lemma out_bound (present : list string) (n : string) :
  (0 <= out_sum o0 present n <= T)%Z.
Proof.
  pose proof (out_sum_bounds edges o0 i0 N Hpos present n). lia.
Qed.

Lemma in_bound (present : list string) (n : string) :
  (0 <= out_sum i0 present n <= T)%Z.
Proof.
  pose proof (out_sum_bounds (flip edges) i0 o0 (network_flip _ _ _ N)
                (flip_positive _ Hpos) present n) as H.
  rewrite flip_sum in H. lia.
Qed.

(** [removeNode] keeps both weights of the nodes that stay up to date, and
    the binary64 run removes the node in the same way. *)
Lemma removeNode_agrees (x : string) (st st' : FAS.state) (st64 : FAS64.state) :
  NoDup (FAS.nodes st) -> In x (FAS.nodes st) ->
  tracked T o0 i0 st -> agrees st st64 ->
  FAS.removeNode x st = Ret st' ->
  tracked T o0 i0 st' /\
  exists st64', FAS64.removeNode x st64 = Ret st64' /\ agrees st' st64'.
Proof.
  intros Hnd Hx [Wo Wi Fo Fi Ws] [An Ao Ai Am Aq] E.
  unfold FAS.removeNode in E.
  destruct (map_get (FAS.outAdj st) x) as [outs |] eqn:Eo; [| discriminate].
  apply bind_Ret_inv in E. destruct E as ([nm1 mq1] & E1 & E).
  destruct (map_get (FAS.inAdj st) x) as [ins |] eqn:Ei; [| discriminate].
  apply bind_Ret_inv in E. destruct E as ([nm2 mq2] & E2 & E).
  injection E as <-. cbn [fst snd] in *.
  set (present := set_delete (FAS.nodes st) x) in *.
  assert (Hother : forall n, In n present -> In n (FAS.nodes st) /\ n <> x)
    by (intros n Hn; apply set_delete_In in Hn; assumption).
  pose proof Eo as Eo0. rewrite (Wo x Hx) in Eo0.
  pose proof Ei as Ei0. rewrite (Wi x Hx) in Ei0.
  pose proof (network_flip _ _ _ N) as N'.
  assert (Hout_row : forall v, weight_of i0 v x = map_get outs v).
  { intros v. rewrite (nw_mirror _ _ _ N x v). unfold weight_of.
    rewrite Eo0. reflexivity. }
  assert (Hin_row : forall v, weight_of o0 v x = map_get ins v).
  { intros v. rewrite <- (nw_mirror _ _ _ N v x). unfold weight_of.
    rewrite Ei0. reflexivity. }
  (* the first loop: the edges out of [x] *)
  destruct (resubmit_loop_agrees T HT present FAS.less_in FAS64.less_in
              FAS.inW FAS.outW (less_in_exact T HT)
              (fun d w => eq_refl) (fun d w => eq_refl)
              (fun d Ht Hk => conj Hk Ht)
              (out_sum i0 (FAS.nodes st)) (out_sum i0 present)
              (out_sum o0 (FAS.nodes st))
              (fun n _ => in_bound _ n) (fun n _ => in_bound _ n)
              (fun n _ => out_bound _ n)
              outs (FAS.nodeMap st) (FAS.q st) nm1 mq1 (FAS64.q st64))
    as (Fi1 & Fo1 & Ws1 & mq64a & E64a & Aq1).
  { apply (nw_keys_out _ _ _ N x outs Eo0). }
  { intros v w Hin _. unfold present.
    rewrite (out_sum_delete (flip edges) i0 o0 _ x v N' Hnd Hx), Hout_row.
    rewrite (In_map_get outs v w (nw_keys_out _ _ _ N x outs Eo0) Hin).
    reflexivity. }
  { exact E1. }
  { intros n it Hn Em. destruct (Hother n Hn) as (Hn' & _).
    rewrite (Fi n it Hn' Em).
    destruct (set_has (map_keys outs) n) eqn:Ek; [reflexivity |].
    apply set_has_false in Ek. apply map_get_None in Ek. unfold present.
    rewrite (out_sum_delete (flip edges) i0 o0 _ x n N' Hnd Hx), Hout_row, Ek.
    lia. }
  { intros n it Hn Em. destruct (Hother n Hn) as (Hn' & _).
    apply (Fo n it Hn' Em). }
  { exact Ws. }
  { exact Aq. }
  (* the second loop: the edges into [x] *)
  destruct (resubmit_loop_agrees T HT present FAS.less_out FAS64.less_out
              FAS.outW FAS.inW (less_out_exact T HT)
              (fun d w => eq_refl) (fun d w => eq_refl)
              (fun d Ht Hk => conj Ht Hk)
              (out_sum o0 (FAS.nodes st)) (out_sum o0 present)
              (out_sum i0 present)
              (fun n _ => out_bound _ n) (fun n _ => out_bound _ n)
              (fun n _ => in_bound _ n)
              ins nm1 mq1 nm2 mq2 mq64a)
    as (Fo2 & Fi2 & Ws2 & mq64b & E64b & Aq2).
  { apply (nw_keys_in _ _ _ N x ins Ei0). }
  { intros v w Hin _. unfold present.
    rewrite (out_sum_delete edges o0 i0 _ x v N Hnd Hx), Hin_row.
    rewrite (In_map_get ins v w (nw_keys_in _ _ _ N x ins Ei0) Hin).
    reflexivity. }
  { exact E2. }
  { intros n it Hn Em. rewrite (Fo1 n it Hn Em).
    destruct (set_has (map_keys ins) n) eqn:Ek; [reflexivity |].
    apply set_has_false in Ek. apply map_get_None in Ek. unfold present.
    rewrite (out_sum_delete edges o0 i0 _ x n N Hnd Hx), Hin_row, Ek.
    lia. }
  { exact Fi1. }
  { exact Ws1. }
  { exact Aq1. }
  split.
  - constructor; cbn [FAS.nodes FAS.outAdj FAS.inAdj FAS.nodeMap FAS.q].
    + intros n Hn. destruct (Hother n Hn) as (Hn' & Hne).
      rewrite map_get_delete_other by exact Hne. apply Wo. exact Hn'.
    + intros n Hn. destruct (Hother n Hn) as (Hn' & Hne).
      rewrite map_get_delete_other by exact Hne. apply Wi. exact Hn'.
    + intros n it Hn Em. destruct (Hother n Hn) as (Hn' & Hne).
      rewrite map_get_delete_other in Em by exact Hne.
      apply (Fo2 n it Hn Em).
    + intros n it Hn Em. destruct (Hother n Hn) as (Hn' & Hne).
      rewrite map_get_delete_other in Em by exact Hne.
      apply (Fi2 n it Hn Em).
    + exact Ws2.
  - unfold FAS64.removeNode. cbv zeta. rewrite An, Ao, Ai, Am.
    unfold as_table at 1. rewrite map_vals_get, Eo. cbn [option_map].
    fold present. rewrite E64a. cbn [bind fst snd].
    unfold as_table at 1. rewrite map_vals_get, Ei. cbn [option_map].
    rewrite E64b. cbn [bind fst snd].
    eexists. split; [reflexivity |].
    constructor; cbn [FAS.nodes FAS.outAdj FAS.inAdj FAS.nodeMap FAS.q
                        FAS64.nodes FAS64.outAdj FAS64.inAdj FAS64.nodeMap
                        FAS64.q].
    + reflexivity.
    + unfold as_table. apply map_vals_delete.
    + unfold as_table. apply map_vals_delete.
    + unfold as_wrappers. apply map_vals_delete.
    + exact Aq2.
Qed.

Lemma tracked_with_q (st : FAS.state) (mq : FAS.queue) :
  tracked T o0 i0 st -> within (small T) mq -> tracked T o0 i0 (with_q st mq).
Proof.
  intros [Wo Wi Fo Fi Ws] W. constructor; assumption.
Qed.

Lemma agrees_with_q (st : FAS.state) (st64 : FAS64.state) (mq : FAS.queue)
  (mq' : FAS64.queue) :
  agrees st st64 -> alike as_number mq mq' ->
  agrees (with_q st mq) (with_q64 st64 mq').
Proof.
  intros [An Ao Ai Am Aq] A. constructor; assumption.
Qed.

Lemma agrees_length (st : FAS.state) (st64 : FAS64.state) :
  agrees st st64 ->
  MultiQueue.length (FAS64.q st64) = MultiQueue.length (FAS.q st).
Proof.
  intros [_ _ _ _ [_ Hl _]]. unfold MultiQueue.length. rewrite Hl. reflexivity.
Qed.

(** With a node present both runs peek the same wrapper, pop it and remove
    its node. *)
Lemma take_root_agrees (key : FAS.view) (st : FAS.state) (st64 : FAS64.state) :
  fas_state_ok st -> FAS.nodes st <> [] ->
  tracked T o0 i0 st -> agrees st st64 ->
  exists it mq1 mq2 st' mq1' mq2' st64',
    FAS.q_peek key (FAS.q st) = Ret (Some (MultiQueue.data it), mq1) /\
    FAS.q_pop key mq1 = Ret (Some (MultiQueue.data it), mq2) /\
    FAS.removeNode (FAS.u (MultiQueue.data it)) (with_q st mq2) = Ret st' /\
    FAS64.q_peek key (FAS64.q st64)
    = Ret (Some (as_number (MultiQueue.data it)), mq1') /\
    FAS64.q_pop key mq1' = Ret (Some (as_number (MultiQueue.data it)), mq2') /\
    FAS64.removeNode (FAS.u (MultiQueue.data it)) (with_q64 st64 mq2')
    = Ret st64' /\
    (fas_state_ok (with_q st mq1) /\ tracked T o0 i0 (with_q st mq1) /\
     agrees (with_q st mq1) (with_q64 st64 mq1')) /\
    (fas_state_ok st' /\ tracked T o0 i0 st' /\ agrees st' st64') /\
    FAS.nodes st' = set_delete (FAS.nodes st) (FAS.u (MultiQueue.data it)) /\
    In (FAS.u (MultiQueue.data it)) (FAS.nodes st) /\
    small T (MultiQueue.data it).
Proof.
  intros Hst Hne Tr Ag.
  destruct (take_root key st Hst Hne)
    as (it & mq1 & mq2 & st' & E1 & E2 & E3 & Hst1 & Hst' & Hnodes & Hp & Em
        & Hhd & _).
  destruct (q_peek_agrees T HT key _ _ _ _ (ag_q _ _ Ag) (tk_small _ _ _ _ Tr) E1)
    as (mq1' & E1' & A1 & W1).
  destruct (q_pop_agrees T HT key _ _ _ _ A1 W1 E2) as (mq2' & E2' & A2 & W2).
  destruct (removeNode_agrees (FAS.u (MultiQueue.data it)) (with_q st mq2) st'
              (with_q64 st64 mq2'))
    as (Tr' & st64' & E3' & Ag').
  { apply (qd_nodup _ _ _ (so_queued _ Hst)). }
  { exact Hp. }
  { apply tracked_with_q; assumption. }
  { apply agrees_with_q; assumption. }
  { exact E3. }
  exists it, mq1, mq2, st', mq1', mq2', st64'.
  cbn [option_map] in E1', E2'.
  split; [exact E1 |]. split; [exact E2 |]. split; [exact E3 |].
  split; [exact E1' |]. split; [exact E2' |]. split; [exact E3' |].
  split.
  { split; [exact Hst1 |].
    split; [apply tracked_with_q | apply agrees_with_q]; assumption. }
  split; [split; [exact Hst' | split; [exact Tr' | exact Ag']] |].
  split; [exact Hnodes |]. split; [exact Hp |].
  apply (W1 key it). destruct (MultiQueue.qs mq1 key) as [| top rest];
    [discriminate |].
  injection Hhd as ->. left. reflexivity.
Qed.

Lemma place_agrees (at_right : bool) (x : string) (c : FAS.cursor)
  (c64 : FAS64.cursor) (st' : FAS.state) (st64' : FAS64.state) :
  agrees_cursor c c64 -> agrees st' st64' ->
  agrees_cursor (FAS.place at_right x c st') (FAS64.place at_right x c64 st64').
Proof.
  intros [As Ao Al Ar] Ag. unfold FAS.place, FAS64.place.
  destruct at_right; constructor;
    cbn [FAS.st FAS.order FAS.left FAS.right FAS64.st FAS64.order FAS64.left
           FAS64.right]; try assumption; congruence.
Qed.

(** An inner loop runs alike on both kinds of number. *)
Lemma drain_agrees (key : FAS.view) (weight : FAS.Data -> Z)
  (weight' : FAS64.Data -> float) (at_right : bool) :
  (forall d, small T d ->
     (weight' (as_number d) =? 0)%float = (weight d =? 0)%Z) ->
  forall fuel c c64,
    fas_state_ok (FAS.st c) -> tracked T o0 i0 (FAS.st c) ->
    agrees_cursor c c64 ->
    List.length (FAS.nodes (FAS.st c)) < fuel ->
    exists c' c64',
      FAS.drain fuel key weight at_right c = Ret c' /\
      FAS64.drain fuel key weight' at_right c64 = Ret c64' /\
      fas_state_ok (FAS.st c') /\ tracked T o0 i0 (FAS.st c') /\
      agrees_cursor c' c64' /\
      List.length (FAS.nodes (FAS.st c')) <= List.length (FAS.nodes (FAS.st c)).
Proof.
  intros Hw. induction fuel as [| fuel IH]; intros c c64 Hst Tr Ac Hf; [lia |].
  cbn [FAS.drain FAS64.drain].
  rewrite (agrees_length _ _ (ac_st _ _ Ac)).
  rewrite (queued_length _ _ _ (so_queued _ Hst)).
  destruct (Nat.eqb_spec (List.length (FAS.nodes (FAS.st c))) 0) as [E0 | Hne].
  { exists c, c64. auto 10. }
  destruct (take_root_agrees key (FAS.st c) (FAS64.st c64) Hst)
    as (it & mq1 & mq2 & st' & mq1' & mq2' & st64' & E1 & E2 & E3 & E1' & E2'
        & E3' & (Hst1 & Tr1 & Ag1) & (Hst' & Tr' & Ag') & Hnodes & Hp & Hsm).
  { intros E. rewrite E in Hne. simpl in Hne. lia. }
  { exact Tr. }
  { exact (ac_st _ _ Ac). }
  rewrite E1, E1'. cbn [bind fst snd]. rewrite (Hw _ Hsm).
  destruct (negb (weight (MultiQueue.data it) =? 0)%Z).
  - eexists _, _. split; [reflexivity |]. split; [reflexivity |].
    cbn [FAS.st]. fold (with_q (FAS.st c) mq1).
    split; [exact Hst1 |]. split; [exact Tr1 |]. split; [| simpl; lia].
    destruct Ac as [As Ao Al Ar].
    constructor; cbn [FAS.st FAS.order FAS.left FAS.right FAS64.st FAS64.order
                        FAS64.left FAS64.right]; assumption.
  - rewrite E2, E2'. cbn [bind fst snd].
    fold (with_q (FAS.st c) mq2). fold (with_q64 (FAS64.st c64) mq2').
    change (FAS64.u (as_number (MultiQueue.data it)))
      with (FAS.u (MultiQueue.data it)).
    rewrite E3, E3'. cbn [bind].
    assert (Hn' : FAS.nodes (FAS.st (FAS.place at_right
                     (FAS.u (MultiQueue.data it)) c st')) = FAS.nodes st').
    { destruct at_right; reflexivity. }
    assert (Hs' : FAS.st (FAS.place at_right (FAS.u (MultiQueue.data it)) c st')
                  = st').
    { destruct at_right; reflexivity. }
    pose proof (set_delete_length (FAS.nodes (FAS.st c)) _ Hp) as Hlen.
    destruct (IH (FAS.place at_right (FAS.u (MultiQueue.data it)) c st')
                (FAS64.place at_right (FAS.u (MultiQueue.data it)) c64 st64'))
      as (c' & c64' & E & E' & Hst'' & Tr'' & Ac'' & Hle).
    + rewrite Hs'. exact Hst'.
    + rewrite Hs'. exact Tr'.
    + apply place_agrees; assumption.
    + rewrite Hn', Hnodes. lia.
    + exists c', c64'. split; [exact E |]. split; [exact E' |].
      split; [exact Hst'' |]. split; [exact Tr'' |]. split; [exact Ac'' |].
      rewrite Hn', Hnodes in Hle. lia.
Qed.

Lemma outW_test (d : FAS.Data) :
  small T d -> (FAS64.outW (as_number d) =? 0)%float = (FAS.outW d =? 0)%Z.
Proof.
  intros [Ho _]. cbn [as_number FAS64.outW]. apply num_eqz.
  apply (small_exact T _ HT Ho).
Qed.

Lemma inW_test (d : FAS.Data) :
  small T d -> (FAS64.inW (as_number d) =? 0)%float = (FAS.inW d =? 0)%Z.
Proof.
  intros [_ Hi]. cbn [as_number FAS64.inW]. apply num_eqz.
  apply (small_exact T _ HT Hi).
Qed.

(** The main loop runs alike on both kinds of number. *)
Lemma main_loop_agrees :
  forall fuel c c64,
    fas_state_ok (FAS.st c) -> tracked T o0 i0 (FAS.st c) ->
    agrees_cursor c c64 ->
    List.length (FAS.nodes (FAS.st c)) < fuel ->
    exists c' c64',
      FAS.main_loop fuel c = Ret c' /\
      FAS64.main_loop fuel c64 = Ret c64' /\
      agrees_cursor c' c64'.
Proof.
  induction fuel as [| fuel IH]; intros c c64 Hst Tr Ac Hf; [lia |].
  cbn [FAS.main_loop FAS64.main_loop].
  rewrite (ag_nodes _ _ (ac_st _ _ Ac)).
  destruct (Nat.eqb_spec (List.length (FAS.nodes (FAS.st c))) 0) as [E0 | Hne].
  { exists c, c64. auto. }
  unfold FAS.drain_fuel, FAS64.drain_fuel.
  rewrite (agrees_length _ _ (ac_st _ _ Ac)).
  destruct (drain_agrees FAS.ByOutW FAS.outW FAS64.outW true outW_test
              (S (MultiQueue.length (FAS.q (FAS.st c)))) c c64 Hst Tr Ac)
    as (c1 & c1' & E1 & E1' & Hst1 & Tr1 & Ac1 & Hle1).
  { rewrite (queued_length _ _ _ (so_queued _ Hst)). lia. }
  rewrite E1, E1'. cbn [bind].
  rewrite (agrees_length _ _ (ac_st _ _ Ac1)).
  destruct (drain_agrees FAS.ByInW FAS.inW FAS64.inW false inW_test
              (S (MultiQueue.length (FAS.q (FAS.st c1)))) c1 c1' Hst1 Tr1 Ac1)
    as (c2 & c2' & E2 & E2' & Hst2 & Tr2 & Ac2 & Hle2).
  { rewrite (queued_length _ _ _ (so_queued _ Hst1)). lia. }
  rewrite E2, E2'. cbn [bind].
  destruct (q_pop_spec FAS.ByScore (FAS.q (FAS.st c2))) as (r & mq' & E3 & Hr).
  destruct (q_pop_agrees T HT FAS.ByScore _ _ _ _
              (ag_q _ _ (ac_st _ _ Ac2)) (tk_small _ _ _ _ Tr2) E3)
    as (mq64' & E3' & A3 & W3).
  rewrite E3, E3'. cbn [bind fst snd].
  pose proof Hst2 as [Q2 Hout2 Hin2].
  fold (with_q (FAS.st c2) mq'). fold (with_q64 (FAS64.st c2') mq64').
  destruct r as [it |]; cbn [option_map].
  - destruct (popped_queued _ _ _ _ FAS.ByScore it Q2 Hr) as (Hp & Em & Q3).
    destruct (removeNode_ok (FAS.u (MultiQueue.data it)) (with_q (FAS.st c2) mq'))
      as (st' & E4 & Hst' & Hnodes); cbn [with_q FAS.nodes FAS.nodeMap FAS.q
        FAS.outAdj FAS.inAdj]; auto.
    { apply (qd_nodup _ _ _ Q2). }
    destruct (removeNode_agrees (FAS.u (MultiQueue.data it))
                (with_q (FAS.st c2) mq') st' (with_q64 (FAS64.st c2') mq64'))
      as (Tr' & st64' & E4' & Ag').
    { apply (qd_nodup _ _ _ Q2). }
    { exact Hp. }
    { apply tracked_with_q; assumption. }
    { apply agrees_with_q; [exact (ac_st _ _ Ac2) | exact A3]. }
    { exact E4. }
    change (FAS64.u (as_number (MultiQueue.data it)))
      with (FAS.u (MultiQueue.data it)).
    rewrite E4, E4'. cbn [bind].
    cbn [with_q FAS.nodes] in Hnodes.
    pose proof (set_delete_length (FAS.nodes (FAS.st c2)) _ Hp) as Hlen.
    apply IH.
    + exact Hst'.
    + exact Tr'.
    + apply (place_agrees false); assumption.
    + cbn [FAS.place FAS.st]. rewrite Hnodes. lia.
  - eexists _, _. split; [reflexivity |]. split; [reflexivity |].
    destruct Ac2 as [As Ao Al Ar].
    constructor; cbn [FAS.st FAS.order FAS.left FAS.right FAS64.st FAS64.order
                        FAS64.left FAS64.right]; try assumption.
    apply agrees_with_q; assumption.
Qed.
End ExactRun.

(* ================================================================== *)
(** * The set-up on exact weights *)

Lemma num_zero : num 0 = 0%float.
Proof. reflexivity. Qed.

Lemma nodes_of_agrees (edges : list FAS.edge) :
  FAS64.nodes_of (as_numbers edges) = FAS.nodes_of edges.
Proof.
  unfold FAS64.nodes_of, FAS.nodes_of. generalize (@nil string).
  induction edges as [| e edges IH]; intros acc; [reflexivity |].
  cbn [as_numbers map fold_left fst snd]. apply IH.
Qed.

Lemma empty_adj_fold_agrees (ns : list string) (acc : FAS.adjacency) :
  fold_left (fun (adj : FAS64.adjacency) n => map_set adj n []) ns
    (as_table acc)
  = as_table (fold_left (fun (adj : FAS.adjacency) n => map_set adj n []) ns
                acc).
Proof.
  revert acc. induction ns as [| n ns IH]; intros acc; [reflexivity |].
  cbn [fold_left]. rewrite <- IH. f_equal. unfold as_table.
  apply (map_vals_set (map_vals num) acc n []).
Qed.

Lemma empty_adj_agrees (ns : list string) :
  FAS64.empty_adj ns = as_table (FAS.empty_adj ns).
Proof. apply (empty_adj_fold_agrees ns []). Qed.

Lemma adj_set_agrees (adj adj' : FAS.adjacency) (a b : string) (w : Z) :
  FAS.adj_set adj a b w = Ret adj' ->
  FAS64.adj_set (as_table adj) a b (num w) = Ret (as_table adj').
Proof.
  unfold FAS.adj_set, FAS64.adj_set, as_table. rewrite map_vals_get.
  destruct (map_get adj a) as [m |]; [| discriminate].
  intros [= <-]. cbn [option_map].
  rewrite (map_vals_set num m b w).
  rewrite (map_vals_set (map_vals num) adj a (map_set m b w)). reflexivity.
Qed.

Lemma fill_adj_agrees (edges : list FAS.edge) :
  forall (o i o' i' : FAS.adjacency),
    FAS.fill_adj edges (o, i) = Ret (o', i') ->
    FAS64.fill_adj (as_numbers edges) (as_table o, as_table i)
    = Ret (as_table o', as_table i').
Proof.
  unfold FAS.fill_adj, FAS64.fill_adj.
  induction edges as [| [[src dst] w] edges IH]; intros o i o' i' E.
  - injection E as <- <-. reflexivity.
  - cbn [for_each fst snd] in E. apply bind_Ret_inv in E.
    destruct E as ([o1 i1] & E1 & E).
    apply bind_Ret_inv in E1. destruct E1 as (o2 & Eo & E1).
    apply bind_Ret_inv in E1. destruct E1 as (i2 & Ei & E1).
    injection E1 as <- <-.
    cbn [as_numbers map for_each fst snd].
    rewrite (adj_set_agrees _ _ _ _ _ Eo). cbn [bind].
    rewrite (adj_set_agrees _ _ _ _ _ Ei). cbn [bind].
    apply (IH _ _ _ _ E).
Qed.

Section ExactSetUp.
Variable T : Z.
Hypothesis HT : (T < 2 ^ 52)%Z.

Lemma fold_add_exact (l : list Z) :
  (forall w, In w l -> (0 < w)%Z) ->
  forall a, (0 <= a)%Z -> (fold_left Z.add l a <= T)%Z ->
    fold_left PrimFloat.add (map num l) (num a) = num (fold_left Z.add l a).
Proof.
  change (2 ^ 52)%Z with 4503599627370496%Z in HT.
  induction l as [| x l IH]; intros Hpos a Ha Hsum; [reflexivity |].
  cbn [map fold_left] in *.
  assert (Hx : (0 < x)%Z) by (apply Hpos; simpl; auto).
  assert (Hl : (0 <= fold_left Z.add l 0)%Z).
  { clear - Hpos. assert (H : forall w, In w l -> (0 < w)%Z)
      by (intros w Hw; apply Hpos; simpl; auto).
    clear Hpos. induction l as [| y l IHl]; simpl; [lia |].
    rewrite fold_add_shift.
    assert (0 < y)%Z by (apply H; simpl; auto).
    assert (0 <= fold_left Z.add l 0)%Z
      by (apply IHl; intros w Hw; apply H; simpl; auto).
    lia. }
  rewrite fold_add_shift in Hsum.
  rewrite num_add by (change (2 ^ 53)%Z with 9007199254740992%Z; lia).
  apply IH.
  - intros w Hw. apply Hpos. simpl. auto.
  - lia.
  - rewrite fold_add_shift. lia.
Qed.

Lemma total_agrees (adj : FAS.adjacency) (n : string) (m : jsmap string Z) :
  map_get adj n = Some m ->
  (forall v w, In (v, w) m -> (0 < w)%Z) ->
  (fold_left Z.add (map snd m) 0 <= T)%Z ->
  FAS.total adj n = Ret (fold_left Z.add (map snd m) 0%Z) /\
  FAS64.total (as_table adj) n = Ret (num (fold_left Z.add (map snd m) 0%Z)) /\
  (0 <= fold_left Z.add (map snd m) 0)%Z.
Proof.
  intros Em Hpos Hsum. unfold FAS.total, FAS64.total, as_table.
  rewrite map_vals_get, Em. cbn [option_map].
  split; [reflexivity |].
  assert (Hpos' : forall w, In w (map snd m) -> (0 < w)%Z).
  { intros w Hw. apply in_map_iff in Hw. destruct Hw as ([v w'] & <- & Hin).
    apply (Hpos v w' Hin). }
  split.
  - f_equal. unfold map_vals. rewrite map_map. cbn [snd].
    rewrite <- (map_map snd num). rewrite <- num_zero.
    apply fold_add_exact; [exact Hpos' | lia | exact Hsum].
  - clear - Hpos'. induction (map snd m) as [| y l IHl]; simpl; [lia |].
    rewrite fold_add_shift.
    assert (0 < y)%Z by (apply Hpos'; simpl; auto).
    assert (0 <= fold_left Z.add l 0)%Z
      by (apply IHl; intros w Hw; apply Hpos'; simpl; auto).
    lia.
Qed.

(** The pushes of the set-up: each wrapper holds the totals of its node's
    two rows, and binary64 computes the same totals. *)
Lemma init_push_agrees (o i : FAS.adjacency) :
  (forall n m, map_get o n = Some m ->
     (forall v w, In (v, w) m -> (0 < w)%Z) /\
     (fold_left Z.add (map snd m) 0 <= T)%Z) ->
  (forall n m, map_get i n = Some m ->
     (forall v w, In (v, w) m -> (0 < w)%Z) /\
     (fold_left Z.add (map snd m) 0 <= T)%Z) ->
  forall rest nm (mq : FAS.queue) nm' (mq' : FAS.queue) (mq64 : FAS64.queue),
    for_each rest
      (fun n (nq : jsmap string (MultiQueue.Item FAS.Data) * FAS.queue) =>
         ow <- FAS.total o n ;;
         iw <- FAS.total i n ;;
         let (item, mq) := FAS.q_push (snd nq)
                             {| FAS.u := n; FAS.outW := ow; FAS.inW := iw |} in
         Ret (map_set (fst nq) n item, mq))
      (nm, mq) = Ret (nm', mq') ->
    within (small T) mq -> alike as_number mq mq64 ->
    (forall n it, map_get nm n = Some it ->
       exists outs ins, map_get o n = Some outs /\ map_get i n = Some ins /\
         FAS.outW (MultiQueue.data it) = fold_left Z.add (map snd outs) 0%Z /\
         FAS.inW (MultiQueue.data it) = fold_left Z.add (map snd ins) 0%Z) ->
    within (small T) mq' /\
    (forall n it, map_get nm' n = Some it ->
       exists outs ins, map_get o n = Some outs /\ map_get i n = Some ins /\
         FAS.outW (MultiQueue.data it) = fold_left Z.add (map snd outs) 0%Z /\
         FAS.inW (MultiQueue.data it) = fold_left Z.add (map snd ins) 0%Z) /\
    exists mq64' : FAS64.queue,
      for_each rest
        (fun n (nq : jsmap string (MultiQueue.Item FAS64.Data) * FAS64.queue) =>
           ow <- FAS64.total (as_table o) n ;;
           iw <- FAS64.total (as_table i) n ;;
           let (item, mq) := FAS64.q_push (snd nq)
                               {| FAS64.u := n; FAS64.outW := ow;
                                  FAS64.inW := iw |} in
           Ret (map_set (fst nq) n item, mq))
        (as_wrappers nm, mq64) = Ret (as_wrappers nm', mq64') /\
      alike as_number mq' mq64'.
Proof.
  intros Ho Hi.
  induction rest as [| n rest IH]; intros nm mq nm' mq' mq64 E W A Hrec.
  - injection E as <- <-. split; [exact W |]. split; [exact Hrec |].
    exists mq64. split; [reflexivity | exact A].
  - cbn [for_each] in E |- *. apply bind_Ret_inv in E.
    destruct E as ([nm1 mq1] & E1 & E).
    unfold FAS.total at 1 2 in E1.
    destruct (map_get o n) as [outs |] eqn:Eo; [| discriminate].
    destruct (map_get i n) as [ins |] eqn:Ei; [| discriminate].
    cbn [bind fst snd] in E1.
    destruct (Ho n outs Eo) as (Hop & Hos).
    destruct (Hi n ins Ei) as (Hip & His).
    destruct (total_agrees o n outs Eo Hop Hos) as (_ & Et & Hon).
    destruct (total_agrees i n ins Ei Hip His) as (_ & Et' & Hin).
    rewrite Et. cbn [bind]. rewrite Et'. cbn [bind fst snd].
    set (d := {| FAS.u := n; FAS.outW := fold_left Z.add (map snd outs) 0%Z;
                 FAS.inW := fold_left Z.add (map snd ins) 0%Z |}) in *.
    change {| FAS64.u := n;
              FAS64.outW := num (fold_left Z.add (map snd outs) 0%Z);
              FAS64.inW := num (fold_left Z.add (map snd ins) 0%Z) |}
      with (as_number d).
    assert (Sd : small T d) by (split; cbn [d FAS.outW FAS.inW]; lia).
    destruct (q_push_agrees T HT mq mq64 d A W Sd) as (Eit & A1 & W1).
    pose proof (q_push_spec mq d) as Hp. cbv zeta in Hp.
    destruct Hp as (Eitem & _).
    destruct (FAS.q_push mq d) as [item mq2].
    destruct (FAS64.q_push mq64 (as_number d)) as [item64 mq2'].
    cbn [fst snd] in Eit, A1, W1, Eitem. subst item64.
    injection E1 as <- <-. cbn [bind].
    unfold as_wrappers at 1. rewrite map_vals_set.
    apply (IH _ _ _ _ _ E W1 A1).
    intros n' it Em. destruct (string_dec n' n) as [-> | Hne].
    + rewrite map_get_set_same in Em. injection Em as <-.
      exists outs, ins. rewrite Eitem. auto.
    + rewrite map_get_set_other in Em by exact Hne. apply (Hrec n' it Em).
Qed.
End ExactSetUp.

Lemma alike_empty :
  alike as_number (MultiQueue.empty (T := FAS.Data) (PK := FAS.view))
    (MultiQueue.empty (T := FAS64.Data) (PK := FAS.view)).
Proof. constructor; reflexivity. Qed.

(** The set-up on exact weights: the binary64 state holds the numbers of the
    integer state, and every wrapper the sums of its node's weights. *)
Lemma init_agrees (edges : list FAS.edge) (T : Z) :
  arcs_positive edges -> (weight_sum edges <= T)%Z -> (T < 2 ^ 52)%Z ->
  exists st0 st64,
    FAS.init edges = Ret st0 /\
    FAS64.init (as_numbers edges) = Ret st64 /\
    FAS.nodes st0 = FAS.nodes_of edges /\
    fas_state_ok st0 /\
    network edges (FAS.outAdj st0) (FAS.inAdj st0) /\
    tracked T (FAS.outAdj st0) (FAS.inAdj st0) st0 /\
    agrees st0 st64.
Proof.
  intros Hpos HS HT.
  destruct (init_spec edges) as (st0 & E0 & Hnodes & Hst & N & _).
  exists st0. pose proof E0 as E0'. unfold FAS.init in E0'. cbv zeta in E0'.
  apply bind_Ret_inv in E0'. destruct E0' as ([o i] & Ef & E0').
  apply bind_Ret_inv in E0'. destruct E0' as ([nm mq] & Ep & E0').
  cbn [fst snd] in Ep, E0'. injection E0' as <-.
  cbn [FAS.nodes FAS.outAdj FAS.inAdj] in Hnodes, N.
  pose proof (network_flip _ _ _ N) as N'.
  pose proof (flip_positive _ Hpos) as Hpos'.
  assert (Ho : forall n m, map_get o n = Some m ->
            (forall v w, In (v, w) m -> (0 < w)%Z) /\
            (fold_left Z.add (map snd m) 0 <= T)%Z).
  { intros n m Em. split.
    - intros v w Hin. apply (table_positive edges o i N Hpos n m v w Em Hin).
    - pose proof (row_total edges o i N Hpos n m Em). lia. }
  assert (Hi : forall n m, map_get i n = Some m ->
            (forall v w, In (v, w) m -> (0 < w)%Z) /\
            (fold_left Z.add (map snd m) 0 <= T)%Z).
  { intros n m Em. split.
    - intros v w Hin.
      apply (table_positive (flip edges) i o N' Hpos' n m v w Em Hin).
    - pose proof (row_total (flip edges) i o N' Hpos' n m Em) as H.
      rewrite flip_sum in H. lia. }
  destruct (init_push_agrees T HT o i Ho Hi (FAS.nodes_of edges) [] _ nm mq
              MultiQueue.empty Ep)
    as (W & Hrec & mq64 & Ep' & A).
  { intros k it []. }
  { exact alike_empty. }
  { intros n it Em. discriminate. }
  exists {| FAS64.nodes := FAS.nodes_of edges; FAS64.outAdj := as_table o;
            FAS64.inAdj := as_table i; FAS64.nodeMap := as_wrappers nm;
            FAS64.q := mq64 |}.
  split; [exact E0 |]. split.
  { unfold FAS64.init. cbv zeta. rewrite nodes_of_agrees, empty_adj_agrees.
    rewrite (fill_adj_agrees edges _ _ _ _ Ef). cbn [bind fst snd].
    change (@nil (string * MultiQueue.Item FAS64.Data))
      with (as_wrappers (@nil (string * MultiQueue.Item FAS.Data))).
    unfold FAS64.queue, jsmap in Ep' |- *. rewrite Ep'. reflexivity. }
  split; [reflexivity |]. split; [exact Hst |]. split; [exact N |].
  assert (Hall : forall (edges' : list FAS.edge) (o' i' : FAS.adjacency),
            network edges' o' i' ->
            (forall x, mentioned edges' x -> In x (FAS.nodes_of edges)) ->
            forall n outs v w, map_get o' n = Some outs -> In (v, w) outs ->
              In v (FAS.nodes_of edges)).
  { intros edges' o' i' Nw Hm n outs v w Eo Hin. apply Hm.
    exists (n, v, w). split; [| simpl; auto].
    apply (nw_arcs _ _ _ Nw). unfold weight_of. rewrite Eo.
    apply In_map_get; [apply (nw_keys_out _ _ _ Nw n outs Eo) | exact Hin]. }
  split.
  - constructor; cbn [FAS.nodes FAS.outAdj FAS.inAdj FAS.nodeMap FAS.q].
    + reflexivity.
    + reflexivity.
    + intros n it Hn Em.
      destruct (Hrec n it Em) as (outs & ins & Eo & Ei & Eow & Eiw).
      rewrite Eow. unfold out_sum. rewrite Eo. symmetry. apply psum_all.
      intros v w Hin. apply (Hall edges o i N) with (n := n) (outs := outs) (w := w);
        [| exact Eo | exact Hin].
      intros x Hx. apply nodes_of_spec. exact Hx.
    + intros n it Hn Em.
      destruct (Hrec n it Em) as (outs & ins & Eo & Ei & Eow & Eiw).
      rewrite Eiw. unfold out_sum. rewrite Ei. symmetry. apply psum_all.
      intros v w Hin.
      apply (Hall (flip edges) i o N') with (n := n) (outs := ins) (w := w);
        [| exact Ei | exact Hin].
      intros x ([[a b] w'] & Hin' & Hx). apply nodes_of_spec.
      apply (proj1 (flip_In edges a b w')) in Hin'.
      exists (b, a, w'). split; [exact Hin' |]. cbn [fst snd] in *. tauto.
    + exact W.
  - constructor; cbn [FAS.nodes FAS.outAdj FAS.inAdj FAS.nodeMap FAS.q
                        FAS64.nodes FAS64.outAdj FAS64.inAdj FAS64.nodeMap
                        FAS64.q]; try reflexivity.
    exact A.
Qed.

(** On positive integer weights whose sum is below [2^52], [fasTopoSort]
    computes on binary64 numbers what its integer reading computes. *)
Lemma fasTopoSort_agrees (edges : list FAS.edge) :
  exact_weights edges ->
  FAS64.fasTopoSort (as_numbers edges) = FAS.fasTopoSort edges.
Proof.
  intros (Hpos & HT).
  destruct (init_agrees edges (weight_sum edges) Hpos (Z.le_refl _) HT)
    as (st0 & st64 & E0 & E0' & Hnodes & Hst & N & Tr & Ag).
  unfold FAS64.fasTopoSort, FAS.fasTopoSort. rewrite E0, E0'. cbn [bind].
  cbv zeta. rewrite (ag_nodes _ _ Ag).
  destruct (main_loop_agrees edges (FAS.outAdj st0) (FAS.inAdj st0) N Hpos
              (weight_sum edges) HT (Z.le_refl _)
              (S (List.length (FAS.nodes st0)))
              {| FAS.st := st0;
                 FAS.order := repeat None (List.length (FAS.nodes st0));
                 FAS.left := 0;
                 FAS.right := Z.of_nat (List.length (FAS.nodes st0)) - 1 |}
              {| FAS64.st := st64;
                 FAS64.order := repeat None (List.length (FAS.nodes st0));
                 FAS64.left := 0;
                 FAS64.right := Z.of_nat (List.length (FAS.nodes st0)) - 1 |})
    as (c' & c64' & E & E' & Ac).
  - exact Hst.
  - exact Tr.
  - constructor; cbn [FAS.st FAS.order FAS.left FAS.right FAS64.st FAS64.order
                        FAS64.left FAS64.right]; try reflexivity.
    exact Ag.
  - cbn [FAS.st]. lia.
  - rewrite E, E'. cbn [bind]. rewrite (ac_order _ _ Ac). reflexivity.
Qed.


(* ================================================================== *)
(** * The greedy sort *)

Lemma filled_inj (l l' : list string) : map Some l = map Some l' -> l = l'.
Proof.
  revert l'. induction l as [| x l IH]; intros [| y l'] E; try discriminate.
  - reflexivity.
  - simpl in E. injection E as -> E. f_equal. apply IH. exact E.
Qed.

(** Edges that all go up some ranking of the nodes have no cycle. *)
Lemma ranked_acyclic (rank : string -> nat) (edges : list FAS.edge) :
  (forall a b w, In (a, b, w) edges -> rank a < rank b) ->
  arcs_acyclic edges.
Proof.
  intros Hr.
  assert (Hup : forall x y, clos_trans string (arc edges) x y ->
            rank x < rank y).
  { induction 1 as [x y (w & Hin) | x y z _ IH1 _ IH2].
    - apply (Hr x y w Hin).
    - lia. }
  intros x Hx. specialize (Hup x x Hx). lia.
Qed.

(** C7 as stated fails. The weights of [fasTopoSort] are binary64 numbers:
    on the edges [c -> d], [d -> z], [b -> c] of weight [1] and [b -> z] of
    weight [2^53], which have no cycle and are positive, the weight out of
    [b] is [2^53 + 1], rounded to [2^53]; once [z] is taken, [b] is left
    with weight [0] and is taken for a sink while [c] still has its edge to
    [d]. The result puts [b] after [c], against the edge [b -> c]. *)
Lemma fasTopoSort_rounded_sum_misorders :
  let ints := [("c", "d", 1%Z); ("d", "z", 1%Z);
               ("b", "z", 9007199254740992%Z); ("b", "c", 1%Z)]%string in
  as_numbers ints
  = [("c", "d", 1%float); ("d", "z", 1%float);
     ("b", "z", 9007199254740992%float); ("b", "c", 1%float)]%string /\
  arcs_positive ints /\ arcs_acyclic ints /\
  FAS64.fasTopoSort (as_numbers ints)
  = Ret (map Some ["c"; "d"; "b"; "z"]%string) /\
  In ("b", "c", 1%Z)%string ints /\
  ~ precedes ["c"; "d"; "b"; "z"]%string "b"%string "c"%string.
Proof.
  cbv zeta. split; [reflexivity |]. split; [| split; [| split; [| split]]].
  - intros a b w Hin. simpl in Hin.
    destruct Hin as [Hin | [Hin | [Hin | [Hin | []]]]];
      injection Hin as <- <- <-; reflexivity.
  - apply (ranked_acyclic
             (fun s => if String.eqb s "b" then 0
                       else if String.eqb s "c" then 1
                       else if String.eqb s "d" then 2 else 3)%string).
    intros a b w Hin. simpl in Hin.
    destruct Hin as [Hin | [Hin | [Hin | [Hin | []]]]];
      injection Hin as <- <- <-; simpl; lia.
  - vm_compute. reflexivity.
  - simpl. auto.
  - intros (l1 & l2 & l3 & E).
    destruct l1 as [| x1 [| x2 [| x3 [| x4 l1]]]]; simpl in E;
      try discriminate.
    + assert (E' : ["z"%string] = l2 ++ "c"%string :: l3) by congruence.
      destruct l2 as [| y [| y' l2]]; discriminate.
    + assert (E' : @nil string = l1 ++ "b"%string :: l2 ++ "c"%string :: l3)
        by congruence.
      destruct l1; discriminate.
Qed.

(** C7, as amended. For every list of weighted edges [fasTopoSort] returns:
    its result has no hole, it is a permutation of the set of the nodes the
    edges mention, each node once, whatever the weights are (rounded sums,
    infinities and NaN included); and when the weights are positive integers
    whose sum is below [2^52], so that no sum or difference of weights is
    rounded, and the edges have no cycle, the source of every edge comes
    before its destination in the result. *)
Theorem fasTopoSort_permutation_exact_arcs (edges : list FAS64.edge) :
  exists out,
    FAS64.fasTopoSort edges = Ret (map Some out) /\
    Permutation out (FAS64.nodes_of edges) /\
    NoDup out /\
    (forall x, In x out <-> mentioned64 edges x) /\
    (forall ints : list FAS.edge,
       edges = as_numbers ints -> exact_weights ints -> arcs_acyclic ints ->
       forall a b w, In (a, b, w) ints -> precedes out a b).
Proof.
  destruct (fasTopoSort_nodes64 edges) as (out & E & P).
  destruct (nodes_of_spec64 edges) as (Hnd & Hment).
  exists out. split; [exact E |]. split; [exact P |]. split.
  { apply (Permutation_NoDup (Permutation_sym P)). exact Hnd. }
  split.
  { intros x. rewrite <- Hment. split; intros Hx.
    - apply (Permutation_in x P Hx).
    - apply (Permutation_in x (Permutation_sym P) Hx). }
  intros ints -> Hex Hacyc.
  destruct (fasTopoSort_edges ints Hacyc (proj1 Hex)) as (out' & E' & Hord).
  rewrite (fasTopoSort_agrees ints Hex), E' in E. injection E as E.
  apply filled_inj in E. subst out'. exact Hord.
Qed.

Lemma fasTopoSort_permutation_exact_arcs_witness :
  exists out,
    FAS64.fasTopoSort
      [("a", "b", 2%float); ("b", "c", 1%float); ("a", "c", 3%float)]%string
    = Ret (map Some out) /\
    precedes out "a"%string "b"%string /\
    precedes out "b"%string "c"%string /\
    precedes out "a"%string "c"%string.
Proof.
  destruct (fasTopoSort_permutation_exact_arcs
              [("a", "b", 2%float); ("b", "c", 1%float);
               ("a", "c", 3%float)]%string)
    as (out & E & _ & _ & _ & Hord).
  exists out. split; [exact E |].
  specialize (Hord [("a", "b", 2%Z); ("b", "c", 1%Z); ("a", "c", 3%Z)]%string
                eq_refl).
  assert (Hex : exact_weights
            [("a", "b", 2%Z); ("b", "c", 1%Z); ("a", "c", 3%Z)]%string).
  { split; [| reflexivity].
    intros a b w Hin. simpl in Hin.
    destruct Hin as [Hin | [Hin | [Hin | []]]]; injection Hin as <- <- <-;
      reflexivity. }
  assert (Hacyc : arcs_acyclic
            [("a", "b", 2%Z); ("b", "c", 1%Z); ("a", "c", 3%Z)]%string).
  { apply (ranked_acyclic
             (fun s => if String.eqb s "a" then 0
                       else if String.eqb s "b" then 1 else 2)%string).
    intros a b w Hin. simpl in Hin.
    destruct Hin as [Hin | [Hin | [Hin | []]]]; injection Hin as <- <- <-;
      simpl; lia. }
  split; [| split].
  - apply (Hord Hex Hacyc "a" "b" 2%Z)%string. simpl. auto.
  - apply (Hord Hex Hacyc "b" "c" 1%Z)%string. simpl. auto.
  - apply (Hord Hex Hacyc "a" "c" 3%Z)%string. simpl. auto.
Defined.


(* ================================================================== *)
(** * The priority queue with any comparator *)

(** X1. Whatever the comparator (stateful, inconsistent or not), the queue
    neither loses nor invents a value: after any sequence of pushes and pops
    on a queue holding [q], the values popped together with the values left
    are the values of [q] together with the values pushed. *)
Theorem priority_queue_conserves :
  forall (T St R : Type) (HR : Number R) (cmp : Comparator T St R)
         (ops : list (pq_op T)) (q : list T) (s : St),
    Permutation
      (popped (fst (pq_run cmp ops q s)) ++ snd (pq_run cmp ops q s))
      (q ++ pushed ops).
Proof.
  intros T St R HR cmp ops.
  induction ops as [| [x |] ops IH]; intros q s; cbn [pq_run].
  - simpl. now rewrite app_nil_r.
  - pose proof (push_perm cmp q x s) as P.
    destruct (PriorityQueue.push cmp q x s) as [q' s']. cbn [fst] in P.
    rewrite (IH q' s'). cbn [pushed flat_map]. fold (pushed ops).
    rewrite P. simpl. apply Permutation_middle.
  - destruct q as [| top q0].
    + rewrite pop_empty. specialize (IH (@nil T) s).
      destruct (pq_run cmp ops [] s) as [out qf]. exact IH.
    + destruct (pop_nonempty cmp top q0 s) as (q' & s' & E & P).
      rewrite E. specialize (IH q' s').
      destruct (pq_run cmp ops q' s') as [out qf]. cbn [fst snd popped] in *.
      simpl. rewrite IH. cbn [pushed flat_map]. fold (pushed ops). simpl.
      apply (Permutation_app_tail (pushed ops) P).
Qed.

(* ================================================================== *)
(** * The multi-view queue: what comes out first *)

Section MultiQueueOrder.
Context {T PK St R : Type} `{EqDec PK} `{Number R}.
Variable pKeys : list PK.
Variable pCmps : PK -> Comparator T St R.
Variable key : PK.
Variable le : MultiQueue.Item T -> MultiQueue.Item T -> Prop.
Hypothesis le_trans : forall a b c, le a b -> le b c -> le a c.
Hypothesis lt_le : forall a b s,
  ltz (fst (MultiQueue.item_cmp pCmps key a b s)) = true -> le a b.
Hypothesis ge_le : forall a b s,
  ltz (fst (MultiQueue.item_cmp pCmps key a b s)) = false -> le b a.

Lemma heap_least (q : list (MultiQueue.Item T)) (top x : MultiQueue.Item T)
  (s : St) :
  heap le q -> hd_error q = Some top -> In x q -> le top x.
Proof.
  intros Hh Hhd Hx. apply In_nth_error in Hx. destruct Hx as (j & Hj).
  apply (heap_root_least _ le le_trans lt_le ge_le q s Hh j top x); [| exact Hj].
  destruct q; [discriminate | exact Hhd].
Qed.

(** [pop] keeps the view a heap, and what it returns is not after any live
    wrapper of the view. *)
Lemma pop_loop_least (fuel : nat) (mq mq' : MultiQueue.t (T := T) (PK := PK))
  (s s' : St) (r : option (MultiQueue.Item T)) :
  MultiQueue.pop_loop pCmps fuel key mq s = Ret (r, mq', s') ->
  heap le (MultiQueue.qs mq key) ->
  heap le (MultiQueue.qs mq' key) /\
  forall it, r = Some it ->
    forall x, In x (MultiQueue.qs mq key) ->
      In (MultiQueue.id x) (MultiQueue.live mq) -> le it x.
Proof.
  revert mq s. induction fuel as [| fuel IH]; intros mq s E Hh; [discriminate |].
  cbn [MultiQueue.pop_loop] in E.
  destruct (MultiQueue.qs mq key) as [| top q] eqn:Eq.
  - simpl in E. injection E as <- <- <-. rewrite Eq. split; [exact Hh |].
    intros it [=].
  - cbn [PriorityQueue.peek nth_error] in E.
    pose proof (pop_heap _ le le_trans lt_le ge_le (top :: q) s Hh) as Hh'.
    destruct (pop_nonempty (MultiQueue.item_cmp pCmps key) top q s)
      as (q' & s1 & Ep & P).
    rewrite Ep in E, Hh'. cbn [fst snd] in Hh'.
    destruct (set_has (MultiQueue.live mq) (MultiQueue.id top)) eqn:El.
    + injection E as <- <- <-. cbn [MultiQueue.qs].
      unfold MultiQueue.set_q. destruct (eq_dec key key); [| congruence].
      split; [exact Hh' |]. intros it [= <-] x Hx _.
      apply (heap_least (top :: q) top x s Hh eq_refl Hx).
    + apply IH in E.
      * cbn [MultiQueue.qs MultiQueue.live] in E. unfold MultiQueue.set_q in E.
        destruct (eq_dec key key); [| congruence].
        destruct E as (Hh2 & Hleast). split; [exact Hh2 |].
        intros it Hr x Hx Hl. apply (Hleast it Hr x); [| exact Hl].
        apply (Permutation_in x (Permutation_sym P)) in Hx.
        destruct Hx as [<- | Hx]; [| exact Hx].
        apply set_has_false in El. contradiction.
      * cbn [MultiQueue.qs]. unfold MultiQueue.set_q.
        destruct (eq_dec key key); [exact Hh' | congruence].
Qed.

(** The same for [peek]. *)
Lemma peek_loop_least (fuel : nat) (mq mq' : MultiQueue.t (T := T) (PK := PK))
  (s s' : St) (r : option (MultiQueue.Item T)) :
  MultiQueue.peek_loop pCmps fuel key mq s = Ret (r, mq', s') ->
  heap le (MultiQueue.qs mq key) ->
  heap le (MultiQueue.qs mq' key) /\
  forall it, r = Some it ->
    forall x, In x (MultiQueue.qs mq key) ->
      In (MultiQueue.id x) (MultiQueue.live mq) -> le it x.
Proof.
  revert mq s. induction fuel as [| fuel IH]; intros mq s E Hh; [discriminate |].
  cbn [MultiQueue.peek_loop] in E.
  destruct (MultiQueue.qs mq key) as [| top q] eqn:Eq.
  - simpl in E. injection E as <- <- <-. rewrite Eq. split; [exact Hh |].
    intros it [=].
  - cbn [PriorityQueue.peek nth_error] in E.
    destruct (set_has (MultiQueue.live mq) (MultiQueue.id top)) eqn:El.
    + injection E as <- <- <-. rewrite Eq.
      split; [exact Hh |]. intros it [= <-] x Hx _.
      apply (heap_least (top :: q) top x s Hh eq_refl Hx).
    + pose proof (pop_heap _ le le_trans lt_le ge_le (top :: q) s Hh) as Hh'.
      destruct (pop_nonempty (MultiQueue.item_cmp pCmps key) top q s)
        as (q' & s1 & Ep & P).
      rewrite Ep in E, Hh'. cbn [fst snd] in Hh'.
      apply IH in E.
      * cbn [MultiQueue.qs MultiQueue.live] in E. unfold MultiQueue.set_q in E.
        destruct (eq_dec key key); [| congruence].
        destruct E as (Hh2 & Hleast). split; [exact Hh2 |].
        intros it Hr x Hx Hl. apply (Hleast it Hr x); [| exact Hl].
        apply (Permutation_in x (Permutation_sym P)) in Hx.
        destruct Hx as [<- | Hx]; [| exact Hx].
        apply set_has_false in El. contradiction.
      * cbn [MultiQueue.qs]. unfold MultiQueue.set_q.
        destruct (eq_dec key key); [exact Hh' | congruence].
Qed.
End MultiQueueOrder.

Section MultiQueueRuns.
Context {T PK : Type} `{EqDec PK}.
Variable pKeys : list PK.
Variable f : PK -> T -> T -> Z.
Hypothesis f_ok : forall k, total_preorder (f k).
Hypothesis keys_nodup : NoDup pKeys.
Hypothesis keys_all : forall k, In k pKeys.

Local Abbreviation pCmps := (fun k => pure_cmp (f k) : Comparator T unit Z).
Local Abbreviation le :=
  (fun k (a b : MultiQueue.Item T) =>
     not_after (f k) (MultiQueue.data a) (MultiQueue.data b)).
Local Abbreviation mqueue := (MultiQueue.t (T := T) (PK := PK)).

Lemma view_le_trans (k : PK) (a b c : MultiQueue.Item T) :
  le k a b -> le k b c -> le k a c.
Proof. unfold not_after. apply (proj2 (f_ok k)). Qed.

Lemma view_lt_le (k : PK) (a b : MultiQueue.Item T) (s : unit) :
  ltz (fst (MultiQueue.item_cmp pCmps k a b s)) = true -> le k a b.
Proof.
  unfold MultiQueue.item_cmp, pure_cmp, ltz, Z_Number, not_after. cbn [fst].
  intros E. apply Z.ltb_lt in E. lia.
Qed.

Lemma view_ge_le (k : PK) (a b : MultiQueue.Item T) (s : unit) :
  ltz (fst (MultiQueue.item_cmp pCmps k a b s)) = false -> le k b a.
Proof.
  unfold MultiQueue.item_cmp, pure_cmp, ltz, Z_Number, not_after. cbn [fst].
  intros E. apply Z.ltb_ge in E.
  pose proof (proj1 (f_ok k) (MultiQueue.data a) (MultiQueue.data b)) as Hs.
  destruct (Z_le_gt_dec (f k (MultiQueue.data b) (MultiQueue.data a)) 0)
    as [Hle | Hgt]; [exact Hle |].
  assert (f k (MultiQueue.data a) (MultiQueue.data b) < 0)%Z
    by (apply Hs; lia).
  lia.
Qed.

Lemma ordered_empty : mq_ordered le [] (MultiQueue.empty (T := T) (PK := PK)).
Proof.
  constructor; simpl; try (intros; contradiction); try constructor.
  intros k j x p _ Ex. destruct j; discriminate.
Qed.

Lemma ordered_push (pushed : list (MultiQueue.Item T)) (mq : mqueue) (d : T) :
  mq_ordered le pushed mq ->
  mq_ordered le (pushed ++ [fst (fst (MultiQueue.push pKeys pCmps mq d tt))])
    (snd (fst (MultiQueue.push pKeys pCmps mq d tt))).
Proof.
  intros [Hh Hv Hl Hp Hn Hf].
  destruct (push_live pKeys pCmps mq d tt) as (Eit & El & En).
  pose proof (fun k => push_views pKeys pCmps mq d tt k keys_nodup (keys_all k))
    as Hperm.
  pose proof (fun k => push_keeps pKeys pCmps k (heap (le k)) mq d tt
                (fun q it s => push_heap _ (le k) (view_le_trans k)
                                 (view_lt_le k) (view_ge_le k) q it s)
                (Hh k)) as Hheap.
  cbv zeta in *.
  destruct (MultiQueue.push pKeys pCmps mq d tt) as [[it mq1] s1].
  cbn [fst snd] in *.
  constructor.
  - exact Hheap.
  - intros it' Hin Hlive k. apply (Permutation_in it' (Permutation_sym (Hperm k))).
    apply in_app_or in Hin. destruct Hin as [Hin | [<- | []]]; [| simpl; auto].
    right. apply Hv; [exact Hin |].
    rewrite El in Hlive. apply set_add_In in Hlive.
    destruct Hlive as [E | Hlive]; [| exact Hlive].
    specialize (Hf it' Hin). lia.
  - intros i Hi. rewrite El in Hi. apply set_add_In in Hi.
    destruct Hi as [-> | Hi].
    + exists it. split; [apply in_or_app; simpl; auto |].
      rewrite Eit. reflexivity.
    + destruct (Hl i Hi) as (it' & Hin & E). exists it'.
      split; [apply in_or_app; auto | exact E].
  - intros k it' Hin. apply (Permutation_in it' (Hperm k)) in Hin.
    apply in_or_app. destruct Hin as [<- | Hin]; [simpl; auto |].
    left. apply (Hp k it' Hin).
  - rewrite El. apply set_add_NoDup. exact Hn.
  - intros it' Hin. rewrite En. apply in_app_or in Hin.
    destruct Hin as [Hin | [<- | []]].
    + specialize (Hf it' Hin). lia.
    + rewrite Eit. simpl. lia.
Qed.

(** A queue that lost dead wrappers of one view only, or a live wrapper
    together with its id. *)
Lemma ordered_shrink (pushed : list (MultiQueue.Item T)) (mq mq' : mqueue)
  (key : PK) :
  mq_ordered le pushed mq ->
  heap (le key) (MultiQueue.qs mq' key) ->
  MultiQueue.nextId mq' = MultiQueue.nextId mq ->
  (forall k, k <> key -> MultiQueue.qs mq' k = MultiQueue.qs mq k) ->
  (forall x, In x (MultiQueue.qs mq' key) -> In x (MultiQueue.qs mq key)) ->
  (forall x, In x (MultiQueue.qs mq key) ->
             In (MultiQueue.id x) (MultiQueue.live mq') ->
             In x (MultiQueue.qs mq' key)) ->
  NoDup (MultiQueue.live mq') ->
  (forall i, In i (MultiQueue.live mq') -> In i (MultiQueue.live mq)) ->
  mq_ordered le pushed mq'.
Proof.
  intros [Hh Hv Hl Hp Hn Hf] Hheap En Ho Hs Hk Hn' Hsub.
  constructor.
  - intros k. destruct (eq_dec k key) as [-> | Hne]; [exact Hheap |].
    rewrite (Ho k Hne). apply Hh.
  - intros it Hin Hlive k. destruct (eq_dec k key) as [-> | Hne].
    + apply Hk; [| exact Hlive]. apply Hv; [exact Hin | apply Hsub, Hlive].
    + rewrite (Ho k Hne). apply Hv; [exact Hin | apply Hsub, Hlive].
  - intros i Hi. apply Hl. apply Hsub. exact Hi.
  - intros k it Hin. destruct (eq_dec k key) as [-> | Hne].
    + apply (Hp key). apply Hs. exact Hin.
    + rewrite (Ho k Hne) in Hin. apply (Hp k it Hin).
  - exact Hn'.
  - intros it Hin. rewrite En. apply Hf. exact Hin.
Qed.

Lemma ordered_pop (pushed : list (MultiQueue.Item T)) (mq : mqueue) (key : PK) :
  mq_ordered le pushed mq ->
  exists r mq',
    MultiQueue.pop_item pCmps key mq tt = Ret (r, mq', tt) /\
    mq_ordered le pushed mq' /\
    match r with
    | Some it =>
        In it pushed /\ In (MultiQueue.id it) (MultiQueue.live mq) /\
        forall it', In it' pushed -> In (MultiQueue.id it') (MultiQueue.live mq) ->
          le key it it'
    | None => MultiQueue.live mq = []
    end.
Proof.
  intros M. unfold MultiQueue.pop_item.
  destruct (pop_loop_views pCmps (S (List.length (MultiQueue.qs mq key))) key mq tt)
    as (r & mq' & [] & E & En & Ho & Hs & Hr); [lia |].
  destruct (pop_loop_least pCmps key (le key) (view_le_trans key)
              (view_lt_le key) (view_ge_le key) _ mq mq' tt tt r E
              (mo_heap _ _ _ M key)) as (Hheap & Hleast).
  exists r, mq'. split; [exact E |].
  destruct r as [it |].
  - destruct Hr as (Hin & Hlive & El & Hkeep). split.
    + apply (ordered_shrink pushed mq mq' key M Hheap En Ho Hs).
      * intros x Hx Hlx. rewrite El in Hlx.
        apply set_delete_In in Hlx; [| apply (mo_nodup _ _ _ M)].
        destruct Hlx as (Hlx & Hne).
        destruct (Hkeep x Hx Hlx) as [-> | Hx']; [congruence | exact Hx'].
      * rewrite El. apply set_delete_NoDup. apply (mo_nodup _ _ _ M).
      * intros i Hi. rewrite El in Hi. apply (set_delete_incl _ _ _ Hi).
    + split; [apply (mo_pushed _ _ _ M key it Hin) |].
      split; [exact Hlive |].
      intros it' Hp' Hl'. apply (Hleast it eq_refl it'); [| exact Hl'].
      apply (mo_views _ _ _ M it' Hp' Hl' key).
  - destruct Hr as (El & Hdead). split.
    + apply (ordered_shrink pushed mq mq' key M Hheap En Ho Hs).
      * intros x Hx Hlx. rewrite El in Hlx. exfalso. exact (Hdead x Hx Hlx).
      * rewrite El. apply (mo_nodup _ _ _ M).
      * intros i Hi. rewrite El in Hi. exact Hi.
    + assert (Hnone : forall i, ~ In i (MultiQueue.live mq)).
      { intros i Hi. destruct (mo_live _ _ _ M i Hi) as (it & Hp' & Eid).
        apply (Hdead it); [| rewrite Eid; exact Hi].
        apply (mo_views _ _ _ M it Hp'). rewrite Eid. exact Hi. }
      destruct (MultiQueue.live mq) as [| i rest]; [reflexivity |].
      exfalso. apply (Hnone i). simpl. auto.
Qed.

Lemma ordered_peek (pushed : list (MultiQueue.Item T)) (mq : mqueue) (key : PK) :
  mq_ordered le pushed mq ->
  exists r mq',
    MultiQueue.peek_item pCmps key mq tt = Ret (r, mq', tt) /\
    mq_ordered le pushed mq' /\
    match r with
    | Some it =>
        In it pushed /\ In (MultiQueue.id it) (MultiQueue.live mq) /\
        forall it', In it' pushed -> In (MultiQueue.id it') (MultiQueue.live mq) ->
          le key it it'
    | None => MultiQueue.live mq = []
    end.
Proof.
  intros M. unfold MultiQueue.peek_item.
  destruct (peek_loop_views pCmps (S (List.length (MultiQueue.qs mq key))) key mq tt)
    as (r & mq' & [] & E & En & El & Ho & Hs & Hk & Hr); [lia |].
  destruct (peek_loop_least pCmps key (le key) (view_le_trans key)
              (view_lt_le key) (view_ge_le key) _ mq mq' tt tt r E
              (mo_heap _ _ _ M key)) as (Hheap & Hleast).
  exists r, mq'. split; [exact E |]. split.
  - apply (ordered_shrink pushed mq mq' key M Hheap En Ho Hs).
    + intros x Hx Hlx. rewrite El in Hlx. apply (Hk x Hx Hlx).
    + rewrite El. apply (mo_nodup _ _ _ M).
    + intros i Hi. rewrite El in Hi. exact Hi.
  - destruct r as [it |].
    + destruct Hr as (Hhd & Hlive).
      split.
      { apply (mo_pushed _ _ _ M key it). apply Hs.
        destruct (MultiQueue.qs mq' key); [discriminate |].
        injection Hhd as ->. simpl. auto. }
      split; [exact Hlive |].
      intros it' Hp' Hl'. apply (Hleast it eq_refl it'); [| exact Hl'].
      apply (mo_views _ _ _ M it' Hp' Hl' key).
    + assert (Hnone : forall i, ~ In i (MultiQueue.live mq)).
      { intros i Hi. destruct (mo_live _ _ _ M i Hi) as (it & Hp' & Eid).
        apply (Hr it); [| rewrite Eid; exact Hi].
        apply (mo_views _ _ _ M it Hp'). rewrite Eid. exact Hi. }
      destruct (MultiQueue.live mq) as [| i rest]; [reflexivity |].
      exfalso. apply (Hnone i). simpl. auto.
Qed.

Lemma ordered_delete (pushed : list (MultiQueue.Item T)) (mq : mqueue) (i : nat) :
  mq_ordered le pushed mq -> mq_ordered le pushed (MultiQueue.delete i mq).
Proof.
  intros [Hh Hv Hl Hp Hn Hf]. unfold MultiQueue.delete.
  constructor; cbn [MultiQueue.qs MultiQueue.live MultiQueue.nextId].
  - exact Hh.
  - intros it Hin Hlive. apply Hv; [exact Hin |].
    apply (set_delete_incl _ _ _ Hlive).
  - intros j Hj. apply Hl. apply (set_delete_incl _ _ _ Hj).
  - exact Hp.
  - apply set_delete_NoDup. exact Hn.
  - exact Hf.
Qed.

Lemma mq_run_ordered (ops : list (mq_op T PK)) (mq : mqueue)
  (pushed : list (MultiQueue.Item T)) :
  mq_ordered le pushed mq ->
  exists evs mq',
    mq_run pKeys pCmps ops mq tt = Ret (evs, mq') /\
    mq_ordered le (pushed ++ pushed_items evs) mq'.
Proof.
  revert mq pushed.
  induction ops as [| [d | k | k | i] ops IH]; intros mq pushed M; cbn [mq_run].
  - exists [], mq. simpl. rewrite app_nil_r. auto.
  - pose proof (ordered_push pushed mq d M) as M1.
    destruct (MultiQueue.push pKeys pCmps mq d tt) as [[it mq1] []].
    cbn [fst snd] in M1.
    destruct (IH mq1 _ M1) as (evs & mq' & E & M').
    rewrite E. cbn [bind fst snd]. eexists _, _. split; [reflexivity |].
    cbn [pushed_items flat_map]. fold (pushed_items evs).
    rewrite <- app_assoc in M'. exact M'.
  - destruct (ordered_pop pushed mq k M) as (r & mq1 & E1 & M1 & _).
    rewrite E1. cbn [bind fst snd].
    destruct (IH mq1 _ M1) as (evs & mq' & E & M').
    rewrite E. cbn [bind fst snd]. eexists _, _. split; [reflexivity |].
    exact M'.
  - destruct (ordered_peek pushed mq k M) as (r & mq1 & E1 & M1 & _).
    rewrite E1. cbn [bind fst snd].
    destruct (IH mq1 _ M1) as (evs & mq' & E & M').
    rewrite E. cbn [bind fst snd]. eexists _, _. split; [reflexivity |].
    exact M'.
  - destruct (IH _ _ (ordered_delete pushed mq i M)) as (evs & mq' & E & M').
    rewrite E. cbn [bind fst snd]. eexists _, _. split; [reflexivity |].
    exact M'.
Qed.

Lemma pushed_items_In (evs : list (mq_event T)) (it : MultiQueue.Item T) :
  In it (pushed_items evs) <-> In (EvPushed it) evs.
Proof.
  induction evs as [| ev evs IH]; simpl; [tauto |].
  rewrite in_app_iff, IH. destruct ev; simpl; intuition congruence.
Qed.
End MultiQueueRuns.

(** X2. With every view ordered by a three-way comparator of a total
    preorder, after any interleaved sequence of push, pop, peek and delete on
    a fresh queue: a [pop] and a [peek] through a view return the payload of
    a wrapper that was pushed, is still live, and is not after any other live
    payload in the order of that view; they return [undefined] only when no
    id is live. *)
Theorem multi_queue_returns_least :
  forall (T PK : Type) (HPK : EqDec PK) (pKeys : list PK)
         (f : PK -> T -> T -> Z),
    (forall k, total_preorder (f k)) ->
    NoDup pKeys -> (forall k, In k pKeys) ->
    forall (ops : list (mq_op T PK)) (key : PK),
    exists evs mq,
      mq_run pKeys (fun k => pure_cmp (f k) : Comparator T unit Z) ops
        MultiQueue.empty tt = Ret (evs, mq) /\
      (exists r mq',
         MultiQueue.pop_item (fun k => pure_cmp (f k) : Comparator T unit Z)
           key mq tt = Ret (r, mq', tt) /\
         least_live f key evs mq r) /\
      (exists r mq',
         MultiQueue.peek_item (fun k => pure_cmp (f k) : Comparator T unit Z)
           key mq tt = Ret (r, mq', tt) /\
         least_live f key evs mq r).
Proof.
  intros T PK HPK pKeys f Hf Hn Hall ops key.
  destruct (mq_run_ordered pKeys f Hf Hn Hall ops MultiQueue.empty []
              (ordered_empty f)) as (evs & mq & E & M).
  simpl in M. exists evs, mq. split; [exact E |].
  assert (Hleast : forall r,
            match r with
            | Some it =>
                In it (pushed_items evs) /\
                In (MultiQueue.id it) (MultiQueue.live mq) /\
                (forall it', In it' (pushed_items evs) ->
                   In (MultiQueue.id it') (MultiQueue.live mq) ->
                   not_after (f key) (MultiQueue.data it) (MultiQueue.data it'))
            | None => MultiQueue.live mq = []
            end -> least_live f key evs mq r).
  { intros [it |]; unfold least_live.
    - intros (Hp & Hl & Hmin). split; [apply pushed_items_In; exact Hp |].
      split; [exact Hl |]. intros it' Hp'. apply Hmin.
      apply pushed_items_In. exact Hp'.
    - intros El. unfold MultiQueue.length. rewrite El. reflexivity. }
  split.
  - destruct (ordered_pop f Hf (pushed_items evs) mq key M)
      as (r & mq' & Ep & _ & Hr).
    exists r, mq'. split; [exact Ep | apply Hleast; exact Hr].
  - destruct (ordered_peek f Hf (pushed_items evs) mq key M)
      as (r & mq' & Ep & _ & Hr).
    exists r, mq'. split; [exact Ep | apply Hleast; exact Hr].
Qed.

Lemma multi_queue_returns_least_witness :
  exists evs mq,
    mq_run FAS.views (fun k => pure_cmp Z.sub : Comparator Z unit Z)
      [MqPush 3; MqPush 1; MqDelete 1; MqPush 2]%Z MultiQueue.empty tt
    = Ret (evs, mq) /\
    (exists r mq',
       MultiQueue.pop_item (fun k => pure_cmp Z.sub : Comparator Z unit Z)
         FAS.ByInW mq tt = Ret (r, mq', tt) /\
       least_live (fun _ : FAS.view => Z.sub) FAS.ByInW evs mq r) /\
    (exists r mq',
       MultiQueue.peek_item (fun k => pure_cmp Z.sub : Comparator Z unit Z)
         FAS.ByInW mq tt = Ret (r, mq', tt) /\
       least_live (fun _ : FAS.view => Z.sub) FAS.ByInW evs mq r).
Proof.
  apply (multi_queue_returns_least Z FAS.view _ FAS.views (fun _ => Z.sub)).
  - intros _. exact Z_sub_total_preorder.
  - exact views_NoDup.
  - exact views_all.
Defined.


(* ================================================================== *)
(** * The path test *)

(** X3. On a graph in which every successor is a node, and from a node of
    the graph, [hasPath] returns one answer per entry of [dstList], and the
    answer is [true] exactly for the entries that can be reached from [src]
    (by the empty path too); the early exit and the entries listed twice do
    not change that. *)
Theorem hasPath_exact :
  forall (g : DAG.t) (src : string) (dstList : list string),
    well_formed g -> In src (map_keys g) ->
    exists answers,
      DAG.hasPath g src dstList = Ret answers /\
      Forall2 (fun dst answer => answer = true <-> reach g src dst)
        dstList answers.
Proof.
  intros g src dstList (_ & Hclosed & _) Hsrc.
  destruct (hasPath_spec g Hclosed src dstList Hsrc) as (found & E & Hfound).
  exists (map (set_has found) dstList). split; [exact E |].
  clear E. induction dstList as [| d rest IH]; simpl; constructor.
  - rewrite set_has_In. apply Hfound. simpl. auto.
  - apply IH. intros v Hv. apply Hfound. simpl. auto.
Qed.

Lemma hasPath_exact_witness :
  exists answers,
    DAG.hasPath [("a", ["b"]); ("b", ["c"]); ("c", []); ("d", ["a"])]%string
      "b" ["a"; "c"; "b"; "c"]%string = Ret answers /\
    Forall2
      (fun dst answer =>
         answer = true <->
         reach [("a", ["b"]); ("b", ["c"]); ("c", []); ("d", ["a"])]%string
           "b" dst)
      ["a"; "c"; "b"; "c"]%string answers.
Proof.
  apply hasPath_exact.
  - split; [| split].
    + simpl. repeat constructor; simpl; intuition discriminate.
    + intros u nbrs v E Hv. simpl in E.
      repeat (destruct (eq_dec _ u) in E;
              [injection E as <-; simpl in Hv; simpl; intuition |]).
      discriminate.
    + intros u nbrs E. simpl in E.
      repeat (destruct (eq_dec _ u) in E;
              [injection E as <-; repeat constructor; simpl; intuition |]).
      discriminate.
  - simpl. auto.
Defined.

(* ================================================================== *)
(** * Where [addEdges] puts edges *)

Lemma link_directed (us : list string) (v : string) (g : DAG.t)
  (ce : list string) :
  sound g -> (forall u, In u us -> In u (map_keys g)) -> In v (map_keys g) ->
  exists g' ce',
    DAG.link us v (g, ce) = Ret (g', ce') /\
    sound g' /\ map_keys g' = map_keys g /\ extends g g' /\
    (forall x, In x ce' -> In x ce) /\
    (forall a b, edge g' a b -> edge g a b \/ In a us /\ b = v).
Proof.
  intros Hs Hus Hv.
  destruct (link_sound us v g ce Hs Hus Hv) as (g' & ce' & E & Hs' & Hk & He & Hc).
  destruct (link_spec us v g ce (proj1 Hs) Hus Hv) as (found & _ & E').
  exists g', ce'. repeat (split; [assumption |]).
  rewrite E in E'. injection E' as -> _.
  intros a b Hab. apply linked_edge in Hab.
  - destruct Hab as [Hab | (-> & Hin)]; [auto |].
    apply in_combine_map in Hin. tauto.
  - intros [u b'] Hub. apply in_combine_map in Hub. apply Hus. tauto.
Qed.

Lemma link_each_directed (us vs : list string) (g : DAG.t) (ce : list string) :
  sound g -> (forall u, In u us -> In u (map_keys g)) ->
  (forall v, In v vs -> In v (map_keys g)) ->
  exists g' ce',
    for_each vs (DAG.link us) (g, ce) = Ret (g', ce') /\
    sound g' /\ map_keys g' = map_keys g /\ extends g g' /\
    (forall x, In x ce' -> In x ce) /\
    (forall a b, edge g' a b -> edge g a b \/ In a us /\ In b vs).
Proof.
  revert g ce. induction vs as [| v vs IH]; intros g ce Hs Hus Hvs.
  - exists g, ce. simpl. repeat (split; auto). apply extends_refl.
  - destruct (link_directed us v g ce Hs Hus (Hvs v (or_introl eq_refl)))
      as (g1 & ce1 & E1 & Hs1 & Hk1 & He1 & Hc1 & Hd1).
    destruct (IH g1 ce1 Hs1) as (g' & ce' & E & Hs' & Hk & He & Hc & Hd).
    { intros u Hu. rewrite Hk1. apply Hus. exact Hu. }
    { intros x Hx. rewrite Hk1. apply Hvs. simpl. auto. }
    exists g', ce'. cbn [for_each]. rewrite E1. cbn [bind].
    split; [exact E |]. split; [exact Hs' |]. split; [congruence |].
    split; [apply (extends_trans _ _ _ He1 He) |].
    split; [auto |].
    intros a b Hab. destruct (Hd a b Hab) as [Hab1 | (Ha & Hb)].
    + destruct (Hd1 a b Hab1) as [Hab0 | (Ha & ->)]; [auto |].
      right. simpl. auto.
    + right. simpl. auto.
Qed.

Lemma link_all_directed (g0 : DAG.t) :
  forall (rest pre us : list string) (g : DAG.t),
    sound g -> map_keys g = map_keys g0 ->
    (forall u, In u us ->
       exists y, In y pre /\ In u (DAG.getMatchingNodes g0 y)) ->
    exists g',
      DAG.link_all g us rest = Ret g' /\
      sound g' /\ map_keys g' = map_keys g0 /\ extends g g' /\
      (forall a b, edge g' a b ->
         edge g a b \/ hinted g0 (pre ++ rest) a b).
Proof.
  induction rest as [| x rest IH]; intros pre us g Hs Hk Hus.
  - exists g. simpl. repeat (split; auto). apply extends_refl.
  - cbn [DAG.link_all].
    rewrite (getMatchingNodes_same_keys g g0 x Hk).
    destruct (DAG.getMatchingNodes g0 x) as [| v0 vs0] eqn:Ev.
    + destruct (IH (pre ++ [x]) us g Hs Hk) as (g' & E & Hs' & Hk' & He & Hd).
      { intros u Hu. destruct (Hus u Hu) as (y & Hy & Hm). exists y.
        split; [apply in_or_app; auto | exact Hm]. }
      rewrite <- app_assoc in Hd. exists g'. repeat (split; auto).
    + assert (Hus' : forall u, In u us -> In u (map_keys g)).
      { intros u Hu. destruct (Hus u Hu) as (y & _ & Hm). rewrite Hk.
        apply (getMatchingNodes_keys g0 y u Hm). }
      assert (Hvs : forall v, In v (v0 :: vs0) -> In v (map_keys g)).
      { intros v Hv. rewrite Hk. apply (getMatchingNodes_keys g0 x v).
        rewrite Ev. exact Hv. }
      destruct (link_each_directed us (v0 :: vs0) g (set_of us) Hs Hus' Hvs)
        as (g1 & ce1 & E1 & Hs1 & Hk1 & He1 & Hc1 & Hd1).
      rewrite E1. cbn [bind fst snd].
      destruct (IH (pre ++ [x]) (ce1 ++ v0 :: vs0) g1 Hs1) as
        (g' & E & Hs' & Hk' & He & Hd).
      { congruence. }
      { intros u Hu. apply in_app_or in Hu. destruct Hu as [Hu | Hu].
        - apply Hc1 in Hu. apply (proj2 (set_of_spec us)) in Hu.
          destruct (Hus u Hu) as (y & Hy & Hm). exists y.
          split; [apply in_or_app; auto | exact Hm].
        - exists x. split; [apply in_or_app; simpl; auto |].
          rewrite Ev. exact Hu. }
      rewrite <- app_assoc in Hd. exists g'.
      split; [exact E |]. split; [exact Hs' |]. split; [exact Hk' |].
      split; [apply (extends_trans _ _ _ He1 He) |].
      intros a b Hab. destruct (Hd a b Hab) as [Hab1 | Hh]; [| auto].
      destruct (Hd1 a b Hab1) as [Hab0 | (Ha & Hb)]; [auto |].
      right. destruct (Hus a Ha) as (y & Hy & Hm).
      exists pre, x, rest, y. rewrite Ev. auto.
Qed.

Lemma first_match_split (g : DAG.t) (order : list string) :
  exists pre,
    order = pre ++ snd (DAG.first_match g order) /\
    forall u, In u (fst (DAG.first_match g order)) ->
      exists y, In y pre /\ In u (DAG.getMatchingNodes g y).
Proof.
  induction order as [| x order IH]; cbn [DAG.first_match].
  - exists []. split; [reflexivity |]. intros u [].
  - destruct (DAG.getMatchingNodes g x) as [| u0 us0] eqn:Ex.
    + destruct IH as (pre & E & Hm). exists (x :: pre).
      split; [simpl; congruence |].
      intros u Hu. destruct (Hm u Hu) as (y & Hy & Hy'). exists y.
      simpl. auto.
    + exists [x]. split; [reflexivity |]. cbn [fst].
      intros u Hu. exists x. rewrite Ex. simpl. auto.
Qed.

(** X4. On a graph built by the constructor and [addEdges] calls, one more
    [addEdges] returns; it keeps the nodes and their order and every edge
    there was; and every edge it adds goes from a node matched by an entry of
    the hint to a node matched by a later entry. *)
Theorem addEdges_only_adds_along_hint :
  forall (verts : list string) (earlier : list (list string))
         (order : list string),
    exists g g',
      apply_hints (DAG.new verts) earlier = Ret g /\
      DAG.addEdges g order = Ret g' /\
      map_keys g' = map_keys g /\
      extends g g' /\
      (forall a b, edge g' a b -> edge g a b \/ hinted g order a b).
Proof.
  intros verts earlier order.
  destruct (apply_hints_sound earlier (DAG.new verts) (new_sound verts))
    as (g & E & Hs & _ & _).
  exists g. unfold DAG.addEdges.
  destruct (first_match_split g order) as (pre & Eo & Hm).
  destruct (DAG.first_match g order) as [us rest]. cbn [fst snd] in *.
  destruct (link_all_directed g rest pre us g Hs eq_refl Hm)
    as (g' & E' & _ & Hk & He & Hd).
  exists g'. rewrite <- Eo in Hd. auto.
Qed.

(* ================================================================== *)
(** * A hint on a fresh graph *)

Lemma split_unique {A : Type} (b : A) (x1 y1 x2 y2 : list A) :
  NoDup (x1 ++ b :: y1) -> x1 ++ b :: y1 = x2 ++ b :: y2 ->
  x1 = x2 /\ y1 = y2.
Proof.
  revert x2. induction x1 as [| a x1 IH]; intros x2 Hn E.
  - destruct x2 as [| a2 x2]; simpl in E.
    + injection E as ->. auto.
    + injection E as <- E. exfalso. inversion Hn as [| ? ? Hb _]; subst.
      apply Hb. apply in_or_app. simpl. auto.
  - destruct x2 as [| a2 x2]; simpl in E.
    + injection E as -> E. exfalso. inversion Hn as [| ? ? Hb _]; subst.
      apply Hb. apply in_or_app. simpl. auto.
    + injection E as <- E. inversion Hn as [| ? ? _ Hn']; subst.
      destruct (IH x2 Hn' E) as (-> & ->). auto.
Qed.

Lemma precedes_trans (l : list string) (a b c : string) :
  NoDup l -> precedes l a b -> precedes l b c -> precedes l a c.
Proof.
  intros Hn (l1 & l2 & l3 & E1) (m1 & m2 & m3 & E2).
  assert (E : (l1 ++ a :: l2) ++ b :: l3 = m1 ++ b :: m2 ++ c :: m3).
  { rewrite <- app_assoc. simpl. congruence. }
  assert (Hn' : NoDup ((l1 ++ a :: l2) ++ b :: l3)).
  { rewrite <- app_assoc. simpl. rewrite <- E1. exact Hn. }
  destruct (split_unique b _ _ _ _ Hn' E) as (_ & ->).
  exists l1, (l2 ++ b :: m2), m3. rewrite E1, <- app_assoc. reflexivity.
Qed.

Lemma precedes_distinct (l : list string) (a b : string) :
  NoDup l -> precedes l a b -> a <> b.
Proof.
  intros Hn (l1 & l2 & l3 & ->) <-.
  apply NoDup_remove_2 in Hn. apply Hn.
  apply in_or_app. right. apply in_or_app. simpl. auto.
Qed.

Lemma precedes_In (l : list string) (a b : string) :
  precedes l a b -> In a l /\ In b l.
Proof.
  intros (l1 & l2 & l3 & ->). split.
  - apply in_or_app. simpl. auto.
  - apply in_or_app. right. right. apply in_or_app. simpl. auto.
Qed.

Lemma precedes_snoc (l : list string) (x a b : string) :
  precedes (l ++ [x]) a b -> precedes l a b \/ b = x /\ In a l.
Proof.
  intros (l1 & l2 & l3 & E).
  destruct (exists_last (l := b :: l3)) as (m & z & Em); [discriminate |].
  assert (E' : l ++ [x] = (l1 ++ a :: l2 ++ m) ++ [z]).
  { rewrite E, <- app_assoc. simpl. rewrite <- app_assoc.
    f_equal. f_equal. f_equal. exact Em. }
  apply app_inj_tail in E'. destruct E' as (-> & ->).
  destruct m as [| b' m].
  - simpl in Em. injection Em as ->. destruct l3; [| destruct l3; discriminate].
    right. split; [reflexivity |]. rewrite app_nil_r.
    apply in_or_app. simpl. auto.
  - simpl in Em. injection Em as <- _. left. exists l1, l2, m. reflexivity.
Qed.

Lemma precedes_filter (p : string -> bool) (l : list string) (a b : string) :
  precedes l a b -> p a = true -> p b = true -> precedes (filter p l) a b.
Proof.
  intros (l1 & l2 & l3 & ->) Ha Hb.
  exists (filter p l1), (filter p l2), (filter p l3).
  rewrite filter_app. simpl. rewrite Ha, filter_app. simpl. rewrite Hb.
  reflexivity.
Qed.

(** A node without a successor reaches itself only. *)
Lemma reach_leaf (g : DAG.t) (x u : string) :
  (forall b, ~ edge g x b) -> reach g x u -> x = u.
Proof.
  intros Hleaf R. destruct R as [| x v w E _]; [reflexivity |].
  exfalso. exact (Hleaf v E).
Qed.

(** A path along edges the output respects is respected. *)
Lemma reach_precedes (g : DAG.t) (out : list string) (a b : string) :
  NoDup out -> (forall u v, edge g u v -> precedes out u v) ->
  reach g a b -> a <> b -> precedes out a b.
Proof.
  intros Hn He R. induction R as [| u v w E R IH]; intros Hne; [congruence |].
  destruct (string_dec v w) as [-> | Hvw]; [apply He; exact E |].
  apply (precedes_trans out u v w Hn); [apply He; exact E | apply IH; exact Hvw].
Qed.

Lemma getMatchingNodes_plain (g : DAG.t) (x : string) :
  endsWith x "*" = false ->
  DAG.getMatchingNodes g x = if map_has g x then [x] else [].
Proof. intros E. unfold DAG.getMatchingNodes. rewrite E. reflexivity. Qed.

Lemma map_has_same_keys (g g' : DAG.t) (x : string) :
  map_keys g = map_keys g' -> map_has g x = map_has g' x.
Proof.
  intros Hk. destruct (map_has g' x) eqn:E.
  - apply map_has_keys. rewrite Hk. apply map_has_keys. exact E.
  - destruct (map_has g x) eqn:E'; [| reflexivity].
    apply map_has_keys in E'. rewrite Hk in E'. apply map_has_keys in E'.
    congruence.
Qed.

(** One more entry of the hint that is a node: it is put after the end of
    the chain, and becomes the end of the chain. *)
Lemma chain_step (g : DAG.t) (chain : list string) (u x : string) :
  sound g -> chained g (chain ++ [u]) -> In x (map_keys g) ->
  ~ In x (chain ++ [u]) ->
  exists g1,
    for_each [x] (DAG.link [u]) (g, set_of [u]) = Ret (g1, []) /\
    sound g1 /\ map_keys g1 = map_keys g /\
    chained g1 ((chain ++ [u]) ++ [x]).
Proof.
  intros Hs [He Hr Hn] Hx Hfresh.
  assert (Hu : In u (map_keys g)).
  { apply Hn. apply in_or_app. simpl. auto. }
  assert (Hus : forall u', In u' [u] -> In u' (map_keys g)).
  { intros u' [<- | []]. exact Hu. }
  destruct (link_sound [u] x g (set_of [u]) Hs Hus Hx)
    as (g1 & ce1 & E & Hs1 & Hk1 & _ & _).
  destruct (link_spec [u] x g (set_of [u]) (proj1 Hs) Hus Hx)
    as (found & Hfound & E').
  assert (Hnot : set_has found u = false).
  { apply set_has_false. intros Hin.
    apply (Hfound u (or_introl eq_refl)) in Hin.
    apply reach_leaf in Hin.
    - subst x. apply Hfresh. apply in_or_app. simpl. auto.
    - intros b Hb. apply Hfresh. apply (He x b Hb). }
  rewrite E in E'. cbn [map combine] in E'. rewrite Hnot in E'.
  cbn [linked pruned fold_left snd fst set_of set_add set_has app] in E'.
  cbn [set_delete] in E'.
  change (eq_dec u u) with (string_dec u u) in E'.
  destruct (string_dec u u) as [_ | Hne]; [| congruence].
  injection E' as Eg Ec. subst g1 ce1.
  exists (add_edge g u x). cbn [for_each]. rewrite E. cbn [bind].
  split; [reflexivity |]. split; [exact Hs1 |]. split; [exact Hk1 |].
  constructor.
  - intros a b Hab. apply (add_edge_edge g u x Hu) in Hab.
    destruct Hab as [Hab | (-> & ->)].
    + destruct (He a b Hab). split; apply in_or_app; auto.
    + split; apply in_or_app; [left; apply in_or_app |]; simpl; auto.
  - intros a b Hab.
    assert (Hext : extends g (add_edge g u x)).
    { intros a' b' H'. apply (add_edge_edge g u x Hu). auto. }
    assert (Hux : edge (add_edge g u x) u x).
    { apply (add_edge_edge g u x Hu). auto. }
    apply precedes_snoc in Hab. destruct Hab as [Hab | (-> & Ha)].
    + apply (reach_extends g _ a b Hext). apply Hr. exact Hab.
    + apply in_app_or in Ha. destruct Ha as [Ha | [<- | []]].
      * apply reach_snoc with u; [| exact Hux].
        apply (reach_extends g _ a u Hext). apply Hr.
        apply in_split in Ha. destruct Ha as (l1 & l2 & ->).
        exists l1, l2, []. rewrite <- app_assoc. reflexivity.
      * apply reach_edge. exact Hux.
  - intros a Ha. rewrite Hk1. apply in_app_or in Ha.
    destruct Ha as [Ha | [<- | []]]; [apply Hn; exact Ha | exact Hx].
Qed.

Lemma link_all_chain (g0 : DAG.t) :
  forall (rest chain : list string) (u : string) (g : DAG.t),
    sound g -> map_keys g = map_keys g0 -> chained g (chain ++ [u]) ->
    NoDup ((chain ++ [u]) ++ rest) ->
    (forall x, In x rest -> endsWith x "*" = false) ->
    exists g',
      DAG.link_all g [u] rest = Ret g' /\
      sound g' /\ map_keys g' = map_keys g0 /\
      chained g' ((chain ++ [u]) ++ filter (map_has g0) rest).
Proof.
  induction rest as [| x rest IH]; intros chain u g Hs Hk Hc Hn Hplain.
  - exists g. simpl. rewrite app_nil_r. auto.
  - cbn [DAG.link_all filter].
    rewrite (getMatchingNodes_plain g x (Hplain x (or_introl eq_refl))).
    rewrite (map_has_same_keys g g0 x Hk).
    assert (Hplain' : forall y, In y rest -> endsWith y "*" = false).
    { intros y Hy. apply Hplain. simpl. auto. }
    destruct (map_has g0 x) eqn:Ex.
    + assert (Hx : In x (map_keys g)).
      { rewrite Hk. apply map_has_keys. exact Ex. }
      assert (Hfresh : ~ In x (chain ++ [u])).
      { intros Hin. apply NoDup_remove_2 in Hn. apply Hn.
        apply in_or_app. auto. }
      destruct (chain_step g chain u x Hs Hc Hx Hfresh)
        as (g1 & E1 & Hs1 & Hk1 & Hc1).
      rewrite E1. cbn [bind fst snd app].
      destruct (IH (chain ++ [u]) x g1 Hs1) as (g' & E & Hs' & Hk' & Hc').
      * congruence.
      * exact Hc1.
      * rewrite <- app_assoc. exact Hn.
      * exact Hplain'.
      * exists g'. rewrite <- app_assoc in Hc'. auto.
    + apply (IH chain u g Hs Hk Hc); [| exact Hplain'].
      apply NoDup_remove_1 in Hn. exact Hn.
Qed.

(** A hint without wildcards and without repeats, on a fresh graph: its
    entries that are nodes become a chain. *)
Lemma addEdges_fresh_chain (verts hint : list string) :
  NoDup hint -> (forall x, In x hint -> endsWith x "*" = false) ->
  exists g,
    DAG.addEdges (DAG.new verts) hint = Ret g /\
    sound g /\ map_keys g = map_keys (DAG.new verts) /\
    chained g (filter (map_has (DAG.new verts)) hint).
Proof.
  induction hint as [| x hint IH]; intros Hn Hplain.
  - exists (DAG.new verts). split; [reflexivity |].
    split; [apply new_sound |]. split; [reflexivity |].
    constructor; simpl.
    + intros a b (nbrs & E & Hb).
      destruct (new_spec verts) as (Hnil & _).
      rewrite (Hnil a) in E by congruence. injection E as <-. destruct Hb.
    + intros a b (l1 & l2 & l3 & E). destruct l1; discriminate.
    + intros a [].
  - unfold DAG.addEdges. cbn [DAG.first_match filter].
    rewrite (getMatchingNodes_plain _ x (Hplain x (or_introl eq_refl))).
    assert (Hplain' : forall y, In y hint -> endsWith y "*" = false).
    { intros y Hy. apply Hplain. simpl. auto. }
    inversion Hn as [| ? ? Hx Hn']; subst.
    destruct (map_has (DAG.new verts) x) eqn:Ex.
    + destruct (link_all_chain (DAG.new verts) hint [] x (DAG.new verts)
                  (new_sound verts) eq_refl) as (g' & E & Hs & Hk & Hc).
      * constructor; simpl.
        -- intros a b (nbrs & E & Hb).
           destruct (new_spec verts) as (Hnil & _).
           rewrite (Hnil a) in E by congruence. injection E as <-. destruct Hb.
        -- intros a b (l1 & l2 & l3 & E).
           destruct l1 as [| ? l1]; [destruct l2 |]; try discriminate.
           destruct l1; discriminate.
        -- intros a [<- | []]. apply map_has_keys. exact Ex.
      * simpl. exact Hn.
      * exact Hplain'.
      * exists g'. simpl in Hc. auto.
    + apply (IH Hn' Hplain').
Qed.

(** X5. On a fresh graph, a hint without repeats and without wildcard
    entries is respected in full, whatever hints are applied after it and
    whatever the tie-breaker: two nodes that are both entries of the hint
    come out of [topoSort] in the order of the hint. *)
Theorem first_hint_is_respected :
  forall (verts hint : list string) (later : list (list string))
         (St R : Type) (HR : Number R)
         (tieBreaker : Comparator string St R) (s : St),
    NoDup hint -> (forall x, In x hint -> endsWith x "*" = false) ->
    exists g out s',
      apply_hints (DAG.new verts) (hint :: later) = Ret g /\
      DAG.topoSort tieBreaker g s = Ret (out, s') /\
      forall a b, In a verts -> In b verts ->
        precedes hint a b -> precedes out a b.
Proof.
  intros verts hint later St R HR tieBreaker s Hn Hplain.
  destruct (addEdges_fresh_chain verts hint Hn Hplain)
    as (g1 & E1 & Hs1 & Hk1 & Hc1).
  destruct (apply_hints_sound later g1 Hs1) as (g & E & Hs & Hk & He).
  destruct (topoSort_spec tieBreaker g (proj1 Hs) s (proj2 Hs))
    as (out & s' & Et & Hnd & _ & Hord).
  exists g, out, s'. unfold apply_hints in *. cbn [for_each].
  rewrite E1. cbn [bind]. split; [exact E |]. split; [exact Et |].
  intros a b Ha Hb Hab.
  assert (Hpresent : forall x, In x verts ->
            map_has (DAG.new verts) x = true).
  { intros x Hx. apply map_has_keys. apply new_spec. exact Hx. }
  apply (reach_precedes g out a b Hnd Hord).
  - apply (reach_extends g1 g a b He). apply (ch_reach _ _ Hc1).
    apply precedes_filter; auto.
  - apply (precedes_distinct hint a b Hn Hab).
Qed.

Lemma first_hint_is_respected_witness :
  exists g out s',
    apply_hints (DAG.new ["z"; "b"; "a"; "c"]%string)
      [["a"; "x"; "b"; "c"]; ["c"; "a"; "z"]]%string = Ret g /\
    DAG.topoSort (pure_cmp (fun _ _ : string => 0%Z) : Comparator string unit Z)
      g tt = Ret (out, s') /\
    forall a b, In a ["z"; "b"; "a"; "c"]%string ->
      In b ["z"; "b"; "a"; "c"]%string ->
      precedes ["a"; "x"; "b"; "c"]%string a b -> precedes out a b.
Proof.
  apply first_hint_is_respected.
  - repeat constructor; simpl; intuition discriminate.
  - intros x Hx. simpl in Hx.
    destruct Hx as [<- | [<- | [<- | [<- | []]]]]; reflexivity.
Defined.


(* ================================================================== *)
(** * What the sorter does with its orders *)

(** [topoSort] respects the paths of the graph. *)
Lemma topoSort_paths {St R : Type} `{Number R}
  (tieBreaker : Comparator string St R) (dag : DAG.t) (s : St) :
  sound dag ->
  exists out s',
    DAG.topoSort tieBreaker dag s = Ret (out, s') /\
    NoDup out /\ (forall x, In x out <-> In x (map_keys dag)) /\
    forall a b, reach dag a b -> a <> b -> precedes out a b.
Proof.
  intros [Hw Hb].
  destruct (topoSort_spec tieBreaker dag Hw s Hb)
    as (out & s' & E & Hn & Hin & Hord).
  exists out, s'. repeat (split; [assumption |]).
  intros a b. apply (reach_precedes dag out a b Hn Hord).
Qed.

(** So does the tail shared by the modes ['stable'] and ['no']. *)
Lemma finish_paths (dag : DAG.t) (arr' : list string) :
  sound dag ->
  exists out,
    PreferenceSorter.finish dag arr' = Ret out /\
    NoDup out /\ (forall x, In x out <-> In x (map_keys dag)) /\
    forall a b, reach dag a b -> a <> b -> precedes out a b.
Proof.
  intros Hs. unfold PreferenceSorter.finish.
  destruct (addEdges_sound dag arr' Hs) as (dag' & E & Hs' & Hk' & He).
  rewrite E. cbn [bind].
  destruct (topoSort_paths
              (PreferenceSorter.index_cmp (PreferenceSorter.indexMap_of arr'))
              dag' tt Hs') as (out & s' & Et & Hn & Hin & Hord).
  rewrite Et. cbn [bind fst]. exists out. split; [reflexivity |].
  split; [exact Hn |]. split; [intros x; rewrite Hin, Hk'; tauto |].
  intros a b R. apply Hord. apply (reach_extends dag dag' a b He R).
Qed.

Section SorterOrders.
Variable order : list string.
Variable splitIdentifier : string -> string.
Variables Math_log Math_exp : float -> float.
Variable session_run : list Z -> list Z -> float * float.

(** In the three modes, [sort] respects every path of the graph that the
    orders of the sorter give. *)
Lemma sort_paths (this : PreferenceSorter.t) (arr : list string) :
  2 <= List.length arr ->
  PreferenceSorter.useAI this = "no"%string \/
  ((PreferenceSorter.useAI this = "yes"%string \/
    PreferenceSorter.useAI this = "stable"%string) /\
   PreferenceSorter.aiComparator this <> None) ->
  exists dag out this',
    apply_hints (DAG.new arr) (PreferenceSorter.orders this) = Ret dag /\
    PreferenceSorter.sort Math_log Math_exp session_run this arr
    = Ret (Some out, this') /\
    forall a b, reach dag a b -> a <> b -> precedes out a b.
Proof.
  intros Hlen Hmode. unfold PreferenceSorter.sort.
  destruct (Nat.ltb_spec (List.length arr) 2) as [Hlt | _]; [lia |].
  destruct (addAll_sound arr (PreferenceSorter.orders this))
    as (dag & E & Hs & Hk).
  exists dag. rewrite E. cbn [bind].
  destruct Hmode as [Hno | [[Hyes | Hst] Hai]].
  - rewrite Hno. cbn [String.eqb Ascii.eqb Bool.eqb].
    destruct (finish_paths dag arr Hs) as (out & Ef & _ & _ & Hord).
    rewrite Ef. cbn [bind]. eauto.
  - rewrite Hyes. cbn [String.eqb Ascii.eqb Bool.eqb].
    destruct (PreferenceSorter.aiComparator this) as [ai |]; [| congruence].
    destruct (topoSort_paths (AIComparator.compare session_run) dag ai Hs)
      as (out & ai' & Et & _ & _ & Hord).
    rewrite Et. cbn [bind fst snd]. eauto.
  - rewrite Hst. cbn [String.eqb Ascii.eqb Bool.eqb].
    destruct (PreferenceSorter.aiComparator this) as [ai |]; [| congruence].
    destruct (PreferenceSorter.fill_wins session_run arr ai) as [w ai'].
    destruct (finish_paths dag
                (PreferenceSorter.by_strength
                   (BradleyTerry.bradleyTerry Math_log Math_exp w) arr) Hs)
      as (out & Ef & _ & _ & Hord).
    rewrite Ef. cbn [bind]. eauto.
Qed.
End SorterOrders.

(** X6. A custom order of two or more entries whose normalised entries are
    distinct and are no wildcard patterns wins over every other preference,
    in the three modes: two tokens of the input that are both entries of the
    custom order come out of [sort] in the order the custom order gives
    them. *)
Theorem custom_order_is_respected :
  forall (order : list string) (splitIdentifier : string -> string)
         (Math_log Math_exp : float -> float)
         (session_run : list Z -> list Z -> float * float)
         (useAI : string) (customOrder arr : list string),
    useAI = "no"%string \/ useAI = "yes"%string \/ useAI = "stable"%string ->
    1 < List.length customOrder ->
    NoDup (map splitIdentifier customOrder) ->
    (forall x, In x (map splitIdentifier customOrder) ->
       endsWith x "*" = false) ->
    exists out this',
      PreferenceSorter.sort Math_log Math_exp session_run
        (PreferenceSorter.create order splitIdentifier useAI customOrder) arr
      = Ret (Some out, this') /\
      forall a b, In a arr -> In b arr ->
        precedes (map splitIdentifier customOrder) a b -> precedes out a b.
Proof.
  intros order splitIdentifier Math_log Math_exp session_run useAI customOrder
    arr Hmode Hlen Hn Hplain.
  set (co := map splitIdentifier customOrder) in *.
  set (this := PreferenceSorter.create order splitIdentifier useAI customOrder).
  assert (Horders : PreferenceSorter.orders this = [co; order]).
  { subst this. unfold PreferenceSorter.create, PreferenceSorter.make.
    fold co. assert (Nat.ltb 1 (List.length co) = true) as Hlt.
    { apply Nat.ltb_lt. subst co. rewrite length_map. exact Hlen. }
    destruct (String.eqb useAI "no"); cbn [PreferenceSorter.orders];
      rewrite Hlt; reflexivity. }
  assert (Hvalid : PreferenceSorter.useAI this = "no"%string \/
            ((PreferenceSorter.useAI this = "yes"%string \/
              PreferenceSorter.useAI this = "stable"%string) /\
             PreferenceSorter.aiComparator this <> None)).
  { subst this. unfold PreferenceSorter.create, PreferenceSorter.make.
    destruct Hmode as [-> | [-> | ->]]; cbn; [left; reflexivity | right | right];
      (split; [auto | discriminate]). }
  destruct (Nat.ltb_spec (List.length arr) 2) as [Hshort | Hlong].
  - exists arr, this. split.
    + unfold PreferenceSorter.sort.
      destruct (Nat.ltb_spec (List.length arr) 2); [reflexivity | lia].
    + intros a b Ha Hb Hab. exfalso.
      apply (precedes_distinct co a b Hn Hab).
      destruct arr as [| x [| y arr]]; simpl in *; try lia; intuition congruence.
  - destruct (sort_paths Math_log Math_exp session_run this arr Hlong Hvalid)
      as (dag & out & this' & Ed & Es & Hord).
    exists out, this'. split; [exact Es |].
    intros a b Ha Hb Hab.
    destruct (addEdges_fresh_chain arr co Hn Hplain)
      as (g1 & E1 & Hs1 & Hk1 & Hc1).
    rewrite Horders in Ed. unfold apply_hints in Ed. cbn [for_each] in Ed.
    rewrite E1 in Ed. cbn [bind] in Ed.
    destruct (apply_hints_sound [order] g1 Hs1) as (g & E & _ & _ & He).
    unfold apply_hints in E. cbn [for_each] in E.
    rewrite E in Ed. injection Ed as <-.
    assert (Hpresent : forall x, In x arr -> map_has (DAG.new arr) x = true).
    { intros x Hx. apply map_has_keys. apply new_spec. exact Hx. }
    apply Hord.
    + apply (reach_extends g1 g a b He). apply (ch_reach _ _ Hc1).
      apply precedes_filter; auto.
    + apply (precedes_distinct co a b Hn Hab).
Qed.

Lemma custom_order_is_respected_witness :
  exists out this',
    PreferenceSorter.sort nan_only nan_only first_wins
      (PreferenceSorter.create ["key"; "ref"]%string (fun x => x) "stable"
         ["zeta"; "key"; "alpha"]%string)
      ["alpha"; "key"; "other"; "zeta"]%string
    = Ret (Some out, this') /\
    forall a b, In a ["alpha"; "key"; "other"; "zeta"]%string ->
      In b ["alpha"; "key"; "other"; "zeta"]%string ->
      precedes (map (fun x : string => x) ["zeta"; "key"; "alpha"]%string) a b ->
      precedes out a b.
Proof.
  apply custom_order_is_respected.
  - auto.
  - simpl. lia.
  - repeat constructor; simpl; intuition discriminate.
  - intros x Hx. simpl in Hx. destruct Hx as [<- | [<- | [<- | []]]]; reflexivity.
Defined.

(* ================================================================== *)
(** * Tokens that no order mentions *)

(** A hint none of whose entries matches a node leaves the graph as it
    is. *)
Lemma addEdges_no_match (g : DAG.t) (h : list string) :
  (forall x, In x h -> DAG.getMatchingNodes g x = []) ->
  DAG.addEdges g h = Ret g.
Proof.
  intros Hnone. unfold DAG.addEdges.
  assert (E : DAG.first_match g h = ([], [])).
  { induction h as [| x h IH]; cbn [DAG.first_match]; [reflexivity |].
    rewrite (Hnone x (or_introl eq_refl)). apply IH.
    intros y Hy. apply Hnone. simpl. auto. }
  rewrite E. reflexivity.
Qed.

Lemma apply_hints_no_match (g : DAG.t) (hints : list (list string)) :
  (forall h x, In h hints -> In x h -> DAG.getMatchingNodes g x = []) ->
  apply_hints g hints = Ret g.
Proof.
  unfold apply_hints. induction hints as [| h hints IH]; intros Hnone;
    cbn [for_each]; [reflexivity |].
  rewrite (addEdges_no_match g h) by (intros x; apply Hnone; simpl; auto).
  cbn [bind]. apply IH. intros h' x Hh'. apply Hnone. simpl. auto.
Qed.

(** Two lists of the same distinct elements, one of which keeps the order
    of the other, are equal. *)
Lemma same_order (arr : list string) :
  forall out,
    NoDup arr -> NoDup out -> (forall x, In x out <-> In x arr) ->
    (forall a b, precedes arr a b -> precedes out a b) ->
    out = arr.
Proof.
  induction arr as [| a arr IH]; intros out Ha Ho Hin Hord.
  - destruct out as [| x out]; [reflexivity |].
    exfalso. apply (Hin x). simpl. auto.
  - inversion Ha as [| ? ? Hna Ha']; subst.
    destruct out as [| x out].
    { exfalso. apply (Hin a). simpl. auto. }
    assert (Hx : x = a).
    { destruct (string_dec x a) as [E | Hne]; [exact E |]. exfalso.
      assert (Hxa : In x arr).
      { destruct (proj1 (Hin x) (or_introl eq_refl)) as [E | H'];
          [congruence | exact H']. }
      assert (P1 : precedes (x :: out) a x).
      { apply Hord. apply in_split in Hxa. destruct Hxa as (l2 & l3 & ->).
        exists [], l2, l3. reflexivity. }
      assert (P2 : precedes (x :: out) x a).
      { assert (Hao : In a out).
        { destruct (proj2 (Hin a) (or_introl eq_refl)) as [E | H'];
            [congruence | exact H']. }
        apply in_split in Hao. destruct Hao as (l2 & l3 & ->).
        exists [], l2, l3. reflexivity. }
      apply (precedes_distinct (x :: out) x x Ho); [| reflexivity].
      apply (precedes_trans (x :: out) x a x Ho P2 P1). }
    subst x. f_equal. inversion Ho as [| ? ? Hno Ho']; subst.
    apply IH; [exact Ha' | exact Ho' | |].
    + intros y. split; intros Hy.
      * destruct (proj1 (Hin y) (or_intror Hy)) as [E | H']; [| exact H'].
        subst y. contradiction.
      * destruct (proj2 (Hin y) (or_intror Hy)) as [E | H']; [| exact H'].
        subst y. contradiction.
    + intros x y Hxy.
      assert (P : precedes (a :: out) x y).
      { apply Hord. destruct Hxy as (l1 & l2 & l3 & ->).
        exists (a :: l1), l2, l3. reflexivity. }
      destruct P as (l1 & l2 & l3 & E).
      destruct l1 as [| z l1]; simpl in E; injection E as E1 E2.
      * subst x. exfalso. apply Hna. apply (precedes_In arr a y Hxy).
      * exists l1, l2, l3. exact E2.
Qed.

Lemma filter_all {A : Type} (p : A -> bool) (l : list A) :
  (forall x, In x l -> p x = true) -> filter p l = l.
Proof.
  induction l as [| x l IH]; intros Hall; simpl; [reflexivity |].
  rewrite (Hall x (or_introl eq_refl)). f_equal. apply IH.
  intros y Hy. apply Hall. simpl. auto.
Qed.

(** X7. In the mode ['no'], tokens that no order of the sorter mentions
    keep their order: when the tokens are distinct, none ends with ['*'],
    and no entry of any order matches a token, [sort] returns its input
    unchanged. *)
Theorem unmentioned_tokens_keep_their_order :
  forall (Math_log Math_exp : float -> float)
         (session_run : list Z -> list Z -> float * float)
         (this : PreferenceSorter.t) (arr : list string),
    PreferenceSorter.useAI this = "no"%string ->
    NoDup arr ->
    (forall x, In x arr -> endsWith x "*" = false) ->
    (forall h x, In h (PreferenceSorter.orders this) -> In x h ->
       DAG.getMatchingNodes (DAG.new arr) x = []) ->
    PreferenceSorter.sort Math_log Math_exp session_run this arr
    = Ret (Some arr, this).
Proof.
  intros Math_log Math_exp session_run this arr Hno Hn Hplain Hnone.
  unfold PreferenceSorter.sort.
  destruct (Nat.ltb (List.length arr) 2); [reflexivity |].
  change (PreferenceSorter.addAll (DAG.new arr) (PreferenceSorter.orders this))
    with (apply_hints (DAG.new arr) (PreferenceSorter.orders this)).
  rewrite (apply_hints_no_match _ _ Hnone). cbn [bind].
  rewrite Hno. cbn [String.eqb Ascii.eqb Bool.eqb].
  unfold PreferenceSorter.finish.
  destruct (addEdges_fresh_chain arr arr Hn Hplain) as (g & E & Hs & Hk & Hc).
  rewrite E. cbn [bind].
  destruct (topoSort_paths
              (PreferenceSorter.index_cmp (PreferenceSorter.indexMap_of arr))
              g tt Hs) as (out & [] & Et & Hno' & Hin & Hord).
  rewrite Et. cbn [bind fst].
  rewrite filter_all in Hc
    by (intros x Hx; apply map_has_keys, new_spec; exact Hx).
  assert (Eout : out = arr).
  { apply same_order; [exact Hn | exact Hno' | |].
    - intros x. rewrite Hin, Hk. apply new_spec.
    - intros a b Hab. apply Hord; [apply (ch_reach _ _ Hc); exact Hab |].
      apply (precedes_distinct arr a b Hn Hab). }
  rewrite Eout. reflexivity.
Qed.

Lemma unmentioned_tokens_keep_their_order_witness :
  PreferenceSorter.sort nan_only nan_only first_wins
    (PreferenceSorter.create ["key"; "ref"; "data *"]%string (fun x => x) "no"
       ["id"; "class name"]%string)
    ["on click"; "title"; "href"]%string
  = Ret (Some ["on click"; "title"; "href"]%string,
         PreferenceSorter.create ["key"; "ref"; "data *"]%string (fun x => x)
           "no" ["id"; "class name"]%string).
Proof.
  apply unmentioned_tokens_keep_their_order.
  - reflexivity.
  - repeat constructor; simpl; intuition discriminate.
  - intros x Hx. simpl in Hx. destruct Hx as [<- | [<- | [<- | []]]]; reflexivity.
  - intros h x Hh Hx. simpl in Hh.
    destruct Hh as [<- | [<- | []]]; simpl in Hx;
      repeat (destruct Hx as [<- | Hx]; [reflexivity |]); destruct Hx.
Defined.


(* ================================================================== *)
(** * The tokens of the comparator *)

Lemma VOCAB_range (c : ascii) : (0 <= AIComparator.VOCAB c <= 38)%Z.
Proof.
  destruct c as [[] [] [] [] [] [] [] []]; vm_compute; split; discriminate.
Qed.

Lemma firstn_repeat {A : Type} (x : A) (n m : nat) :
  firstn n (repeat x m) = repeat x (Nat.min n m).
Proof.
  revert m. induction n as [| n IH]; intros [| m]; simpl; try reflexivity.
  now rewrite IH.
Qed.

(** The tensor holds the codes of the first 25 characters, then zeros. *)
Lemma tokenize_cells (word : string) :
  AIComparator.tokenize word
  = map AIComparator.VOCAB (firstn 25 (list_ascii_of_string word))
    ++ repeat 0%Z (25 - List.length (list_ascii_of_string word)).
Proof.
  unfold AIComparator.tokenize, AIComparator.SEQ_LEN.
  rewrite firstn_app, firstn_map, length_map, firstn_repeat.
  f_equal. f_equal. lia.
Qed.

(** X8. On a word of ASCII characters (one UTF-16 code unit each, which a
    character of the model stands for) [tokenize] returns 25 cells: the codes
    of its first 25 characters, each between 0 and 38 (0 for a character
    outside the alphabet), then zeros; so two such words with the same first
    25 characters get the same tensor. *)
Theorem tokenize_shape :
  forall word : string,
    ascii_only word ->
    List.length (AIComparator.tokenize word) = 25 /\
    Forall (fun t => (0 <= t <= 38)%Z) (AIComparator.tokenize word) /\
    AIComparator.tokenize word
    = map AIComparator.VOCAB (firstn 25 (list_ascii_of_string word))
      ++ repeat 0%Z (25 - List.length (list_ascii_of_string word)) /\
    forall word' : string,
      ascii_only word' ->
      firstn 25 (list_ascii_of_string word')
      = firstn 25 (list_ascii_of_string word) ->
      AIComparator.tokenize word' = AIComparator.tokenize word.
Proof.
  intros word _. split; [| split; [| split]].
  - rewrite tokenize_cells, length_app, length_map, length_firstn, repeat_length.
    lia.
  - rewrite tokenize_cells. apply Forall_app. split.
    + apply Forall_forall. intros t Ht. apply in_map_iff in Ht.
      destruct Ht as (c & <- & _). apply VOCAB_range.
    + apply Forall_forall. intros t Ht. apply repeat_spec in Ht. subst t. lia.
  - apply tokenize_cells.
  - intros word' _ E. rewrite !tokenize_cells, E. f_equal. f_equal.
    assert (Hl : forall l l' : list ascii,
              firstn 25 l' = firstn 25 l ->
              25 - List.length l' = 25 - List.length l).
    { intros l l' El. apply (f_equal (@List.length ascii)) in El.
      rewrite !length_firstn in El. lia. }
    apply Hl. exact E.
Qed.

Lemma tokenize_shape_witness :
  ascii_only "onClick" /\
  AIComparator.tokenize "onClick"
  = map AIComparator.VOCAB (firstn 25 (list_ascii_of_string "onClick"))
    ++ repeat 0%Z (25 - List.length (list_ascii_of_string "onClick")).
Proof.
  assert (H : ascii_only "onClick").
  { unfold ascii_only. repeat constructor. }
  split; [exact H |].
  exact (proj1 (proj2 (proj2 (tokenize_shape "onClick" H)))).
Defined.

(* ================================================================== *)
(** * The keys of the cache *)

Lemma append_assoc (a b c : string) :
  ((a ++ b) ++ c = a ++ (b ++ c))%string.
Proof. induction a as [| x a IH]; simpl; [reflexivity | now rewrite IH]. Qed.

(** X9. The cache key of a pair is the two tokens joined by ['-'], so pairs
    of tokens that hold a ['-'] can share a key: on a fresh comparator, after
    [compare(a + '-' + b, c)] the call [compare(a, b + '-' + c)] returns the
    value cached for the first pair, and the session is not run on the second
    pair. *)
Theorem compare_key_collision :
  forall (session_run : list Z -> list Z -> float * float) (a b c : string),
    let first := AIComparator.compare session_run (a ++ "-" ++ b)%string c
                   AIComparator.create in
    let second := AIComparator.compare session_run a (b ++ "-" ++ c)%string
                    (snd first) in
    fst second = fst first /\
    snd second = snd first /\
    AIComparator.runs (snd second) = [((a ++ "-" ++ b)%string, c)].
Proof.
  intros session_run a b c. cbv zeta.
  set (out := session_run (AIComparator.tokenize (a ++ "-" ++ b))
                (AIComparator.tokenize c)).
  assert (E1 : AIComparator.compare session_run (a ++ "-" ++ b)%string c
                 AIComparator.create
               = ((fst out - snd out)%float,
                  {| AIComparator.cache :=
                       [(((a ++ "-" ++ b) ++ "-" ++ c)%string,
                         (fst out - snd out)%float)];
                     AIComparator.runs := [((a ++ "-" ++ b)%string, c)] |}))
    by reflexivity.
  rewrite E1. cbn [fst snd].
  assert (Ek : (a ++ "-" ++ b ++ "-" ++ c = (a ++ "-" ++ b) ++ "-" ++ c)%string).
  { rewrite append_assoc. reflexivity. }
  unfold AIComparator.compare. cbn [AIComparator.cache].
  rewrite Ek. cbn [map_get].
  destruct (eq_dec ((a ++ "-" ++ b) ++ "-" ++ c)%string
              ((a ++ "-" ++ b) ++ "-" ++ c)%string) as [_ | Hne];
    [| congruence].
  cbn [fst snd AIComparator.runs]. auto.
Qed.

(* ================================================================== *)
(** * The shape of the strengths *)

Section BradleyTerryShape.
Variables Math_log Math_exp : float -> float.

Lemma sweep_length (w : list (list float)) (n : nat) (p : list float) :
  List.length (fst (BradleyTerry.sweep Math_log w n p)) = List.length p.
Proof.
  unfold BradleyTerry.sweep.
  assert (G : forall l (acc : list float * float),
            List.length
              (fst (fold_left
                      (fun (pn : list float * float) i =>
                         let (num, den) := BradleyTerry.accum w n (fst pn) i in
                         (array_set (fst pn) i (num / den)%float,
                          (snd pn + Math_log (num / den))%float))
                      l acc))
            = List.length (fst acc)).
  { induction l as [| i l IH]; intros acc; simpl; [reflexivity |].
    rewrite IH. destruct (BradleyTerry.accum w n (fst acc) i) as [num den].
    simpl. apply array_set_length. }
  apply (G (seq 0 n) (p, 0%float)).
Qed.

Lemma iterate_length (maxIter : nat) (w : list (list float)) (n : nat)
  (p : list float) (lastNorm : float) :
  List.length (BradleyTerry.iterate Math_log Math_exp maxIter w n p lastNorm)
  = List.length p.
Proof.
  revert p lastNorm. induction maxIter as [| k IH]; intros p lastNorm;
    cbn [BradleyTerry.iterate]; [reflexivity |].
  pose proof (sweep_length w n p) as Hs.
  destruct (BradleyTerry.sweep Math_log w n p) as [p1 normLog0].
  cbn [fst] in Hs.
  destruct (PrimFloat.ltb _ _).
  - rewrite length_map. exact Hs.
  - rewrite IH, length_map. exact Hs.
Qed.
End BradleyTerryShape.

(** X10. Whatever the rows of the matrix hold (missing cells, [NaN], any
    length) and whatever the iteration cap, [bradleyTerry] returns one
    strength per row of the matrix. *)
Theorem bradleyTerry_one_strength_per_row :
  forall (Math_log Math_exp : float -> float) (w : list (list float))
         (maxIter : nat),
    List.length (BradleyTerry.bradleyTerry_iter Math_log Math_exp w maxIter)
    = List.length w /\
    List.length (BradleyTerry.bradleyTerry Math_log Math_exp w)
    = List.length w.
Proof.
  intros Math_log Math_exp w maxIter.
  unfold BradleyTerry.bradleyTerry, BradleyTerry.bradleyTerry_iter.
  rewrite !iterate_length, repeat_length. auto.
Qed.


(* ================================================================== *)
(** * The table of counts *)

Lemma weight_of_inc (m : Cli.Map2D) (r c u v : string) :
  weight_of (Cli.inc m r c) u v
  = if string_dec u (Cli.prefixToWildcard r) then
      if string_dec v (Cli.prefixToWildcard c) then
        Some (match weight_of m (Cli.prefixToWildcard r)
                      (Cli.prefixToWildcard c) with
              | Some w => w
              | None => 0
              end + 1)%Z
      else weight_of m u v
    else weight_of m u v.
Proof.
  unfold Cli.inc, weight_of.
  set (r' := Cli.prefixToWildcard r). set (c' := Cli.prefixToWildcard c).
  destruct (string_dec u r') as [-> | Hu].
  - rewrite map_get_set_same.
    destruct (string_dec v c') as [-> | Hv].
    + rewrite map_get_set_same. destruct (map_get m r'); reflexivity.
    + rewrite map_get_set_other by exact Hv.
      destruct (map_get m r'); reflexivity.
  - rewrite map_get_set_other by exact Hu. reflexivity.
Qed.

Lemma grid_inc (m : Cli.Map2D) (r c : string) : grid m -> grid (Cli.inc m r c).
Proof.
  intros [Hk Hrows]. unfold Cli.inc.
  set (r' := Cli.prefixToWildcard r). set (c' := Cli.prefixToWildcard c).
  split; [apply map_set_keys_NoDup; exact Hk |].
  intros u row. destruct (string_dec u r') as [-> | Hu].
  - rewrite map_get_set_same. intros [= <-]. apply map_set_keys_NoDup.
    destruct (map_get m r') as [row0 |] eqn:E; [apply (Hrows r' row0 E) |].
    constructor.
  - rewrite map_get_set_other by exact Hu. apply Hrows.
Qed.

Lemma tallies_inc (m : Cli.Map2D) (ps : list (string * string)) (r c : string) :
  tallies m ps ->
  tallies (Cli.inc m r c)
    (ps ++ [(Cli.prefixToWildcard r, Cli.prefixToWildcard c)]).
Proof.
  intros Ht u v. rewrite weight_of_inc, count_occ_app. cbn [count_occ].
  set (r' := Cli.prefixToWildcard r). set (c' := Cli.prefixToWildcard c).
  destruct (pair_dec (r', c') (u, v)) as [E | Hne].
  - injection E as <- <-.
    destruct (string_dec r' r'); [| congruence].
    destruct (string_dec c' c'); [| congruence].
    rewrite (Ht r' c').
    destruct (Nat.eqb_spec (count_occ pair_dec ps (r', c')) 0) as [E0 | Hn0].
    + rewrite E0. reflexivity.
    + destruct (Nat.eqb_spec (count_occ pair_dec ps (r', c') + 1) 0); [lia |].
      f_equal. lia.
  - rewrite Nat.add_0_r.
    destruct (string_dec u r') as [-> | Hu];
      [destruct (string_dec v c') as [-> | Hv] |]; try apply Ht.
    congruence.
Qed.

(** The two loops over the indices visit the ordered pairs of the list. *)
Lemma map_nth_seq (l : list string) :
  map (fun k => nth k l ""%string) (seq 0 (List.length l)) = l.
Proof.
  induction l as [| x l IH]; simpl; [reflexivity |].
  f_equal. rewrite <- seq_shift, map_map. exact IH.
Qed.

Lemma index_pairs (l : list string) :
  flat_map
    (fun i => map (fun j => (nth i l ""%string, nth j l ""%string))
                (seq (i + 1) (List.length l - (i + 1))))
    (seq 0 (List.length l))
  = ordered_pairs l.
Proof.
  induction l as [| x l IH]; [reflexivity |].
  cbn [List.length seq flat_map ordered_pairs]. f_equal.
  - change (0 + 1) with 1. replace (S (List.length l) - 1) with (List.length l) by lia.
    rewrite <- seq_shift, map_map. cbn [nth].
    rewrite <- (map_nth_seq l) at 2. rewrite map_map. reflexivity.
  - rewrite <- IH, <- seq_shift, flat_map_concat_map, map_map,
      <- flat_map_concat_map.
    apply flat_map_ext. intros i.
    replace (S i + 1) with (S (i + 1)) by lia.
    replace (S (List.length l) - S (i + 1)) with (List.length l - (i + 1)) by lia.
    rewrite <- seq_shift, map_map. reflexivity.
Qed.

Lemma fold_pairs {C : Type} (f : C -> string * string -> C)
  (h : nat -> nat -> string * string) (cols : nat -> list nat)
  (rows : list nat) (c : C) :
  fold_left (fun c i => fold_left (fun c j => f c (h i j)) (cols i) c) rows c
  = fold_left f (flat_map (fun i => map (h i) (cols i)) rows) c.
Proof.
  revert c. induction rows as [| i rows IH]; intros c; simpl; [reflexivity |].
  rewrite fold_left_app, IH. f_equal.
  generalize (cols i). intros l. revert c.
  induction l as [| j l IHl]; intros c; simpl; [reflexivity | apply IHl].
Qed.

Lemma inc_props_pairs (m : Cli.Map2D) (props : list string) :
  Cli.inc_props m props
  = fold_left (fun m (p : string * string) => Cli.inc m (fst p) (snd p))
      (ordered_pairs props) m.
Proof.
  unfold Cli.inc_props. rewrite <- index_pairs.
  exact (fold_pairs
           (fun m (p : string * string) => Cli.inc m (fst p) (snd p))
           (fun i j => (nth i props ""%string, nth j props ""%string))
           (fun i => seq (i + 1) (List.length props - (i + 1)))
           (seq 0 (List.length props)) m).
Qed.

Lemma ordered_pairs_map (f : string -> string) (l : list string) :
  ordered_pairs (map f l)
  = map (fun p : string * string => (f (fst p), f (snd p))) (ordered_pairs l).
Proof.
  induction l as [| x l IH]; simpl; [reflexivity |].
  rewrite map_app, !map_map, IH. reflexivity.
Qed.

Lemma inc_pairs_spec (ps0 : list (string * string)) :
  forall (m : Cli.Map2D) (ps : list (string * string)),
    grid m -> tallies m ps ->
    let m' := fold_left (fun m (p : string * string) =>
                           Cli.inc m (fst p) (snd p)) ps0 m in
    grid m' /\
    tallies m'
      (ps ++ map (fun p : string * string =>
                    (Cli.prefixToWildcard (fst p), Cli.prefixToWildcard (snd p)))
                ps0).
Proof.
  induction ps0 as [| [x y] ps0 IH]; intros m ps Hg Ht; cbn [fold_left map].
  - rewrite app_nil_r. auto.
  - cbn [fst snd].
    destruct (IH (Cli.inc m x y)
                (ps ++ [(Cli.prefixToWildcard x, Cli.prefixToWildcard y)])
                (grid_inc m x y Hg) (tallies_inc m ps x y Ht)) as (Hg' & Ht').
    rewrite <- app_assoc in Ht'. auto.
Qed.

Lemma weights_of_spec (propLists : list (list string)) :
  grid (Cli.weights_of propLists) /\
  tallies (Cli.weights_of propLists) (all_pairs propLists).
Proof.
  unfold Cli.weights_of.
  assert (G : forall (m : Cli.Map2D) ps, grid m -> tallies m ps ->
            grid (fold_left Cli.inc_props propLists m) /\
            tallies (fold_left Cli.inc_props propLists m)
              (ps ++ all_pairs propLists)).
  { induction propLists as [| props rest IH]; intros m ps Hg Ht; simpl.
    - rewrite app_nil_r. auto.
    - rewrite inc_props_pairs.
      destruct (inc_pairs_spec (ordered_pairs props) m ps Hg Ht) as (Hg1 & Ht1).
      destruct (IH _ _ Hg1 Ht1) as (Hg2 & Ht2).
      unfold all_pairs in *. simpl.
      rewrite ordered_pairs_map, app_assoc. auto. }
  apply (G [] []).
  - split; [constructor | intros u row [=]].
  - intros u v. reflexivity.
Qed.

(** X11. The table the script builds holds, for every pair of keys, the
    number of times the first was seen at an earlier place than the second in
    one prop list (prefixes made wildcards); a pair never seen has no
    cell. *)
Theorem weights_count_ordered_pairs :
  forall (propLists : list (list string)) (u v : string),
    weight_of (Cli.weights_of propLists) u v
    = if Nat.eqb (pair_count propLists u v) 0 then None
      else Some (Z.of_nat (pair_count propLists u v)).
Proof.
  intros propLists u v.
  destruct (weights_of_spec propLists) as (_ & Ht). apply Ht.
Qed.

(* ================================================================== *)
(** * The order extracted *)

Lemma ordered_pairs_precedes (l : list string) (a b : string) :
  In (a, b) (ordered_pairs l) <-> precedes l a b.
Proof.
  induction l as [| x l IH]; simpl.
  - split; [intros [] |]. intros (l1 & l2 & l3 & E). destruct l1; discriminate.
  - rewrite in_app_iff, in_map_iff, IH. split.
    + intros [(y & [= <- <-] & Hy) | (l1 & l2 & l3 & ->)].
      * apply in_split in Hy. destruct Hy as (l2 & l3 & ->).
        exists [], l2, l3. reflexivity.
      * exists (x :: l1), l2, l3. reflexivity.
    + intros (l1 & l2 & l3 & E). destruct l1 as [| z l1]; simpl in E.
      * injection E as -> ->. left. exists b. split; [reflexivity |].
        apply in_or_app. simpl. auto.
      * injection E as -> ->. right. exists l1, l2, l3. reflexivity.
Qed.

Lemma all_pairs_seen (propLists : list (list string)) (a b : string) :
  In (a, b) (all_pairs propLists) <-> seen_before propLists a b.
Proof.
  unfold all_pairs, seen_before. rewrite in_flat_map.
  split; intros (props & Hp & H); exists props; (split; [exact Hp |]);
    apply ordered_pairs_precedes; exact H.
Qed.

Lemma edges_weight (m : Cli.Map2D) (u v : string) (w : Z) :
  grid m -> (In (u, v, w) (Cli.edges m) <-> weight_of m u v = Some w).
Proof.
  intros [Hk Hrows]. unfold Cli.edges, weight_of. rewrite in_flat_map. split.
  - intros ([u' row] & Hin & Hvw). cbn [fst snd] in Hvw.
    apply in_map_iff in Hvw. destruct Hvw as ([v' w'] & [= <- <- <-] & Hvw).
    assert (E : map_get m u' = Some row) by (apply In_map_get; assumption).
    rewrite E. apply In_map_get; [apply (Hrows u' row E) | exact Hvw].
  - destruct (map_get m u) as [row |] eqn:E; [| discriminate].
    intros Ev. exists (u, row). split; [apply map_get_In; exact E |].
    cbn [fst snd]. apply in_map_iff. exists (v, w).
    split; [reflexivity | apply map_get_In; exact Ev].
Qed.

Lemma edges_spec (propLists : list (list string)) (u v : string) (w : Z) :
  In (u, v, w) (Cli.edges (Cli.weights_of propLists)) <->
  w = Z.of_nat (pair_count propLists u v) /\ (0 < w)%Z.
Proof.
  destruct (weights_of_spec propLists) as (Hg & Ht).
  rewrite (edges_weight _ u v w Hg), (Ht u v). fold (pair_count propLists u v).
  destruct (Nat.eqb_spec (pair_count propLists u v) 0) as [E | Hne].
  - rewrite E. split; [discriminate | simpl; lia].
  - split; [intros [= <-]; split; [reflexivity | lia] |].
    intros [-> _]. reflexivity.
Qed.

Lemma edges_arc (propLists : list (list string)) (a b : string) :
  arc (Cli.edges (Cli.weights_of propLists)) a b <-> seen_before propLists a b.
Proof.
  rewrite <- all_pairs_seen. unfold arc. split.
  - intros (w & Hw). apply edges_spec in Hw. destruct Hw as (-> & Hpos).
    apply (count_occ_In pair_dec). unfold pair_count in Hpos. lia.
  - intros Hin. apply (count_occ_In pair_dec) in Hin.
    exists (Z.of_nat (pair_count propLists a b)). apply edges_spec.
    unfold pair_count. split; [reflexivity | lia].
Qed.

Lemma map_Some_inj {A : Type} (l l' : list A) :
  map Some l = map Some l' -> l = l'.
Proof.
  revert l'. induction l as [| x l IH]; intros [| y l'] E; try discriminate.
  - reflexivity.
  - simpl in E. injection E as -> E. f_equal. apply IH. exact E.
Qed.

(** X12. The script always prints an order: a list without holes in which
    every key that was seen in a pair occurs once, and nothing else; and when
    the prop lists do not contradict one another (no key comes before itself
    through a chain of "seen before"), the order agrees with every list: a
    key seen before another in some list comes before it. *)
Theorem extract_order_agrees :
  forall propLists : list (list string),
    exists out,
      Cli.extract_order propLists = Ret (map Some out) /\
      NoDup out /\
      (forall x, In x out <->
         exists y, seen_before propLists x y \/ seen_before propLists y x) /\
      ((forall x, ~ clos_trans string (seen_before propLists) x x) ->
       forall a b, seen_before propLists a b -> precedes out a b).
Proof.
  intros propLists. unfold Cli.extract_order, Cli.sortKeys.
  set (edges := Cli.edges (Cli.weights_of propLists)).
  destruct (fasTopoSort_nodes edges) as (out & E & P).
  destruct (nodes_of_spec edges) as (Hnd & Hment).
  exists out. split; [exact E |]. split.
  { apply (Permutation_NoDup (Permutation_sym P)). exact Hnd. }
  split.
  { intros x. transitivity (mentioned edges x).
    - rewrite <- Hment. split; intros Hx.
      + apply (Permutation_in x P Hx).
      + apply (Permutation_in x (Permutation_sym P) Hx).
    - unfold mentioned. split.
      + intros ([[a b] w] & He & Hx). cbn [fst snd] in Hx.
        assert (Hab : seen_before propLists a b)
          by (apply edges_arc; exists w; exact He).
        destruct Hx as [<- | <-]; [exists b | exists a]; auto.
      + intros (y & [Hxy | Hyx]).
        * apply edges_arc in Hxy. destruct Hxy as (w & Hw).
          exists (x, y, w). simpl. auto.
        * apply edges_arc in Hyx. destruct Hyx as (w & Hw).
          exists (y, x, w). simpl. auto. }
  intros Hacyc a b Hab.
  assert (Ha : arcs_acyclic edges).
  { assert (Hmono : forall x y, clos_trans string (arc edges) x y ->
              clos_trans string (seen_before propLists) x y).
    { intros x y Hxy. induction Hxy as [x y Hxy | x y z _ IH1 _ IH2].
      - apply t_step. apply (edges_arc propLists x y). exact Hxy.
      - apply t_trans with y; assumption. }
    intros x Hx. apply (Hacyc x). apply Hmono. exact Hx. }
  assert (Hp : arcs_positive edges).
  { intros u v w Hw. apply edges_spec in Hw. tauto. }
  destruct (fasTopoSort_edges edges Ha Hp) as (out' & E' & Hord).
  rewrite E in E'. injection E' as E'. apply map_Some_inj in E'. subst out'.
  apply edges_arc in Hab. destruct Hab as (w & Hw). apply (Hord a b w Hw).
Qed.

(** Two lists that agree: ["id"] before ["class name"] before ["on click"]. *)
Lemma agreeing_lists_ranked (x y : string) :
  clos_trans string
    (seen_before [["id"; "class name"]; ["class name"; "on click"]]%string)
    x y ->
  x = "id"%string /\ y <> "id"%string \/
  x = "class name"%string /\ y = "on click"%string.
Proof.
  induction 1 as [x y Hxy | x y z _ IH1 _ IH2].
  - apply all_pairs_seen in Hxy. simpl in Hxy.
    destruct Hxy as [Hin | [Hin | []]]; injection Hin as <- <-.
    + left. split; [reflexivity | discriminate].
    + right. split; reflexivity.
  - destruct IH1 as [(Hx & Hy) | (Hx & Hy)];
      destruct IH2 as [(Hy' & Hz) | (Hy' & Hz)]; subst.
    + contradiction.
    + left. split; [reflexivity | discriminate].
    + discriminate.
    + discriminate.
Qed.

Lemma extract_order_agrees_witness :
  exists out,
    Cli.extract_order [["id"; "class name"]; ["class name"; "on click"]]%string
    = Ret (map Some out) /\
    forall a b,
      seen_before [["id"; "class name"]; ["class name"; "on click"]]%string a b ->
      precedes out a b.
Proof.
  destruct (extract_order_agrees
              [["id"; "class name"]; ["class name"; "on click"]]%string)
    as (out & E & _ & _ & Hagree).
  exists out. split; [exact E |]. apply Hagree.
  intros x Hx. apply agreeing_lists_ranked in Hx.
  destruct Hx as [(Hx & Hy) | (Hx & Hy)]; congruence.
Defined.

(* ================================================================== *)
(** * The prop lists of an element *)

Section ElementGroups.
Context {N : Type}.
Variable splitIdentifier : string -> string.

Lemma cli_addGroup_spec (propLists : list (list string)) (group : list string) :
  Cli.addGroup (propLists, group)
  = (propLists ++ filter nonempty [group], []).
Proof.
  unfold Cli.addGroup. destruct group; simpl; [rewrite app_nil_r |]; reflexivity.
Qed.

Lemma element_groups_loop (attributes : list (JSXAttributeLike N)) :
  forall (propLists : list (list string)) (group : list string),
    fst (Cli.addGroup
           (fold_left
              (fun (st : list (list string) * list string) prop =>
                 match prop with
                 | JSXAttribute name _ =>
                     (fst st, snd st ++ [splitIdentifier name])
                 | JSXSpreadAttribute _ => Cli.addGroup st
                 end)
              attributes (propLists, group)))
    = propLists
      ++ filter nonempty
           (match run_names splitIdentifier attributes with
            | r :: rs => (group ++ r) :: rs
            | [] => [group]
            end).
Proof.
  unfold run_names.
  induction attributes as [| [n x | x] attributes IH]; intros propLists group.
  - cbn [fold_left runs map]. rewrite cli_addGroup_spec, app_nil_r. reflexivity.
  - cbn [fold_left fst snd]. rewrite IH. cbn [runs].
    destruct (runs attributes) as [| r rs]; cbn [map fst];
      rewrite <- ?app_assoc; reflexivity.
  - cbn [fold_left]. rewrite cli_addGroup_spec, IH. cbn [runs map app].
    rewrite app_nil_r.
    destruct (runs attributes) as [| r rs] eqn:E.
    + exfalso. destruct attributes as [| [? ? | ?] ?]; cbn [runs] in E;
        try destruct (runs _); discriminate.
    + cbn [map filter]. destruct group; cbn [nonempty app];
        rewrite <- ?app_assoc; reflexivity.
Qed.
End ElementGroups.

(** X21. For a [JSXElement] the script adds to its prop lists the runs of
    attribute names between the spread attributes, normalised, in their
    order, without the empty runs: the runs that [sortProps] sorts. *)
Theorem element_groups_are_runs :
  forall (N : Type) (splitIdentifier : string -> string)
         (attributes : list (JSXAttributeLike N))
         (propLists : list (list string)),
    Cli.element_groups splitIdentifier attributes propLists
    = propLists ++ filter nonempty (run_names splitIdentifier attributes).
Proof.
  intros N splitIdentifier attributes propLists. unfold Cli.element_groups.
  rewrite element_groups_loop.
  destruct (run_names splitIdentifier attributes) as [| r rs] eqn:E;
    [| reflexivity].
  exfalso. unfold run_names in E. apply map_eq_nil in E.
  destruct attributes as [| [? ? | ?] ?]; cbn [runs] in E;
    try destruct (runs _); discriminate.
Qed.


(* ================================================================== *)
(** * Runs and spread attributes *)

Section Runs.
Context {N : Type}.

Local Abbreviation attr :=
  (fun item : string * N => JSXAttribute (fst item) (snd item)).

Lemma runs_nonempty (props : list (JSXAttributeLike N)) : runs props <> [].
Proof.
  destruct props as [| [n r | s] props]; simpl;
    try destruct (runs props); intros E; discriminate.
Qed.

Lemma runs_attrs (g : list (string * N)) (props : list (JSXAttributeLike N)) :
  runs (map attr g ++ props)
  = match runs props with
    | r :: rs => (g ++ r) :: rs
    | [] => [g]
    end.
Proof.
  induction g as [| [n x] g IH]; simpl.
  - destruct (runs props) eqn:E; [| reflexivity].
    exfalso. exact (runs_nonempty props E).
  - rewrite IH. destruct (runs props); reflexivity.
Qed.

Lemma spreads_attrs (g : list (string * N)) : spreads (map attr g) = [].
Proof. induction g as [| [n x] g IH]; simpl; auto. Qed.

Lemma spreads_app (l l' : list (JSXAttributeLike N)) :
  spreads (l ++ l') = spreads l ++ spreads l'.
Proof. unfold spreads. apply flat_map_app. Qed.

Lemma weave_runs (props : list (JSXAttributeLike N)) :
  weave (runs props) (spreads props) = props.
Proof.
  induction props as [| [n r | s] props IH]; simpl.
  - reflexivity.
  - destruct (runs props) as [| g gs] eqn:E.
    + exfalso. exact (runs_nonempty props E).
    + simpl in *. rewrite IH. reflexivity.
  - rewrite IH. reflexivity.
Qed.

Lemma weave_perm (gs gs' : list (list (string * N))) (ss : list N) :
  Forall2 (fun g g' => Permutation g' g) gs gs' ->
  Permutation (weave gs' ss) (weave gs ss).
Proof.
  intros F. revert ss. induction F as [| g g' gs gs' P _ IH]; intros ss; simpl.
  - reflexivity.
  - apply Permutation_app; [apply Permutation_map; exact P |].
    destruct ss as [| s ss]; [reflexivity |].
    apply perm_skip. apply IH.
Qed.
End Runs.

(* ================================================================== *)
(** * The map of a run *)

Section KeyMap.
Context {N : Type}.
Variable splitIdentifier : string -> string.

Local Abbreviation key := (fun item : string * N => splitIdentifier (fst item)).

Lemma keyMap_fold (g : list (string * N)) (m : jsmap string (string * N)) :
  let m' := fold_left (fun m item => map_set m (key item) item) g m in
  (NoDup (map_keys m) -> NoDup (map_keys m')) /\
  (forall k, In k (map_keys m') <-> In k (map_keys m) \/ In k (map key g)) /\
  (forall k item, map_get m' k = Some item ->
     (map_get m k = Some item /\ ~ In k (map key g)) \/
     exists g1 g2, g = g1 ++ item :: g2 /\ key item = k /\
                   ~ In k (map key g2)).
Proof.
  revert m. induction g as [| x g IH]; intros m; cbn [fold_left map].
  - split; [auto |]. split; [simpl; tauto |]. intros k item E. left. auto.
  - destruct (IH (map_set m (key x) x)) as (Hn & Hk & Hlast).
    split; [intros Hm; apply Hn, map_set_keys_NoDup, Hm |].
    split.
    + intros k. rewrite Hk, map_set_keys_In. simpl. intuition.
    + intros k item E. destruct (Hlast k item E) as [(E' & Hnot) | Hex].
      * destruct (string_dec k (key x)) as [-> | Hne].
        -- rewrite map_get_set_same in E'. injection E' as <-.
           right. exists [], g. auto.
        -- rewrite map_get_set_other in E' by exact Hne.
           left. split; [exact E' |]. simpl. intros [Hx | Hin]; auto.
      * destruct Hex as (g1 & g2 & -> & Ek & Hnot).
        right. exists (x :: g1), g2. auto.
Qed.

Lemma keyMap_NoDup (g : list (string * N)) :
  NoDup (map_keys (Plugin.keyMap_of splitIdentifier g)).
Proof. apply (keyMap_fold g []). constructor. Qed.

Lemma keyMap_keys (g : list (string * N)) (k : string) :
  In k (map_keys (Plugin.keyMap_of splitIdentifier g)) <-> In k (map key g).
Proof.
  destruct (keyMap_fold g []) as (_ & Hk & _). rewrite (Hk k). simpl. tauto.
Qed.

(** The keys are the normalised names in the order of their first
    occurrence; with distinct names the map lists the run as it is. *)
Lemma keyMap_distinct (g : list (string * N)) :
  NoDup (map key g) -> kept splitIdentifier g = g.
Proof.
  unfold kept, Plugin.keyMap_of.
  assert (G : forall m, (forall k, In k (map_keys m) -> ~ In k (map key g)) ->
            NoDup (map key g) ->
            map snd (fold_left (fun m item => map_set m (key item) item) g m)
            = map snd m ++ g).
  { induction g as [| x g IH]; intros m Hdis Hn; cbn [fold_left].
    - now rewrite app_nil_r.
    - inversion Hn as [| ? ? Hx Hn']; subst.
      assert (Habs : ~ In (key x) (map_keys m)).
      { intros Hin. apply (Hdis _ Hin). simpl. auto. }
      assert (Eset : map_set m (key x) x = m ++ [(key x, x)]).
      { clear - Habs. induction m as [| [k v] m IHm]; simpl in *; [reflexivity |].
        destruct (eq_dec k (key x)) as [E | Hne]; [tauto |].
        f_equal. apply IHm. tauto. }
      rewrite IH; [| | exact Hn'].
      + rewrite Eset, map_app, <- app_assoc. reflexivity.
      + intros k Hk Hin. rewrite Eset in Hk. unfold map_keys in Hk.
        rewrite map_app in Hk. apply in_app_or in Hk.
        destruct Hk as [Hk | [<- | []]]; [| contradiction].
        apply (Hdis k Hk). simpl. auto. }
  intros Hn. apply (G [] (fun k H => match H with end) Hn).
Qed.
End KeyMap.

(* ================================================================== *)
(** * Sorting run by run *)

Section SortProps.
Context {N : Type}.
Variable splitIdentifier : string -> string.
Variables Math_log Math_exp : float -> float.
Variable session_run : list Z -> list Z -> float * float.

Local Abbreviation attr :=
  (fun item : string * N => JSXAttribute (fst item) (snd item)).
Local Abbreviation sort :=
  (PreferenceSorter.sort Math_log Math_exp session_run).
Local Abbreviation addGroup :=
  (Plugin.addGroup (N := N) splitIdentifier Math_log Math_exp session_run).
Local Abbreviation step :=
  (fun prop (st : Plugin.state (N := N)) =>
     match prop with
     | JSXAttribute name rest =>
         Ret (fst (fst st), snd (fst st), snd st ++ [(name, rest)])
     | JSXSpreadAttribute _ =>
         st' <- addGroup st ;;
         Ret (fst (fst st'), snd (fst st') ++ [Some prop], [])
     end).

(** In a valid mode [sort] returns a permutation of distinct tokens and
    leaves the sorter in the same mode. *)
Lemma sort_valid (this : PreferenceSorter.t) (arr : list string) :
  valid_mode this -> NoDup arr ->
  exists out this',
    sort this arr = Ret (Some out, this') /\ Permutation out arr /\
    valid_mode this'.
Proof.
  intros Hmode Hn. unfold PreferenceSorter.sort.
  destruct (Nat.ltb (List.length arr) 2); [exists arr, this; auto |].
  destruct (addAll_sound arr (PreferenceSorter.orders this))
    as (dag & E & Hs & Hk).
  rewrite E. cbn [bind].
  destruct Hmode as [Hno | [[Hyes | Hst] Hai]].
  - rewrite Hno. cbn [String.eqb Ascii.eqb Bool.eqb].
    destruct (finish_perm dag arr arr Hs Hk Hn) as (out & Ef & P).
    rewrite Ef. cbn [bind]. exists out, this.
    split; [reflexivity |]. split; [exact P | left; exact Hno].
  - rewrite Hyes. cbn [String.eqb Ascii.eqb Bool.eqb].
    destruct (PreferenceSorter.aiComparator this) as [ai |]; [| congruence].
    destruct (topoSort_perm (AIComparator.compare session_run) dag arr ai Hs Hk Hn)
      as (out & ai' & Et & P).
    rewrite Et. cbn [bind fst snd]. eexists out, _.
    split; [reflexivity |]. split; [exact P |].
    right. cbn. split; [left; reflexivity | discriminate].
  - rewrite Hst. cbn [String.eqb Ascii.eqb Bool.eqb].
    destruct (PreferenceSorter.aiComparator this) as [ai |]; [| congruence].
    destruct (PreferenceSorter.fill_wins session_run arr ai) as [w ai'].
    destruct (finish_perm dag arr
                (PreferenceSorter.by_strength
                   (BradleyTerry.bradleyTerry Math_log Math_exp w) arr)
                Hs Hk Hn)
      as (out & Ef & P).
    rewrite Ef. cbn [bind]. eexists out, _.
    split; [reflexivity |]. split; [exact P |].
    right. cbn. split; [right; reflexivity | discriminate].
Qed.

(** Looking up the keys of a map in any order gives its values, in that
    order. *)
Lemma lookup_all (m : jsmap string (string * N)) (ks : list string) :
  NoDup (map_keys m) -> Permutation ks (map_keys m) ->
  exists items,
    map (fun k => option_map attr (map_get m k)) ks = map Some (map attr items) /\
    Permutation items (map snd m).
Proof.
  intros Hn P.
  exists (flat_map (fun k => match map_get m k with
                             | Some v => [v]
                             | None => []
                             end) ks).
  split.
  - assert (Hin : forall k, In k ks -> In k (map_keys m)).
    { intros k Hk. apply (Permutation_in k P Hk). }
    clear P. induction ks as [| k ks IH]; simpl; [reflexivity |].
    destruct (map_get m k) as [v |] eqn:E.
    + simpl. f_equal. apply IH. intros k' Hk'. apply Hin. simpl. auto.
    + exfalso. apply map_get_None in E. apply E. apply Hin. simpl. auto.
  - rewrite (Permutation_flat_map _ P). clear P.
    assert (G : forall l, incl l m ->
              flat_map (fun k => match map_get m k with
                                 | Some v => [v]
                                 | None => []
                                 end) (map fst l) = map snd l).
    { induction l as [| [k v] l IH]; intros Hl; simpl; [reflexivity |].
      rewrite (In_map_get m k v Hn (Hl _ (or_introl eq_refl))). simpl.
      f_equal. apply IH. intros x Hx. apply Hl. simpl. auto. }
    unfold map_keys. rewrite (G m (incl_refl m)). reflexivity.
Qed.

Lemma addGroup_spec (this : PreferenceSorter.t)
  (sorted : list (JSXAttributeLike N)) (group : list (string * N)) :
  valid_mode this ->
  exists this' g',
    addGroup (this, map Some sorted, group)
    = Ret (this', map Some (sorted ++ map attr g'), []) /\
    valid_mode this' /\ Permutation g' (kept splitIdentifier group).
Proof.
  intros Hmode. unfold Plugin.addGroup.
  destruct group as [| x group].
  - exists this, []. simpl. rewrite app_nil_r. auto.
  - set (g := x :: group).
    pose proof (keyMap_NoDup splitIdentifier g) as Hn.
    destruct (sort_valid this _ Hmode Hn) as (out & this' & E & P & Hmode').
    rewrite E. cbn [bind fst snd].
    destruct (lookup_all (Plugin.keyMap_of splitIdentifier g) out Hn P)
      as (items & El & Pi).
    rewrite El. exists this', items. rewrite map_app.
    split; [reflexivity |]. split; [exact Hmode' | exact Pi].
Qed.

Lemma sortProps_loop (props : list (JSXAttributeLike N)) :
  forall (this : PreferenceSorter.t) (sorted : list (JSXAttributeLike N))
         (group : list (string * N)),
    valid_mode this ->
    exists out this',
      (st <- for_each props step (this, map Some sorted, group) ;; addGroup st)
      = Ret (this', map Some (sorted ++ out), []) /\
      valid_mode this' /\
      spreads out = spreads props /\
      Forall2 (fun g g' => Permutation g' (kept splitIdentifier g))
        (runs (map attr group ++ props)) (runs out).
Proof.
  induction props as [| [n r | s] props IH]; intros this sorted group Hmode.
  - cbn [for_each bind].
    destruct (addGroup_spec this sorted group Hmode) as (this' & g' & E & Hm & P).
    exists (map attr g'), this'. split; [exact E |]. split; [exact Hm |].
    split; [apply spreads_attrs |].
    rewrite app_nil_r.
    rewrite <- (app_nil_r (map attr group)), <- (app_nil_r (map attr g')).
    rewrite !runs_attrs. simpl. rewrite !app_nil_r. constructor; auto.
  - cbn [for_each bind fst snd].
    destruct (IH this sorted (group ++ [(n, r)]) Hmode)
      as (out & this' & E & Hm & Hs & Hr).
    exists out, this'. split; [exact E |]. split; [exact Hm |].
    split; [exact Hs |].
    rewrite map_app, <- app_assoc in Hr. exact Hr.
  - cbn [for_each].
    destruct (addGroup_spec this sorted group Hmode) as (this1 & g1 & E1 & Hm1 & P1).
    rewrite E1. cbn [bind fst snd].
    change [Some (JSXSpreadAttribute s)]
      with (map (@Some (JSXAttributeLike N)) [JSXSpreadAttribute s]).
    rewrite <- map_app.
    destruct (IH this1 ((sorted ++ map attr g1) ++ [JSXSpreadAttribute s]) [] Hm1)
      as (out & this' & E & Hm & Hs & Hr).
    exists (map attr g1 ++ JSXSpreadAttribute s :: out), this'.
    split.
    { rewrite E. f_equal. f_equal. f_equal. rewrite <- !app_assoc. reflexivity. }
    split; [exact Hm |]. split.
    { rewrite spreads_app, spreads_attrs. simpl. f_equal. exact Hs. }
    rewrite !runs_attrs. cbn [runs]. rewrite !app_nil_r.
    constructor; [exact P1 | exact Hr].
Qed.
End SortProps.

(** X13. In the three modes [sortProps] returns, and it sorts run by run:
    the spread attributes are the same, in the same order; each run of
    attributes between two of them is replaced by a permutation of the
    attributes that the map of the run keeps (one per normalised name), and
    no cell of the result is [undefined]. *)
Theorem sortProps_run_by_run :
  forall (N : Type) (splitIdentifier : string -> string)
         (Math_log Math_exp : float -> float)
         (session_run : list Z -> list Z -> float * float)
         (props : list (JSXAttributeLike N)) (this : PreferenceSorter.t),
    valid_mode this ->
    exists out this',
      Plugin.sortProps splitIdentifier Math_log Math_exp session_run props this
      = Ret (map Some out, this') /\
      spreads out = spreads props /\
      Forall2 (fun g g' => Permutation g' (kept splitIdentifier g))
        (runs props) (runs out).
Proof.
  intros N splitIdentifier Math_log Math_exp session_run props this Hmode.
  destruct (sortProps_loop splitIdentifier Math_log Math_exp session_run props
              this [] [] Hmode) as (out & this' & E & _ & Hs & Hr).
  exists out, this'. split; [| auto].
  unfold Plugin.sortProps. apply bind_Ret_inv in E.
  destruct E as (st & E1 & E2). simpl in E1.
  rewrite E1. cbn [bind]. rewrite E2. reflexivity.
Qed.

Lemma sortProps_run_by_run_witness :
  exists out this',
    Plugin.sortProps (fun x => x) nan_only nan_only first_wins
      [JSXAttribute "title" 1; JSXAttribute "id" 2; JSXSpreadAttribute 3;
       JSXAttribute "key" 4]%string
      (PreferenceSorter.create ["key"; "id"; "title"]%string (fun x => x) "no" [])
    = Ret (map Some out, this') /\
    spreads out
    = spreads [JSXAttribute "title" 1; JSXAttribute "id" 2;
               JSXSpreadAttribute 3; JSXAttribute "key" 4]%string /\
    Forall2 (fun g g' => Permutation g' (kept (fun x => x) g))
      (runs [JSXAttribute "title" 1; JSXAttribute "id" 2;
             JSXSpreadAttribute 3; JSXAttribute "key" 4]%string)
      (runs out).
Proof.
  apply sortProps_run_by_run. left. reflexivity.
Defined.

(** X14. In the three modes, when the attributes of every run have distinct
    normalised names, [sortProps] loses nothing: the result is a permutation
    of the props in which the spread attributes are the same, in the same
    order, and each run holds the attributes it held. *)
Theorem sortProps_permutes_runs :
  forall (N : Type) (splitIdentifier : string -> string)
         (Math_log Math_exp : float -> float)
         (session_run : list Z -> list Z -> float * float)
         (props : list (JSXAttributeLike N)) (this : PreferenceSorter.t),
    valid_mode this ->
    Forall (fun g => NoDup (map (fun item : string * N =>
                                   splitIdentifier (fst item)) g))
      (runs props) ->
    exists out this',
      Plugin.sortProps splitIdentifier Math_log Math_exp session_run props this
      = Ret (map Some out, this') /\
      Permutation out props /\
      spreads out = spreads props /\
      Forall2 (fun g g' => Permutation g' g) (runs props) (runs out).
Proof.
  intros N splitIdentifier Math_log Math_exp session_run props this Hmode Hd.
  destruct (sortProps_loop splitIdentifier Math_log Math_exp session_run props
              this [] [] Hmode) as (out & this' & E & _ & Hs & Hr).
  simpl in Hr.
  assert (Hr' : Forall2 (fun g g' => Permutation g' g) (runs props) (runs out)).
  { revert Hd. induction Hr as [| g g' gs gs' P _ IH]; intros Hd; constructor.
    - inversion Hd; subst.
      rewrite (keyMap_distinct splitIdentifier g) in P; assumption.
    - apply IH. inversion Hd; assumption. }
  exists out, this'. split.
  { unfold Plugin.sortProps. apply bind_Ret_inv in E.
    destruct E as (st & E1 & E2). simpl in E1.
    rewrite E1. cbn [bind]. rewrite E2. reflexivity. }
  split; [| auto].
  rewrite <- (weave_runs out), <- (weave_runs props), Hs.
  apply weave_perm. exact Hr'.
Qed.

Lemma sortProps_permutes_runs_witness :
  exists out this',
    Plugin.sortProps (fun x => x) nan_only nan_only first_wins
      [JSXAttribute "title" 1; JSXAttribute "id" 2; JSXSpreadAttribute 3;
       JSXAttribute "id" 4]%string
      (PreferenceSorter.create ["key"; "id"; "title"]%string (fun x => x)
         "stable" [])
    = Ret (map Some out, this') /\
    Permutation out
      [JSXAttribute "title" 1; JSXAttribute "id" 2; JSXSpreadAttribute 3;
       JSXAttribute "id" 4]%string /\
    spreads out
    = spreads [JSXAttribute "title" 1; JSXAttribute "id" 2;
               JSXSpreadAttribute 3; JSXAttribute "id" 4]%string /\
    Forall2 (fun g g' => Permutation g' g)
      (runs [JSXAttribute "title" 1; JSXAttribute "id" 2;
             JSXSpreadAttribute 3; JSXAttribute "id" 4]%string)
      (runs out).
Proof.
  apply sortProps_permutes_runs.
  - right. split; [right; reflexivity | discriminate].
  - simpl. repeat constructor; simpl; intuition discriminate.
Defined.

(* ================================================================== *)
(** * Attributes with the same normalised name *)

Section Survivors.
Context {N : Type}.
Variable splitIdentifier : string -> string.

Local Abbreviation key := (fun item : string * N => splitIdentifier (fst item)).

Lemma keyMap_other (g : list (string * N)) (m : jsmap string (string * N))
  (k : string) :
  (forall item, In item g -> key item <> k) ->
  map_get (fold_left (fun m item => map_set m (key item) item) g m) k
  = map_get m k.
Proof.
  revert m. induction g as [| x g IH]; intros m Hne; cbn [fold_left];
    [reflexivity |].
  rewrite IH by (intros item Hi; apply Hne; simpl; auto).
  apply map_get_set_other. intros E. apply (Hne x); simpl; auto.
Qed.

Lemma keyMap_last (g1 g2 : list (string * N)) (item : string * N) :
  (forall item', In item' g2 -> key item' <> key item) ->
  map_get (Plugin.keyMap_of splitIdentifier (g1 ++ item :: g2)) (key item)
  = Some item.
Proof.
  intros Hlast. unfold Plugin.keyMap_of.
  rewrite fold_left_app. cbn [fold_left].
  rewrite keyMap_other by exact Hlast. apply map_get_set_same.
Qed.

Lemma keyMap_entries (g : list (string * N)) (k : string) (item : string * N) :
  In (k, item) (Plugin.keyMap_of splitIdentifier g) ->
  key item = k /\ survives splitIdentifier g item.
Proof.
  intros Hin.
  apply (In_map_get _ k item (keyMap_NoDup splitIdentifier g)) in Hin.
  destruct (keyMap_fold splitIdentifier g []) as (_ & _ & Hlast).
  destruct (Hlast k item Hin) as [([=] & _) | (g1 & g2 & -> & Ek & Hnot)].
  split; [exact Ek |]. exists g1, g2. split; [reflexivity |].
  intros item' Hi E. apply Hnot. rewrite <- Ek, <- E.
  apply (in_map key g2 item' Hi).
Qed.
End Survivors.

(** X15. Of the attributes of a run whose names normalise to the same key,
    the map of the run keeps the last one only: an attribute is kept exactly
    when no later attribute of the run has its normalised name, so the number
    of attributes kept is the number of distinct normalised names. *)
Theorem kept_last_of_each_name :
  forall (N : Type) (splitIdentifier : string -> string)
         (g : list (string * N)),
    (forall item, In item (kept splitIdentifier g) <->
                  survives splitIdentifier g item) /\
    NoDup (map (fun item : string * N => splitIdentifier (fst item))
             (kept splitIdentifier g)) /\
    List.length (kept splitIdentifier g)
    = List.length
        (nodup string_dec
           (map (fun item : string * N => splitIdentifier (fst item)) g)).
Proof.
  intros N splitIdentifier g.
  assert (Hkeys : map (fun item : string * N => splitIdentifier (fst item))
                    (kept splitIdentifier g)
                  = map_keys (Plugin.keyMap_of splitIdentifier g)).
  { unfold kept, map_keys. rewrite map_map. apply map_ext_in.
    intros [k item] Hin. cbn [fst snd].
    apply (keyMap_entries splitIdentifier g k item Hin). }
  split; [| split].
  - intros item. unfold kept. rewrite in_map_iff. split.
    + intros ([k item'] & E & Hin). cbn [snd] in E. subst item'.
      apply (keyMap_entries splitIdentifier g k item Hin).
    + intros (g1 & g2 & -> & Hlast).
      exists (splitIdentifier (fst item), item). split; [reflexivity |].
      apply map_get_In. apply keyMap_last. exact Hlast.
  - rewrite Hkeys. apply keyMap_NoDup.
  - rewrite <- (length_map (fun item : string * N => splitIdentifier (fst item))
                  (kept splitIdentifier g)), Hkeys.
    apply Permutation_length. apply NoDup_Permutation.
    + apply keyMap_NoDup.
    + apply NoDup_nodup.
    + intros k. rewrite nodup_In. apply keyMap_keys.
Qed.

(* ================================================================== *)
(** * [sortProps] with a mode outside the three values *)

Section OtherMode.
Context {N : Type}.
Variable splitIdentifier : string -> string.
Variables Math_log Math_exp : float -> float.
Variable session_run : list Z -> list Z -> float * float.

Local Abbreviation attr :=
  (fun item : string * N => JSXAttribute (fst item) (snd item)).
Local Abbreviation addGroup :=
  (Plugin.addGroup (N := N) splitIdentifier Math_log Math_exp session_run).
Local Abbreviation step :=
  (fun prop (st : Plugin.state (N := N)) =>
     match prop with
     | JSXAttribute name rest =>
         Ret (fst (fst st), snd (fst st), snd st ++ [(name, rest)])
     | JSXSpreadAttribute _ =>
         st' <- addGroup st ;;
         Ret (fst (fst st'), snd (fst st') ++ [Some prop], [])
     end).
Local Abbreviation small :=
  (fun g : list (string * N) =>
     Nat.ltb (List.length (kept splitIdentifier g)) 2).

Lemma lookup_in_order (m : jsmap string (string * N)) :
  NoDup (map_keys m) ->
  map (fun k => option_map attr (map_get m k)) (map_keys m)
  = map Some (map attr (map snd m)).
Proof.
  intros Hn. unfold map_keys. rewrite !map_map. apply map_ext_in.
  intros [k v] Hin. cbn [fst snd].
  rewrite (In_map_get m k v Hn Hin). reflexivity.
Qed.

Lemma addGroup_other (this : PreferenceSorter.t)
  (sorted : list (option (JSXAttributeLike N))) (group : list (string * N)) :
  other_mode this ->
  addGroup (this, sorted, group)
  = if small group
    then Ret (this, sorted ++ map Some (map attr (kept splitIdentifier group)), [])
    else TypeError.
Proof.
  intros (Hno & Hyes & Hst). unfold Plugin.addGroup.
  destruct group as [| x group].
  - simpl. rewrite app_nil_r. reflexivity.
  - set (g := x :: group).
    destruct (sort_other_mode Math_log Math_exp session_run this
                (map_keys (Plugin.keyMap_of splitIdentifier g)) Hno Hyes Hst)
      as (_ & E).
    rewrite E. unfold kept, map_keys. rewrite !length_map.
    destruct (Nat.ltb (List.length (Plugin.keyMap_of splitIdentifier g)) 2);
      cbn [bind fst snd]; [| reflexivity].
    rewrite <- (lookup_in_order _ (keyMap_NoDup splitIdentifier g)).
    reflexivity.
Qed.

Lemma sortProps_other_loop (this : PreferenceSorter.t)
  (props : list (JSXAttributeLike N)) :
  other_mode this ->
  forall (sorted : list (option (JSXAttributeLike N)))
         (group : list (string * N)),
    (st <- for_each props step (this, sorted, group) ;; addGroup st)
    = if forallb small (runs (map attr group ++ props))
      then Ret (this,
                sorted ++ map Some
                  (weave (map (kept splitIdentifier)
                            (runs (map attr group ++ props)))
                     (spreads props)),
                [])
      else TypeError.
Proof.
  intros Hmode.
  induction props as [| [n r | s] props IH]; intros sorted group.
  - cbn [for_each bind]. rewrite (addGroup_other this sorted group Hmode).
    rewrite runs_attrs. cbn [runs forallb map weave spreads flat_map].
    rewrite !app_nil_r, andb_true_r. reflexivity.
  - cbn [for_each bind fst snd].
    rewrite (IH sorted (group ++ [(n, r)])).
    rewrite map_app, <- app_assoc. reflexivity.
  - cbn [for_each]. rewrite (addGroup_other this sorted group Hmode).
    rewrite runs_attrs. cbn [runs]. rewrite app_nil_r.
    cbn [forallb map].
    destruct (small group); cbn [bind fst snd andb]; [| reflexivity].
    rewrite (IH _ []). cbn [map app].
    destruct (forallb small (runs props)); [| reflexivity].
    f_equal. f_equal. f_equal.
    cbn [spreads flat_map app weave].
    rewrite <- !app_assoc, map_app. reflexivity.
Qed.
End OtherMode.

(** X16. With a mode outside the three values, the [undefined] that the
    sorter returns surfaces in [sortProps]: the call raises a [TypeError] as
    soon as one run of attributes has two or more distinct normalised names;
    otherwise it returns the props in their order, each run reduced to the
    attributes its map keeps, and leaves the sorter as it was. *)
Theorem sortProps_other_mode :
  forall (N : Type) (splitIdentifier : string -> string)
         (Math_log Math_exp : float -> float)
         (session_run : list Z -> list Z -> float * float)
         (props : list (JSXAttributeLike N)) (this : PreferenceSorter.t),
    other_mode this ->
    Plugin.sortProps splitIdentifier Math_log Math_exp session_run props this
    = if runs_small splitIdentifier props
      then Ret (map Some (weave (map (kept splitIdentifier) (runs props))
                            (spreads props)),
                this)
      else TypeError.
Proof.
  intros N splitIdentifier Math_log Math_exp session_run props this Hmode.
  pose proof (sortProps_other_loop splitIdentifier Math_log Math_exp session_run
                this props Hmode [] []) as E.
  cbn [map app] in E. unfold Plugin.sortProps, runs_small.
  match type of E with
  | bind ?loop _ = _ => destruct loop as [st | |] eqn:E1
  end; cbn [bind] in E |- *.
  - rewrite E. destruct (forallb _ (runs props)); reflexivity.
  - destruct (forallb _ (runs props)); [discriminate | reflexivity].
  - destruct (forallb _ (runs props)); discriminate.
Qed.

Lemma sortProps_other_mode_witness :
  Plugin.sortProps (fun x => x) nan_only nan_only first_wins
    [JSXAttribute "id" 1; JSXSpreadAttribute 2; JSXAttribute "title" 3;
     JSXAttribute "key" 4]%string
    (PreferenceSorter.create ["key"; "id"]%string (fun x => x) "fast" [])
  = if runs_small (fun x => x)
         [JSXAttribute "id" 1; JSXSpreadAttribute 2; JSXAttribute "title" 3;
          JSXAttribute "key" 4]%string
    then Ret (map Some
                (weave (map (kept (fun x => x))
                          (runs [JSXAttribute "id" 1; JSXSpreadAttribute 2;
                                 JSXAttribute "title" 3;
                                 JSXAttribute "key" 4]%string))
                   (spreads [JSXAttribute "id" 1; JSXSpreadAttribute 2;
                             JSXAttribute "title" 3;
                             JSXAttribute "key" 4]%string)),
              PreferenceSorter.create ["key"; "id"]%string (fun x => x)
                "fast" [])
    else TypeError.
Proof.
  apply sortProps_other_mode. repeat split; discriminate.
Defined.


(* ================================================================== *)
(** * Global replacement *)

Section Replace.
Import SplitIdentifier.
Variable match_at : bool -> list ascii -> option (list ascii * nat).

(** Where the expression matches nothing the string is left as it is. *)
Lemma replace_from_same (ok : ascii -> Prop) (s : list ascii) :
  (forall b t, Forall ok t -> match_at b t = None) ->
  Forall ok s -> forall b, replace_from match_at b 0 s = s.
Proof.
  intros Hnone Hs. induction Hs as [| c s Hc Hs IH]; intros b; [reflexivity |].
  cbn [replace_from]. rewrite (Hnone b (c :: s)) by (constructor; assumption).
  f_equal. apply IH.
Qed.

(** What the characters kept and the texts put in have, the result has. *)
Lemma replace_from_Forall (R Q : ascii -> Prop) (s : list ascii) :
  (forall b t text n,
     Forall R t -> match_at b t = Some (text, n) -> Forall Q text) ->
  (forall b c t, R c -> match_at b (c :: t) = None -> Q c) ->
  Forall R s -> forall b k, Forall Q (replace_from match_at b k s).
Proof.
  intros Hsome Hnone Hs.
  induction Hs as [| c s Hc Hs IH]; intros b k; [constructor |].
  cbn [replace_from]. destruct k as [| k]; [| apply IH].
  destruct (match_at b (c :: s)) as [[text n] |] eqn:E.
  - apply Forall_app. split; [| apply IH].
    apply (Hsome b (c :: s) text n); [constructor; assumption | exact E].
  - constructor; [| apply IH]. apply (Hnone b c s Hc E).
Qed.

(** Passing the characters of a match. *)
Lemma replace_from_skip (s : list ascii) (k : nat) (b : bool) :
  replace_from match_at b (S k) s
  = replace_from match_at false 0 (skipn (S k) s).
Proof.
  revert k b. induction s as [| c s IH]; intros k b; [reflexivity |].
  cbn [replace_from skipn]. destruct k as [| k]; [| apply IH].
  destruct s; reflexivity.
Qed.
End Replace.

(* ================================================================== *)
(** * The character classes *)

Section Classes.
Import SplitIdentifier.

Lemma to_lower_classes (c : ascii) :
  is_upper (to_lower c) = false /\
  (is_sep c = false -> is_sep (to_lower c) = false) /\
  (is_edge c = false -> is_edge (to_lower c) = false) /\
  (is_upper c = false -> to_lower c = c) /\
  (plain_char c = true -> (1 <= AIComparator.VOCAB (to_lower c) <= 38)%Z).
Proof.
  destruct c as [[] [] [] [] [] [] [] []]; vm_compute;
    repeat split; intros; congruence.
Qed.

Lemma class_facts (c : ascii) :
  (is_space c = true -> is_edge c = true) /\
  (is_sep c = false -> Ascii.eqb c "-" = false) /\
  (name_char c = true -> is_sep c = false -> plain_char c = true) /\
  (is_upper c = true -> is_edge c = false) /\
  (is_lower c = true -> is_edge c = false).
Proof.
  destruct c as [[] [] [] [] [] [] [] []]; vm_compute;
    repeat split; intros; congruence.
Qed.

Lemma run_none (p : ascii -> bool) (s : list ascii) :
  Forall (fun c => p c = false) s -> run p s = 0.
Proof. intros [| c s' Hc _]; simpl; [| rewrite Hc]; reflexivity. Qed.

Lemma run_all (p : ascii -> bool) (s : list ascii) :
  run p s = List.length s <-> Forall (fun c => p c = true) s.
Proof.
  induction s as [| c s IH]; simpl.
  - split; auto.
  - destruct (p c) eqn:E.
    + split.
      * intros [= H]. constructor; [exact E | apply IH; exact H].
      * intros H. inversion H; subst. f_equal. apply IH. assumption.
    + split; [discriminate |]. intros H. inversion H; congruence.
Qed.

Lemma run_le (p : ascii -> bool) (s : list ascii) : run p s <= List.length s.
Proof.
  induction s as [| c s IH]; simpl; [lia |]. destruct (p c); lia.
Qed.

Lemma skipn_run (p : ascii -> bool) (s : list ascii) :
  skipn (run p s) s = drop_while p s.
Proof.
  induction s as [| c s IH]; simpl; [reflexivity |].
  destruct (p c); [exact IH | reflexivity].
Qed.

Lemma drop_while_head (p : ascii -> bool) (s : list ascii) (c : ascii)
  (s' : list ascii) :
  drop_while p s = c :: s' -> p c = false.
Proof.
  induction s as [| d s IH]; simpl; [discriminate |].
  destruct (p d) eqn:E; [exact IH |]. intros [= <- _]. exact E.
Qed.

Lemma drop_while_same (p : ascii -> bool) (s : list ascii) :
  (forall c s', s = c :: s' -> p c = false) -> drop_while p s = s.
Proof.
  destruct s as [| c s]; intros H; simpl; [reflexivity |].
  rewrite (H c s eq_refl). reflexivity.
Qed.

Lemma drop_while_Forall (P : ascii -> Prop) (p : ascii -> bool)
  (s : list ascii) :
  Forall P s -> Forall P (drop_while p s).
Proof.
  induction 1 as [| c s Hc Hs IH]; simpl; [constructor |].
  destruct (p c); [exact IH | constructor; assumption].
Qed.

Lemma trim_Forall (P : ascii -> Prop) (s : list ascii) :
  Forall P s -> Forall P (trim s).
Proof.
  intros H. unfold trim.
  apply Forall_rev, drop_while_Forall, Forall_rev, drop_while_Forall. exact H.
Qed.
End Classes.

(* ================================================================== *)
(** * The four replacements *)

Section Passes.
Import SplitIdentifier.

Lemma separators_none (b : bool) (t : list ascii) :
  Forall (fun c => is_sep c = false) t -> separators b t = None.
Proof. intros H. unfold separators. rewrite (run_none _ _ H). reflexivity. Qed.

Lemma hump_none (b : bool) (t : list ascii) :
  Forall (fun c => is_upper c = false) t -> hump b t = None.
Proof.
  intros H. unfold hump. destruct t as [| c [| d t]]; try reflexivity.
  inversion H as [| ? ? _ H']; subst. inversion H' as [| ? ? Hd _]; subst.
  rewrite Hd, andb_false_r. reflexivity.
Qed.

Lemma acronym_none (b : bool) (t : list ascii) :
  Forall (fun c => is_upper c = false) t -> acronym b t = None.
Proof. intros H. unfold acronym. rewrite (run_none _ _ H). reflexivity. Qed.

(** The first replacement leaves no separator. *)
Lemma separators_clean (R : ascii -> Prop) (s : list ascii) :
  Forall R s ->
  Forall (fun c => is_sep c = false /\ (R c \/ c = " "%char))
    (replace_all separators s).
Proof.
  intros Hs. unfold replace_all.
  apply (replace_from_Forall separators R); [| | exact Hs].
  - intros b t text n _ E. unfold separators in E.
    destruct (run is_sep t); [discriminate |]. injection E as <- _.
    constructor; [| constructor]. split; [reflexivity | auto].
  - intros b c t Hc E. unfold separators in E. cbn [run] in E.
    destruct (is_sep c); [discriminate |]. auto.
Qed.

(** The other replacements put in characters of the string and spaces. *)
Lemma hump_keeps (P : ascii -> Prop) (s : list ascii) :
  P " "%char -> Forall P s -> Forall P (replace_all hump s).
Proof.
  intros Hsp Hs. unfold replace_all.
  apply (replace_from_Forall hump P); [| | exact Hs].
  - intros b t text n Ht E. unfold hump in E.
    destruct t as [| c [| d t]]; try discriminate.
    destruct ((is_lower c || is_digit c) && is_upper d); [| discriminate].
    injection E as <- _.
    inversion Ht as [| ? ? Hc Ht']; subst. inversion Ht' as [| ? ? Hd _]; subst.
    repeat constructor; assumption.
  - intros b c t Hc _. exact Hc.
Qed.

Lemma acronym_try_keeps (P : ascii -> Prop) (t : list ascii) (k : nat)
  (text : list ascii) (n : nat) :
  P " "%char -> Forall P t -> acronym_try t k = Some (text, n) ->
  Forall P text.
Proof.
  intros Hsp Ht. induction k as [| k IH]; cbn [acronym_try]; [discriminate |].
  destruct (skipn (S k) t) as [| d [| e r]] eqn:Es; try exact IH.
  destruct (is_upper d && is_lower e); [| exact IH].
  intros [= <- _].
  assert (Hr : Forall P (d :: e :: r)).
  { rewrite <- Es. apply Forall_forall. intros x Hx.
    apply (proj1 (Forall_forall P t) Ht).
    rewrite <- (firstn_skipn (S k) t). apply in_or_app. right. exact Hx. }
  inversion Hr as [| ? ? Hd Hr']; subst. inversion Hr' as [| ? ? He _]; subst.
  apply Forall_app. split.
  - apply Forall_forall. intros x Hx.
    apply (proj1 (Forall_forall P t) Ht).
    rewrite <- (firstn_skipn (S k) t). apply in_or_app. left. exact Hx.
  - repeat constructor; assumption.
Qed.

Lemma acronym_keeps (P : ascii -> Prop) (s : list ascii) :
  P " "%char -> Forall P s -> Forall P (replace_all acronym s).
Proof.
  intros Hsp Hs. unfold replace_all.
  apply (replace_from_Forall acronym P); [| | exact Hs].
  - intros b t text n Ht E.
    apply (acronym_try_keeps P t _ text n Hsp Ht E).
  - intros b c t Hc _. exact Hc.
Qed.

Lemma ends_keeps (P : ascii -> Prop) (s : list ascii) :
  Forall P s -> Forall P (replace_all ends s).
Proof.
  intros Hs. unfold replace_all.
  apply (replace_from_Forall ends P); [| | exact Hs].
  - intros b t text n _ E. unfold ends in E.
    destruct (_ && _); [| discriminate]. injection E as <- _. constructor.
  - intros b c t Hc _. exact Hc.
Qed.

(** The last replacement: after the run at the start, a run is dropped when
    it reaches the end. *)
Lemma ends_start (s : list ascii) :
  replace_all ends s = replace_from ends false 0 (drop_while is_edge s).
Proof.
  unfold replace_all. destruct s as [| c s]; [reflexivity |].
  cbn [replace_from]. unfold ends at 1. cbn [run drop_while].
  destruct (is_edge c) eqn:Ec.
  - cbn [Nat.ltb Nat.leb andb orb app]. rewrite Nat.sub_succ, Nat.sub_0_r.
    destruct (run is_edge s) as [| k] eqn:Er.
    + rewrite <- (skipn_run is_edge s), Er. reflexivity.
    + rewrite replace_from_skip, <- Er, skipn_run. reflexivity.
  - cbn [Nat.ltb Nat.leb andb].
    cbn [replace_from]. unfold ends at 2. cbn [run]. rewrite Ec.
    reflexivity.
Qed.

Lemma ends_empty (s : list ascii) :
  replace_from ends false 0 s = [] -> Forall (fun c => is_edge c = true) s.
Proof.
  destruct s as [| c s]; [constructor |].
  cbn [replace_from]. unfold ends.
  destruct (Nat.ltb 0 (run is_edge (c :: s))
            && (false || Nat.eqb (run is_edge (c :: s)) (List.length (c :: s))))
    eqn:E; [| discriminate].
  intros _. apply andb_prop in E. destruct E as [_ E]. cbn [orb] in E.
  apply Nat.eqb_eq in E. apply run_all. exact E.
Qed.

Lemma ends_last (s : list ascii) (c : ascii) (s0 : list ascii) :
  replace_from ends false 0 s = s0 ++ [c] -> is_edge c = false.
Proof.
  revert s0. induction s as [| d s IH]; intros s0.
  { destruct s0; discriminate. }
  cbn [replace_from]. unfold ends.
  destruct (Nat.ltb 0 (run is_edge (d :: s))
            && (false || Nat.eqb (run is_edge (d :: s)) (List.length (d :: s))))
    eqn:E.
  - apply andb_prop in E. destruct E as [_ E]. cbn [orb] in E.
    apply Nat.eqb_eq in E. cbn [app]. rewrite E. cbn [List.length].
    rewrite Nat.sub_succ, Nat.sub_0_r.
    destruct s as [| e s]; [destruct s0; discriminate |].
    cbn [List.length]. rewrite replace_from_skip.
    rewrite (skipn_all2 (e :: s)) by (simpl; lia).
    destruct s0; discriminate.
  - intros Eq. destruct s0 as [| x s0].
    + injection Eq as -> Eq. apply ends_empty in Eq.
      destruct (is_edge c) eqn:Ec; [| reflexivity]. exfalso.
      assert (Hall : run is_edge (c :: s) = List.length (c :: s)).
      { apply run_all. constructor; assumption. }
      rewrite Hall in E. cbn [List.length Nat.ltb Nat.leb andb orb] in E.
      rewrite Nat.eqb_refl in E. discriminate.
    + injection Eq as _ Eq. apply (IH s0 Eq).
Qed.

Lemma ends_same (s : list ascii) :
  (forall c s0, s = s0 ++ [c] -> is_edge c = false) ->
  replace_from ends false 0 s = s.
Proof.
  induction s as [| d s IH]; intros Hlast; [reflexivity |].
  cbn [replace_from]. unfold ends.
  destruct (Nat.ltb 0 (run is_edge (d :: s))
            && (false || Nat.eqb (run is_edge (d :: s)) (List.length (d :: s))))
    eqn:E.
  - exfalso. apply andb_prop in E. destruct E as [_ E]. cbn [orb] in E.
    apply Nat.eqb_eq in E. apply run_all in E.
    destruct (exists_last (l := d :: s)) as (s0 & c & Es); [discriminate |].
    pose proof (Hlast c s0 Es) as Hc.
    assert (Hin : In c (d :: s)) by (rewrite Es; apply in_or_app; simpl; auto).
    rewrite (proj1 (Forall_forall _ _) E c Hin) in Hc. discriminate.
  - f_equal. apply IH. intros c s0 ->. apply (Hlast c (d :: s0)). reflexivity.
Qed.
End Passes.

(* ================================================================== *)
(** * The normal form *)

Section NormalForm.
Import SplitIdentifier.

Lemma map_eq_snoc {A B : Type} (f : A -> B) (l : list A) (l' : list B) (y : B) :
  map f l = l' ++ [y] -> exists l0 x, l = l0 ++ [x] /\ y = f x.
Proof.
  intros E. apply map_eq_app in E. destruct E as (l0 & l1 & -> & _ & E1).
  destruct l1 as [| x [| ? ?]]; try discriminate.
  injection E1 as <-. exists l0, x. auto.
Qed.

Lemma split_sep_free (P : ascii -> Prop) (s : list ascii) :
  P " "%char -> Forall P s ->
  Forall (fun c => is_sep c = false /\ P c)
    (replace_all ends
       (replace_all acronym
          (replace_all hump (replace_all separators (trim s))))).
Proof.
  intros Hsp Hs.
  apply ends_keeps, acronym_keeps, hump_keeps; try (split; [reflexivity | exact Hsp]).
  apply (Forall_impl _ (P := fun c => is_sep c = false /\ (P c \/ c = " "%char))).
  - intros c [Hc [Hp | ->]]; auto.
  - apply separators_clean. apply trim_Forall. exact Hs.
Qed.

Lemma split_normal (s : list ascii) : normal (split s).
Proof.
  unfold split, toLowerCase. constructor.
  - apply Forall_forall. intros c Hc. apply in_map_iff in Hc.
    destruct Hc as (d & <- & _). apply to_lower_classes.
  - apply Forall_forall. intros c Hc. apply in_map_iff in Hc.
    destruct Hc as (d & <- & Hd). apply to_lower_classes.
    pose proof (split_sep_free (fun _ => True) s I) as H.
    assert (Hall : Forall (fun _ : ascii => True) s)
      by (apply Forall_forall; intros; exact I).
    apply (proj1 (Forall_forall _ _) (H Hall) d Hd).
  - intros c l' E. rewrite ends_start in E.
    destruct (drop_while is_edge _) as [| d t] eqn:Ed; [discriminate |].
    apply drop_while_head in Ed.
    cbn [replace_from] in E. unfold ends in E. cbn [run] in E.
    rewrite Ed in E. cbn [Nat.ltb Nat.leb andb map] in E.
    injection E as <- _. apply to_lower_classes. exact Ed.
  - intros c l' E. apply map_eq_snoc in E. destruct E as (l0 & x & E & ->).
    rewrite ends_start in E. apply ends_last in E.
    apply to_lower_classes. exact E.
Qed.

Lemma split_same (t : list ascii) : normal t -> split t = t.
Proof.
  intros [Hup Hsep Hhead Hlast]. unfold split.
  assert (Et : trim t = t).
  { unfold trim. rewrite (drop_while_same is_space t).
    - rewrite (drop_while_same is_space (rev t)); [apply rev_involutive |].
      intros c s' E. apply (f_equal (@rev ascii)) in E.
      rewrite rev_involutive in E. cbn [rev] in E.
      pose proof (Hlast c (rev s') E) as Hc.
      destruct (is_space c) eqn:Es; [| reflexivity].
      apply class_facts in Es. congruence.
    - intros c s' E. pose proof (Hhead c s' E) as Hc.
      destruct (is_space c) eqn:Es; [| reflexivity].
      apply class_facts in Es. congruence. }
  rewrite Et. unfold replace_all at 4.
  rewrite (replace_from_same separators _ t separators_none Hsep).
  unfold replace_all at 3.
  rewrite (replace_from_same hump _ t hump_none Hup).
  unfold replace_all at 2.
  rewrite (replace_from_same acronym _ t acronym_none Hup).
  rewrite ends_start, (drop_while_same is_edge t Hhead),
    (ends_same t Hlast).
  unfold toLowerCase. rewrite <- (map_id t) at 2. apply map_ext_in.
  intros c Hc. apply to_lower_classes.
  apply (proj1 (Forall_forall _ _) Hup c Hc).
Qed.

Lemma splitIdentifier_normal_string (identifier : string) :
  normalised (SplitIdentifier.splitIdentifier identifier).
Proof.
  unfold normalised, SplitIdentifier.splitIdentifier.
  rewrite list_ascii_of_string_of_list_ascii. apply split_normal.
Qed.

Lemma no_dash_chars (l : list ascii) :
  Forall (fun c => is_sep c = false) l ->
  no_dash (string_of_list_ascii l) = true.
Proof.
  induction 1 as [| c l Hc _ IH]; cbn [string_of_list_ascii no_dash];
    [reflexivity |].
  rewrite IH. destruct (class_facts c) as (_ & Hd & _).
  rewrite (Hd Hc). reflexivity.
Qed.

Lemma to_lower_ascii (c : ascii) :
  code c < 128 -> code (to_lower c) < 128.
Proof.
  intros H. apply Nat.ltb_lt in H. apply Nat.ltb_lt. revert H.
  destruct c as [[] [] [] [] [] [] [] []]; vm_compute; congruence.
Qed.
End NormalForm.

(** X18. On ASCII identifiers [splitIdentifier] gives a string of ASCII
    characters in normal form: without capital letters, without any of
    ['_'], ['-'], ['.'], [':'], and with neither white space nor ['_'] at
    its start or end. In particular it holds no ['-'], which the keys of the
    comparator's cache need. *)
Theorem splitIdentifier_normalises :
  forall identifier : string,
    ascii_only identifier ->
    normalised (SplitIdentifier.splitIdentifier identifier) /\
    ascii_only (SplitIdentifier.splitIdentifier identifier) /\
    no_dash (SplitIdentifier.splitIdentifier identifier) = true.
Proof.
  intros identifier Hascii.
  unfold normalised, ascii_only, SplitIdentifier.splitIdentifier.
  rewrite list_ascii_of_string_of_list_ascii.
  split; [apply split_normal |]. split.
  - unfold SplitIdentifier.split, SplitIdentifier.toLowerCase.
    apply Forall_forall. intros c Hc. apply in_map_iff in Hc.
    destruct Hc as (d & <- & Hd). apply to_lower_ascii.
    pose proof (split_sep_free (fun c => SplitIdentifier.code c < 128)
                  (list_ascii_of_string identifier)) as H.
    apply (proj1 (Forall_forall _ _) (H ltac:(vm_compute; lia) Hascii) d Hd).
  - apply no_dash_chars. apply (nm_sep _ (split_normal _)).
Qed.

Lemma splitIdentifier_normalises_witness :
  normalised (SplitIdentifier.splitIdentifier "aria-Label_") /\
  ascii_only (SplitIdentifier.splitIdentifier "aria-Label_") /\
  no_dash (SplitIdentifier.splitIdentifier "aria-Label_") = true.
Proof.
  apply splitIdentifier_normalises.
  unfold ascii_only. simpl. repeat constructor; vm_compute; lia.
Defined.

(** X19. On ASCII strings the strings in normal form are exactly the ones
    [splitIdentifier] leaves as they are, so applying it twice is the same
    as applying it once: a name that was normalised, as the names the
    extraction script prints, is read back unchanged. *)
Theorem splitIdentifier_idempotent :
  forall identifier : string,
    ascii_only identifier ->
    (SplitIdentifier.splitIdentifier identifier = identifier <->
     normalised identifier) /\
    SplitIdentifier.splitIdentifier (SplitIdentifier.splitIdentifier identifier)
    = SplitIdentifier.splitIdentifier identifier.
Proof.
  intros identifier _. split; [split |].
  - intros E. unfold normalised. rewrite <- E.
    unfold SplitIdentifier.splitIdentifier.
    rewrite list_ascii_of_string_of_list_ascii. apply split_normal.
  - intros H. unfold SplitIdentifier.splitIdentifier.
    rewrite (split_same _ H). apply string_of_list_ascii_of_string.
  - unfold SplitIdentifier.splitIdentifier.
    rewrite list_ascii_of_string_of_list_ascii.
    rewrite (split_same _ (split_normal _)). reflexivity.
Qed.

Lemma splitIdentifier_idempotent_witness :
  (SplitIdentifier.splitIdentifier "onClick" = "onClick"%string <->
   normalised "onClick") /\
  SplitIdentifier.splitIdentifier (SplitIdentifier.splitIdentifier "onClick")
  = SplitIdentifier.splitIdentifier "onClick".
Proof.
  apply splitIdentifier_idempotent.
  unfold ascii_only. simpl. repeat constructor; vm_compute; lia.
Defined.

(** X20. The normalised form of a name made of letters, digits, ['$'],
    spaces and the separators ['_'], ['-'], ['.'], [':'] has only characters
    of the comparator's alphabet: [tokenize] gives each of them a code between
    1 and 38, none the [0] of an unknown character. *)
Theorem splitIdentifier_in_alphabet :
  forall identifier : string,
    forallb name_char (list_ascii_of_string identifier) = true ->
    Forall (fun c => (1 <= AIComparator.VOCAB c <= 38)%Z)
      (list_ascii_of_string (SplitIdentifier.splitIdentifier identifier)).
Proof.
  intros identifier Hname. unfold SplitIdentifier.splitIdentifier.
  rewrite list_ascii_of_string_of_list_ascii.
  unfold SplitIdentifier.split, SplitIdentifier.toLowerCase.
  apply Forall_forall. intros c Hc. apply in_map_iff in Hc.
  destruct Hc as (d & <- & Hd). apply to_lower_classes.
  pose proof (split_sep_free (fun c => name_char c = true)
                (list_ascii_of_string identifier) eq_refl) as H.
  assert (Hall : Forall (fun c => name_char c = true)
                   (list_ascii_of_string identifier)).
  { apply Forall_forall. intros x Hx.
    apply (proj1 (forallb_forall _ _) Hname x Hx). }
  destruct (proj1 (Forall_forall _ _) (H Hall) d Hd) as [Hs Hn].
  apply class_facts; assumption.
Qed.

Lemma splitIdentifier_in_alphabet_witness :
  Forall (fun c => (1 <= AIComparator.VOCAB c <= 38)%Z)
    (list_ascii_of_string (SplitIdentifier.splitIdentifier "xlink:href")).
Proof.
  apply splitIdentifier_in_alphabet. reflexivity.
Defined.

(** The model on the table of the repository's tests. *)
Lemma splitIdentifier_examples :
  map SplitIdentifier.splitIdentifier
    ["camelCaseString"; "PascalCaseString"; "snake_case_string";
     "kebab-case-string"; "dot.case.string"; "UPPER_CASE_STRING";
     "MiXeD_CaSe-STRING.Value123"; "test123String"; "  _leading-Test_  ";
     "word1  __--word2..word3"; "IDENTIFIER_fooIdentifier";
     "fooIdentifierBARIdentifier"; ""; " __ "; "TARGET_buildVersion";
     "XMLDocument"; "CIACMELCase"]%string
  = ["camel case string"; "pascal case string"; "snake case string";
     "kebab case string"; "dot case string"; "upper case string";
     "mi xe d ca se string value123"; "test123 string"; "leading test";
     "word1   word2 word3"; "identifier foo identifier";
     "foo identifier bar identifier"; ""; ""; "target build version";
     "xml document"; "ciacmel case"]%string.
Proof. vm_compute. reflexivity. Qed.

(* ================================================================== *)
(** * The order the script prints, read by the plugin *)

Lemma wildcard_normalised (p : string) :
  normalised p ->
  SplitIdentifier.splitIdentifier (Cli.prefixToWildcard p)
  = Cli.prefixToWildcard p.
Proof.
  intros Hp. unfold Cli.prefixToWildcard.
  destruct (startsWith p "data "); [reflexivity |].
  destruct (startsWith p "test "); [reflexivity |].
  destruct (startsWith p "aria "); [reflexivity |].
  unfold SplitIdentifier.splitIdentifier.
  rewrite (split_same _ Hp). apply string_of_list_ascii_of_string.
Qed.

(** X22. The order the extraction script prints is read back as it is: the
    script normalises the attribute names it finds, so every entry of its
    result, wildcard entries included, is left unchanged by the
    [splitIdentifier] that the plugin applies to a custom order. *)
Theorem printed_order_reads_back :
  forall names : list (list string),
    Forall (Forall ascii_only) names ->
    exists out,
      Cli.extract_order (map (map SplitIdentifier.splitIdentifier) names)
      = Ret (map Some out) /\
      map SplitIdentifier.splitIdentifier out = out.
Proof.
  intros names Hascii.
  set (propLists := map (map SplitIdentifier.splitIdentifier) names).
  unfold Cli.extract_order, Cli.sortKeys.
  destruct (fasTopoSort_nodes (Cli.edges (Cli.weights_of propLists)))
    as (out & E & P).
  exists out. split; [exact E |].
  rewrite <- (map_id out) at 2. apply map_ext_in. intros x Hx.
  apply (Permutation_in x P) in Hx. apply nodes_of_spec in Hx.
  assert (Hseen : exists props, In props propLists /\
                    In x (map Cli.prefixToWildcard props)).
  { destruct Hx as ([[a b] w] & He & Hab). cbn [fst snd] in Hab.
    assert (Hs : seen_before propLists a b)
      by (apply edges_arc; exists w; exact He).
    destruct Hs as (props & Hp & Hprec). exists props. split; [exact Hp |].
    destruct (precedes_In _ _ _ Hprec) as [Ha Hb].
    destruct Hab as [<- | <-]; assumption. }
  destruct Hseen as (props & Hp & Hin).
  apply in_map_iff in Hin. destruct Hin as (p & <- & Hin).
  apply wildcard_normalised.
  unfold propLists in Hp. apply in_map_iff in Hp.
  destruct Hp as (raw & <- & Hraw).
  apply in_map_iff in Hin. destruct Hin as (name & <- & Hname).
  apply splitIdentifier_normal_string.
Qed.

Lemma printed_order_reads_back_witness :
  exists out,
    Cli.extract_order
      (map (map SplitIdentifier.splitIdentifier)
         [["className"; "data-testid"]; ["data-id"; "onClick"]]%string)
    = Ret (map Some out) /\
    map SplitIdentifier.splitIdentifier out = out.
Proof.
  apply printed_order_reads_back.
  unfold ascii_only. simpl. repeat constructor; vm_compute; lia.
Defined.


(* ================================================================== *)
(** * The greedy sort on edges with cycles *)

(** An inner loop only adds to what is placed: on the left at the end, on
    the right in front. *)
Lemma drain_extends (all : list string) (key : FAS.view) (weight : FAS.Data -> Z)
  (at_right : bool) (fuel : nat) (c : FAS.cursor) (L Rt : list string) :
  cursor_ok all c L Rt -> List.length (FAS.nodes (FAS.st c)) < fuel ->
  exists c' Lx Rx,
    FAS.drain fuel key weight at_right c = Ret c' /\
    cursor_ok all c' (L ++ Lx) (Rx ++ Rt) /\
    List.length (FAS.nodes (FAS.st c')) <= List.length (FAS.nodes (FAS.st c)).
Proof.
  revert c L Rt. induction fuel as [| fuel IH]; intros c L Rt C Hf; [lia |].
  cbn [FAS.drain].
  rewrite (queued_length _ _ _ (so_queued _ (co_state _ _ _ _ C))).
  destruct (Nat.eqb_spec (List.length (FAS.nodes (FAS.st c))) 0) as [E0 | Hne].
  { exists c, [], []. rewrite app_nil_r. auto. }
  destruct (take_root key (FAS.st c) (co_state _ _ _ _ C))
    as (it & mq1 & mq2 & st' & E1 & E2 & E3 & Hst1 & Hst' & Hnodes & Hp & _).
  { intros E. rewrite E in Hne. simpl in Hne. lia. }
  rewrite E1. cbn [bind fst snd].
  destruct (negb (weight (MultiQueue.data it) =? 0)%Z).
  - eexists _, [], []. rewrite app_nil_r.
    split; [reflexivity |]. split; [| simpl; lia].
    destruct C as [_ Co Cl Cr Ca]. constructor; assumption.
  - rewrite E2. cbn [bind fst snd]. fold (with_q (FAS.st c) mq2).
    rewrite E3. cbn [bind].
    pose proof (place_ok all c L Rt _ st' at_right C Hp Hst' Hnodes) as C'.
    pose proof (set_delete_length (FAS.nodes (FAS.st c)) _ Hp) as Hlen.
    assert (Hn' : FAS.nodes (FAS.st (FAS.place at_right
                     (FAS.u (MultiQueue.data it)) c st')) = FAS.nodes st').
    { destruct at_right; reflexivity. }
    destruct (IH _ _ _ C') as (c' & Lx & Rx & E & C'' & Hle).
    { rewrite Hn', Hnodes. lia. }
    rewrite Hn', Hnodes in Hle.
    destruct at_right.
    + exists c', Lx, (Rx ++ [FAS.u (MultiQueue.data it)]).
      split; [exact E |]. split; [| lia].
      rewrite <- app_assoc. exact C''.
    + exists c', (FAS.u (MultiQueue.data it) :: Lx), Rx.
      split; [exact E |]. split; [| lia].
      rewrite <- app_assoc in C''. exact C''.
Qed.

(** A round of the outer loop after its first inner loop. *)
Lemma round_tail_extends (all : list string) (fuel : nat) :
  (forall c L Rt,
     cursor_ok all c L Rt -> List.length (FAS.nodes (FAS.st c)) < fuel ->
     exists c' Lx Rx,
       FAS.main_loop fuel c = Ret c' /\
       cursor_ok all c' (L ++ Lx) (Rx ++ Rt) /\
       FAS.nodes (FAS.st c') = []) ->
  forall c1 L1 Rt1,
    cursor_ok all c1 L1 Rt1 ->
    List.length (FAS.nodes (FAS.st c1)) < S fuel ->
    exists c' Lx Rx,
      (c2 <- FAS.drain (FAS.drain_fuel c1) FAS.ByInW FAS.inW false c1 ;;
       pp <- FAS.q_pop FAS.ByScore (FAS.q (FAS.st c2)) ;;
       match fst pp with
       | None => Ret {| FAS.st := with_q (FAS.st c2) (snd pp);
                        FAS.order := FAS.order c2;
                        FAS.left := FAS.left c2; FAS.right := FAS.right c2 |}
       | Some max =>
           st' <- FAS.removeNode (FAS.u max) (with_q (FAS.st c2) (snd pp)) ;;
           FAS.main_loop fuel (FAS.place false (FAS.u max) c2 st')
       end) = Ret c' /\
      cursor_ok all c' (L1 ++ Lx) (Rx ++ Rt1) /\
      FAS.nodes (FAS.st c') = [].
Proof.
  intros IH c1 L1 Rt1 C1 Hf.
  destruct (drain_extends all FAS.ByInW FAS.inW false (FAS.drain_fuel c1)
              c1 L1 Rt1 C1)
    as (c2 & L2 & R2 & E2 & C2 & Hle2).
  { unfold FAS.drain_fuel.
    rewrite (queued_length _ _ _ (so_queued _ (co_state _ _ _ _ C1))). lia. }
  rewrite E2. cbn [bind].
  destruct (q_pop_spec FAS.ByScore (FAS.q (FAS.st c2))) as (r & mq' & E3 & Hr).
  rewrite E3. cbn [bind fst snd].
  pose proof (co_state _ _ _ _ C2) as [Q2 Hout2 Hin2].
  destruct r as [it |]; cbn [option_map].
  - destruct (popped_queued _ _ _ _ FAS.ByScore it Q2 Hr) as (Hp & Em & Q3).
    destruct (removeNode_ok (FAS.u (MultiQueue.data it)) (with_q (FAS.st c2) mq'))
      as (st' & E4 & Hst' & Hnodes); cbn [with_q FAS.nodes FAS.nodeMap FAS.q
        FAS.outAdj FAS.inAdj]; auto.
    { apply (qd_nodup _ _ _ Q2). }
    rewrite E4. cbn [bind].
    cbn [with_q FAS.nodes] in Hnodes.
    pose proof (place_ok all c2 _ _ _ st' false C2 Hp Hst' Hnodes) as C'.
    cbv iota in C'.
    pose proof (set_delete_length (FAS.nodes (FAS.st c2)) _ Hp) as Hlen.
    destruct (IH _ _ _ C') as (c' & Lx & Rx & E & C'' & Hnil).
    { cbn [FAS.place FAS.st]. rewrite Hnodes. lia. }
    exists c', (L2 ++ FAS.u (MultiQueue.data it) :: Lx), (Rx ++ R2).
    split; [exact E |]. split; [| exact Hnil].
    rewrite <- !app_assoc in C''. rewrite <- app_assoc. exact C''.
  - destruct Hr as (Hn & Hl & Ho & Hs & Hdead).
    assert (Hnil : FAS.nodes (FAS.st c2) = []).
    { destruct (FAS.nodes (FAS.st c2)) as [| n rest] eqn:En; [reflexivity |].
      exfalso. apply (queued_not_all_dead _ _ _ FAS.ByScore Q2);
        [congruence | exact Hdead]. }
    eexists _, L2, R2. split; [reflexivity |].
    split; [| exact Hnil].
    destruct C2 as [_ Co Cl Cr Ca]. constructor; cbn [FAS.st FAS.order
      FAS.left FAS.right FAS.nodes FAS.nodeMap FAS.q with_q]; try assumption.
    constructor; cbn [FAS.nodes FAS.nodeMap FAS.q FAS.outAdj FAS.inAdj];
      try assumption.
    apply (peeked_queued FAS.ByScore _ _ _ _ Q2 Hn Hl Ho Hs).
    intros x Hx Hlx. exfalso. exact (Hdead x Hx Hlx).
Qed.

Lemma main_loop_extends (all : list string) (fuel : nat) (c : FAS.cursor)
  (L Rt : list string) :
  cursor_ok all c L Rt -> List.length (FAS.nodes (FAS.st c)) < fuel ->
  exists c' Lx Rx,
    FAS.main_loop fuel c = Ret c' /\
    cursor_ok all c' (L ++ Lx) (Rx ++ Rt) /\
    FAS.nodes (FAS.st c') = [].
Proof.
  revert c L Rt. induction fuel as [| fuel IH]; intros c L Rt C Hf; [lia |].
  cbn [FAS.main_loop].
  destruct (Nat.eqb_spec (List.length (FAS.nodes (FAS.st c))) 0) as [E0 | Hne].
  { exists c, [], []. rewrite app_nil_r. split; [reflexivity |].
    split; [exact C |]. apply length_zero_iff_nil. exact E0. }
  destruct (drain_extends all FAS.ByOutW FAS.outW true (FAS.drain_fuel c)
              c L Rt C)
    as (c1 & L1 & R1 & E1 & C1 & Hle1).
  { unfold FAS.drain_fuel.
    rewrite (queued_length _ _ _ (so_queued _ (co_state _ _ _ _ C))). lia. }
  rewrite E1. cbn [bind].
  destruct (round_tail_extends all fuel IH c1 _ _ C1)
    as (c' & Lx & Rx & E & C' & Hnil); [lia |].
  exists c', (L1 ++ Lx), (Rx ++ R1).
  split; [exact E |]. split; [| exact Hnil].
  rewrite <- !app_assoc in C'. rewrite <- app_assoc. exact C'.
Qed.

(** The first inner loop, on any edges with positive weights: each node it
    takes is a sink of what is left and goes in front of all its successors;
    when it stops, every node left has a successor among the nodes left. *)
Lemma drain_first_sinks (edges : list FAS.edge) (o0 i0 : FAS.adjacency) :
  network edges o0 i0 -> arcs_positive edges ->
  forall fuel c Rt,
    cursor_ok (FAS.nodes_of edges) c [] Rt ->
    weighed o0 i0 (FAS.st c) ->
    List.length (FAS.nodes (FAS.st c)) < fuel ->
    (forall a b, weight_of o0 a b <> None -> In a Rt -> precedes Rt a b) ->
    exists c' Rt',
      FAS.drain fuel FAS.ByOutW FAS.outW true c = Ret c' /\
      cursor_ok (FAS.nodes_of edges) c' [] Rt' /\
      (forall n, In n (FAS.nodes (FAS.st c')) ->
         exists v, In v (FAS.nodes (FAS.st c')) /\ arc edges n v) /\
      (forall a b, weight_of o0 a b <> None -> In a Rt' -> precedes Rt' a b).
Proof.
  intros N Hpos.
  induction fuel as [| fuel IH]; intros c Rt C W Hf Hord; [lia |].
  cbn [FAS.drain].
  pose proof (co_state _ _ _ _ C) as Hst.
  rewrite (queued_length _ _ _ (so_queued _ Hst)).
  destruct (Nat.eqb_spec (List.length (FAS.nodes (FAS.st c))) 0) as [E0 | Hne].
  { exists c, Rt. split; [reflexivity |]. split; [exact C |].
    split; [| exact Hord].
    apply length_zero_iff_nil in E0. rewrite E0. intros n []. }
  assert (Hne' : FAS.nodes (FAS.st c) <> []).
  { intros E. rewrite E in Hne. simpl in Hne. lia. }
  destruct (take_root FAS.ByOutW (FAS.st c) Hst Hne')
    as (it & mq1 & mq2 & st' & E1 & E2 & E3 & Hst1 & Hst' & Hnodes & Hp & Em
        & Hhd & Eq2).
  destruct W as [Wo Wi Ws Wh].
  pose proof (q_peek_heap _ _ _ E1 Wh) as Hh1.
  pose proof (Ws _ it Hp Em) as Hit. cbv beta in Hit.
  rewrite E1. cbn [bind fst snd].
  destruct (Z.eqb_spec (FAS.outW (MultiQueue.data it)) 0) as [Hzero | Hnz];
    cbn [negb].
  - rewrite E2. cbn [bind fst snd]. fold (with_q (FAS.st c) mq2).
    rewrite E3. cbn [bind].
    pose proof (place_ok (FAS.nodes_of edges) c [] Rt
                  (FAS.u (MultiQueue.data it)) st' true C Hp Hst' Hnodes) as C'.
    cbv iota in C'.
    pose proof (set_delete_length (FAS.nodes (FAS.st c)) _ Hp) as Hlen.
    assert (W2 : weighed o0 i0 (with_q (FAS.st c) mq2)).
    { constructor; cbn [with_q FAS.nodes FAS.outAdj FAS.inAdj FAS.nodeMap
        FAS.q]; auto.
      rewrite Eq2.
      apply (pop_heap _ le_out le_out_trans le_out_lt le_out_ge). exact Hh1. }
    pose proof (removeNode_weighed edges o0 i0 (FAS.u (MultiQueue.data it))
                  (with_q (FAS.st c) mq2) st' N
                  (qd_nodup _ _ _ (so_queued _ Hst)) Hp W2 E3) as W'.
    apply (IH _ _ C').
    + exact W'.
    + cbn [FAS.place FAS.st]. rewrite Hnodes. lia.
    + intros a b Hab [<- | Ha].
      * apply precedes_head.
        assert (Hb : ~ In b (FAS.nodes (FAS.st c))).
        { apply (out_sum_sink edges o0 i0 N Hpos _
                   (FAS.u (MultiQueue.data it)) b);
            [congruence | exact Hab]. }
        assert (Hball : In b (FAS.nodes_of edges)).
        { apply nodes_of_spec. destruct (weight_of o0 _ b) as [w |] eqn:Ew;
            [| congruence].
          exists (FAS.u (MultiQueue.data it), b, w).
          split; [apply (nw_arcs _ _ _ N); exact Ew | simpl; auto]. }
        apply (Permutation_in b (Permutation_sym (co_all _ _ _ _ C))) in Hball.
        simpl in Hball. apply in_app_or in Hball. tauto.
      * apply precedes_cons. apply (Hord a b Hab Ha).
  - eexists _, Rt. split; [reflexivity |]. split.
    { destruct C as [_ Co Cl Cr Ca]. constructor; assumption. }
    split; [| exact Hord].
    cbn [FAS.st FAS.nodes]. intros m Hm.
    apply (out_sum_successor edges o0 i0 N Hpos).
    pose proof (out_sum_nonneg edges o0 i0 N Hpos (FAS.nodes (FAS.st c))
                  (FAS.u (MultiQueue.data it))) as Hge.
    assert (Hle : (FAS.outW (MultiQueue.data it)
                   <= out_sum o0 (FAS.nodes (FAS.st c)) m)%Z); [| lia].
    destruct (qd_item _ _ _ (so_queued _ Hst) m Hm) as (itm & Emm & _ & _).
    rewrite <- (Ws m itm Hm Emm).
    pose proof (qd_views _ _ _ (so_queued _ Hst1) FAS.ByOutW m itm Hm Emm)
      as Hin.
    cbn [with_q FAS.q] in Hin.
    apply In_nth_error in Hin. destruct Hin as (j & Hj).
    apply (heap_root_least _ le_out le_out_trans le_out_lt le_out_ge
             (MultiQueue.qs mq1 FAS.ByOutW) tt Hh1 j it itm); [| exact Hj].
    destruct (MultiQueue.qs mq1 FAS.ByOutW); [discriminate | exact Hhd].
Qed.

(** A node from which every chain of arcs ends is not among nodes that each
    have a successor among them. *)
Lemma settles_not_left (edges : list FAS.edge) (present : list string) :
  (forall n, In n present -> exists v, In v present /\ arc edges n v) ->
  forall b, settles edges b -> ~ In b present.
Proof.
  intros Hsucc b Hb. induction Hb as [b _ IH]. intros Hin.
  destruct (Hsucc b Hin) as (v & Hv & Harc).
  exact (IH v Harc Hv).
Qed.

Lemma precedes_app_r (l1 l2 : list string) (a b : string) :
  precedes l2 a b -> precedes (l1 ++ l2) a b.
Proof.
  intros (m1 & m2 & m3 & ->). exists (l1 ++ m1), m2, m3.
  rewrite <- app_assoc. reflexivity.
Qed.

Lemma precedes_across (l1 l2 : list string) (a b : string) :
  In a l1 -> In b l2 -> precedes (l1 ++ l2) a b.
Proof.
  intros Ha Hb. apply in_split in Ha. destruct Ha as (m1 & m2 & ->).
  apply in_split in Hb. destruct Hb as (m3 & m4 & ->).
  exists m1, (m2 ++ m3), m4. rewrite <- !app_assoc. reflexivity.
Qed.

(** On integer weights that are positive, with or without cycles, the
    first inner loop takes every node from which no cycle can be reached, so
    the result has the source of every edge into such a node before it. *)
Lemma settled_nodes_respected :
  forall edges : list FAS.edge,
    arcs_positive edges ->
    exists out,
      FAS.fasTopoSort edges = Ret (map Some out) /\
      forall a b w, In (a, b, w) edges -> settles edges b -> precedes out a b.
Proof.
  intros edges Hpos. unfold FAS.fasTopoSort.
  destruct (init_spec edges)
    as (st0 & E0 & Hnodes & Hst & N & Hcover & Hh & Hs).
  rewrite E0. cbn [bind FAS.main_loop FAS.st].
  destruct (Nat.eqb_spec (List.length (FAS.nodes st0)) 0) as [Z0 | Hne].
  { cbn [bind FAS.order]. rewrite Z0. exists []. split; [reflexivity |].
    intros a b w He. exfalso.
    assert (Ha : In a (FAS.nodes st0)).
    { rewrite Hnodes. apply nodes_of_spec. exists (a, b, w). simpl. auto. }
    apply length_zero_iff_nil in Z0. rewrite Z0 in Ha. exact Ha. }
  set (c0 := {| FAS.st := st0;
                FAS.order := repeat None (List.length (FAS.nodes st0));
                FAS.left := 0;
                FAS.right := Z.of_nat (List.length (FAS.nodes st0)) - 1 |}).
  assert (C0 : cursor_ok (FAS.nodes_of edges) c0 [] []).
  { constructor; subst c0; cbn [FAS.st FAS.order FAS.left FAS.right]; simpl.
    - exact Hst.
    - now rewrite app_nil_r.
    - reflexivity.
    - reflexivity.
    - rewrite app_nil_r, Hnodes. reflexivity. }
  destruct (drain_first_sinks edges (FAS.outAdj st0) (FAS.inAdj st0) N Hpos
              (FAS.drain_fuel c0) c0 [] C0)
    as (c1 & Rt1 & E1 & C1 & Hleft & Hord).
  { subst c0. constructor; cbn [FAS.st]; auto.
    intros n it Hn Em. unfold out_sum.
    destruct (map_get (FAS.outAdj st0) n) as [outs |] eqn:Eo.
    - apply (Hs n it outs Hn Em Eo).
    - exfalso. exact (so_out _ Hst n Hn Eo). }
  { unfold FAS.drain_fuel.
    rewrite (queued_length _ _ _ (so_queued _ (co_state _ _ _ _ C0))). lia. }
  { intros a b _ []. }
  rewrite E1. cbn [bind].
  pose proof (drain_extends (FAS.nodes_of edges) FAS.ByOutW FAS.outW true
                (FAS.drain_fuel c0) c0 [] [] C0) as Hlen1.
  destruct Hlen1 as (c1' & _ & _ & E1' & _ & Hle1).
  { unfold FAS.drain_fuel.
    rewrite (queued_length _ _ _ (so_queued _ (co_state _ _ _ _ C0))). lia. }
  rewrite E1 in E1'. injection E1' as <-.
  destruct (round_tail_extends (FAS.nodes_of edges) (List.length (FAS.nodes st0))
              (fun c L Rt => main_loop_extends (FAS.nodes_of edges) _ c L Rt)
              c1 [] Rt1 C1)
    as (c' & Lx & Rx & E & C' & Hnil).
  { subst c0. cbn [FAS.st] in Hle1. apply Nat.lt_succ_r. exact Hle1. }
  unfold with_q in E. rewrite E. cbn [bind].
  exists (Lx ++ Rx ++ Rt1). split.
  { rewrite (co_order _ _ _ _ C'), Hnil. simpl. now rewrite !map_app. }
  intros a b w He Hb.
  assert (Hball : In b (FAS.nodes_of edges)).
  { apply nodes_of_spec. exists (a, b, w). simpl. auto. }
  assert (Haall : In a (FAS.nodes_of edges)).
  { apply nodes_of_spec. exists (a, b, w). simpl. auto. }
  assert (HbR : In b Rt1).
  { apply (Permutation_in b (Permutation_sym (co_all _ _ _ _ C1))) in Hball.
    simpl in Hball. apply in_app_or in Hball. destruct Hball as [Hb' | Hb'].
    - exfalso. exact (settles_not_left edges _ Hleft b Hb Hb').
    - exact Hb'. }
  apply (Permutation_in a (Permutation_sym (co_all _ _ _ _ C'))) in Haall.
  rewrite Hnil in Haall. simpl in Haall.
  rewrite app_assoc in Haall |- *.
  apply in_app_or in Haall. destruct Haall as [Ha | Ha].
  - apply precedes_across; assumption.
  - apply precedes_app_r. apply Hord; [| exact Ha].
    apply (Hcover a b w He).
Qed.

(** Two keys seen in both orders, and a chain that leaves the cycle. *)
Lemma cycle_with_tail_positive :
  arcs_positive
    [("a", "b", 1%Z); ("b", "a", 2%Z); ("a", "c", 1%Z); ("c", "d", 3%Z)]%string.
Proof.
  intros a b w Hin. simpl in Hin.
  destruct Hin as [Hin | [Hin | [Hin | [Hin | []]]]];
    injection Hin as <- <- <-; lia.
Qed.

Lemma cycle_with_tail_settles :
  settles
    [("a", "b", 1%Z); ("b", "a", 2%Z); ("a", "c", 1%Z); ("c", "d", 3%Z)]%string
    "c"%string.
Proof.
  constructor. intros y (w & Hin). simpl in Hin.
  destruct Hin as [Hin | [Hin | [Hin | [Hin | []]]]]; try discriminate.
  injection Hin as <- <-.
  constructor. intros y (w' & Hin). simpl in Hin.
  destruct Hin as [Hin | [Hin | [Hin | [Hin | []]]]]; discriminate.
Qed.

(** X17. On edges whose weights are positive integers with a sum below
    [2^52], with or without cycles, the result of [fasTopoSort] respects
    every edge into a node from which no cycle can be reached: the source of
    the edge comes before that node. Such are the nodes without outgoing
    edges, and every node of edges without a cycle. (With larger weights a
    rounded sum can make a node look like a sink too early.) *)
Theorem fasTopoSort_respects_settled_nodes :
  forall ints : list FAS.edge,
    exact_weights ints ->
    exists out,
      FAS64.fasTopoSort (as_numbers ints) = Ret (map Some out) /\
      forall a b w, In (a, b, w) ints -> settles ints b -> precedes out a b.
Proof.
  intros ints Hex. rewrite (fasTopoSort_agrees ints Hex).
  apply settled_nodes_respected. exact (proj1 Hex).
Qed.

Lemma fasTopoSort_respects_settled_nodes_witness :
  exists out,
    FAS64.fasTopoSort
      [("a", "b", 1%float); ("b", "a", 2%float); ("a", "c", 1%float);
       ("c", "d", 3%float)]%string
    = Ret (map Some out) /\
    precedes out "a"%string "c"%string.
Proof.
  destruct (fasTopoSort_respects_settled_nodes
              [("a", "b", 1%Z); ("b", "a", 2%Z); ("a", "c", 1%Z);
               ("c", "d", 3%Z)]%string
              (conj cycle_with_tail_positive eq_refl))
    as (out & E & H).
  exists out. split; [exact E |].
  apply (H "a" "c" 1%Z)%string; [simpl; auto | exact cycle_with_tail_settles].
Defined.

(* ================================================================== *)
(** * The counts of the command line *)

(** The command line feeds [fasTopoSort] occurrence counts: while fewer
    than [2^52] ordered pairs were counted, the run on binary64 numbers is
    the run on integers that [Cli.sortKeys] stands for. *)
Lemma sortKeys_on_numbers (propLists : list (list string)) :
  (weight_sum (Cli.edges (Cli.weights_of propLists)) < 2 ^ 52)%Z ->
  FAS64.fasTopoSort (as_numbers (Cli.edges (Cli.weights_of propLists)))
  = Cli.sortKeys (Cli.weights_of propLists).
Proof.
  intros Hsum. unfold Cli.sortKeys. apply fasTopoSort_agrees.
  split; [| exact Hsum].
  intros a b w Hin. apply edges_spec in Hin. apply Hin.
Qed.


(* ================================================================== *)
(** * Layers *)

Lemma across_app_r (layers more : list (list string)) (a b : string) :
  across layers a b -> across (layers ++ more) a b.
Proof.
  intros (l1 & la & l2 & lb & l3 & -> & Ha & Hb).
  exists l1, la, l2, lb, (l3 ++ more). split; [| auto].
  rewrite <- app_assoc. cbn [app]. rewrite <- app_assoc. reflexivity.
Qed.

Lemma across_last_layer (layers : list (list string)) (last : list string)
  (a b : string) :
  In a (List.concat layers) -> In b last -> across (layers ++ [last]) a b.
Proof.
  intros Ha Hb. apply in_concat in Ha. destruct Ha as (la & Hla & Ha).
  apply in_split in Hla. destruct Hla as (l1 & l2 & ->).
  exists l1, la, l2, last, []. split; [| auto].
  rewrite <- app_assoc. reflexivity.
Qed.

(** One more node in the last layer. *)
Lemma across_grown (layers : list (list string)) (last : list string)
  (v a b : string) :
  across (layers ++ [last ++ [v]]) a b ->
  across (layers ++ [last]) a b \/ (b = v /\ In a (List.concat layers)).
Proof.
  intros (l1 & la & l2 & lb & l3 & E & Ha & Hb).
  destruct (exists_last (l := lb :: l3)) as (m & z & Em); [discriminate |].
  assert (E' : layers ++ [last ++ [v]] = (l1 ++ la :: l2 ++ m) ++ [z]).
  { rewrite E, <- app_assoc. cbn [app]. rewrite <- app_assoc.
    f_equal. f_equal. f_equal. exact Em. }
  apply app_inj_tail in E'. destruct E' as (El & Ez). subst z.
  destruct m as [| lb' m].
  - cbn [app] in Em. injection Em as -> ->.
    rewrite app_nil_r in El. subst layers.
    apply in_app_or in Hb. destruct Hb as [Hb | [<- | []]].
    + left. exists l1, la, l2, last, []. split; [| auto].
      rewrite <- app_assoc. reflexivity.
    + right. split; [reflexivity |]. apply in_concat. exists la.
      split; [apply in_or_app; simpl; auto | exact Ha].
  - cbn [app] in Em. injection Em as <- ->. left. subst layers.
    exists l1, la, l2, lb, (m ++ [last]). split; [| auto].
    rewrite <- app_assoc. cbn [app]. rewrite <- app_assoc. reflexivity.
Qed.

Lemma across_nil_layer (layers : list (list string)) (a b : string) :
  across (layers ++ [[]]) a b -> across layers a b.
Proof.
  intros (l1 & la & l2 & lb & l3 & E & Ha & Hb).
  destruct (exists_last (l := lb :: l3)) as (m & z & Em); [discriminate |].
  assert (E' : layers ++ [[]] = (l1 ++ la :: l2 ++ m) ++ [z]).
  { rewrite E, <- app_assoc. cbn [app]. rewrite <- app_assoc.
    f_equal. f_equal. f_equal. exact Em. }
  apply app_inj_tail in E'. destruct E' as (El & Ez). subst z.
  destruct m as [| lb' m].
  - cbn [app] in Em. injection Em as -> ->. destruct Hb.
  - cbn [app] in Em. injection Em as <- ->. subst layers.
    exists l1, la, l2, lb, m. auto.
Qed.

Lemma layered_nil_layer (g : DAG.t) (layers : list (list string)) :
  layered g layers -> layered g (layers ++ [[]]).
Proof.
  intros [He Hr Hn].
  assert (Ec : List.concat (layers ++ [[]]) = List.concat layers).
  { rewrite concat_app. simpl. apply app_nil_r. }
  constructor; rewrite ?Ec; auto.
  intros a b Hab. apply Hr. apply across_nil_layer. exact Hab.
Qed.

(* ================================================================== *)
(** * A hint on a fresh graph *)

Lemma combine_flags (us : list string) :
  combine us (map (fun _ : string => false) us)
  = map (fun u => (u, false)) us.
Proof. induction us as [| u us IH]; simpl; [| rewrite IH]; reflexivity. Qed.

Lemma pruned_gone (us ce : list string) (x : string) :
  NoDup ce ->
  In x (pruned ce (map (fun u => (u, false)) us)) -> In x ce /\ ~ In x us.
Proof.
  unfold pruned. revert ce.
  induction us as [| u us IH]; intros ce Hn; cbn [map fold_left snd fst].
  - auto.
  - intros Hx. apply IH in Hx; [| apply set_delete_NoDup; exact Hn].
    destruct Hx as (Hx & Hnot). apply (set_delete_In ce u x Hn) in Hx.
    destruct Hx as (Hx & Hne). split; [exact Hx |].
    intros [E | Hin]; [congruence | contradiction].
Qed.

Lemma pruned_all (us ce : list string) :
  NoDup ce -> (forall x, In x ce -> In x us) ->
  pruned ce (map (fun u => (u, false)) us) = [].
Proof.
  intros Hn Hce.
  destruct (pruned ce (map (fun u => (u, false)) us)) as [| x l] eqn:E;
    [reflexivity |].
  exfalso. destruct (pruned_gone us ce x Hn) as (Hx & Hnot).
  - rewrite E. simpl. auto.
  - apply Hnot. apply Hce. exact Hx.
Qed.

(** One more node [v] of the layer being added: every node of the layer
    before gets an edge to it. *)
Lemma link_layer_step (g : DAG.t) (done : list (list string))
  (us vdone ce : list string) (v : string) :
  us <> [] -> sound g -> layered g ((done ++ [us]) ++ [vdone]) ->
  NoDup ce -> (forall x, In x ce -> In x us) ->
  In v (map_keys g) -> ~ In v (List.concat (done ++ [us]) ++ vdone) ->
  exists g1,
    DAG.link us v (g, ce) = Ret (g1, []) /\
    sound g1 /\ map_keys g1 = map_keys g /\
    layered g1 ((done ++ [us]) ++ [vdone ++ [v]]).
Proof.
  intros Hne Hs [He Hr Hn] Hnd Hce Hv Hfresh.
  assert (Ec : forall w, List.concat ((done ++ [us]) ++ [w])
                         = List.concat (done ++ [us]) ++ w).
  { intros w. rewrite concat_app. simpl. rewrite app_nil_r. reflexivity. }
  assert (Hus : forall u, In u us -> In u (map_keys g)).
  { intros u Hu. apply Hn. rewrite Ec. apply in_or_app. left.
    rewrite concat_app. apply in_or_app. right. simpl. rewrite app_nil_r.
    exact Hu. }
  assert (Hleaf : forall b, ~ edge g v b).
  { intros b Hb. apply Hfresh. rewrite <- Ec. apply (He v b Hb). }
  assert (Hvus : ~ In v us).
  { intros Hin. apply Hfresh. apply in_or_app. left.
    rewrite concat_app. apply in_or_app. right. simpl. rewrite app_nil_r.
    exact Hin. }
  destruct (link_sound us v g ce Hs Hus Hv)
    as (g1 & ce1 & E & Hs1 & Hk1 & Hext & _).
  destruct (link_spec us v g ce (proj1 Hs) Hus Hv) as (found & Hfound & E').
  assert (Hflags : map (set_has found) us = map (fun _ => false) us).
  { apply map_ext_in. intros u Hu. apply set_has_false. intros Hin.
    apply (Hfound u Hu) in Hin. apply (reach_leaf g v u Hleaf) in Hin.
    subst u. contradiction. }
  rewrite Hflags, combine_flags, (pruned_all us ce Hnd Hce) in E'.
  rewrite E in E'. injection E' as Eg Ec1. subst ce1.
  exists g1. split; [exact E |]. split; [exact Hs1 |]. split; [exact Hk1 |].
  assert (Hedge : forall a b, edge g1 a b <-> edge g a b \/ (b = v /\ In a us)).
  { intros a b. rewrite Eg. rewrite linked_edge.
    - split; (intros [H | (-> & H)]; [left; exact H | right]);
        (split; [reflexivity |]).
      + apply in_map_iff in H. destruct H as (u & [= <-] & Hu). exact Hu.
      + apply in_map_iff. exists a. auto.
    - intros ub Hub. apply in_map_iff in Hub. destruct Hub as (u & <- & Hu).
      apply Hus. exact Hu. }
  constructor.
  - intros a b Hab. rewrite Ec. apply Hedge in Hab.
    destruct Hab as [Hab | (-> & Ha)].
    + destruct (He a b Hab) as (Ha & Hb). rewrite Ec in Ha, Hb.
      split; rewrite app_assoc; apply in_or_app; auto.
    + split.
      * apply in_or_app. left. rewrite concat_app. apply in_or_app. right.
        simpl. rewrite app_nil_r. exact Ha.
      * apply in_or_app. right. apply in_or_app. simpl. auto.
  - intros a b Hab. apply across_grown in Hab.
    destruct Hab as [Hab | (-> & Ha)].
    + apply (reach_extends g g1 a b Hext). apply Hr. exact Hab.
    + rewrite concat_app in Ha. apply in_app_or in Ha.
      destruct Ha as [Ha | Ha].
      * destruct us as [| u0 us0]; [congruence |].
        apply reach_snoc with u0.
        -- apply (reach_extends g g1 a u0 Hext). apply Hr.
           apply across_app_r. apply across_last_layer; simpl; auto.
        -- apply Hedge. right. simpl. auto.
      * simpl in Ha. rewrite app_nil_r in Ha.
        apply reach_edge. apply Hedge. auto.
  - intros a Ha. rewrite Hk1. rewrite Ec in Ha. rewrite app_assoc in Ha.
    apply in_app_or in Ha. destruct Ha as [Ha | [<- | []]]; [| exact Hv].
    apply Hn. rewrite Ec. exact Ha.
Qed.

(** A whole layer [vs] after the layer [us]. *)
Lemma link_layer (done : list (list string)) (us : list string) :
  us <> [] ->
  forall (vs vdone : list string) (g : DAG.t) (ce : list string),
    sound g -> layered g ((done ++ [us]) ++ [vdone]) ->
    NoDup ce -> (forall x, In x ce -> In x us) ->
    (forall v, In v vs -> In v (map_keys g)) ->
    NoDup (List.concat (done ++ [us]) ++ vdone ++ vs) ->
    exists g' ce',
      for_each vs (DAG.link us) (g, ce) = Ret (g', ce') /\
      sound g' /\ map_keys g' = map_keys g /\
      layered g' ((done ++ [us]) ++ [vdone ++ vs]) /\
      (vs <> [] -> ce' = []).
Proof.
  intros Hne. induction vs as [| v vs IH]; intros vdone g ce Hs Hl Hnd Hce Hvs Hn.
  - exists g, ce. rewrite app_nil_r. cbn [for_each].
    repeat (split; [auto |]). congruence.
  - assert (Hfresh : ~ In v (List.concat (done ++ [us]) ++ vdone)).
    { rewrite app_assoc in Hn. apply NoDup_remove_2 in Hn.
      intros Hin. apply Hn. apply in_or_app. auto. }
    destruct (link_layer_step g done us vdone ce v Hne Hs Hl Hnd Hce
                (Hvs v (or_introl eq_refl)) Hfresh)
      as (g1 & E1 & Hs1 & Hk1 & Hl1).
    cbn [for_each]. rewrite E1. cbn [bind].
    destruct (IH (vdone ++ [v]) g1 [] Hs1 Hl1) as (g' & ce' & E & Hs' & Hk' & Hl' & Hce').
    + constructor.
    + intros x [].
    + intros x Hx. rewrite Hk1. apply Hvs. simpl. auto.
    + rewrite <- (app_assoc vdone [v] vs). exact Hn.
    + rewrite <- (app_assoc vdone [v] vs) in Hl'. cbn [app] in Hl'.
      assert (Ece : ce' = []).
      { destruct vs as [| v' vs']; [| apply Hce'; discriminate].
        cbn [for_each] in E. congruence. }
      exists g', ce'. split; [exact E |]. split; [exact Hs' |].
      split; [congruence |]. split; [exact Hl' |]. intros _. exact Ece.
Qed.

Section FreshGraph.
Variable verts : list string.

Local Abbreviation g0 := (DAG.new verts).
Local Abbreviation matched := (DAG.getMatchingNodes (DAG.new verts)).

Lemma matched_NoDup_tail (x : string) (rest : list string) (acc : list string) :
  NoDup (acc ++ List.concat (map matched (x :: rest))) ->
  NoDup ((acc ++ matched x) ++ List.concat (map matched rest)).
Proof. cbn [map List.concat]. rewrite <- app_assoc. auto. Qed.

(** The second loop of [addEdges] on the entries left. *)
Lemma link_all_layers :
  forall (rest : list string) (done : list (list string)) (us : list string)
         (g : DAG.t),
    us <> [] -> sound g -> map_keys g = map_keys g0 ->
    layered g (done ++ [us]) ->
    NoDup (List.concat (done ++ [us]) ++ List.concat (map matched rest)) ->
    exists g',
      DAG.link_all g us rest = Ret g' /\
      sound g' /\ map_keys g' = map_keys g0 /\
      layered g' ((done ++ [us]) ++ filter nonempty (map matched rest)).
Proof.
  induction rest as [| x rest IH]; intros done us g Hne Hs Hk Hl Hn.
  - exists g. simpl. rewrite app_nil_r. auto.
  - cbn [DAG.link_all map filter].
    rewrite (getMatchingNodes_same_keys g g0 x Hk).
    destruct (matched x) as [| v0 vs0] eqn:Ex.
    + cbn [nonempty]. apply (IH done us g Hne Hs Hk Hl).
      cbn [map List.concat] in Hn. rewrite Ex in Hn. exact Hn.
    + cbn [nonempty].
      assert (Hvs : forall v, In v (v0 :: vs0) -> In v (map_keys g)).
      { intros v Hv. rewrite Hk. rewrite <- Ex in Hv.
        apply (getMatchingNodes_keys _ x v Hv). }
      destruct (set_of_spec us) as (Hsn & Hsi).
      destruct (link_layer done us Hne (v0 :: vs0) [] g (set_of us) Hs)
        as (g1 & ce1 & E1 & Hs1 & Hk1 & Hl1 & Hce1).
      * apply layered_nil_layer. exact Hl.
      * exact Hsn.
      * intros y Hy. apply Hsi. exact Hy.
      * exact Hvs.
      * cbn [map List.concat] in Hn. rewrite Ex in Hn. cbn [app].
        rewrite app_assoc in Hn. apply NoDup_app_remove_r in Hn. exact Hn.
      * rewrite E1. cbn [bind fst snd].
        rewrite (Hce1 ltac:(discriminate)). cbn [app] in Hl1 |- *.
        destruct (IH (done ++ [us]) (v0 :: vs0) g1) as (g' & E & Hs' & Hk' & Hl').
        -- discriminate.
        -- exact Hs1.
        -- congruence.
        -- exact Hl1.
        -- rewrite List.concat_app. cbn [List.concat]. rewrite app_nil_r.
           cbn [map List.concat] in Hn. rewrite Ex in Hn.
           rewrite <- app_assoc. exact Hn.
        -- exists g'. rewrite <- app_assoc in Hl'. auto.
Qed.

(** A hint whose entries match disjoint sets of nodes, on a fresh graph: the
    sets become layers, each before the next. *)
Lemma addEdges_fresh_layers (hint : list string) :
  NoDup (List.concat (map matched hint)) ->
  exists g,
    DAG.addEdges g0 hint = Ret g /\
    sound g /\ map_keys g = map_keys g0 /\
    layered g (filter nonempty (map matched hint)).
Proof.
  induction hint as [| x hint IH]; intros Hn.
  - exists g0. split; [reflexivity |].
    split; [apply new_sound |]. split; [reflexivity |].
    constructor; simpl.
    + intros a b (nbrs & E & Hb).
      destruct (new_spec verts) as (Hnil & _).
      rewrite (Hnil a) in E by congruence. injection E as <-. destruct Hb.
    + intros a b (l1 & la & l2 & lb & l3 & E & _). destruct l1; discriminate.
    + intros a [].
  - unfold DAG.addEdges. cbn [DAG.first_match map filter].
    destruct (matched x) as [| v0 vs0] eqn:Ex.
    + cbn [nonempty]. apply IH. cbn [map List.concat] in Hn.
      rewrite Ex in Hn. exact Hn.
    + cbn [nonempty].
      destruct (link_all_layers hint [] (v0 :: vs0) g0) as (g' & E & Hs & Hk & Hl).
      * discriminate.
      * apply new_sound.
      * reflexivity.
      * constructor; simpl.
        -- intros a b (nbrs & E & Hb).
           destruct (new_spec verts) as (Hnil & _).
           rewrite (Hnil a) in E by congruence. injection E as <-. destruct Hb.
        -- intros a b (l1 & la & l2 & lb & l3 & E & _).
           destruct l1 as [| ? l1]; [destruct l2 |]; try discriminate.
           destruct l1; discriminate.
        -- intros a Ha.
           assert (Ha' : In a (v0 :: vs0)).
           { simpl. rewrite app_nil_r in Ha. exact Ha. }
           rewrite <- Ex in Ha'. apply (getMatchingNodes_keys _ x a Ha').
      * cbn [app List.concat map] in Hn |- *. rewrite Ex in Hn.
        rewrite app_nil_r. exact Hn.
      * exists g'. cbn [app] in Hl. auto.
Qed.

(** Nodes matched by an entry and by a later entry are in layers one after
    the other. *)
Lemma hinted_across (hint : list string) (a b : string) :
  hinted g0 hint a b -> across (filter nonempty (map matched hint)) a b.
Proof.
  intros (pre & x & post & y & -> & Hy & Ha & Hb).
  apply in_split in Hy. destruct Hy as (p1 & p2 & ->).
  rewrite <- app_assoc. cbn [app].
  rewrite map_app, filter_app. cbn [map filter].
  assert (Ey : nonempty (matched y) = true) by (destruct (matched y); [destruct Ha | reflexivity]).
  rewrite Ey. rewrite map_app, filter_app. cbn [map filter].
  assert (Ex : nonempty (matched x) = true) by (destruct (matched x); [destruct Hb | reflexivity]).
  rewrite Ex.
  exists (filter nonempty (map matched p1)), (matched y),
    (filter nonempty (map matched p2)), (matched x),
    (filter nonempty (map matched post)).
  auto.
Qed.
End FreshGraph.

Lemma NoDup_two_parts {A : Type} (l1 p l2 q l3 : list A) (a : A) :
  NoDup (l1 ++ p ++ l2 ++ q ++ l3) -> In a p -> In a q -> False.
Proof.
  intros Hn Ha Hb. apply NoDup_app_remove_l in Hn.
  apply in_split in Ha. destruct Ha as (m1 & m2 & ->).
  rewrite <- app_assoc in Hn. apply NoDup_app_remove_l in Hn.
  cbn [app] in Hn. apply NoDup_cons_iff in Hn. apply (proj1 Hn).
  apply in_or_app. right. apply in_or_app. right.
  apply in_or_app. left. exact Hb.
Qed.

(** With disjoint matches no node is matched by an entry and a later one. *)
Lemma hinted_distinct (verts hint : list string) (a : string) :
  NoDup (List.concat (map (DAG.getMatchingNodes (DAG.new verts)) hint)) ->
  hinted (DAG.new verts) hint a a -> False.
Proof.
  intros Hn (pre & x & post & y & -> & Hy & Ha & Hb).
  apply in_split in Hy. destruct Hy as (p1 & p2 & ->).
  rewrite <- app_assoc in Hn. cbn [app] in Hn.
  repeat (rewrite ?map_app, ?List.concat_app in Hn;
          cbn [map List.concat app] in Hn).
  exact (NoDup_two_parts _ _ _ _ _ a Hn Ha Hb).
Qed.

(** X24. On a fresh graph, a hint whose entries, wildcard patterns
    included, match disjoint sets of nodes is respected in full, whatever
    hints are applied after it and whatever the tie-breaker: a node matched
    by an entry comes out of [topoSort] before every node matched by a later
    entry. *)
Theorem wildcard_hint_is_respected :
  forall (verts hint : list string) (later : list (list string))
         (St R : Type) (HR : Number R)
         (tieBreaker : Comparator string St R) (s : St),
    NoDup (List.concat (map (DAG.getMatchingNodes (DAG.new verts)) hint)) ->
    exists g out s',
      apply_hints (DAG.new verts) (hint :: later) = Ret g /\
      DAG.topoSort tieBreaker g s = Ret (out, s') /\
      forall a b, hinted (DAG.new verts) hint a b -> precedes out a b.
Proof.
  intros verts hint later St R HR tieBreaker s Hn.
  destruct (addEdges_fresh_layers verts hint Hn) as (g1 & E1 & Hs1 & Hk1 & Hl1).
  destruct (apply_hints_sound later g1 Hs1) as (g & E & Hs & Hk & He).
  destruct (topoSort_paths tieBreaker g s Hs) as (out & s' & Et & _ & _ & Hord).
  exists g, out, s'. split.
  { unfold apply_hints in *. cbn [for_each]. rewrite E1. cbn [bind]. exact E. }
  split; [exact Et |].
  intros a b Hab.
  assert (Hne : a <> b).
  { intros <-. exact (hinted_distinct verts hint a Hn Hab). }
  apply Hord; [| exact Hne].
  apply (reach_extends g1 g a b He). apply (ly_reach _ _ Hl1).
  apply hinted_across. exact Hab.
Qed.

Lemma wildcard_hint_is_respected_witness :
  exists g out s',
    apply_hints (DAG.new ["data b"; "id"; "class name"; "data a"]%string)
      (["class name"; "data *"; "id"] :: [["id"; "class name"]])%string
    = Ret g /\
    DAG.topoSort (pure_cmp (fun _ _ : string => 0%Z)) g tt = Ret (out, s') /\
    forall a b,
      hinted (DAG.new ["data b"; "id"; "class name"; "data a"]%string)
        ["class name"; "data *"; "id"]%string a b ->
      precedes out a b.
Proof.
  apply (wildcard_hint_is_respected
           ["data b"; "id"; "class name"; "data a"]%string
           ["class name"; "data *"; "id"]%string
           [["id"; "class name"]%string]).
  vm_compute. repeat constructor; simpl; intuition discriminate.
Defined.

(* ================================================================== *)
(** * Entries that match disjoint sets *)

Lemma matches_spec (g : DAG.t) (x k : string) :
  In k (DAG.getMatchingNodes g x) <->
  In k (map_keys g) /\ matches x k = true.
Proof.
  unfold DAG.getMatchingNodes, matches.
  destruct (endsWith x "*"); [cbv zeta; rewrite filter_In; reflexivity |].
  destruct (map_has g x) eqn:E.
  - split.
    + intros [<- | []]. split; [apply map_has_keys; exact E |].
      apply String.eqb_refl.
    + intros (_ & Ek). apply String.eqb_eq in Ek. subst k. simpl. auto.
  - split; [intros [] |]. intros (Hk & Ek). apply String.eqb_eq in Ek.
    subst k. apply map_has_keys in Hk. congruence.
Qed.

Lemma matched_NoDup (g : DAG.t) (x : string) :
  NoDup (map_keys g) -> NoDup (DAG.getMatchingNodes g x).
Proof.
  intros Hn. unfold DAG.getMatchingNodes.
  destruct (endsWith x "*"); [apply NoDup_filter; exact Hn |].
  destruct (map_has g x); repeat constructor. intros [].
Qed.

Lemma apart_disjoint (g : DAG.t) (co : list string) :
  NoDup (map_keys g) -> apart co ->
  NoDup (List.concat (map (DAG.getMatchingNodes g) co)).
Proof.
  intros Hn [Hco Hap].
  assert (G : forall l, NoDup l -> incl l co ->
            NoDup (List.concat (map (DAG.getMatchingNodes g) l))).
  { induction l as [| x l IH]; intros Hl Hincl; cbn [map List.concat];
      [constructor |].
    inversion Hl as [| ? ? Hx Hl']; subst.
    apply NoDup_app.
    - apply matched_NoDup. exact Hn.
    - apply IH; [exact Hl' |]. intros y Hy. apply Hincl. simpl. auto.
    - intros k Hk Hin. apply in_concat in Hin.
      destruct Hin as (m & Hm & Hkm). apply in_map_iff in Hm.
      destruct Hm as (y & <- & Hy).
      apply matches_spec in Hk. apply matches_spec in Hkm.
      assert (x = y).
      { apply (Hap k); [apply Hincl; simpl; auto | apply Hincl; simpl; auto
                        | tauto | tauto]. }
      subst y. contradiction. }
  apply G; [exact Hco | apply incl_refl].
Qed.

Lemma ranked_hinted (arr co : list string) (a b : string) :
  In a arr -> In b arr -> ranked_before co a b ->
  hinted (DAG.new arr) co a b.
Proof.
  intros Ha Hb (x & y & (l1 & l2 & l3 & ->) & Hx & Hy).
  exists (l1 ++ x :: l2), y, l3, x.
  split; [rewrite <- app_assoc; reflexivity |].
  split; [apply in_or_app; simpl; auto |].
  split; apply matches_spec; (split; [apply new_spec; assumption | assumption]).
Qed.

Lemma ranked_distinct (co : list string) (a b : string) :
  apart co -> ranked_before co a b -> a <> b.
Proof.
  intros [Hco Hap] (x & y & Hxy & Hx & Hy) <-.
  apply (precedes_distinct co x y Hco Hxy).
  destruct (precedes_In co x y Hxy) as (Hxin & Hyin).
  apply (Hap a x y Hxin Hyin Hx Hy).
Qed.

(* ================================================================== *)
(** * The custom order in the sorted props *)

Section CustomOrder.
Context {N : Type}.
Variable splitIdentifier : string -> string.
Variables Math_log Math_exp : float -> float.
Variable session_run : list Z -> list Z -> float * float.
Variable co : list string.
Hypothesis Hco : apart co.

Local Abbreviation attr :=
  (fun item : string * N => JSXAttribute (fst item) (snd item)).
Local Abbreviation key := (fun item : string * N => splitIdentifier (fst item)).
Local Abbreviation sort :=
  (PreferenceSorter.sort Math_log Math_exp session_run).
Local Abbreviation addGroup :=
  (Plugin.addGroup (N := N) splitIdentifier Math_log Math_exp session_run).
Local Abbreviation step :=
  (fun prop (st : Plugin.state (N := N)) =>
     match prop with
     | JSXAttribute name rest =>
         Ret (fst (fst st), snd (fst st), snd st ++ [(name, rest)])
     | JSXSpreadAttribute _ =>
         st' <- addGroup st ;;
         Ret (fst (fst st'), snd (fst st') ++ [Some prop], [])
     end).

(** [sort] does not touch the orders of the sorter. *)
Lemma sort_orders (this this' : PreferenceSorter.t) (arr : list string)
  (r : option (list string)) :
  sort this arr = Ret (r, this') ->
  PreferenceSorter.orders this' = PreferenceSorter.orders this.
Proof.
  unfold PreferenceSorter.sort.
  destruct (Nat.ltb (List.length arr) 2); [intros [= _ <-]; reflexivity |].
  intros E. apply bind_Ret_inv in E. destruct E as (dag & _ & E).
  destruct (String.eqb (PreferenceSorter.useAI this) "yes").
  { destruct (PreferenceSorter.aiComparator this) as [ai |]; [| discriminate].
    apply bind_Ret_inv in E. destruct E as (x & _ & E).
    injection E as _ <-. reflexivity. }
  destruct (String.eqb (PreferenceSorter.useAI this) "stable").
  { destruct (PreferenceSorter.aiComparator this) as [ai |]; [| discriminate].
    destruct (PreferenceSorter.fill_wins session_run arr ai) as [w ai'].
    apply bind_Ret_inv in E. destruct E as (x & _ & E).
    injection E as _ <-. reflexivity. }
  destruct (String.eqb (PreferenceSorter.useAI this) "no").
  { apply bind_Ret_inv in E. destruct E as (x & _ & E).
    injection E as _ <-. reflexivity. }
  injection E as _ <-. reflexivity.
Qed.

(** A sorter led by [co] sorts distinct tokens into the order of [co]. *)
Lemma sort_led (this : PreferenceSorter.t) (arr : list string) :
  led_by co this -> NoDup arr ->
  exists out this',
    sort this arr = Ret (Some out, this') /\ Permutation out arr /\
    led_by co this' /\ follows co out.
Proof.
  intros [Hmode (rest & Horders)] Hn.
  destruct (sort_valid Math_log Math_exp session_run this arr Hmode Hn)
    as (out & this' & E & P & Hmode').
  exists out, this'. split; [exact E |]. split; [exact P |]. split.
  { split; [exact Hmode' |]. exists rest.
    rewrite (sort_orders _ _ _ _ E). exact Horders. }
  intros a b Ha Hb Hab.
  apply (Permutation_in a P) in Ha. apply (Permutation_in b P) in Hb.
  pose proof (ranked_distinct co a b Hco Hab) as Hne.
  destruct (Nat.ltb_spec (List.length arr) 2) as [Hshort | Hlong].
  { exfalso. destruct arr as [| x [| y arr]]; simpl in *; try lia;
      intuition congruence. }
  destruct (sort_paths Math_log Math_exp session_run this arr Hlong Hmode)
    as (dag & out' & this'' & Ed & Es & Hord).
  rewrite E in Es. injection Es as <- <-.
  assert (Hkeys : NoDup (map_keys (DAG.new arr))) by apply new_spec.
  destruct (addEdges_fresh_layers arr co (apart_disjoint _ co Hkeys Hco))
    as (g1 & E1 & Hs1 & Hk1 & Hl1).
  rewrite Horders in Ed. unfold apply_hints in Ed. cbn [for_each] in Ed.
  rewrite E1 in Ed. cbn [bind] in Ed.
  destruct (apply_hints_sound rest g1 Hs1) as (g & Eg & _ & _ & He).
  unfold apply_hints in Eg. rewrite Eg in Ed. injection Ed as <-.
  apply Hord; [| exact Hne].
  apply (reach_extends g1 g a b He). apply (ly_reach _ _ Hl1).
  apply hinted_across. apply ranked_hinted; assumption.
Qed.

(** The items looked up carry the keys they were looked up by. *)
Lemma lookup_keys (m : jsmap string (string * N)) (ks : list string)
  (items : list (string * N)) :
  (forall k item, In (k, item) m -> key item = k) ->
  map (fun k => option_map attr (map_get m k)) ks = map Some (map attr items) ->
  map key items = ks.
Proof.
  intros Hm. revert items.
  induction ks as [| k ks IH]; intros [| item items] E; try discriminate;
    [reflexivity |].
  cbn [map] in E. injection E as E1 E2.
  cbn [map]. f_equal; [| apply IH; exact E2].
  destruct (map_get m k) as [v |] eqn:Ev; [| discriminate].
  cbn [option_map] in E1. injection E1 as E1 E1'.
  apply map_get_In in Ev.
  rewrite <- (Hm k v Ev). cbv beta. rewrite E1. reflexivity.
Qed.

Lemma addGroup_led (this : PreferenceSorter.t)
  (sorted : list (JSXAttributeLike N)) (group : list (string * N)) :
  led_by co this ->
  exists this' g',
    addGroup (this, map Some sorted, group)
    = Ret (this', map Some (sorted ++ map attr g'), []) /\
    led_by co this' /\ follows co (map key g').
Proof.
  intros Hled. unfold Plugin.addGroup.
  destruct group as [| x group].
  - exists this, []. simpl. rewrite app_nil_r.
    split; [reflexivity |]. split; [exact Hled |]. intros a b [].
  - set (g := x :: group).
    pose proof (keyMap_NoDup splitIdentifier g) as Hn.
    destruct (sort_led this _ Hled Hn) as (out & this' & E & P & Hled' & Hf).
    rewrite E. cbn [bind fst snd].
    destruct (lookup_all (Plugin.keyMap_of splitIdentifier g) out Hn P)
      as (items & El & Pi).
    rewrite El. exists this', items. rewrite map_app.
    split; [reflexivity |]. split; [exact Hled' |].
    rewrite (lookup_keys (Plugin.keyMap_of splitIdentifier g) out items);
      [exact Hf | | exact El].
    intros k item Hin. apply (keyMap_entries splitIdentifier g k item Hin).
Qed.

Lemma sortProps_led_loop (props : list (JSXAttributeLike N)) :
  forall (this : PreferenceSorter.t) (sorted : list (JSXAttributeLike N))
         (group : list (string * N)),
    led_by co this ->
    exists out this',
      (st <- for_each props step (this, map Some sorted, group) ;; addGroup st)
      = Ret (this', map Some (sorted ++ out), []) /\
      Forall (follows co) (run_names splitIdentifier out).
Proof.
  unfold run_names.
  induction props as [| [n r | s] props IH]; intros this sorted group Hled.
  - cbn [for_each bind].
    destruct (addGroup_led this sorted group Hled) as (this' & g' & E & _ & Hf).
    exists (map attr g'), this'. split; [exact E |].
    rewrite <- (app_nil_r (map attr g')), runs_attrs. cbn [runs map].
    rewrite app_nil_r. constructor; [exact Hf | constructor].
  - cbn [for_each bind fst snd].
    apply (IH this sorted (group ++ [(n, r)]) Hled).
  - cbn [for_each].
    destruct (addGroup_led this sorted group Hled)
      as (this1 & g1 & E1 & Hled1 & Hf1).
    rewrite E1. cbn [bind fst snd].
    change [Some (JSXSpreadAttribute s)]
      with (map (@Some (JSXAttributeLike N)) [JSXSpreadAttribute s]).
    rewrite <- map_app.
    destruct (IH this1 ((sorted ++ map attr g1) ++ [JSXSpreadAttribute s]) []
                Hled1)
      as (out & this' & E & Hf).
    exists (map attr g1 ++ JSXSpreadAttribute s :: out), this'.
    split.
    { rewrite E. f_equal. f_equal. f_equal. rewrite <- !app_assoc. reflexivity. }
    rewrite runs_attrs. cbn [runs map]. rewrite app_nil_r.
    constructor; [exact Hf1 | exact Hf].
Qed.
End CustomOrder.

(** X23. The plugin end to end on one element: with a sorter created, in one
    of the three modes, from a custom order of two or more entries whose
    normalised entries are distinct and match disjoint sets of names
    (wildcard patterns included), [sortProps] returns, and in every run of
    the result an attribute whose normalised name is matched by an entry of
    the custom order comes before every attribute whose normalised name is
    matched by a later entry. *)
Theorem sortProps_respects_custom_order :
  forall (N : Type) (order : list string) (splitIdentifier : string -> string)
         (Math_log Math_exp : float -> float)
         (session_run : list Z -> list Z -> float * float)
         (useAI : string) (customOrder : list string)
         (props : list (JSXAttributeLike N)),
    useAI = "no"%string \/ useAI = "yes"%string \/ useAI = "stable"%string ->
    1 < List.length customOrder ->
    apart (map splitIdentifier customOrder) ->
    exists out this',
      Plugin.sortProps splitIdentifier Math_log Math_exp session_run props
        (PreferenceSorter.create order splitIdentifier useAI customOrder)
      = Ret (map Some out, this') /\
      Forall (follows (map splitIdentifier customOrder))
        (run_names splitIdentifier out).
Proof.
  intros N order splitIdentifier Math_log Math_exp session_run useAI
    customOrder props Hmode Hlen Hap.
  set (co := map splitIdentifier customOrder) in *.
  set (this := PreferenceSorter.create order splitIdentifier useAI customOrder).
  assert (Hled : led_by co this).
  { split.
    - subst this. unfold PreferenceSorter.create, PreferenceSorter.make.
      destruct Hmode as [-> | [-> | ->]]; cbn;
        [left; reflexivity | right | right]; (split; [auto | discriminate]).
    - exists [order]. subst this.
      unfold PreferenceSorter.create, PreferenceSorter.make. fold co.
      assert (Nat.ltb 1 (List.length co) = true) as Hlt.
      { apply Nat.ltb_lt. subst co. rewrite length_map. exact Hlen. }
      destruct (String.eqb useAI "no"); cbn [PreferenceSorter.orders];
        rewrite Hlt; reflexivity. }
  destruct (sortProps_led_loop splitIdentifier Math_log Math_exp session_run
              co Hap props this [] [] Hled) as (out & this' & E & Hf).
  exists out, this'. split; [| exact Hf].
  unfold Plugin.sortProps. apply bind_Ret_inv in E.
  destruct E as (st & E1 & E2). simpl in E1.
  rewrite E1. cbn [bind]. rewrite E2. reflexivity.
Qed.

(** A custom order with a wildcard entry whose entries match disjoint sets. *)
Lemma sample_order_apart : apart ["id"; "data *"; "title"]%string.
Proof.
  split; [repeat constructor; simpl; intuition discriminate |].
  intros k x y Hx Hy Mx My. simpl in Hx, Hy.
  destruct Hx as [<- | [<- | [<- | []]]];
    destruct Hy as [<- | [<- | [<- | []]]]; try reflexivity; exfalso;
    unfold matches in Mx, My; cbn [endsWith] in Mx, My;
    first [ apply String.eqb_eq in Mx; subst k; vm_compute in My; discriminate
          | apply String.eqb_eq in My; subst k; vm_compute in Mx; discriminate ].
Qed.

Lemma sortProps_respects_custom_order_witness :
  exists out this',
    Plugin.sortProps (fun x => x) nan_only nan_only first_wins
      [JSXAttribute "title" 1; JSXAttribute "data b" 2;
       JSXAttribute "id" 3; JSXSpreadAttribute 4;
       JSXAttribute "data a" 5; JSXAttribute "id" 6]%string
      (PreferenceSorter.create ["ref"]%string (fun x => x) "yes"
         ["id"; "data *"; "title"]%string)
    = Ret (map Some out, this') /\
    Forall (follows (map (fun x => x) ["id"; "data *"; "title"]%string))
      (run_names (fun x => x) out).
Proof.
  apply sortProps_respects_custom_order.
  - right. left. reflexivity.
  - simpl. lia.
  - exact sample_order_apart.
Defined.
